(** * peakTree: peak trees of Doppler radar spectra

    A shallow embedding of [peakTree/__init__.py] and the properties of its
    tree construction, level-order ids, peak detection, moment calculation and
    assembly step.

    Conventions of the embedding.
    - numpy [float64] values are Rocq's primitive binary64 floats; the
      arrays read from a file are plain [float64] arrays.  The reductions
      [np.min], [np.nanmin], [np.all] and [argmax] are written as loops over
      the bins.
    - [np.sum] and the powers [x ** y] are an interface, [Numeric]: numpy
      chooses the order of a sum and the C library the rounding of a power.
      A sum is known to be a sum of its bins, [float_sum]; the theorems
      hold for every implementation, and one implementation, numpy's
      pairwise summation, evaluates the examples.
    - bin indices and bounds are Python integers, modelled in [Z]; list
      indexing and slicing follow Python (negative positions count from the
      end, slices clamp).  The subtraction of two [int64] arrays wraps
      around.
    - a Python exception is a value [Raise e] of the error monad [res].
    - the object graph of [Node] is a tree owned by the root; an in-place
      mutation of a node is the replacement of that node inside its parent's
      [children] list. *)

From Stdlib Require Import ZArith List Bool Lia Floats.
From Equations Require Import Equations.
From stdpp Require Import base option list sorting gmap.
Import ListNotations.

#[local] Set Warnings "-inexact-float,-register-all".
#[local] Open Scope Z_scope.

(** ** Exceptions and the error monad *)

Inductive exn : Type :=
| ValueError_child_out_of_parents_bounds  (* raise ValueError("child out of parents bounds") *)
| ValueError_argmax_of_empty_sequence     (* ndarray.argmax on a zero-length array *)
| ValueError_zero_size_reduction          (* np.min / np.nanmin on a zero-length array *)
| ValueError_not_in_list                  (* list.index of an absent element *)
| ValueError_empty_convolve               (* np.convolve on a zero-length array *)
| ValueError_broadcast                    (* operands could not be broadcast together *)
| IndexError                              (* subscript out of range *)
| ValueError_min_of_empty_sequence        (* the builtin min() on an empty sequence *)
| KeyError                                (* dict subscript with an absent key *)
| OverflowError                           (* a float result out of range *)
| AssertionError.                         (* an assert statement that fails *)

Inductive res (A : Type) : Type :=
| Ok (a : A)
| Raise (e : exn).
Arguments Ok {A} a.
Arguments Raise {A} e.

Definition bind {A B : Type} (c : res A) (k : A -> res B) : res B :=
  match c with
  | Ok a => k a
  | Raise e => Raise e
  end.

Notation "x <- c1 ;; c2" := (bind c1 (fun x => c2))
  (at level 100, c1 at next level, right associativity).

Definition is_ok {A : Type} (c : res A) : bool :=
  match c with Ok _ => true | Raise _ => false end.

Fixpoint mapM {A B : Type} (f : A -> res B) (l : list A) : res (list B) :=
  match l with
  | [] => Ok []
  | a :: l' => b <- f a ;; bs <- mapM f l' ;; Ok (b :: bs)
  end.

(** ** Python sequences *)

Definition len {A : Type} (l : list A) : Z := Z.of_nat (length l).

(** [l[i]]: a negative [i] counts from the end; out of range raises. *)
Definition py_get {A : Type} (l : list A) (i : Z) : res A :=
  let j := if i <? 0 then i + len l else i in
  if (j <? 0) || (len l <=? j) then Raise IndexError
  else match nth_error l (Z.to_nat j) with
       | Some a => Ok a
       | None => Raise IndexError
       end.

(** Position of a slice end point inside a sequence of length [n]. *)
Definition py_clamp (n : Z) (i : Z) : Z :=
  if i <? 0 then Z.max 0 (i + n) else Z.min i n.

(** [l[a:b]], where [None] is an omitted end point. *)
Definition py_slice {A : Type} (l : list A) (a b : option Z) : list A :=
  let n := len l in
  let s := match a with Some i => py_clamp n i | None => 0 end in
  let e := match b with Some i => py_clamp n i | None => n end in
  firstn (Z.to_nat (e - s)) (skipn (Z.to_nat s) l).

(** [enumerate(l)], counting from [i]. *)
Fixpoint enumerate_from {A : Type} (i : Z) (l : list A) : list (Z * A) :=
  match l with
  | [] => []
  | a :: l' => (i, a) :: enumerate_from (i + 1) l'
  end.

Definition enumerate {A : Type} (l : list A) : list (Z * A) := enumerate_from 0 l.

(** [l.index(x)] on a list of integers. *)
Fixpoint index_from (i : Z) (x : Z) (l : list Z) : res Z :=
  match l with
  | [] => Raise ValueError_not_in_list
  | y :: l' => if x =? y then Ok i else index_from (i + 1) x l'
  end.

Definition list_index (l : list Z) (x : Z) : res Z := index_from 0 x l.

(** [zip(l, l[1:])]. *)
Definition zip_next {A : Type} (l : list A) : list (A * A) := combine l (tl l).

(** ** numpy on [int64] *)

(** The values of an [int64] array: [np.array] of a list of Python ints
    has this dtype when every int fits. *)
Definition int64 (z : Z) : Prop := - 2 ^ 63 <= z < 2 ^ 63.

(** The result of an [int64] operation wraps around. *)
Definition wrap_int64 (z : Z) : Z := (z + 2 ^ 63) mod 2 ^ 64 - 2 ^ 63.

(** [a - b] on [int64] arrays. *)
Definition np_subtract_int (a b : list Z) : list Z :=
  map (fun lr : Z * Z => wrap_int64 (fst lr - snd lr)) (combine a b).

(** ** numpy on [float64] *)

#[local] Open Scope float_scope.

Definition np_nan : float := nan.

(** An integer as a [float64]. *)
Definition float_of_int (z : Z) : float :=
  if (z <? 0)%Z then - of_uint63 (Uint63.of_Z (- z)) else of_uint63 (Uint63.of_Z z).

Definition np_isnan (x : float) : bool := is_nan x.
Definition np_isfinite (x : float) : bool := negb (is_nan x) && negb (is_infinity x).

(** [ndarray.argmax]: first position of the maximum; a NaN is a maximum. *)
Fixpoint argmax_loop (mp : float) (imax : Z) (i : Z) (a : list float) : Z :=
  match a with
  | [] => imax
  | x :: a' =>
      if negb (x <=? mp) then
        if np_isnan x then i else argmax_loop x i (i + 1) a'
      else argmax_loop mp imax (i + 1) a'
  end.

Definition np_argmax (a : list float) : res Z :=
  match a with
  | [] => Raise ValueError_argmax_of_empty_sequence
  | x :: a' => Ok (if np_isnan x then 0%Z else argmax_loop x 0 1 a')
  end.

(** [np.minimum] of two scalars, propagating NaN. *)
Definition np_minimum (x y : float) : float :=
  if (x <=? y) || np_isnan x then x else y.

(** [ndarray.min]. *)
Definition np_min (a : list float) : res float :=
  match a with
  | [] => Raise ValueError_zero_size_reduction
  | x :: a' => Ok (fold_left np_minimum a' x)
  end.

(** [np.nanmin]: the minimum of the bins that are not NaN, NaN if all are. *)
Definition np_nanmin (a : list float) : res float :=
  match a with
  | [] => Raise ValueError_zero_size_reduction
  | _ => match List.filter (fun x => negb (np_isnan x)) a with
         | [] => Ok np_nan
         | x :: a' => Ok (fold_left np_minimum a' x)
         end
  end.

(** [np.all] of a boolean array. *)
Definition np_all (m : list bool) : bool := forallb (fun b => b) m.

(** The bins of [a] at which [mask] holds. *)
Fixpoint select {A : Type} (a : list A) (mask : list bool) : list A :=
  match a, mask with
  | x :: a', b :: mask' => if b then x :: select a' mask' else select a' mask'
  | _, _ => []
  end.

(** [a[mask]]: indexing by a boolean array, which has to have the length of
    [a]. *)
Definition np_select {A : Type} (a : list A) (mask : list bool) : res (list A) :=
  if (len a =? len mask)%Z then Ok (select a mask) else Raise IndexError.

(** [b = a.copy(); b[mask] = v]. *)
Fixpoint set_where {A : Type} (a : list A) (mask : list bool) (v : A) : list A :=
  match a, mask with
  | x :: a', b :: mask' => (if b then v else x) :: set_where a' mask' v
  | _, _ => a
  end.

(** [np.where(mask)[0].tolist()], counting from [i]. *)
Fixpoint where_from (i : Z) (mask : list bool) : list Z :=
  match mask with
  | [] => []
  | b :: mask' => if b then i :: where_from (i + 1) mask' else where_from (i + 1) mask'
  end.

Definition np_where (mask : list bool) : list Z := where_from 0 mask.

(** [np.diff]. *)
Definition np_diff (a : list float) : list float :=
  map (fun '(x, y) => y - x) (zip_next a).

(** [np.sign]. *)
Definition np_sign (x : float) : float :=
  if np_isnan x then x else if x <? 0 then -1 else if 0 <? x then 1 else 0.

(** [np.isclose] of two scalars with the default tolerances. *)
Definition np_allclose (x y : float) : bool :=
  if np_isfinite x && np_isfinite y
  then abs (x - y) <=? 1e-8 + 1e-5 * abs y
  else x =? y.

(** [np.split(a, sections)]: the pieces [a[0:s1]], [a[s1:s2]], ..., [a[sk:]]. *)
Fixpoint split_from {A : Type} (a : list A) (st : Z) (sections : list Z) : list (list A) :=
  match sections with
  | [] => [py_slice a (Some st) None]
  | s :: sections' => py_slice a (Some st) (Some s) :: split_from a s sections'
  end.

Definition np_split {A : Type} (a : list A) (sections : list Z) : list (list A) :=
  split_from a 0%Z sections.

#[local] Close Scope float_scope.

(** ** Sums and powers: what numpy and the C library choose

    [np.sum] adds the bins of a [float64] array in an order that numpy
    chooses: pairwise by blocks with partial sums, not from the left.  The
    order is not part of its interface, and the last bits of the result
    depend on it.  The powers [x ** y] of numpy and of Python are those of
    the C library, with that library's rounding.  These functions are an
    interface here; a sum comes with what numpy promises of it, that it is a
    sum of the bins.  The theorems below hold for every implementation. *)

(** [float_sum a s]: [s] is a sum of the bins of [a], added as floats in
    some order and grouping.  The sum of no bins is [0.0], the identity of
    the reduction, and the identity may take part in a sum. *)
Inductive float_sum : list float -> float -> Prop :=
| float_sum_nil : float_sum [] 0%float
| float_sum_one (x : float) : float_sum [x] x
| float_sum_add (a b : list float) (s t : float) :
    float_sum a s -> float_sum b t -> float_sum (a ++ b) (s + t)%float
| float_sum_perm (a b : list float) (s : float) :
    Permutation a b -> float_sum a s -> float_sum b s.

Class Numeric : Type := {
  (** [np.sum(a)] of a one-dimensional array *)
  np_sum : list float -> float;
  (** the sum of one row in [np.average(a, axis=1)] *)
  np_sum_row : list float -> float;
  (** [x ** y] on the bins of an array, for an exponent that numpy has no
      short cut for *)
  np_power : float -> float -> float;
  (** [x ** y] on a [np.float64] scalar *)
  np_float64_pow : float -> float -> float;
  (** [pow(x, y)] of the C library, which Python's [float ** float] calls *)
  libm_pow : float -> float -> float;
  np_sum_adds : forall a, float_sum a (np_sum a);
  np_sum_row_adds : forall a, float_sum a (np_sum_row a)
}.

Section Sums.
Context `{N : Numeric}.

(** [np.nansum]: the sum of the array with its NaN bins replaced by zero. *)
Definition np_nansum (a : list float) : float :=
  np_sum (map (fun x => if np_isnan x then 0%float else x) a).

End Sums.

(** *** Python numbers *)

(** A Python number: an [int] or a [float]. *)
Inductive py_number : Type :=
| py_int (n : Z)
| py_float (x : float).

(** [float(n)] of an [int]: the nearest float, ties to even; an [int] beyond
    the range of a float raises. *)
Definition float_of_py_int (n : Z) : res float :=
  let x := SF2Prim (binary_normalize FloatOps.prec FloatOps.emax n 0 false) in
  if is_infinity x then Raise OverflowError else Ok x.

(** [n / 10.]: true division of a number by a float that is not zero. *)
Definition py_div_float (n : py_number) (d : float) : res float :=
  match n with
  | py_int k => x <- float_of_py_int k ;; Ok (x / d)%float
  | py_float x => Ok (x / d)%float
  end.

Section PythonPow.
Context `{N : Numeric}.
#[local] Open Scope float_scope.

(** [10 ** w] for a float [w]: Python settles an exponent that is zero, NaN
    or infinite itself, and calls the C library for the others; a result out
    of range raises. *)
Definition py_pow10 (w : float) : res float :=
  if w =? 0 then Ok 1
  else if is_nan w then Ok w
  else if is_infinity w then Ok (if 0 <? w then infinity else 0)
  else
    let ix := libm_pow 10 w in
    if is_infinity ix then Raise OverflowError else Ok ix.

End PythonPow.

(** ** The [helpers] module

    [peakTree/helpers.py] is imported as [h]; the tree builder and the
    preparation step use three of its functions.  The two conversions
    between linear and dB values are an interface here: the theorems below
    hold for every implementation of it. *)

Class Helpers : Type := {
  (** [h.lin2z]: linear reflectivity to dB *)
  lin2z : float -> float;
  (** [h.z2lin]: dB to linear reflectivity *)
  z2lin : float -> float
}.

(** Modelled from the spec: [helpers.fill_with(array, mask, fill)] is not
    under src/.  The spec describes its result as the array "with masked bins
    ... replaced by" the fill value. *)
Definition fill_with (a : list float) (mask : list bool) (fill : float) : list float :=
  set_where a mask fill.

Module SpecHelpers.
#[local] Open Scope float_scope.

Definition ln2 : float := 0x1.62e42fefa39efp-1.
Definition ln10 : float := 0x1.26bb1bbb55516p+1.

(** [2 * atanh s] by its power series, [n] terms. *)
Fixpoint atanh2_series (n : nat) (s2 pow k acc : float) : float :=
  match n with
  | O => 2 * acc
  | S n' => atanh2_series n' s2 (pow * s2) (k + 2) (acc + pow / k)
  end.

(** Natural logarithm of a positive finite number. *)
Definition ln_pos (x : float) : float :=
  let '(m, e) := Z.frexp x in
  let '(m, e) := if m <? 0x1.6a09e667f3bcdp-1 then (2 * m, (e - 1)%Z) else (m, e) in
  let s := (m - 1) / (m + 1) in
  atanh2_series 24 (s * s) s 1 0 + float_of_int e * ln2.

Definition log10 (x : float) : float :=
  if np_isnan x then x
  else if x <? 0 then nan
  else if x =? 0 then neg_infinity
  else if x =? infinity then infinity
  else ln_pos x / ln10.

(** [exp r] for a small [r] by its power series, [n] terms. *)
Fixpoint exp_series (n : nat) (r term k acc : float) : float :=
  match n with
  | O => acc
  | S n' => exp_series n' r (term * r / k) (k + 1) (acc + term)
  end.

(** Nearest integer below [x + 1/2], for a finite [x]. *)
Definition round_half (x : float) : Z :=
  match Prim2SF (x + 0.5) with
  | S754_finite s m e =>
      let v := if (0 <=? e)%Z then Z.shiftl (Zpos m) e else Z.shiftr (Zpos m) (- e) in
      if s then (- v - 1)%Z else v
  | _ => 0%Z
  end.

Definition exp (x : float) : float :=
  if np_isnan x then x
  else if x =? infinity then infinity
  else if x =? neg_infinity then 0
  else
    let n := round_half (x / ln2) in
    let r := x - float_of_int n * ln2 in
    Z.ldexp (exp_series 30 r 1 1 0) n.

(** Modelled from the spec: [helpers.lin2z] is not under src/.  The spec's
    glossary gives the dB form of a reflectivity as [10·log10(Z)]; the
    logarithm is evaluated by a series. *)
Definition lin2z (x : float) : float := 10 * log10 x.

(** Modelled from the spec: [helpers.z2lin] is not under src/.  It turns a dB
    value into a linear factor, the inverse of [10·log10]: [10^(x/10)]. *)
Definition z2lin (x : float) : float := exp (x / 10 * ln10).

End SpecHelpers.

#[export] Instance spec_helpers : Helpers := {|
  lin2z := SpecHelpers.lin2z;
  z2lin := SpecHelpers.z2lin
|}.

(** One implementation of the interface, to evaluate the examples. *)
Module NumpyImpl.
#[local] Open Scope float_scope.

(** [r[j] += a[i + j]] for the eight partial sums. *)
Definition add8 (r b : list float) : list float :=
  map (fun p : float * float => fst p + snd p) (combine r b).

(** [k] more blocks of eight bins go to the partial sums. *)
Fixpoint blocks (k : nat) (r rest : list float) : list float * list float :=
  match k with
  | O => (r, rest)
  | S k' => blocks k' (add8 r (firstn 8 rest)) (skipn 8 rest)
  end.

Definition tree8 (r : list float) : float :=
  match r with
  | [r0; r1; r2; r3; r4; r5; r6; r7] => ((r0 + r1) + (r2 + r3)) + ((r4 + r5) + (r6 + r7))
  | _ => fold_left add r 0
  end.

(** Eight to 128 bins: eight partial sums over the full blocks, added as a
    tree, and the bins behind the last full block added from the left. *)
Definition block_sum (a : list float) : float :=
  let '(r, rest) := blocks (length a / 8 - 1) (firstn 8 a) (skipn 8 a) in
  fold_left add rest (tree8 r).

Lemma halves_shorter (a : list float) :
  (128 < length a)%nat ->
  let n2 := (length a / 2 - (length a / 2) mod 8)%nat in
  (length (firstn n2 a) < length a)%nat /\ (length (skipn n2 a) < length a)%nat.
Proof.
  intros Hn n2. rewrite length_firstn, length_skipn.
  pose proof (Nat.div_mod_eq (length a) 2) as Hd.
  pose proof (Nat.mod_upper_bound (length a) 2 ltac:(lia)) as Hm.
  pose proof (Nat.mod_upper_bound (length a / 2) 8 ltac:(lia)) as Hm8.
  subst n2. lia.
Qed.

(** numpy's pairwise summation of a [float64] array: fewer than eight bins
    are added from the left, up to 128 bins by [block_sum], and a longer
    array is cut near its middle, at a multiple of eight. *)
Equations? pairwise_sum (a : list float) : float by wf (length a) lt :=
pairwise_sum a with le_lt_dec (length a) 128 := {
  | left _ => if (length a <? 8)%nat then fold_left add a 0 else block_sum a
  | right Hn =>
      pairwise_sum (firstn (length a / 2 - (length a / 2) mod 8) a)
      + pairwise_sum (skipn (length a / 2 - (length a / 2) mod 8) a) }.
Proof.
  all: destruct (halves_shorter a Hn); assumption.
Qed.

(** The reduction starts from its identity [0.0]. *)
Definition sum (a : list float) : float := 0 + pairwise_sum a.

(** The cube of a float, rounded once. *)
Definition cube (x : float) : float :=
  match Prim2SF x with
  | S754_finite s m e =>
      SF2Prim (binary_normalize FloatOps.prec FloatOps.emax
                 (if s then (- Z.pos m ^ 3)%Z else (Z.pos m ^ 3)%Z) (3 * e)%Z s)
  | _ => x
  end.

(** Powers for the examples: the cube rounded once, other powers of a
    positive base by the exponential series. *)
Definition pow (x y : float) : float :=
  if y =? 3 then cube x
  else if y =? 0 then 1
  else SpecHelpers.exp (y * SpecHelpers.ln_pos x).

End NumpyImpl.

Lemma fold_add_sum (a l : list float) (s : float) :
  float_sum l s -> float_sum (l ++ a) (fold_left add a s).
Proof.
  revert l s. induction a as [|x a IH]; intros l s Hs; cbn [fold_left].
  - rewrite app_nil_r. exact Hs.
  - replace (l ++ x :: a) with ((l ++ [x]) ++ a) by (rewrite <- app_assoc; reflexivity).
    apply IH. apply float_sum_add; [exact Hs | apply float_sum_one].
Qed.

Lemma add8_sums (ls : list (list float)) (r b : list float) :
  Forall2 float_sum ls r -> length b = length r ->
  Forall2 float_sum (map (fun p : list float * float => fst p ++ [snd p]) (combine ls b))
    (NumpyImpl.add8 r b).
Proof.
  intros Hls. revert b. induction Hls as [|l x ls r Hl Hls IH]; intros b Hb.
  - constructor.
  - destruct b as [|y b]; [discriminate|]. cbn [combine map NumpyImpl.add8 fst snd].
    constructor.
    + apply float_sum_add; [exact Hl | apply float_sum_one].
    + apply IH. cbn [length] in Hb. lia.
Qed.

Lemma concat_snoc_perm (ls : list (list float)) (b : list float) :
  length b = length ls ->
  Permutation (concat (map (fun p : list float * float => fst p ++ [snd p]) (combine ls b)))
    (concat ls ++ b).
Proof.
  revert b. induction ls as [|l ls IH]; intros [|y b] Hb; try discriminate.
  - reflexivity.
  - cbn [combine map concat fst snd]. rewrite IH by (cbn [length] in Hb; lia).
    rewrite <- !app_assoc. apply Permutation_app_head.
    cbn [app]. apply Permutation_middle.
Qed.

Lemma blocks_sums (k : nat) :
  forall (r rest : list float) (ls : list (list float)),
    Forall2 float_sum ls r -> (8 * k <= length rest)%nat -> length r = 8%nat ->
    exists ls',
      Forall2 float_sum ls' (fst (NumpyImpl.blocks k r rest))
      /\ Permutation (concat ls' ++ snd (NumpyImpl.blocks k r rest)) (concat ls ++ rest).
Proof.
  induction k as [|k IH]; intros r rest ls Hls Hk Hr; cbn [NumpyImpl.blocks].
  - exists ls. split; [exact Hls | reflexivity].
  - assert (Hb : length (firstn 8 rest) = length r) by (rewrite length_firstn; lia).
    destruct (IH (NumpyImpl.add8 r (firstn 8 rest)) (skipn 8 rest) _
                (add8_sums ls r _ Hls Hb)) as (ls' & Hls' & Hperm).
    + rewrite length_skipn. lia.
    + unfold NumpyImpl.add8. rewrite length_map, length_combine. lia.
    + exists ls'. split; [exact Hls'|]. rewrite Hperm.
      rewrite concat_snoc_perm by (rewrite (Forall2_length _ _ _ Hls); exact Hb).
      rewrite <- app_assoc, firstn_skipn. reflexivity.
Qed.

Lemma tree8_sums (ls : list (list float)) (r : list float) :
  Forall2 float_sum ls r -> length r = 8%nat -> float_sum (concat ls) (NumpyImpl.tree8 r).
Proof.
  intros Hls Hr.
  do 8 (destruct Hls as [|? ? ? ? ? Hls]; [discriminate|]).
  destruct Hls; [|discriminate]. cbn [NumpyImpl.tree8 concat].
  rewrite app_nil_r.
  eapply float_sum_perm;
    [|apply float_sum_add; (apply float_sum_add; apply float_sum_add; eassumption)].
  rewrite <- !app_assoc. reflexivity.
Qed.

Lemma block_sum_sums (a : list float) :
  (8 <= length a)%nat -> float_sum a (NumpyImpl.block_sum a).
Proof.
  intros Hn. unfold NumpyImpl.block_sum.
  assert (Hr : length (firstn 8 a) = 8%nat) by (rewrite length_firstn; lia).
  assert (H0 : forall l : list float, Forall2 float_sum (map (fun x => [x]) l) l).
  { induction l as [|x l IH]; constructor; [apply float_sum_one | exact IH]. }
  destruct (blocks_sums (length a / 8 - 1) (firstn 8 a) (skipn 8 a) _ (H0 (firstn 8 a)))
    as (ls & Hls & Hperm); [|exact Hr|].
  { rewrite length_skipn. pose proof (Nat.div_mod_eq (length a) 8). lia. }
  destruct (NumpyImpl.blocks _ _ _) as [r rest] eqn:Eb. cbn [fst snd] in Hls, Hperm.
  assert (Hr' : length r = 8%nat).
  { assert (G : forall k r0 rest0, length r0 = 8%nat -> (8 * k <= length rest0)%nat ->
                  length (fst (NumpyImpl.blocks k r0 rest0)) = 8%nat).
    { induction k as [|k IHk]; intros r0 rest0 H1 H2; cbn [NumpyImpl.blocks]; [exact H1|].
      apply IHk.
      - unfold NumpyImpl.add8. rewrite length_map, length_combine, length_firstn. lia.
      - rewrite length_skipn. lia. }
    specialize (G (length a / 8 - 1)%nat (firstn 8 a) (skipn 8 a) Hr).
    rewrite Eb in G. apply G. rewrite length_skipn.
    pose proof (Nat.div_mod_eq (length a) 8). lia. }
  eapply float_sum_perm; [|apply fold_add_sum, (tree8_sums ls r Hls Hr')].
  rewrite Hperm.
  assert (Hc : forall l : list float, concat (map (fun x : float => [x]) l) = l).
  { induction l as [|x l IH]; [reflexivity|]. cbn [map concat app]. rewrite IH.
    reflexivity. }
  rewrite Hc, firstn_skipn. reflexivity.
Qed.

Lemma pairwise_sum_sums (a : list float) : float_sum a (NumpyImpl.pairwise_sum a).
Proof.
  funelim (NumpyImpl.pairwise_sum a).
  - destruct (length a <? 8)%nat eqn:E.
    + apply (fold_add_sum a [] 0%float float_sum_nil).
    + apply block_sum_sums. apply Nat.ltb_ge in E. exact E.
  - rewrite <- (firstn_skipn (length a / 2 - (length a / 2) mod 8) a) at 1.
    apply float_sum_add; assumption.
Qed.

Lemma numpy_sum_sums (a : list float) : float_sum a (NumpyImpl.sum a).
Proof.
  unfold NumpyImpl.sum. apply (float_sum_add [] a); [apply float_sum_nil|].
  apply pairwise_sum_sums.
Qed.

#[export] Instance numpy_impl : Numeric := {|
  np_sum := NumpyImpl.sum;
  np_sum_row := NumpyImpl.sum;
  np_power := NumpyImpl.pow;
  np_float64_pow := NumpyImpl.pow;
  libm_pow := NumpyImpl.pow;
  np_sum_adds := numpy_sum_sums;
  np_sum_row_adds := numpy_sum_sums
|}.

(** ** Peak detection *)

Abbreviation bounds_t := (Z * Z)%type.

Module PeakDetect.

(** [detect_peak_simple(array, lthres)]: noise separated peaks. *)
Definition detect_peak_simple (array : list float) (lthres : float) : res (list bounds_t) :=
  let ind := np_where (map (fun x => (lthres <? x)%float) array) in
  jumps <- mapM (fun xy : Z * Z => list_index ind (fst xy))
             (List.filter (fun xy : Z * Z => negb (snd xy - fst xy =? 1)) (zip_next ind)) ;;
  let runs := np_split ind (map (fun i => i + 1) jumps) in
  r0 <- py_get runs 0 ;;
  if 0 <? len r0 then
    mapM (fun elem : list Z => a <- py_get elem 0 ;; b <- py_get elem (-1) ;; Ok (a, b)) runs
  else Ok [].

(** The filter of [tree_from_spectrum] on the detected peaks:
    [list(filter(lambda e: e[1]-e[0] > 0, peak_ind))]. *)
Definition width_filter (peak_ind : list bounds_t) : list bounds_t :=
  List.filter (fun e : bounds_t => 0 <? snd e - fst e) peak_ind.

(** The peak detection step of [tree_from_spectrum]. *)
Definition detect_peaks (array : list float) (lthres : float) : res (list bounds_t) :=
  peak_ind <- detect_peak_simple array lthres ;;
  Ok (width_filter peak_ind).

(** Stable insertion by the key [x[1]], as [sorted(..., key=lambda x: x[1])]
    orders elements whose keys are comparable: [m], which came before the
    elements of [l], goes behind those with a smaller key and stays before
    the others. *)
Fixpoint insert_by_value (m : Z * float) (l : list (Z * float)) : list (Z * float) :=
  match l with
  | [] => [m]
  | m' :: l' => if (snd m' <? snd m)%float then m' :: insert_by_value m l' else m :: l
  end.

Definition sorted_by_value (l : list (Z * float)) : list (Z * float) :=
  fold_right insert_by_value [] l.

Fixpoint zip_or (a b : list bool) : list bool :=
  match a, b with
  | x :: a', y :: b' => (x || y) :: zip_or a' b'
  | _, _ => a
  end.

(** [get_minima(array)]: the minima of an array from the sign changes of its
    derivative, as [(index, value at index)] sorted by value. *)
Definition get_minima (array : list float) : res (list (Z * float)) :=
  let sdiff := np_diff (map np_sign (np_diff array)) in
  let rising_1 := map (fun d => (d =? 2)%float) sdiff in
  let rising_2 :=
    map (fun dd : float * float => (fst dd =? 1)%float && (snd dd =? 1)%float)
        (combine (py_slice sdiff None (Some (-1))) (py_slice sdiff (Some 1) None)) in
  let rising_all :=
    match rising_1 with
    | [] => []
    | b :: rest => b :: zip_or rest rising_2
    end in
  let min_ind := map (fun i => i + 1) (np_where rising_all) in
  minima <- mapM (fun i => v <- py_get array i ;; Ok (i, v)) min_ind ;;
  Ok (sorted_by_value minima).

(** [np.argmax] of an integer array: first position of the maximum. *)
Fixpoint argmax_int_loop (mp : Z) (imax : Z) (i : Z) (a : list Z) : Z :=
  match a with
  | [] => imax
  | x :: a' => if mp <? x then argmax_int_loop x i (i + 1) a'
               else argmax_int_loop mp imax (i + 1) a'
  end.

Definition np_argmax_int (a : list Z) : res Z :=
  match a with
  | [] => Raise ValueError_argmax_of_empty_sequence
  | x :: a' => Ok (argmax_int_loop x 0 1 a')
  end.

(** [split_peak_ind_by_space(peak_ind)]: split a list of peaks at their
    widest gap; a list of one peak is returned twice.  The bounds of the
    peaks are [int64] values, so [left_i] and [right_i] are [int64] arrays
    and their difference wraps around. *)
Definition split_peak_ind_by_space (peak_ind : list bounds_t)
  : res (list bounds_t * list bounds_t) :=
  if len peak_ind =? 1 then Ok (peak_ind, peak_ind)
  else
    let left_i := map fst peak_ind in
    let right_i := map snd peak_ind in
    let spacing :=
      np_subtract_int (py_slice left_i (Some 1) None) (py_slice right_i None (Some (-1))) in
    split_i <- np_argmax_int spacing ;;
    Ok (py_slice peak_ind None (Some (split_i + 1)),
        py_slice peak_ind (Some (split_i + 1)) None).

Definition bounds_eqb (a b : bounds_t) : bool :=
  (fst a =? fst b) && (snd a =? snd b).

(** [left == right] on lists of peaks. *)
Fixpoint peaks_eqb (a b : list bounds_t) : bool :=
  match a, b with
  | [], [] => true
  | x :: a', y :: b' => bounds_eqb x y && peaks_eqb a' b'
  | _, _ => false
  end.

(** What a generator did: the values it yielded, and the exception that
    ended it, if one did. *)
Definition gen (A : Type) : Type := list A * option exn.

Definition gen_then {A : Type} (g : gen A) (k : gen A) : gen A :=
  match snd g with
  | Some e => g
  | None => (fst g ++ fst k, snd k)
  end.

(** The hull yielded for a split:
    [(left[0][0], left[-1][-1]), (right[0][0], right[-1][-1])]. *)
Definition hull_pair (left right : list bounds_t) : res (bounds_t * bounds_t) :=
  l0 <- py_get left 0 ;; l1 <- py_get left (-1) ;;
  r0 <- py_get right 0 ;; r1 <- py_get right (-1) ;;
  Ok ((fst l0, snd l1), (fst r0, snd r1)).

End PeakDetect.

(** ** Lengths of slices, and the measure of the gap recursion *)

Lemma len_nonneg {A : Type} (l : list A) : 0 <= len l.
Proof. unfold len. lia. Qed.

Lemma py_clamp_range (n i : Z) : 0 <= n -> 0 <= py_clamp n i <= n.
Proof. unfold py_clamp. destruct (i <? 0) eqn:E; lia. Qed.

Lemma py_slice_length {A : Type} (l : list A) (a b : option Z) :
  length (py_slice l a b) =
  Z.to_nat (Z.min (match b with Some i => py_clamp (len l) i | None => len l end
                   - match a with Some i => py_clamp (len l) i | None => 0 end)
                  (len l - match a with Some i => py_clamp (len l) i | None => 0 end)).
Proof.
  unfold py_slice. rewrite length_firstn, length_skipn.
  pose proof (len_nonneg l) as Hn.
  assert (Hs : 0 <= match a with Some i => py_clamp (len l) i | None => 0 end)
    by (destruct a; [apply py_clamp_range; assumption | lia]).
  unfold len in *. lia.
Qed.

Lemma argmax_int_loop_range (a : list Z) :
  forall mp imax i, 0 <= imax < i ->
    0 <= PeakDetect.argmax_int_loop mp imax i a < i + len a.
Proof.
  induction a as [|x a IH]; intros mp imax i Hi; simpl.
  - unfold len; simpl. lia.
  - replace (i + len (x :: a)) with ((i + 1) + len a) by (unfold len; simpl; lia).
    destruct (mp <? x); apply IH; lia.
Qed.

Lemma np_argmax_int_range (a : list Z) (k : Z) :
  PeakDetect.np_argmax_int a = Ok k -> 0 <= k < len a.
Proof.
  destruct a as [|x a]; simpl; [discriminate|].
  intros [= <-].
  pose proof (argmax_int_loop_range a x 0 1 ltac:(lia)).
  unfold len in *; simpl; lia.
Qed.

Lemma peaks_eqb_refl (l : list bounds_t) : PeakDetect.peaks_eqb l l = true.
Proof.
  induction l as [|[a b] l IH]; simpl; [reflexivity|].
  unfold PeakDetect.bounds_eqb; simpl. rewrite !Z.eqb_refl, IH. reflexivity.
Qed.

Lemma spacing_length (peak_ind : list bounds_t) :
  len (np_subtract_int (py_slice (map fst peak_ind) (Some 1) None)
                       (py_slice (map snd peak_ind) None (Some (-1))))
  = Z.max 0 (len peak_ind - 1).
Proof.
  unfold np_subtract_int, len. rewrite length_map, length_combine, !py_slice_length.
  unfold len, py_clamp. rewrite !length_map. simpl. lia.
Qed.

(** A split of two or more peaks gives two shorter, non-empty lists. *)
Lemma split_lengths (peak_ind left right : list bounds_t) :
  PeakDetect.split_peak_ind_by_space peak_ind = Ok (left, right) ->
  len peak_ind <> 1 ->
  2 <= len peak_ind /\
  0 < len left < len peak_ind /\ 0 < len right < len peak_ind /\
  peak_ind = left ++ right.
Proof.
  unfold PeakDetect.split_peak_ind_by_space.
  destruct (len peak_ind =? 1) eqn:E1; [lia|]. intros H _.
  destruct (PeakDetect.np_argmax_int _) as [k|e] eqn:Ek; simpl in H; [|discriminate].
  apply np_argmax_int_range in Ek. rewrite spacing_length in Ek.
  injection H as <- <-.
  assert (Hl : py_slice peak_ind None (Some (k + 1)) = firstn (Z.to_nat (k + 1)) peak_ind).
  { unfold py_slice, py_clamp. destruct (k + 1 <? 0) eqn:E; [lia|].
    rewrite Z.sub_0_r. simpl. f_equal. lia. }
  assert (Hr : py_slice peak_ind (Some (k + 1)) None = skipn (Z.to_nat (k + 1)) peak_ind).
  { unfold py_slice, py_clamp. destruct (k + 1 <? 0) eqn:E; [lia|].
    rewrite Z.min_l by lia. apply firstn_all2. rewrite length_skipn. unfold len. lia. }
  rewrite Hl, Hr. unfold len in *.
  rewrite length_firstn, length_skipn, firstn_skipn.
  repeat split; lia.
Qed.

Lemma split_shorter (peak_ind left right : list bounds_t) :
  PeakDetect.split_peak_ind_by_space peak_ind = Ok (left, right) ->
  PeakDetect.peaks_eqb left right = false ->
  (length left < length peak_ind)%nat /\ (length right < length peak_ind)%nat.
Proof.
  intros Hs Hne.
  destruct (Z.eq_dec (len peak_ind) 1) as [E|E].
  - unfold PeakDetect.split_peak_ind_by_space in Hs.
    rewrite E in Hs. simpl in Hs. injection Hs as <- <-.
    rewrite peaks_eqb_refl in Hne. discriminate.
  - destruct (split_lengths _ _ _ Hs E) as (_ & Hl & Hr & _).
    unfold len in *. lia.
Qed.

Definition inspect {A : Type} (a : A) : { b : A | a = b } := exist _ a eq_refl.

(** [peak_pairs_to_call(peak_ind)]: the generator of the noise separated tree
    structure of a peak list.  Each call splits its list and, while the two
    parts differ, yields their hulls and continues with the left and then the
    right part. *)
Equations? peak_pairs_to_call (peak_ind : list bounds_t)
  : PeakDetect.gen (bounds_t * bounds_t) by wf (length peak_ind) lt :=
peak_pairs_to_call peak_ind with inspect (PeakDetect.split_peak_ind_by_space peak_ind) := {
  | exist _ (Raise e) _ => ([], Some e)
  | exist _ (Ok (left_, right_)) Hs with inspect (PeakDetect.peaks_eqb left_ right_) := {
    | exist _ true _ => ([], None)
    | exist _ false Hne with PeakDetect.hull_pair left_ right_ := {
      | Raise e => ([], Some e)
      | Ok hulls =>
          PeakDetect.gen_then ([hulls], None)
            (PeakDetect.gen_then (peak_pairs_to_call left_) (peak_pairs_to_call right_)) } } }.
Proof.
  all: destruct (split_shorter _ _ _ Hs Hne); assumption.
Qed.

(** ** The tree: [class Node] *)

Inductive Node : Type := mkNode {
  bounds : bounds_t;       (* boundaries in bin coordinates *)
  children : list Node;
  level : Z;
  root : bool;
  threshold : float;       (* noise threshold that separated this peak *)
  spec : list float;       (* spectral reflectivity within this node *)
  prom_filter : float
}.

(** [Node.__init__(bounds, spec_chunk, noise_thres, root=False, parent_lvl=0)]. *)
Definition Node_init (bounds : bounds_t) (spec_chunk : list float) (noise_thres : float)
    (root : bool) (parent_lvl : Z) : Node :=
  {| bounds := bounds;
     children := [];
     level := if root then 0 else parent_lvl + 1;
     root := root;
     threshold := noise_thres;
     spec := spec_chunk;
     prom_filter := 1%float |}.

(** [self.children.append(c1); self.children.append(c2)] for [new = [c1; c2]]. *)
Definition append_children (self : Node) (new : list Node) : Node :=
  {| bounds := bounds self;
     children := children self ++ new;
     level := level self;
     root := root self;
     threshold := threshold self;
     spec := spec self;
     prom_filter := prom_filter self |}.

Definition with_children (self : Node) (cs : list Node) : Node :=
  {| bounds := bounds self;
     children := cs;
     level := level self;
     root := root self;
     threshold := threshold self;
     spec := spec self;
     prom_filter := prom_filter self |}.

(** A method call on [fitting_child[0]], the first child that passes the
    filter: the child is changed in place, inside the list of children. *)
Fixpoint on_first_fitting (fits : Node -> bool) (call : Node -> Node * res unit)
    (cs : list Node) : list Node * res unit :=
  match cs with
  | [] => ([], Raise IndexError)
  | c :: cs' =>
      if fits c then (fst (call c) :: cs', snd (call c))
      else (c :: fst (on_first_fitting fits call cs'), snd (on_first_fitting fits call cs'))
  end.

(** [spec_chunk[spec_chunk.argmax()] / thres]. *)
Definition prominence_of (spec_chunk : list float) (thres : float) : res float :=
  i <- np_argmax spec_chunk ;;
  m <- py_get spec_chunk i ;;
  Ok (m / thres)%float.

Section WithHelpers.
Context `{H : Helpers} `{N : Numeric}.

(** [Node.add_noise_sep(bounds_left, bounds_right, thres)]: add a noise
    separated pair of peaks.  The result is the node after the call and
    whether the call returned or raised. *)
Fixpoint add_noise_sep (self : Node) (bounds_left bounds_right : bounds_t) (thres : float)
  : Node * res unit :=
  let fits := fun x : Node =>
    (fst (bounds x) <=? fst bounds_left) && (snd bounds_right <=? snd (bounds x)) in
  let fitting_child := List.filter fits (children self) in
  if len fitting_child =? 1 then
    let r := on_first_fitting fits
               (fun c => add_noise_sep c bounds_left bounds_right thres) (children self) in
    (with_children self (fst r), snd r)
  else
    let spec_left := py_slice (spec self) (Some (fst bounds_left - fst (bounds self)))
                       (Some (snd bounds_left + 1 - fst (bounds self))) in
    let spec_right := py_slice (spec self) (Some (fst bounds_right - fst (bounds self)))
                        (Some (snd bounds_right + 1 - fst (bounds self))) in
    match (prom_left <- prominence_of spec_left thres ;;
           prom_right <- prominence_of spec_right thres ;;
           if (prom_filter self <? lin2z prom_left)%float
              && (prom_filter self <? lin2z prom_right)%float
           then Ok [Node_init bounds_left spec_left thres false (level self);
                    Node_init bounds_right spec_right thres false (level self)]
           else Ok [])
    with
    | Ok new => (append_children self new, Ok tt)
    | Raise e => (self, Raise e)
    end.

(** [Node.add_min(new_index, current_thres, ignore_prom=False)]: add a local
    minimum. *)
Fixpoint add_min (self : Node) (new_index : Z) (current_thres : float) (ignore_prom : bool)
  : Node * res unit :=
  if (new_index <? fst (bounds self)) || (snd (bounds self) <? new_index) then
    (self, Raise ValueError_child_out_of_parents_bounds)
  else
    let fits := fun x : Node =>
      (fst (bounds x) <=? new_index) && (new_index <=? snd (bounds x)) in
    let fitting_child := List.filter fits (children self) in
    if len fitting_child =? 1 then
      let r := on_first_fitting fits
                 (fun c => add_min c new_index current_thres false) (children self) in
      (with_children self (fst r), snd r)
    else
      let spec_left := py_slice (spec self) None (Some (new_index + 1 - fst (bounds self))) in
      let spec_right := py_slice (spec self) (Some (new_index - fst (bounds self))) None in
      match (prom_left <- prominence_of spec_left current_thres ;;
             prom_right <- prominence_of spec_right current_thres ;;
             let cond_prom := [(prom_filter self <? lin2z prom_left)%float;
                               (prom_filter self <? lin2z prom_right)%float] in
             if np_all cond_prom || ignore_prom
             then Ok [Node_init (fst (bounds self), new_index) spec_left current_thres
                        false (level self);
                      Node_init (new_index, snd (bounds self)) spec_right current_thres
                        false (level self)]
             else Ok [])
      with
      | Ok new => (append_children self new, Ok tt)
      | Raise e => (self, Raise e)
      end.

End WithHelpers.

(** ** Traversal and level-order ids *)

(** The dict yielded by [traverse]: [{'coords', 'bounds', 'thres'}]. *)
Record traversed_node : Type := {
  coords : list Z;
  t_bounds : bounds_t;
  thres : float
}.

(** [traverse(Node, coords)]: a node and recursively all its subnodes. *)
Fixpoint traverse (n : Node) (coords : list Z) : list traversed_node :=
  {| coords := coords; t_bounds := bounds n; thres := threshold n |}
  :: (fix over_children (i : Z) (cs : list Node) : list traversed_node :=
        match cs with
        | [] => []
        | c :: cs' => traverse c (coords ++ [i]) ++ over_children (i + 1) cs'
        end) 0 (children n).

(** [full_tree_id(coord)]: the id of a coordinate in the full binary tree.
    The start value [2**(len(coord)-1)-1] is an integer for a coordinate that
    is not empty. *)
Definition full_tree_id (coord : list Z) : Z :=
  fold_left (fun idx (p : Z * Z) => if snd p =? 1 then idx + 2 ^ fst p else idx)
    (enumerate (rev coord)) (2 ^ (len coord - 1) - 1).

(** A traversed node with its ['parent_id']. *)
Record id_node : Type := {
  trav : traversed_node;
  parent_id : Z
}.

(** [coords_to_id(traversed)]: the traversed tree as a dict with the
    level-order id as key. *)
Definition coords_to_id (traversed : list traversed_node) : gmap Z id_node :=
  fold_left
    (fun (traversed_id : gmap Z id_node) (node : traversed_node) =>
       let k := full_tree_id (coords node) in
       let traversed_id := <[k := {| trav := node; parent_id := -1 |}]> traversed_id in
       let parent :=
         List.filter
           (fun kv : Z * id_node =>
              bool_decide (coords (trav (snd kv)) = py_slice (coords node) None (Some (-1))))
           (map_to_list traversed_id) in
       let pid := match parent with
                  | [kv] => fst kv
                  | _ => -1
                  end in
       <[k := {| trav := node; parent_id := pid |}]> traversed_id)
    traversed ∅.

(** ** Spectra and moments *)

(** The spectrum dict built by [peakTreeBuffer.get_tree_at].  The key
    ['specZcx'] and the other polarimetric keys are tested for by
    [tree_from_spectrum]; [polarimetric] tells whether they are present. *)
Record Spectrum : Type := {
  ts : float;
  range : float;
  vel : list float;
  specZ : list float;
  noise_thres : float;
  no_temp_avg : Z;
  specZ_mask : list bool;
  specSNRco : list float;
  specSNRco_mask : list bool;
  specLDR : list float;
  specLDR_mask : list bool;
  polarimetric : bool;
  specZcx : list float;
  specZcx_mask : list bool;
  specSNRcx : list float;
  specSNRcx_mask : list bool;
  specLDRmasked : list float;
  specZcx_validcx : list float;
  specZ_validcx : list float;
  decoupling : py_number
}.

(** The dict of moments of one node. *)
Record Moments : Type := {
  v : float;
  width : float;
  skew : float;
  prominence : float;
  z : float;
  ldr : float;
  ldrmax : float
}.

Definition set_ldr (m : Moments) (x : float) : Moments :=
  {| v := v m; width := width m; skew := skew m; prominence := prominence m;
     z := z m; ldr := x; ldrmax := ldrmax m |}.

Definition set_ldrmax (m : Moments) (x : float) : Moments :=
  {| v := v m; width := width m; skew := skew m; prominence := prominence m;
     z := z m; ldr := ldr m; ldrmax := x |}.

Definition set_prominence (m : Moments) (x : float) : Moments :=
  {| v := v m; width := width m; skew := skew m; prominence := x;
     z := z m; ldr := ldr m; ldrmax := ldrmax m |}.

Definition set_z (m : Moments) (x : float) : Moments :=
  {| v := v m; width := width m; skew := skew m; prominence := prominence m;
     z := x; ldr := ldr m; ldrmax := ldrmax m |}.

(** The bins [a[bounds[0]:bounds[1]+1]]. *)
Definition chunk {A : Type} (a : list A) (b : bounds_t) : list A :=
  py_slice a (Some (fst b)) (Some (snd b + 1)).

Section Moments.
Context `{H : Helpers} `{N : Numeric}.
#[local] Open Scope float_scope.

(** The product of two arrays of one length, bin by bin. *)
Definition mul2 (x y : list float) : list float :=
  map (fun p : float * float => fst p * snd p) (combine x y).

(** [x * y] on arrays: bin by bin for one length, an array of length 1 is
    broadcast, other lengths raise. *)
Definition np_mul (x y : list float) : res (list float) :=
  if (len x =? len y)%Z then Ok (mul2 x y)
  else match x, y with
       | [x0], _ => Ok (map (fun b => x0 * b) y)
       | _, [y0] => Ok (map (fun a => a * y0) x)
       | _, _ => Raise ValueError_broadcast
       end.

(** [moment(x, Z)]: mean, rms and skewness of a part of the spectrum.  On an
    array numpy takes the power [**2] as the square [x * x]; the powers [**3]
    of the array and of the scalar [rms] are calls of its power functions. *)
Definition moment (x Z : list float) : res Moments :=
  xZ <- np_mul x Z ;;
  let mean := np_sum xZ / np_sum Z in
  x2Z <- np_mul (map (fun xi => (xi - mean) * (xi - mean)) x) Z ;;
  let rms := sqrt (np_sum x2Z / np_sum Z) in
  x3Z <- np_mul (map (fun xi => np_power (xi - mean) 3) x) Z ;;
  let skew := np_sum x3Z / (np_sum Z * np_float64_pow rms 3) in
  Ok {| v := mean; width := rms; skew := skew;
        prominence := 0; z := 0; ldr := 0; ldrmax := 0 |}.

(** [decoup = 10**(spectrum['decoupling']/10.)]. *)
Definition decoup_of (decoupling : py_number) : res float :=
  w <- py_div_float decoupling 10 ;;
  py_pow10 w.

(** [calc_moments(spectrum, bounds, thres)].  The value [decoup] of the
    source is computed and not used. *)
Definition calc_moments (spectrum : Spectrum) (bounds : bounds_t) (thres : float)
  : res (Moments * Spectrum) :=
  let Z := np_sum (chunk (specZ spectrum) bounds) in
  let masked_Z := fill_with (specZ spectrum) (specZ_mask spectrum) 0 in
  let masked_Z := fill_with masked_Z (map (fun x => x <? thres) masked_Z) 0 in
  moments <- moment (chunk (vel spectrum) bounds) (chunk masked_Z bounds) ;;
  ind_max <- np_argmax (chunk (specSNRco spectrum) bounds) ;;
  zmax <- py_get (chunk (specZ spectrum) bounds) ind_max ;;
  let prominence := zmax / thres in
  prominence_mask <- py_get (chunk (specZ_mask spectrum) bounds) ind_max ;;
  let moments := set_prominence moments (if negb prominence_mask then prominence else 1e-99) in
  let moments := set_z moments Z in
  (* new try for the peak ldr *)
  first <-
    (if negb (np_all (specZ_mask spectrum)) && negb (np_all (specZcx_mask spectrum)) then
       valid_Zco <- np_select (specZ spectrum) (map negb (specZ_mask spectrum)) ;;
       min_Zco <- np_min valid_Zco ;;
       valid_Zcx <- np_select (specZcx spectrum) (map negb (specZcx_mask spectrum)) ;;
       min_Zcx <- np_min valid_Zcx ;;
       let ldr := np_nansum (chunk (specZcx spectrum) bounds)
                  / np_sum (chunk (specZ spectrum) bounds) in
       ldrmax <- py_get (chunk (specLDR spectrum) bounds) ind_max ;;
       Ok (ldr, ldrmax)
     else Ok (np_nan, np_nan)) ;;
  let ldr := fst first in
  (* ldr calculation after the debugging session *)
  ldrmax <- py_get (chunk (specLDR spectrum) bounds) ind_max ;;
  let ldr2 :=
    if negb (np_all (specZcx_mask spectrum))
    then np_sum (chunk (specZcx_validcx spectrum) bounds)
         / np_sum (chunk (specZ_validcx spectrum) bounds)
    else np_nan in
  decoup <- decoup_of (decoupling spectrum) ;;
  let moments := set_ldr moments ldr in
  let moments :=
    set_ldr moments (if np_isfinite ldr2 && negb (np_allclose ldr2 0) then ldr2 else np_nan) in
  let moments := set_ldrmax moments ldrmax in
  Ok (moments, spectrum).

(** [calc_moments_wo_LDR(spectrum, bounds, thres)]. *)
Definition calc_moments_wo_LDR (spectrum : Spectrum) (bounds : bounds_t) (thres : float)
  : res (Moments * Spectrum) :=
  let Z := np_sum (chunk (specZ spectrum) bounds) in
  let masked_Z := fill_with (specZ spectrum) (specZ_mask spectrum) 0 in
  let masked_Z := fill_with masked_Z (map (fun x => x <? thres) masked_Z) 0 in
  moments <- moment (chunk (vel spectrum) bounds) (chunk masked_Z bounds) ;;
  ind_max <- np_argmax (chunk (specSNRco spectrum) bounds) ;;
  zmax <- py_get (chunk (specZ spectrum) bounds) ind_max ;;
  let prominence := zmax / thres in
  prominence_mask <- py_get (chunk (specZ_mask spectrum) bounds) ind_max ;;
  let moments := set_prominence moments (if negb prominence_mask then prominence else 1e-99) in
  let moments := set_z moments Z in
  let moments := set_ldr moments 0 in
  let moments := set_ldr moments 0 in
  let moments := set_ldrmax moments 0 in
  Ok (moments, spectrum).

End Moments.

(** ** The tree of one spectrum *)

(** A node of the traversed tree after [traversed[i].update(moments)]. *)
Record tree_node : Type := {
  node : id_node;
  mom : Moments
}.

Section TreeFromSpectrum.
Context `{H : Helpers} `{N : Numeric}.

(** [for peak_pair in ...: t.add_noise_sep(peak_pair[0], peak_pair[1], noise_thres)]. *)
Fixpoint add_noise_sep_all (t : Node) (pairs : list (bounds_t * bounds_t)) (noise_thres : float)
  : res Node :=
  match pairs with
  | [] => Ok t
  | peak_pair :: pairs' =>
      match add_noise_sep t (fst peak_pair) (snd peak_pair) noise_thres with
      | (t', Ok _) => add_noise_sep_all t' pairs' noise_thres
      | (_, Raise e) => Raise e
      end
  end.

(** [for m in minima: if m[1] > limit: t.add_min(m[0], m[1])]. *)
Fixpoint add_min_all (t : Node) (minima : list (Z * float)) (limit : float) : res Node :=
  match minima with
  | [] => Ok t
  | m :: minima' =>
      if (limit <? snd m)%float then
        match add_min t (fst m) (snd m) false with
        | (t', Ok _) => add_min_all t' minima' limit
        | (_, Raise e) => Raise e
        end
      else add_min_all t minima' limit
  end.

(** [tree_from_spectrum(spectrum)]: generate the tree and return a traversed
    version.  The block under [chop = False] is never run and is left out. *)
Definition tree_from_spectrum (spectrum : Spectrum) : res (gmap Z tree_node) :=
  let masked_Z := fill_with (specZ spectrum) (specZ_mask spectrum) 0%float in
  peak_ind <- PeakDetect.detect_peak_simple masked_Z (noise_thres spectrum) ;;
  (* filter all peaks with that are only 1 bin wide *)
  let peak_ind := PeakDetect.width_filter peak_ind in
  match peak_ind with
  | _ :: _ =>
      t <-
        (if len peak_ind =? 0 then
           (* t = Node(peak_ind[0], spectrum['specZ'][peak_ind[0]:peak_ind[1]+1], ...) *)
           Raise IndexError
         else
           first <- py_get peak_ind 0 ;;
           last <- py_get peak_ind (-1) ;;
           let t := Node_init (fst first, snd last)
                      (chunk (specZ spectrum) (fst first, snd last))
                      (noise_thres spectrum) true 0 in
           let pairs := peak_pairs_to_call peak_ind in
           t <- add_noise_sep_all t (fst pairs) (noise_thres spectrum) ;;
           match snd pairs with
           | Some e => Raise e
           | None => Ok t
           end) ;;
      (* minima only inside main peaks *)
      let limit := (noise_thres spectrum * 1.1)%float in
      minima <- PeakDetect.get_minima
                  (fill_with masked_Z (map (fun x => (x <? limit)%float) masked_Z) 1e-30%float) ;;
      t <- add_min_all t minima limit ;;
      let traversed := coords_to_id (traverse t [0]) in
      entries <-
        mapM (fun kv : Z * id_node =>
                mo <- (if polarimetric spectrum
                       then calc_moments spectrum (t_bounds (trav (snd kv))) (thres (trav (snd kv)))
                       else calc_moments_wo_LDR spectrum (t_bounds (trav (snd kv)))
                              (thres (trav (snd kv)))) ;;
                Ok (fst kv, {| node := snd kv; mom := fst mo |}))
             (map_to_list traversed) ;;
      Ok (list_to_map entries)
  | [] => Ok ∅
  end.

End TreeFromSpectrum.

(** ** Spectrum preparation: [peakTreeBuffer.get_tree_at] on a spectra file *)

(** [peakTreeBuffer.settings]. *)
Record Settings : Type := {
  st_decoupling : py_number;
  smooth : bool;
  grid_time : option float;
  max_no_nodes : Z;
  thres_factor_co : float;
  thres_factor_cx : float;
  LDR_available : bool;
  station_altitude : float
}.

(** The settings of [peakTreeBuffer.__init__] for the four systems. *)
Definition Lacros : Settings :=
  {| st_decoupling := py_int (-30); smooth := true; grid_time := Some 6%float;
     max_no_nodes := 15; thres_factor_co := 3%float; thres_factor_cx := 3%float;
     LDR_available := true; station_altitude := 12%float |}.

Definition Lacros_at_ACCEPT : Settings :=
  {| st_decoupling := py_int (-30); smooth := true; grid_time := Some 5%float;
     max_no_nodes := 15; thres_factor_co := 1.2%float; thres_factor_cx := 1.2%float;
     LDR_available := true; station_altitude := 12%float |}.

Definition Polarstern : Settings :=
  {| st_decoupling := py_int (-27); smooth := true; grid_time := Some 10%float;
     max_no_nodes := 15; thres_factor_co := 3%float; thres_factor_cx := 3%float;
     LDR_available := true; station_altitude := 12%float |}.

Definition Lindenberg : Settings :=
  {| st_decoupling := py_int (-25); smooth := true; grid_time := None;
     max_no_nodes := 15; thres_factor_co := 3%float; thres_factor_cx := 3%float;
     LDR_available := true; station_altitude := 100%float |}.

(** One velocity bin of the variables ['Z'], ['LDR'] and ['SNRco'] read at a
    time and range index. *)
Record raw_bin : Type := {
  raw_Z : float;
  raw_LDR : float;
  raw_SNRco : float
}.

(** What [get_tree_at] reads of the file: the bins of one time index
    ([temporal_average] false), or for each bin its samples over the time
    indices [it_b..it_e]. *)
Inductive cell_input : Type :=
| SingleCell (bins : list raw_bin)
| Window (bins : list (list raw_bin)).

Section Prepare.
Context `{H : Helpers} `{N : Numeric}.
#[local] Open Scope float_scope.

(** [np.average(a, axis=1)] of one row. *)
Definition np_average (row : list float) : float :=
  np_sum_row row / float_of_int (len row).

(** One output bin of a convolution: the products of [vrev] with the bins of
    [a] from position [start] on, over the positions inside [a]. *)
Definition dot_window (a vrev : list float) (start : Z) : float :=
  fold_left
    (fun acc (kv : Z * float) =>
       match py_get a (start + fst kv) with
       | Ok x => if (0 <=? start + fst kv)%Z then acc + x * snd kv else acc
       | Raise _ => acc
       end)
    (enumerate vrev) 0.

(** [np.convolve(a, v, mode='same')]. *)
Definition np_convolve_same (a v : list float) : res (list float) :=
  match a, v with
  | [], _ | _, [] => Raise ValueError_empty_convolve
  | _, _ =>
      let '(a, v) := if (len a <? len v)%Z then (v, a) else (a, v) in
      let n_left := (len v / 2)%Z in
      Ok (map (fun i : Z => dot_window a (rev v) (i - n_left)%Z)
              (map Z.of_nat (seq 0 (length a))))
  end.

(** The spectrum dict of [get_tree_at] for a file of type ['spec'], from
    the bins that were read.  [range] is the look-up [self.range[ir]], which
    the dict literal makes after the smoothing. *)
Definition prepare_spectrum_at (settings : Settings) (ts : float) (range : res float)
    (velocity : list float) (cell : cell_input) : res Spectrum :=
  let decoupling := st_decoupling settings in
  let '(specZ, specZ_mask, specLDR, specLDR_mask, specZcx, specZcx_mask,
        specSNRco, specSNRco_mask, no_averages) :=
    match cell with
    | SingleCell bins =>
        let specZ := map raw_Z bins in
        let specZ_mask := map (fun x => x =? 0) specZ in
        let specLDR := map raw_LDR bins in
        let specLDR_mask := map np_isnan specLDR in
        let specZcx := mul2 specZ specLDR in
        let specZcx_mask := map (fun p : bool * bool => fst p || snd p)
                              (combine specZ_mask specLDR_mask) in
        let specSNRco := map raw_SNRco bins in
        let specSNRco_mask := map (fun x => x =? 0) specSNRco in
        (specZ, specZ_mask, specLDR, specLDR_mask, specZcx, specZcx_mask,
         specSNRco, specSNRco_mask, 1%Z)
    | Window rows =>
        let no_averages := match rows with r :: _ => len r | [] => 0%Z end in
        let specZcx := map (fun r => np_average (map (fun b => raw_Z b * raw_LDR b) r)) rows in
        let specZ := map (fun r => np_average (map raw_Z r)) rows in
        let specLDR := map (fun p : float * float => fst p / snd p) (combine specZcx specZ) in
        let specZ_mask := map (fun x => negb (np_isfinite x) || (x =? 0)) specZ in
        let specZcx_mask := map (fun p : float * float =>
                                   negb (np_isfinite (fst p)) || negb (np_isfinite (snd p)))
                              (combine specZ specZcx) in
        let specLDR_mask := map (fun p : float * float =>
                                   (fst p =? 0) || negb (np_isfinite (snd p)))
                              (combine specZ specLDR) in
        let specSNRco := map (fun r => np_average (map raw_SNRco r)) rows in
        let specSNRco_mask := map (fun x => x =? 0) specSNRco in
        (specZ, specZ_mask, specLDR, specLDR_mask, specZcx, specZcx_mask,
         specSNRco, specSNRco_mask, no_averages)
    end in
  noise_thres <-
    (if np_all specZ_mask then Ok 1e-25
     else valid <- np_select specZ (map negb specZ_mask) ;;
          m <- np_min valid ;;
          Ok (m * z2lin (thres_factor_co settings))) ;;
  specZ <- (if smooth settings then np_convolve_same specZ [0.25; 0.5; 0.25] else Ok specZ) ;;
  range <- range ;;
  let specZ := rev specZ in
  let specZ_mask := rev specZ_mask in
  let specSNRco := rev specSNRco in
  let specSNRco_mask := rev specSNRco_mask in
  let specLDR := rev specLDR in
  let specLDR_mask := rev specLDR_mask in
  let specZcx := rev specZcx in
  let specZcx_mask := rev specZcx_mask in
  let specSNRcx := mul2 specSNRco specLDR in
  let specSNRcx_mask := map (fun p : bool * bool => fst p || snd p)
                          (combine specSNRco_mask specLDR_mask) in
  m <- np_nanmin specZcx ;;
  let thres_Zcx := m * z2lin (thres_factor_cx settings) in
  let Zcx_mask := map (fun x => (x <? thres_Zcx) || negb (np_isfinite x)) specZcx in
  let specLDRmasked := set_where specLDR Zcx_mask np_nan in
  let specZcx_mask := Zcx_mask in
  let specZcx_validcx := specZcx in
  let specZcx_validcx := set_where specZcx_validcx Zcx_mask 0 in
  let specZ_validcx := specZ in
  let specZcx_validcx := set_where specZcx_validcx Zcx_mask 0 in
  Ok {| ts := ts; range := range; vel := velocity;
        specZ := specZ; noise_thres := noise_thres; no_temp_avg := no_averages;
        specZ_mask := specZ_mask;
        specSNRco := specSNRco; specSNRco_mask := specSNRco_mask;
        specLDR := specLDR; specLDR_mask := specLDR_mask;
        polarimetric := true;
        specZcx := specZcx; specZcx_mask := specZcx_mask;
        specSNRcx := specSNRcx; specSNRcx_mask := specSNRcx_mask;
        specLDRmasked := specLDRmasked;
        specZcx_validcx := specZcx_validcx;
        specZ_validcx := specZ_validcx;
        decoupling := decoupling |}.

(** The spectrum dict for a range that was looked up. *)
Definition prepare_spectrum (settings : Settings) (ts range : float) (velocity : list float)
    (cell : cell_input) : res Spectrum :=
  prepare_spectrum_at settings ts (Ok range) velocity cell.

End Prepare.

(** ** Assembly: [peakTreeBuffer.assemble_time_height] *)

(** [l[i] = v] on an array axis. *)
Definition py_set {A : Type} (l : list A) (i : Z) (v : A) : res (list A) :=
  let j := if i <? 0 then i + len l else i in
  if (j <? 0) || (len l <=? j) then Raise IndexError
  else Ok (<[Z.to_nat j := v]> l).

(** [arr[it, ir] = v]. *)
Definition np_set2 {A : Type} (arr : list (list A)) (it ir : Z) (v : A) : res (list (list A)) :=
  row <- py_get arr it ;;
  row <- py_set row ir v ;;
  py_set arr it row.

(** [arr[it, ir, k] = v]. *)
Definition np_set3 {A : Type} (arr : list (list (list A))) (it ir k : Z) (v : A)
  : res (list (list (list A))) :=
  plane <- py_get arr it ;;
  plane <- np_set2 plane ir k v ;;
  py_set arr it plane.

(** [arr[it, ir]] and [arr[it, ir, k]]. *)
Definition np_get2 {A : Type} (arr : list (list A)) (it ir : Z) : res A :=
  row <- py_get arr it ;; py_get row ir.

Definition np_get3 {A : Type} (arr : list (list (list A))) (it ir k : Z) : res A :=
  plane <- py_get arr it ;; np_get2 plane ir k.

(** The arrays filled by the assembly. *)
Record Output : Type := {
  out_Z : list (list (list float));
  out_v : list (list (list float));
  out_width : list (list (list float));
  out_LDR : list (list (list float));
  out_skew : list (list (list float));
  out_bound_l : list (list (list float));
  out_bound_r : list (list (list float));
  out_parent : list (list (list float));
  out_thres : list (list (list float));
  out_ldrmax : list (list (list float));
  out_prominence : list (list (list float));
  out_no_nodes : list (list float)
}.

(** The arrays [Z], [v], ... of one node slot per cell, as a list. *)
Definition per_slot_fields (o : Output) : list (list (list (list float))) :=
  [out_Z o; out_v o; out_width o; out_LDR o; out_skew o; out_bound_l o; out_bound_r o;
   out_parent o; out_thres o; out_ldrmax o; out_prominence o].

(** [Z = np.zeros((nt, nr, max_no_nodes)); Z[:] = -999]; the other arrays
    are copies of it; [no_nodes = np.zeros((nt, nr))]. *)
Definition allocate (nt nr : nat) (max_no_nodes : Z) : Output :=
  let Z := replicate nt (replicate nr (replicate (Z.to_nat max_no_nodes) (-999)%float)) in
  {| out_Z := Z; out_v := Z; out_width := Z; out_LDR := Z; out_skew := Z;
     out_bound_l := Z; out_bound_r := Z; out_parent := Z; out_thres := Z;
     out_ldrmax := Z; out_prominence := Z;
     out_no_nodes := replicate nt (replicate nr 0%float) |}.

Section Assemble.
Context `{H : Helpers} `{N : Numeric}.

(** The body [for k in nodes_to_save: if k in travtree.keys(): ...] for one [k]. *)
Definition save_node (travtree : gmap Z tree_node) (it ir : Z) (o : Output) (k : Z)
  : res Output :=
  match travtree !! k with
  | None => Ok o
  | Some val =>
      Z <- np_set3 (out_Z o) it ir k (lin2z (z (mom val))) ;;
      v_ <- np_set3 (out_v o) it ir k (v (mom val)) ;;
      width_ <- np_set3 (out_width o) it ir k (width (mom val)) ;;
      LDR <- np_set3 (out_LDR o) it ir k (lin2z (ldr (mom val))) ;;
      skew_ <- np_set3 (out_skew o) it ir k (skew (mom val)) ;;
      bound_l <- np_set3 (out_bound_l o) it ir k
                   (float_of_int (fst (t_bounds (trav (node val))))) ;;
      bound_r <- np_set3 (out_bound_r o) it ir k
                   (float_of_int (snd (t_bounds (trav (node val))))) ;;
      parent <- np_set3 (out_parent o) it ir k (float_of_int (parent_id (node val))) ;;
      thres_ <- np_set3 (out_thres o) it ir k (lin2z (thres (trav (node val)))) ;;
      ldrmax_ <- np_set3 (out_ldrmax o) it ir k (lin2z (ldrmax (mom val))) ;;
      prominence_ <- np_set3 (out_prominence o) it ir k (lin2z (prominence (mom val))) ;;
      Ok {| out_Z := Z; out_v := v_; out_width := width_; out_LDR := LDR; out_skew := skew_;
            out_bound_l := bound_l; out_bound_r := bound_r; out_parent := parent;
            out_thres := thres_; out_ldrmax := ldrmax_; out_prominence := prominence_;
            out_no_nodes := out_no_nodes o |}
  end.

Fixpoint save_nodes (travtree : gmap Z tree_node) (it ir : Z) (o : Output) (ks : list Z)
  : res Output :=
  match ks with
  | [] => Ok o
  | k :: ks' => o' <- save_node travtree it ir o k ;; save_nodes travtree it ir o' ks'
  end.

(** The part of the loop body of [assemble_time_height] after the tree of
    the cell [(it, ir)] has been built. *)
Definition assemble_cell (max_no_nodes : Z) (it ir : Z) (travtree : gmap Z tree_node)
    (o : Output) : res Output :=
  let node_ids := map fst (map_to_list travtree) in
  let nodes_to_save := List.filter (fun i => i <? max_no_nodes) node_ids in
  no_nodes <- np_set2 (out_no_nodes o) it ir (float_of_int (len node_ids)) ;;
  let o := {| out_Z := out_Z o; out_v := out_v o; out_width := out_width o;
              out_LDR := out_LDR o; out_skew := out_skew o;
              out_bound_l := out_bound_l o; out_bound_r := out_bound_r o;
              out_parent := out_parent o; out_thres := out_thres o;
              out_ldrmax := out_ldrmax o; out_prominence := out_prominence o;
              out_no_nodes := no_nodes |} in
  save_nodes travtree it ir o nodes_to_save.

(** The loops of [assemble_time_height] over the grid, given the tree that
    [get_tree_at] builds for each cell. *)
Fixpoint assemble_cells (max_no_nodes : Z) (get_tree : Z -> Z -> res (gmap Z tree_node))
    (cells : list (Z * Z)) (o : Output) : res Output :=
  match cells with
  | [] => Ok o
  | (it, ir) :: cells' =>
      travtree <- get_tree it ir ;;
      o' <- assemble_cell max_no_nodes it ir travtree o ;;
      assemble_cells max_no_nodes get_tree cells' o'
  end.

(** [for it ...: for ir ...:], in the order of the loops. *)
Definition grid (nt nr : nat) : list (Z * Z) :=
  flat_map (fun it => map (fun ir => (Z.of_nat it, Z.of_nat ir)) (seq 0 nr)) (seq 0 nt).

Definition assemble_time_height (settings : Settings) (nt nr : nat)
    (get_tree : Z -> Z -> res (gmap Z tree_node)) : res Output :=
  assemble_cells (max_no_nodes settings) get_tree (grid nt nr)
    (allocate nt nr (max_no_nodes settings)).

End Assemble.

(** ** Trees read back: [peakTreeBuffer.get_tree_at] on a peakTree file *)

(** What [get_tree_at] reads for the node slot [k] of a cell: the scalars
    [np.asscalar(self.f.variables[...][it,ir,k])] of the variables;
    [slot_parent] is the integer [int(np.asscalar(parent[it,ir,k]))]. *)
Record slot : Type := {
  slot_parent : Z;
  slot_threshold : float;
  slot_width : float;
  slot_Z : float;
  slot_bound_l : Z;
  slot_bound_r : Z;
  slot_skew : float;
  slot_prominence : float;
  slot_v : float;
  slot_LDR : float;
  slot_ldrmax : float
}.

(** The node dict of a tree that is read back. *)
Record loaded_node : Type := {
  ld_parent_id : Z;
  ld_thres : float;
  ld_width : float;
  ld_z : float;
  ld_bounds : Z * Z;
  ld_skew : float;
  ld_prominence : float;
  ld_v : float;
  ld_ldr : float;
  ld_ldrmax : float;
  ld_coords : list Z
}.

Section LoadTree.
Context `{H : Helpers} `{N : Numeric}.

(** The body of [for k in avail_nodes.tolist():]; [has_LDR] is
    ['LDR' in self.f.variables.keys()]. *)
Definition load_node (has_LDR : bool) (read : Z -> slot) (travtree : gmap Z loaded_node)
    (k : Z) : res (gmap Z loaded_node) :=
  let node := fun coords : list Z =>
    {| ld_parent_id := slot_parent (read k);
       ld_thres := z2lin (slot_threshold (read k));
       ld_width := slot_width (read k);
       ld_z := z2lin (slot_Z (read k));
       ld_bounds := (slot_bound_l (read k), slot_bound_r (read k));
       ld_skew := slot_skew (read k);
       ld_prominence := z2lin (slot_prominence (read k));
       ld_v := slot_v (read k);
       ld_ldr := if has_LDR then z2lin (slot_LDR (read k)) else (-99)%float;
       ld_ldrmax := if has_LDR then z2lin (slot_ldrmax (read k)) else (-99)%float;
       ld_coords := coords |} in
  if negb (slot_parent (read k) =? -999) then
    if k =? 0 then Ok (<[k := node [0]]> travtree)
    else
      match travtree !! slot_parent (read k) with
      | None => Raise KeyError
      | Some parent =>
          let coords := ld_coords parent in
          Ok (<[k := node (if k mod 2 =? 0 then coords ++ [1] else coords ++ [0])]> travtree)
      end
  else Ok travtree.

Fixpoint load_nodes (has_LDR : bool) (read : Z -> slot) (travtree : gmap Z loaded_node)
    (avail_nodes : list Z) : res (gmap Z loaded_node) :=
  match avail_nodes with
  | [] => Ok travtree
  | k :: avail_nodes' =>
      travtree' <- load_node has_LDR read travtree k ;;
      load_nodes has_LDR read travtree' avail_nodes'
  end.

(** The tree [get_tree_at] returns for a file of type ['peakTree'], given the
    slots [avail_nodes] whose parent is not masked. *)
Definition load_tree (has_LDR : bool) (read : Z -> slot) (avail_nodes : list Z)
  : res (gmap Z loaded_node) :=
  load_nodes has_LDR read ∅ avail_nodes.

End LoadTree.

(** ** Timestamps *)

(** The builtin [min(seq, key=key)] on a sequence that begins with [best]:
    the first element with the least key. *)
Fixpoint min_by_key (key : float -> float) (best : float) (rest : list float) : float :=
  match rest with
  | [] => best
  | t :: rest' =>
      if (key t <? key best)%float then min_by_key key t rest'
      else min_by_key key best rest'
  end.

(** [time_index(timestamps, sel_ts)]: the index of a timestamp in the list,
    [np.where(timestamps == min(timestamps, key=lambda t: abs(sel_ts - t)))[0][0]]. *)
Definition time_index (timestamps : list float) (sel_ts : float) : res Z :=
  match timestamps with
  | [] => Raise ValueError_min_of_empty_sequence
  | t0 :: rest =>
      let nearest := min_by_key (fun t => abs (sel_ts - t)%float) t0 rest in
      py_get (np_where (map (fun t => (t =? nearest)%float) timestamps)) 0
  end.

(** ** A tree of the spectra file: [peakTreeBuffer.get_tree_at] *)

(** A [peakTreeBuffer] after [load_spec_file]: its settings, the axes and
    [delta_ts] of the file, and what the file gives for the variables
    ['Z'], ['LDR'] and ['SNRco'], which have the same dimensions:
    [buf_read ir it] is [self.f.variables[...][:,ir,it]], and
    [buf_read_window ir it_b it_e] is [self.f.variables[...][:,ir,it_b:it_e+1]],
    for each velocity bin its samples over the time indices.  The arrays are
    plain [float64] arrays: the file has no fill values. *)
Record SpecBuffer : Type := {
  buf_settings : Settings;
  buf_timestamps : list float;
  buf_range : list float;
  buf_velocity : list float;
  buf_delta_ts : float;
  buf_read : Z -> Z -> res (list raw_bin);
  buf_read_window : Z -> Z -> Z -> res (list (list raw_bin))
}.

(** The arguments [sel_ts] and [sel_range]: both a tuple [(index, value)],
    or both a value. *)
Inductive selection : Type :=
| by_index (it : Z) (sel_ts : float) (ir : Z) (sel_range : float)
| by_value (sel_ts sel_range : float).

(** The argument [temporal_average]: [False], a tuple of time bins, or a
    number of seconds. *)
Inductive averaging : Type :=
| no_average
| average_bins (it_b it_e : Z)
| average_seconds (seconds : float).

Section GetTreeAt.
Context `{H : Helpers} `{N : Numeric}.
#[local] Open Scope float_scope.

(** [get_tree_at(sel_ts, sel_range, temporal_average, silent=True)] on a
    buffer of type ['spec']: the traversed tree and the spectrum.  The
    branch for a buffer of type ['peakTree'] is [load_tree]. *)
Definition get_tree_at (self : SpecBuffer) (sel : selection) (temporal_average : averaging)
  : res (gmap Z tree_node * Spectrum) :=
  picked <-
    match sel with
    | by_index it sel_ts ir sel_range => Ok (it, sel_ts, ir)
    | by_value sel_ts sel_range =>
        it <- time_index (buf_timestamps self) sel_ts ;;
        ir <- time_index (buf_range self) sel_range ;;
        Ok (it, sel_ts, ir)
    end ;;
  let '(it, sel_ts, ir) := picked in
  ts <- py_get (buf_timestamps self) it ;;
  if negb (abs (sel_ts - ts) <? buf_delta_ts self) then Raise AssertionError
  else
    window <-
      match temporal_average with
      | no_average => Ok None
      | average_bins it_b it_e => Ok (Some (it_b, it_e))
      | average_seconds seconds =>
          if seconds =? 0 then Ok None
          else
            it_b <- time_index (buf_timestamps self) (sel_ts - seconds / 2) ;;
            it_e <- time_index (buf_timestamps self) (sel_ts + seconds / 2) ;;
            ts_e <- py_get (buf_timestamps self) it_e ;;
            ts_b <- py_get (buf_timestamps self) it_b ;;
            if negb (ts_e - ts_b <? 15) then Raise AssertionError
            else Ok (Some (it_b, it_e))
      end ;;
    cell <-
      match window with
      | None => bins <- buf_read self ir it ;; Ok (SingleCell bins)
      | Some (it_b, it_e) => rows <- buf_read_window self ir it_b it_e ;; Ok (Window rows)
      end ;;
    spectrum <- prepare_spectrum_at (buf_settings self) ts (py_get (buf_range self) ir)
                  (buf_velocity self) cell ;;
    travtree <- tree_from_spectrum spectrum ;;
    Ok (travtree, spectrum).

End GetTreeAt.

(** * Vocabulary of the properties *)

(** ** Sums, runs and ascending lists *)

(** [sigma n f] is the sum of [f k] over [k] in [0..n-1]. *)
Fixpoint sigma (n : nat) (f : nat -> Z) : Z :=
  match n with
  | O => 0
  | S m => sigma m f + f m
  end.

(** A list of peaks in strictly ascending order, pairwise disjoint: every
    peak ends before each later peak begins. *)
Definition ascending_disjoint (peak_ind : list bounds_t) : Prop :=
  Forall (fun p : bounds_t => fst p <= snd p) peak_ind
  /\ StronglySorted (fun p q : bounds_t => snd p < fst q) peak_ind.

(** [above array thres i]: [i] is a bin of the array and [array[i] > thres]. *)
Definition above (array : list float) (thres : float) (i : Z) : bool :=
  (0 <=? i) &&
  match nth_error array (Z.to_nat i) with
  | Some x => (thres <? x)%float
  | None => false
  end.

(** A maximal run of bins above the threshold. *)
Definition maximal_run (array : list float) (thres : float) (l r : Z) : Prop :=
  l <= r
  /\ (forall i, l <= i <= r -> above array thres i = true)
  /\ above array thres (l - 1) = false
  /\ above array thres (r + 1) = false.

(** The positions of [ind], counted from [i], after which the next index is
    not the successor. *)
Fixpoint jumps_from (i : Z) (ind : list Z) : list Z :=
  match ind with
  | x :: ((y :: _) as ind') =>
      if negb (y - x =? 1) then i :: jumps_from (i + 1) ind' else jumps_from (i + 1) ind'
  | _ => []
  end.

(** The runs of consecutive indices of [x :: rest], read from the left; the
    current run began at [a]. *)
Fixpoint scan_runs (a x : Z) (rest : list Z) : list bounds_t :=
  match rest with
  | [] => [(a, x)]
  | y :: rest' => if y - x =? 1 then scan_runs a y rest' else (a, x) :: scan_runs y y rest'
  end.

(** [(elem[0], elem[-1])] of a run. *)
Definition first_last (elem : list Z) : res bounds_t :=
  a <- py_get elem 0 ;; b <- py_get elem (-1) ;; Ok (a, b).

(** [run_of S l r]: [l..r] is a maximal interval of the set [S]. *)
Definition run_of (S : Z -> Prop) (l r : Z) : Prop :=
  l <= r /\ (forall i, l <= i <= r -> S i) /\ ~ S (l - 1) /\ ~ S (r + 1).

(** ** Trees under insertion *)

(** [all_nodes P t]: [P] holds of [t] and of every node below it. *)
Inductive all_nodes (P : Node -> Prop) : Node -> Prop :=
| all_nodes_here (n : Node) :
    P n -> Forall (all_nodes P) (children n) -> all_nodes P n.

(** A call of one of the two insertion methods. *)
Inductive call : Type :=
| call_add_noise_sep (bounds_left bounds_right : bounds_t) (thres : float)
| call_add_min (new_index : Z) (current_thres : float) (ignore_prom : bool).

Definition run_call `{H : Helpers} (t : Node) (c : call) : Node * res unit :=
  match c with
  | call_add_noise_sep bl br thres => add_noise_sep t bl br thres
  | call_add_min m thres ign => add_min t m thres ign
  end.

(** A root node as its constructor makes it. *)
Definition root_node (t : Node) : Prop :=
  exists b spec_chunk noise_thres, t = Node_init b spec_chunk noise_thres true 0.

(** [reachable ok t0 t]: [t] is the state of the tree [t0] after a sequence
    of calls that satisfy [ok]; a call that raises leaves the state it had
    when the exception came. *)
Inductive reachable `{H : Helpers} (ok : Node -> call -> Prop) (t0 : Node) : Node -> Prop :=
| reachable_start : reachable ok t0 t0
| reachable_call (t : Node) (c : call) :
    reachable ok t0 t -> ok t c -> reachable ok t0 (fst (run_call t c)).

Definition any_call (t : Node) (c : call) : Prop := True.

(** The filters of the two methods. *)
Definition fits_pair (bounds_left bounds_right : bounds_t) (x : Node) : bool :=
  (fst (bounds x) <=? fst bounds_left) && (snd bounds_right <=? snd (bounds x)).

Definition fits_index (new_index : Z) (x : Node) : bool :=
  (fst (bounds x) <=? new_index) && (new_index <=? snd (bounds x)).

Definition call_fits (c : call) : Node -> bool :=
  match c with
  | call_add_noise_sep bl br _ => fits_pair bl br
  | call_add_min m _ _ => fits_index m
  end.

(** An insertion is routed when every node it reaches that has children has
    exactly one fitting child. *)
Fixpoint routed (fits : Node -> bool) (n : Node) : bool :=
  match children n with
  | [] => true
  | cs => (len (List.filter fits cs) =? 1)
          && forallb (fun c => if fits c then routed fits c else true) cs
  end.

Definition routed_call (t : Node) (c : call) : Prop := routed (call_fits c) t = true.

(** The end of both insertion methods: append the new children, or leave the
    node as it is when the computation of the prominences raised. *)
Definition insert_here (self : Node) (new : res (list Node)) : Node * res unit :=
  match new with
  | Ok new => (append_children self new, Ok tt)
  | Raise e => (self, Raise e)
  end.

(** What an insertion may append at a node: nothing, or a left and a right
    leaf with the bounds [b1] and [b2]. *)
Definition new_nodes (b1 b2 : Node -> bounds_t) (n : Node) (new : list Node) : Prop :=
  new = [] \/
  exists c1 c2, new = [c1; c2] /\ bounds c1 = b1 n /\ bounds c2 = b2 n
                /\ children c1 = [] /\ children c2 = [].

(** [ins_step fits new_ok g n n']: an insertion took the node [n] to [n'].
    It left the node as it was, or appended new children at a node where not
    exactly one child fits, or went into the one fitting child.  With [g] the
    node itself is known to fit. *)
Inductive ins_step (fits : Node -> bool) (new_ok : Node -> list Node -> Prop)
  : bool -> Node -> Node -> Prop :=
| ins_same (g : bool) (n : Node) : ins_step fits new_ok g n n
| ins_append (g : bool) (n : Node) (new : list Node) :
    (g = true -> fits n = true) ->
    len (List.filter fits (children n)) <> 1 ->
    new_ok n new ->
    ins_step fits new_ok g n (append_children n new)
| ins_descend (g : bool) (n : Node) (pre post : list Node) (c c' : Node) :
    children n = pre ++ c :: post ->
    len (List.filter fits (children n)) = 1 ->
    fits c = true ->
    ins_step fits new_ok true c c' ->
    ins_step fits new_ok g n (with_children n (pre ++ c' :: post)).

Section InsertedChildren.
Context `{H : Helpers} `{N : Numeric}.

Definition noise_children (self : Node) (bounds_left bounds_right : bounds_t) (thres : float)
  : res (list Node) :=
  let spec_left := py_slice (spec self) (Some (fst bounds_left - fst (bounds self)))
                     (Some (snd bounds_left + 1 - fst (bounds self))) in
  let spec_right := py_slice (spec self) (Some (fst bounds_right - fst (bounds self)))
                      (Some (snd bounds_right + 1 - fst (bounds self))) in
  prom_left <- prominence_of spec_left thres ;;
  prom_right <- prominence_of spec_right thres ;;
  if (prom_filter self <? lin2z prom_left)%float
     && (prom_filter self <? lin2z prom_right)%float
  then Ok [Node_init bounds_left spec_left thres false (level self);
           Node_init bounds_right spec_right thres false (level self)]
  else Ok [].

Definition min_children (self : Node) (new_index : Z) (current_thres : float)
    (ignore_prom : bool) : res (list Node) :=
  let spec_left := py_slice (spec self) None (Some (new_index + 1 - fst (bounds self))) in
  let spec_right := py_slice (spec self) (Some (new_index - fst (bounds self))) None in
  prom_left <- prominence_of spec_left current_thres ;;
  prom_right <- prominence_of spec_right current_thres ;;
  let cond_prom := [(prom_filter self <? lin2z prom_left)%float;
                    (prom_filter self <? lin2z prom_right)%float] in
  if np_all cond_prom || ignore_prom
  then Ok [Node_init (fst (bounds self), new_index) spec_left current_thres
             false (level self);
           Node_init (new_index, snd (bounds self)) spec_right current_thres
             false (level self)]
  else Ok [].

End InsertedChildren.

Definition even_children (n : Node) : Prop := Nat.Even (length (children n)).

Definition two_children (n : Node) : Prop :=
  length (children n) = 0%nat \/ length (children n) = 2%nat.

(** The bounds of [c] lie inside the bounds of [p]. *)
Definition contained (p c : Node) : Prop :=
  fst (bounds p) <= fst (bounds c) /\ snd (bounds c) <= snd (bounds p).

Definition children_contained (p : Node) : Prop := Forall (contained p) (children p).

(** The child's interval is strictly narrower than the parent's. *)
Definition narrower (p c : Node) : Prop :=
  snd (bounds c) - fst (bounds c) < snd (bounds p) - fst (bounds p).

(** A call whose noise separated pair is ordered and lies inside the bounds
    of the tree's root; every add_min call. *)
Definition inside_call (t : Node) (c : call) : Prop :=
  match c with
  | call_add_noise_sep bl br _ =>
      fst bl <= snd bl /\ snd bl < fst br /\ fst br <= snd br /\ fits_pair bl br t = true
  | call_add_min _ _ _ => True
  end.

(** The spectrum chunk of a node has a bin for every index of its bounds. *)
Definition spec_covers (n : Node) : Prop :=
  snd (bounds n) - fst (bounds n) < len (spec n).

(** A spectrum chunk of eleven bins, and a root node over the bins 0..10. *)
Definition flat_chunk : list float := repeat 10%float 11.

Definition flat_root : Node := Node_init (0, 10) flat_chunk 1%float true 0.

(** ** Cells and spectra *)

Section CellArrays.
Context `{N : Numeric}.
#[local] Open Scope float_scope.

(** The reflectivity [Z] of the cell before smoothing and reversal: the bins
    read for one time index, or their averages over the window. *)
Definition cell_Z (cell : cell_input) : list float :=
  match cell with
  | SingleCell bins => map raw_Z bins
  | Window rows => map (fun r => np_average (map raw_Z r)) rows
  end.

(** The mask of [Z]: a masked bin is invalid. *)
Definition cell_Z_mask (cell : cell_input) : list bool :=
  match cell with
  | SingleCell bins => map (fun x => x =? 0) (cell_Z cell)
  | Window rows => map (fun x => negb (np_isfinite x) || (x =? 0)) (cell_Z cell)
  end.


(** The cross-polar reflectivity [Zcx = Z * LDR] of the cell. *)
Definition cell_Zcx (cell : cell_input) : list float :=
  match cell with
  | SingleCell bins => mul2 (map raw_Z bins) (map raw_LDR bins)
  | Window rows => map (fun r => np_average (map (fun b => raw_Z b * raw_LDR b) r)) rows
  end.

(** The validity mask of [Zcx] for the threshold [thres_Zcx]. *)
Definition Zcx_mask_of (thres_Zcx : float) (specZcx : list float) : list bool :=
  map (fun x => (x <? thres_Zcx) || negb (np_isfinite x)) specZcx.

End CellArrays.

(** A cell of eight bins: a peak on a floor, one bin without reflectivity
    and one without depolarization ratio. *)
Definition example_bin (z l : float) : raw_bin :=
  {| raw_Z := z; raw_LDR := l; raw_SNRco := z |}.

Definition example_bins : list raw_bin :=
  [example_bin 1 0.5; example_bin 1 nan; example_bin 16 0.25;
   example_bin 32 0.25; example_bin 16 0.25; example_bin 1 0.5;
   example_bin 0 0.5; example_bin 1 0.5]%float.

Definition example_cell : cell_input := SingleCell example_bins.

Definition example_velocity : list float := [-4; -3; -2; -1; 0; 1; 2; 3]%float.

(** A spectra file of three times and two ranges that holds the cell above
    at every time and range. *)
Definition example_buffer : SpecBuffer :=
  {| buf_settings := Lindenberg;
     buf_timestamps := [0; 2; 4]%float;
     buf_range := [100; 130]%float;
     buf_velocity := example_velocity;
     buf_delta_ts := 2%float;
     buf_read := fun ir it =>
       if (0 <=? ir) && (ir <? 2) && (0 <=? it) && (it <? 3)
       then Ok example_bins else Raise IndexError;
     buf_read_window := fun ir it_b it_e =>
       if (0 <=? ir) && (ir <? 2)
       then Ok (map (fun b => repeat b (Z.to_nat (Z.min 3 (it_e + 1) - Z.max 0 it_b)))
                  example_bins)
       else Raise IndexError |}.

(** The bins [l..r] of an array, both included, for [0 <= l]. *)
Definition bins_of {A : Type} (a : list A) (l r : Z) : list A :=
  firstn (Z.to_nat (r - l + 1)) (skipn (Z.to_nat l) a).

(** One of the bins [l..r] is valid in a mask: the mask is false there. *)
Definition valid_bin (mask : list bool) (l r : Z) : Prop :=
  exists i, l <= i <= r /\ nth_error mask (Z.to_nat i) = Some false.

(** A float that is a number: not NaN and not infinite. *)
Definition finite (x : float) : bool :=
  match Prim2SF x with
  | S754_zero _ | S754_finite _ _ _ => true
  | S754_infinity _ | S754_nan => false
  end.

(** Numerically zero: within [1e-8] of zero. *)
Definition numerically_zero (x : float) : bool := (abs x <=? 1e-8)%float.

(** What is stored of a ratio: the ratio if it is a number and not
    numerically zero, NaN if not. *)
Definition stored_ratio (ratio : float) : float :=
  if finite ratio && negb (numerically_zero ratio) then ratio else nan.

(** The rows of the per-slot arrays, and the node count, of one cell. *)
Definition cell_rows (o : Output) (it ir : Z) : list (res (list float)) :=
  map (fun arr => np_get2 arr it ir) (per_slot_fields o).

Definition cell_count (o : Output) (it ir : Z) : res float :=
  np_get2 (out_no_nodes o) it ir.

(** A constant spectrum at 1e-30 under a noise threshold of 1e-20. *)
Definition constant_spectrum : Spectrum :=
  {| ts := 0%float; range := 0%float; vel := example_velocity;
     specZ := repeat 1e-30%float 8; noise_thres := 1e-20%float; no_temp_avg := 1;
     specZ_mask := repeat false 8;
     specSNRco := repeat 1%float 8; specSNRco_mask := repeat false 8;
     specLDR := repeat 0.5%float 8; specLDR_mask := repeat false 8;
     polarimetric := true;
     specZcx := repeat 5e-31%float 8; specZcx_mask := repeat true 8;
     specSNRcx := repeat 0.5%float 8; specSNRcx_mask := repeat false 8;
     specLDRmasked := repeat nan 8;
     specZcx_validcx := repeat 0%float 8;
     specZ_validcx := repeat 1e-30%float 8;
     decoupling := py_int (-25) |}.

(** ** Binary coordinates and traversals *)

(** The coordinates of the nodes of a binary tree below the root [[0]]: each
    step appends the child index 0 or 1. *)
Inductive binary_coords : list Z -> Prop :=
| binary_root : binary_coords [0]
| binary_child (coord : list Z) (i : Z) :
    binary_coords coord -> i = 0 \/ i = 1 -> binary_coords (coord ++ [i]).

(** The loop of [traverse] over the children, counting from [i]. *)
Fixpoint traverse_children (i : Z) (cs : list Node) (coords : list Z) : list traversed_node :=
  match cs with
  | [] => []
  | c :: cs' => traverse c (coords ++ [i]) ++ traverse_children (i + 1) cs' coords
  end.

(** The node reached from [n] by following the child indices of [path]. *)
Fixpoint node_at (n : Node) (path : list Z) : option Node :=
  match path with
  | [] => Some n
  | i :: path' =>
      if i <? 0 then None
      else match nth_error (children n) (Z.to_nat i) with
           | Some c => node_at c path'
           | None => None
           end
  end.

(** The number of nodes of a tree. *)
Fixpoint node_count (n : Node) : nat :=
  S ((fix below (cs : list Node) : nat :=
        match cs with
        | [] => O
        | c :: cs' => (node_count c + below cs')%nat
        end) (children n)).

(** What [traverse] yields for a node. *)
Definition describe (coords : list Z) (n : Node) : traversed_node :=
  {| coords := coords; t_bounds := bounds n; thres := threshold n |}.

(** [coord[:-1]]: the coordinate of the parent. *)
Definition parent_coords (coord : list Z) : list Z := py_slice coord None (Some (-1)).

(** One pass of the loop of [coords_to_id]. *)
Definition coords_step (traversed_id : gmap Z id_node) (node : traversed_node)
  : gmap Z id_node :=
  let k := full_tree_id (coords node) in
  let traversed_id := <[k := {| trav := node; parent_id := -1 |}]> traversed_id in
  let parent :=
    List.filter
      (fun kv : Z * id_node =>
         bool_decide (coords (trav (snd kv)) = parent_coords (coords node)))
      (map_to_list traversed_id) in
  let pid := match parent with
             | [kv] => fst kv
             | _ => -1
             end in
  <[k := {| trav := node; parent_id := pid |}]> traversed_id.

(** The entry of a node whose parent, if it has one, was traversed before it. *)
Definition id_entry (n : traversed_node) : id_node :=
  {| trav := n;
     parent_id := if len (coords n) =? 1 then -1
                  else full_tree_id (parent_coords (coords n)) |}.

(** In a traversal every node but the root [[0]] comes after its parent;
    [seen] are the coordinates met before the traversal. *)
Definition parents_in (seen : list (list Z)) (tr : list traversed_node) : Prop :=
  forall pre x post,
    tr = pre ++ x :: post ->
    coords x = [0] \/ In (parent_coords (coords x)) (seen ++ map coords pre).

(** A traversal of a binary tree from the root [[0]]. *)
Definition binary_traversal (tr : list traversed_node) : Prop :=
  NoDup (map coords tr)
  /\ Forall (fun n => binary_coords (coords n)) tr
  /\ parents_in [] tr.

(** A node with at most two children. *)
Definition at_most_two (n : Node) : Prop := (length (children n) <= 2)%nat.

(** ** Trees read back *)

(** A tree of three nodes: a root over the bins 0..10 with a left and a
    right child. *)
Definition three_nodes : Node :=
  append_children flat_root
    [Node_init (0, 5) (repeat 10%float 6) 2%float false 0;
     Node_init (5, 10) (repeat 10%float 6) 2%float false 0].

(** A file slot that holds only a parent id. *)
Definition parent_slot (parent : Z) : slot :=
  {| slot_parent := parent; slot_threshold := 0%float; slot_width := 0%float;
     slot_Z := 0%float; slot_bound_l := 0; slot_bound_r := 0; slot_skew := 0%float;
     slot_prominence := 0%float; slot_v := 0%float; slot_LDR := 0%float;
     slot_ldrmax := 0%float |}.

(** ** Nodes under insertion *)

Section InsertedExactly.
Context `{H : Helpers} `{N : Numeric}.

(** What the two methods append at a node, exactly. *)
Definition noise_new (bl br : bounds_t) (thres : float) (n : Node) (new : list Node) : Prop :=
  noise_children n bl br thres = Ok new.

Definition min_new (m : Z) (thres : float) (n : Node) (new : list Node) : Prop :=
  exists ignore_prom, min_children n m thres ignore_prom = Ok new.

End InsertedExactly.

(** The children of a node are one level below it. *)
Definition level_below (n : Node) : Prop :=
  Forall (fun c => level c = level n + 1) (children n).

(** A node holds the bins of the array [Zs] between its bounds, and its
    bounds lie between [lo] and [hi]. *)
Definition holds_chunk (Zs : list float) (lo hi : Z) (n : Node) : Prop :=
  spec n = chunk Zs (bounds n)
  /\ lo <= fst (bounds n) /\ fst (bounds n) <= snd (bounds n) /\ snd (bounds n) <= hi.

(** A noise separated pair in ascending order. *)
Definition ordered_pair (bl br : bounds_t) : Prop :=
  fst bl <= snd bl /\ snd bl < fst br /\ fst br <= snd br.

(** ** Gaps and hulls of peak lists *)

(** The gap between a peak and the next one. *)
Definition gap (pq : bounds_t * bounds_t) : Z := fst (snd pq) - snd (fst pq).

(** The gaps of a list of peaks, from the left. *)
Definition gaps (peak_ind : list bounds_t) : list Z := map gap (zip_next peak_ind).

(** The hull of a list of peaks: [(peak_ind[0][0], peak_ind[-1][-1])]. *)
Definition hull (peak_ind : list bounds_t) : bounds_t :=
  (fst (hd (0, 0) peak_ind), snd (List.last peak_ind (0, 0))).

(** ** Minima *)

(** The bin [i] of an array, for an index that is not negative. *)
Definition bin (array : list float) (i : Z) : option float :=
  if i <? 0 then None else nth_error array (Z.to_nat i).

(** The spectrum falls, rises or stays level from a bin to the next one, by
    the sign of their difference. *)
Definition falls (x y : float) : bool := (y - x <? 0)%float.
Definition rises (x y : float) : bool := (0 <? y - x)%float.
Definition stays (x y : float) : bool := (y - x =? 0)%float.

(** A minimum at the bin [i] with the value [v]: the spectrum falls into the
    bin and rises out of it, or it falls into the bin before, stays level
    and rises out of [i]. *)
Definition minimum_at (array : list float) (i : Z) (v : float) : Prop :=
  exists x z,
    bin array (i - 1) = Some x /\ bin array i = Some v /\ bin array (i + 1) = Some z
    /\ rises v z = true
    /\ (falls x v = true
        \/ (stays x v = true /\ exists w, bin array (i - 2) = Some w /\ falls w x = true)).

(** The mask [rising_all] of [get_minima]. *)
Definition rising_all (array : list float) : list bool :=
  let sdiff := np_diff (map np_sign (np_diff array)) in
  let rising_1 := map (fun d => (d =? 2)%float) sdiff in
  let rising_2 :=
    map (fun dd : float * float => (fst dd =? 1)%float && (snd dd =? 1)%float)
        (combine (py_slice sdiff None (Some (-1))) (py_slice sdiff (Some 1) None)) in
  match rising_1 with
  | [] => []
  | b :: rest => b :: PeakDetect.zip_or rest rising_2
  end.

(** The minima of [get_minima] before they are sorted. *)
Definition minima_in_order (array : list float) : res (list (Z * float)) :=
  mapM (fun i => v <- py_get array i ;; Ok (i, v))
       (map (fun i => i + 1) (np_where (rising_all array))).

(** The order of [sorted(minima, key=lambda x: x[1])] on minima of different
    bins: by value, and by bin where the values are equal. *)
Definition value_then_bin (p q : Z * float) : Prop :=
  (snd p <=? snd q)%float = true
  /\ ((snd q <=? snd p)%float = true -> fst p < fst q).

(** ** Slots, weights and lengths *)

(** The node slot [k] of a cell in the per-slot arrays. *)
Definition slot_values (o : Output) (it ir k : Z) : list (res float) :=
  map (fun arr => np_get3 arr it ir k) (per_slot_fields o).

Section NodeValues.
Context `{H : Helpers} `{N : Numeric}.

(** What the assembly stores of a node, in the order of the arrays. *)
Definition node_values (val : tree_node) : list float :=
  [lin2z (z (mom val)); v (mom val); width (mom val); lin2z (ldr (mom val));
   skew (mom val);
   float_of_int (fst (t_bounds (trav (node val))));
   float_of_int (snd (t_bounds (trav (node val))));
   float_of_int (parent_id (node val));
   lin2z (thres (trav (node val))); lin2z (ldrmax (mom val));
   lin2z (prominence (mom val))].

End NodeValues.

(** The reflectivity that weights the moments of [calc_moments]: masked bins
    and bins below the threshold count as zero. *)
Definition weights (s : Spectrum) (thres : float) : list float :=
  let masked_Z := fill_with (specZ s) (specZ_mask s) 0%float in
  fill_with masked_Z (map (fun x => (x <? thres)%float) masked_Z) 0%float.

(** The arrays of a spectrum that [tree_from_spectrum] and the moments index
    have the length of ['specZ']. *)
Definition same_lengths (s : Spectrum) : Prop :=
  Forall (fun n => n = length (specZ s))
    [length (vel s); length (specZ_mask s); length (specSNRco s); length (specLDR s);
     length (specZcx s); length (specZcx_mask s)].

(** A spectrum with one peak over the bins 2..4 on a floor of 1e-30, under a
    noise threshold of 1e-20. *)
Definition peak_spectrum : Spectrum :=
  {| ts := 0%float; range := 0%float; vel := example_velocity;
     specZ := [1e-30; 1e-30; 16; 32; 16; 1e-30; 1e-30; 1e-30]%float;
     noise_thres := 1e-20%float; no_temp_avg := 1;
     specZ_mask := repeat false 8;
     specSNRco := [1; 1; 16; 32; 16; 1; 1; 1]%float; specSNRco_mask := repeat false 8;
     specLDR := repeat 0.5%float 8; specLDR_mask := repeat false 8;
     polarimetric := true;
     specZcx := repeat 5e-31%float 8; specZcx_mask := repeat true 8;
     specSNRcx := repeat 0.5%float 8; specSNRcx_mask := repeat false 8;
     specLDRmasked := repeat nan 8;
     specZcx_validcx := repeat 0%float 8;
     specZ_validcx := [1e-30; 1e-30; 16; 32; 16; 1e-30; 1e-30; 1e-30]%float;
     decoupling := py_int (-25) |}.

(** * Properties *)

(** ** Level-order ids *)

Lemma sigma_ext (n : nat) (f g : nat -> Z) :
  (forall k, (k < n)%nat -> f k = g k) -> sigma n f = sigma n g.
Proof.
  induction n as [|n IH]; intros Hfg; simpl; [reflexivity|].
  rewrite IH by (intros; apply Hfg; lia). rewrite Hfg by lia. reflexivity.
Qed.

Lemma sigma_shift (n : nat) (f : nat -> Z) :
  sigma (S n) f = f O + sigma n (fun k => f (S k)).
Proof.
  induction n as [|n IH]; [simpl; lia|].
  change (sigma (S (S n)) f) with (sigma (S n) f + f (S n)).
  rewrite IH. simpl. lia.
Qed.

Lemma full_tree_id_loop (r : list Z) :
  forall i acc,
    fold_left (fun idx (p : Z * Z) => if snd p =? 1 then idx + 2 ^ fst p else idx)
      (enumerate_from i r) acc
    = acc + sigma (length r)
              (fun k => if nth k r 0 =? 1 then 2 ^ (i + Z.of_nat k) else 0).
Proof.
  induction r as [|x r IH]; intros i acc.
  - simpl. lia.
  - change (length (x :: r)) with (S (length r)).
    rewrite sigma_shift. cbn [enumerate_from fold_left snd fst].
    rewrite IH.
    assert (E : sigma (length r)
                  (fun k => if nth (S k) (x :: r) 0 =? 1 then 2 ^ (i + Z.of_nat (S k)) else 0)
                = sigma (length r)
                    (fun k => if nth k r 0 =? 1 then 2 ^ (i + 1 + Z.of_nat k) else 0)).
    { apply sigma_ext. intros k _. cbn [nth].
      replace (i + Z.of_nat (S k)) with (i + 1 + Z.of_nat k) by lia. reflexivity. }
    rewrite E. cbn [nth]. rewrite Z.add_0_r. destruct (x =? 1); lia.
Qed.

(** C1: for a coordinate list of length n > 0 with entries 0 or 1,
    [full_tree_id] is [2^(n-1) - 1] plus the sum over k in 0..n-1 of
    [coord[n-1-k] * 2^k]; the four ids of its docstring follow. *)
Theorem full_tree_id_formula :
  (forall coord : list Z,
      (0 < length coord)%nat ->
      Forall (fun c => c = 0 \/ c = 1) coord ->
      full_tree_id coord
      = 2 ^ (len coord - 1) - 1
        + sigma (length coord)
            (fun k => nth (length coord - 1 - k) coord 0 * 2 ^ Z.of_nat k))
  /\ full_tree_id [0] = 0
  /\ full_tree_id [0; 1] = 2
  /\ full_tree_id [0; 0; 0] = 3
  /\ full_tree_id [0; 1; 1; 0] = 13.
Proof.
  split; [|repeat split; reflexivity].
  intros coord Hn Hbits. unfold full_tree_id, enumerate.
  rewrite full_tree_id_loop. f_equal.
  rewrite length_rev. apply sigma_ext. intros k Hk.
  rewrite rev_nth by lia.
  replace (length coord - S k)%nat with (length coord - 1 - k)%nat by lia.
  assert (Hc : nth (length coord - 1 - k) coord 0 = 0 \/ nth (length coord - 1 - k) coord 0 = 1).
  { rewrite List.Forall_forall in Hbits. apply Hbits. apply nth_In. lia. }
  destruct Hc as [-> | ->]; rewrite ?Z.add_0_l;
    [change (0 =? 1) with false | change (1 =? 1) with true]; cbv iota; lia.
Qed.

Lemma full_tree_id_formula_witness :
  (0 < length [0; 1; 1; 0])%nat
  /\ Forall (fun c => c = 0 \/ c = 1) [0; 1; 1; 0]
  /\ full_tree_id [0; 1; 1; 0]
     = 2 ^ (len [0; 1; 1; 0] - 1) - 1
       + sigma (length [0; 1; 1; 0])
           (fun k => nth (length [0; 1; 1; 0] - 1 - k) [0; 1; 1; 0] 0 * 2 ^ Z.of_nat k).
Proof.
  assert (Hn : (0 < length [0; 1; 1; 0])%nat) by (simpl; lia).
  assert (Hb : Forall (fun c => c = 0 \/ c = 1) [0; 1; 1; 0])
    by (repeat constructor; auto).
  split; [exact Hn|]. split; [exact Hb|].
  exact (proj1 full_tree_id_formula [0; 1; 1; 0] Hn Hb).
Defined.

(** ** The gap recursion *)

(** The peak list of the docstring of [split_peak_ind_by_space]. *)
Example peak_pairs_docstring :
  peak_pairs_to_call [(163, 165); (191, 210); (222, 229); (248, 256)]
  = ([((163, 165), (191, 256)); ((191, 229), (248, 256)); ((191, 210), (222, 229))], None).
Proof. vm_compute. reflexivity. Qed.

Lemma peak_pairs_to_call_body (peak_ind : list bounds_t) :
  peak_pairs_to_call peak_ind =
  match PeakDetect.split_peak_ind_by_space peak_ind with
  | Raise e => ([], Some e)
  | Ok (left_, right_) =>
      if PeakDetect.peaks_eqb left_ right_ then ([], None)
      else match PeakDetect.hull_pair left_ right_ with
           | Raise e => ([], Some e)
           | Ok hulls =>
               PeakDetect.gen_then ([hulls], None)
                 (PeakDetect.gen_then (peak_pairs_to_call left_) (peak_pairs_to_call right_))
           end
  end.
Proof.
  funelim (peak_pairs_to_call peak_ind);
    try match goal with E : PeakDetect.split_peak_ind_by_space _ = _ |- _ => rewrite E end;
    try match goal with E : PeakDetect.peaks_eqb _ _ = _ |- _ => rewrite E end;
    try match goal with E : PeakDetect.hull_pair _ _ = _ |- _ => rewrite E end;
    reflexivity.
Qed.

Lemma peaks_eqb_eq (a b : list bounds_t) : PeakDetect.peaks_eqb a b = true -> a = b.
Proof.
  revert b. induction a as [|[x1 x2] a IH]; intros [|[y1 y2] b]; simpl; try discriminate.
  - reflexivity.
  - unfold PeakDetect.bounds_eqb; simpl. intros Hab.
    apply andb_prop in Hab as [Hxy Hab]. apply andb_prop in Hxy as [H1 H2].
    apply Z.eqb_eq in H1, H2. subst. f_equal. apply IH, Hab.
Qed.

Lemma ascending_disjoint_app (l r : list bounds_t) :
  ascending_disjoint (l ++ r) -> ascending_disjoint l /\ ascending_disjoint r.
Proof.
  unfold ascending_disjoint. rewrite Forall_app, StronglySorted_app. tauto.
Qed.

(** In an ascending list the two parts of a split differ. *)
Lemma ascending_parts_differ (l r : list bounds_t) :
  ascending_disjoint (l ++ r) -> 0 < len l -> PeakDetect.peaks_eqb l r = false.
Proof.
  intros [Hw Hs] Hl.
  destruct (PeakDetect.peaks_eqb l r) eqn:E; [|reflexivity].
  apply peaks_eqb_eq in E. subst r.
  destruct l as [|p l]; [unfold len in Hl; simpl in Hl; lia|].
  apply StronglySorted_app in Hs as (Hlr & _ & _).
  specialize (Hlr p p ltac:(left) ltac:(left)).
  apply Forall_inv in Hw. lia.
Qed.

Lemma py_get_in_range {A : Type} (l : list A) (i : Z) :
  - len l <= i < len l -> exists a, py_get l i = Ok a.
Proof.
  intros Hi. unfold py_get.
  set (j := if i <? 0 then i + len l else i).
  assert (Hj : 0 <= j < len l) by (subst j; destruct (i <? 0) eqn:E; lia).
  destruct ((j <? 0) || (len l <=? j))%bool eqn:E.
  - apply orb_prop in E as [E|E]; lia.
  - destruct (nth_error l (Z.to_nat j)) as [a|] eqn:En; [eauto|].
    apply nth_error_None in En. unfold len in *. lia.
Qed.

Lemma py_get_first {A : Type} (l : list A) :
  0 < len l -> exists a, py_get l 0 = Ok a.
Proof. intros Hl. apply py_get_in_range. lia. Qed.

Lemma py_get_last {A : Type} (l : list A) :
  0 < len l -> exists a, py_get l (-1) = Ok a.
Proof. intros Hl. apply py_get_in_range. lia. Qed.

Lemma hull_pair_ok (l r : list bounds_t) :
  0 < len l -> 0 < len r -> exists hulls, PeakDetect.hull_pair l r = Ok hulls.
Proof.
  intros Hl Hr. unfold PeakDetect.hull_pair.
  destruct (py_get_first l Hl) as [l0 ->], (py_get_last l Hl) as [l1 ->].
  destruct (py_get_first r Hr) as [r0 ->], (py_get_last r Hr) as [r1 ->].
  simpl. eauto.
Qed.

(** On an ascending list of [n >= 1] peaks the generator ends without an
    exception after [n - 1] yields. *)
Lemma peak_pairs_to_call_yields (n : nat) :
  forall peak_ind : list bounds_t,
    (length peak_ind <= n)%nat -> 1 <= len peak_ind -> ascending_disjoint peak_ind ->
    exists pairs,
      peak_pairs_to_call peak_ind = (pairs, None) /\ len pairs = len peak_ind - 1.
Proof.
  induction n as [|n IH]; intros peak_ind Hn H1 Hasc.
  - unfold len in H1. lia.
  - rewrite peak_pairs_to_call_body.
    destruct (Z.eq_dec (len peak_ind) 1) as [E|E].
    + exists []. split; [|rewrite E; reflexivity].
      unfold PeakDetect.split_peak_ind_by_space.
      apply Z.eqb_eq in E. rewrite E. rewrite peaks_eqb_refl. reflexivity.
    + destruct (PeakDetect.split_peak_ind_by_space peak_ind) as [[l r]|e] eqn:Hs.
      * destruct (split_lengths _ _ _ Hs E) as (_ & Hl & Hr & Happ).
        rewrite Happ in Hasc.
        rewrite (ascending_parts_differ l r Hasc) by lia.
        destruct (hull_pair_ok l r) as [hulls ->]; [lia|lia|].
        apply ascending_disjoint_app in Hasc as [Hal Har].
        destruct (IH l) as (pl & -> & Hpl); [unfold len in *; lia|lia|assumption|].
        destruct (IH r) as (pr & -> & Hpr); [unfold len in *; lia|lia|assumption|].
        exists (hulls :: pl ++ pr). split; [reflexivity|].
        rewrite Happ. unfold len in *. rewrite !length_app. simpl. rewrite length_app. lia.
      * exfalso. unfold PeakDetect.split_peak_ind_by_space in Hs.
        destruct (len peak_ind =? 1) eqn:E1; [discriminate|].
        destruct (PeakDetect.np_argmax_int _) as [k|e'] eqn:Ek; [discriminate|].
        destruct (np_subtract_int _ _) as [|x sp] eqn:Hsp; [|discriminate].
        pose proof (spacing_length peak_ind) as Hlen. rewrite Hsp in Hlen.
        unfold len in *. simpl in Hlen. lia.
Qed.

(** C10: the generator [peak_pairs_to_call] terminates on every ascending
    list of disjoint peaks.  A split of a list of two or more peaks returns
    two non-empty strictly shorter lists, a list of one peak is returned
    twice and ends the recursion, and the generator, a total function, ends
    without an exception after [n - 1] yields. *)
Theorem peak_pairs_to_call_terminates (peak_ind : list bounds_t) :
  ascending_disjoint peak_ind ->
  (2 <= len peak_ind ->
   exists left_ right_,
     PeakDetect.split_peak_ind_by_space peak_ind = Ok (left_, right_)
     /\ 0 < len left_ < len peak_ind /\ 0 < len right_ < len peak_ind
     /\ peak_ind = left_ ++ right_
     /\ PeakDetect.peaks_eqb left_ right_ = false)
  /\ (len peak_ind = 1 ->
      PeakDetect.split_peak_ind_by_space peak_ind = Ok (peak_ind, peak_ind)
      /\ PeakDetect.peaks_eqb peak_ind peak_ind = true
      /\ peak_pairs_to_call peak_ind = ([], None))
  /\ (1 <= len peak_ind ->
      exists pairs,
        peak_pairs_to_call peak_ind = (pairs, None) /\ len pairs = len peak_ind - 1).
Proof.
  intros Hasc. split; [|split].
  - intros H2.
    destruct (peak_pairs_to_call_yields (length peak_ind) peak_ind) as (pairs & Hp & Hlen);
      [lia|lia|assumption|].
    destruct (PeakDetect.split_peak_ind_by_space peak_ind) as [[l r]|e] eqn:Hs.
    + destruct (split_lengths _ _ _ Hs) as (_ & Hl & Hr & Happ); [lia|].
      exists l, r. repeat split; try lia; try assumption.
      apply ascending_parts_differ; [rewrite <- Happ; assumption | lia].
    + rewrite peak_pairs_to_call_body, Hs in Hp. discriminate.
  - intros H1. apply Z.eqb_eq in H1.
    assert (Hs : PeakDetect.split_peak_ind_by_space peak_ind = Ok (peak_ind, peak_ind))
      by (unfold PeakDetect.split_peak_ind_by_space; rewrite H1; reflexivity).
    split; [exact Hs|]. split; [apply peaks_eqb_refl|].
    rewrite peak_pairs_to_call_body, Hs, peaks_eqb_refl. reflexivity.
  - intros H1. apply (peak_pairs_to_call_yields (length peak_ind)); [lia|lia|assumption].
Qed.

Lemma peak_pairs_to_call_terminates_witness :
  ascending_disjoint [(163, 165); (191, 210); (222, 229); (248, 256)]
  /\ exists pairs,
       peak_pairs_to_call [(163, 165); (191, 210); (222, 229); (248, 256)] = (pairs, None)
       /\ len pairs = len [(163, 165); (191, 210); (222, 229); (248, 256)] - 1.
Proof.
  assert (Hasc : ascending_disjoint [(163, 165); (191, 210); (222, 229); (248, 256)]).
  { split; repeat (constructor; simpl; try lia). }
  split; [exact Hasc|].
  apply (peak_pairs_to_call_terminates _ Hasc). vm_compute. discriminate.
Defined.

(** ** Peak detection *)

Lemma where_from_spec (mask : list bool) :
  forall k i, In i (where_from k mask) <->
              k <= i /\ nth_error mask (Z.to_nat (i - k)) = Some true.
Proof.
  induction mask as [|b mask IH]; intros k i; simpl.
  - split; [tauto|]. intros [_ E]. destruct (Z.to_nat (i - k)); discriminate.
  - assert (Hstep : In i (where_from (k + 1) mask) <->
                    k + 1 <= i /\ nth_error mask (Z.to_nat (i - (k + 1))) = Some true)
      by apply IH.
    assert (Hnth : k + 1 <= i ->
                   nth_error (b :: mask) (Z.to_nat (i - k))
                   = nth_error mask (Z.to_nat (i - (k + 1)))).
    { intros Hi. replace (Z.to_nat (i - k)) with (S (Z.to_nat (i - (k + 1)))) by lia.
      reflexivity. }
    destruct (Z.eq_dec i k) as [->|Hik].
    + rewrite Z.sub_diag. simpl. destruct b; simpl.
      * split; [intros _; split; [lia|reflexivity] | intros _; left; reflexivity].
      * rewrite Hstep. split; [lia | intros [_ E]; discriminate].
    + destruct b; simpl; rewrite Hstep.
      * split.
        -- intros [E | [Hi E]]; [congruence|]. split; [lia|]. rewrite Hnth by lia. exact E.
        -- intros [Hi E]. right. split; [lia|]. rewrite <- Hnth by lia. exact E.
      * split.
        -- intros [Hi E]. split; [lia|]. rewrite Hnth by lia. exact E.
        -- intros [Hi E]. split; [lia|]. rewrite <- Hnth by lia. exact E.
Qed.

Lemma where_from_sorted (mask : list bool) :
  forall k, StronglySorted Z.lt (where_from k mask).
Proof.
  induction mask as [|b mask IH]; intros k; simpl; [constructor|].
  destruct b; [|apply IH].
  constructor; [apply IH|].
  apply List.Forall_forall. intros i Hi. apply where_from_spec in Hi. lia.
Qed.

Lemma where_from_NoDup (mask : list bool) :
  forall k, NoDup (where_from k mask).
Proof.
  induction mask as [|b mask IH]; intros k; simpl; [constructor|].
  destruct b; [|apply IH].
  constructor; [|apply IH].
  intros Hin. apply list_elem_of_In, where_from_spec in Hin. lia.
Qed.

(** The indices found by [np.where(array > lthres)] are the bins above the
    threshold. *)
Lemma np_where_above (array : list float) (thres : float) (i : Z) :
  In i (np_where (map (fun x => (thres <? x)%float) array)) <-> above array thres i = true.
Proof.
  unfold np_where, above. rewrite where_from_spec, Z.sub_0_r, nth_error_map.
  destruct (nth_error array (Z.to_nat i)) as [x|]; simpl.
  - rewrite andb_true_iff, Z.leb_le. split; intros [? E]; split; congruence.
  - rewrite andb_false_r. split; [intros [_ E]; discriminate | discriminate].
Qed.

Lemma index_from_app (pre suf : list Z) (x : Z) :
  ~ In x pre -> forall i, index_from i x (pre ++ x :: suf) = Ok (i + len pre).
Proof.
  induction pre as [|p pre IH]; intros Hx i; simpl.
  - rewrite Z.eqb_refl. unfold len. simpl. f_equal. lia.
  - destruct (x =? p) eqn:E; [apply Z.eqb_eq in E; subst; exfalso; apply Hx; left; reflexivity|].
    rewrite IH by (intros Hin; apply Hx; right; exact Hin).
    unfold len. simpl. f_equal. lia.
Qed.

(** The [jumps] of [detect_peak_simple] on a list without repetition. *)
Lemma jumps_computed (suf : list Z) :
  forall pre, NoDup (pre ++ suf) ->
    mapM (fun xy : Z * Z => list_index (pre ++ suf) (fst xy))
      (List.filter (fun xy : Z * Z => negb (snd xy - fst xy =? 1)) (zip_next suf))
    = Ok (jumps_from (len pre) suf).
Proof.
  induction suf as [|x suf IH]; intros pre Hnd; [reflexivity|].
  destruct suf as [|y suf]; [reflexivity|].
  assert (Hx : ~ In x pre).
  { apply NoDup_app in Hnd as (_ & Hd & _). intros Hin. apply list_elem_of_In in Hin.
    apply (Hd x Hin). left. }
  assert (Hrest : mapM (fun xy : Z * Z => list_index (pre ++ x :: y :: suf) (fst xy))
                    (List.filter (fun xy : Z * Z => negb (snd xy - fst xy =? 1))
                       (zip_next (y :: suf)))
                  = Ok (jumps_from (len pre + 1) (y :: suf))).
  { specialize (IH (pre ++ [x])). rewrite <- app_assoc in IH.
    change ([x] ++ y :: suf) with (x :: y :: suf) in IH.
    replace (len (pre ++ [x])) with (len pre + 1) in IH
      by (unfold len; rewrite length_app; simpl; lia).
    apply IH, Hnd. }
  change (zip_next (x :: y :: suf)) with ((x, y) :: zip_next (y :: suf)).
  cbn [List.filter snd fst jumps_from].
  destruct (negb (y - x =? 1)); [|exact Hrest].
  cbn [mapM]. rewrite Hrest. unfold list_index. rewrite index_from_app by exact Hx.
  reflexivity.
Qed.

Lemma py_slice_mid {A : Type} (pre mid suf : list A) :
  py_slice (pre ++ mid ++ suf) (Some (len pre)) (Some (len pre + len mid)) = mid.
Proof.
  unfold py_slice, py_clamp.
  pose proof (len_nonneg pre). pose proof (len_nonneg mid). pose proof (len_nonneg suf).
  assert (Hlen : len (pre ++ mid ++ suf) = len pre + len mid + len suf)
    by (unfold len; rewrite !length_app; lia).
  destruct (len pre <? 0) eqn:E1; [lia|]. destruct (len pre + len mid <? 0) eqn:E2; [lia|].
  rewrite Hlen, !Z.min_l by lia.
  replace (Z.to_nat (len pre)) with (length pre) by (unfold len; lia).
  replace (Z.to_nat (len pre + len mid - len pre)) with (length mid) by (unfold len; lia).
  rewrite drop_app_length, take_app_length. reflexivity.
Qed.

Lemma py_slice_tail {A : Type} (pre suf : list A) :
  py_slice (pre ++ suf) (Some (len pre)) None = suf.
Proof.
  unfold py_slice, py_clamp.
  pose proof (len_nonneg pre). pose proof (len_nonneg suf).
  assert (Hlen : len (pre ++ suf) = len pre + len suf)
    by (unfold len; rewrite !length_app; lia).
  destruct (len pre <? 0) eqn:E1; [lia|].
  rewrite Hlen, Z.min_l by lia.
  replace (Z.to_nat (len pre)) with (length pre) by (unfold len; lia).
  rewrite drop_app_length. apply firstn_all2. unfold len. lia.
Qed.

Lemma first_last_snoc (cur : list Z) (x : Z) :
  first_last (cur ++ [x]) = Ok (hd x cur, x).
Proof.
  unfold first_last.
  assert (Hlen : len (cur ++ [x]) = len cur + 1)
    by (unfold len; rewrite length_app; simpl; lia).
  pose proof (len_nonneg cur) as Hn.
  assert (H0 : py_get (cur ++ [x]) 0 = Ok (hd x cur)).
  { unfold py_get. rewrite Hlen. change (0 <? 0) with false. cbv iota.
    destruct ((0 <? 0) || (len cur + 1 <=? 0))%bool eqn:E;
      [apply orb_prop in E as [E|E]; lia|].
    destruct cur; reflexivity. }
  assert (H1 : py_get (cur ++ [x]) (-1) = Ok x).
  { unfold py_get. rewrite Hlen. change (-1 <? 0) with true. cbv iota.
    destruct ((-1 + (len cur + 1) <? 0) || (len cur + 1 <=? -1 + (len cur + 1)))%bool eqn:E;
      [apply orb_prop in E as [E|E]; lia|].
    replace (Z.to_nat (-1 + (len cur + 1))) with (length cur) by (unfold len; lia).
    rewrite nth_error_app2 by lia. rewrite Nat.sub_diag. reflexivity. }
  rewrite H0. simpl. rewrite H1. reflexivity.
Qed.

Lemma jumps_from_step (i x y : Z) (l : list Z) :
  jumps_from i (x :: y :: l)
  = if negb (y - x =? 1) then i :: jumps_from (i + 1) (y :: l) else jumps_from (i + 1) (y :: l).
Proof. reflexivity. Qed.

(** The pieces of [np.split] at the jumps are the runs read from the left. *)
Lemma split_at_jumps (rest : list Z) :
  forall pre cur x,
    mapM first_last
      (split_from (pre ++ cur ++ x :: rest) (len pre)
         (map (fun i => i + 1) (jumps_from (len pre + len cur) (x :: rest))))
    = Ok (scan_runs (hd x cur) x rest).
Proof.
  induction rest as [|y rest IH]; intros pre cur x.
  - cbn [jumps_from map split_from scan_runs mapM].
    rewrite py_slice_tail. change (cur ++ [x]) with (cur ++ [x]).
    rewrite first_last_snoc. reflexivity.
  - rewrite jumps_from_step. cbn [scan_runs].
    assert (Hcur : len (cur ++ [x]) = len cur + 1)
      by (unfold len; rewrite length_app; simpl; lia).
    destruct (y - x =? 1) eqn:E; cbn [negb].
    + specialize (IH pre (cur ++ [x]) y).
      rewrite <- app_assoc in IH. change ([x] ++ y :: rest) with (x :: y :: rest) in IH.
      rewrite Hcur, Z.add_assoc in IH. rewrite IH.
      destruct cur; reflexivity.
    + cbn [map split_from mapM].
      replace (pre ++ cur ++ x :: y :: rest) with (pre ++ (cur ++ [x]) ++ y :: rest)
        by (rewrite <- (app_assoc cur); reflexivity).
      replace (len pre + len cur + 1) with (len pre + len (cur ++ [x])) by lia.
      rewrite py_slice_mid, first_last_snoc. cbn [bind].
      specialize (IH (pre ++ cur ++ [x]) [] y).
      replace (len (pre ++ cur ++ [x])) with (len pre + len (cur ++ [x])) in IH
        by (unfold len; rewrite !length_app; lia).
      change (len (@nil Z)) with 0 in IH. rewrite Z.add_0_r in IH.
      rewrite <- !app_assoc in IH. rewrite <- app_assoc. cbn [app] in IH |- *.
      rewrite IH. reflexivity.
Qed.

Lemma mapM_ok_cons {A B : Type} (f : A -> res B) (l : list A) (b : B) (bs : list B) :
  mapM f l = Ok (b :: bs) -> exists a l', l = a :: l' /\ f a = Ok b.
Proof.
  destruct l as [|a l]; simpl; [discriminate|].
  destruct (f a) as [b'|e] eqn:Ef; simpl; [|discriminate].
  destruct (mapM f l); simpl; [|discriminate].
  intros E. injection E as -> _. exists a, l. split; [reflexivity | exact Ef].
Qed.

Lemma scan_runs_nonempty (rest : list Z) :
  forall a x, exists p ps, scan_runs a x rest = p :: ps.
Proof.
  induction rest as [|y rest IH]; intros a x; simpl; [eauto|].
  destruct (y - x =? 1); eauto.
Qed.

(** [detect_peak_simple] never raises, and returns the runs of the indices
    above the threshold. *)
Lemma detect_peak_simple_scan (array : list float) (lthres : float) :
  PeakDetect.detect_peak_simple array lthres
  = Ok match np_where (map (fun x => (lthres <? x)%float) array) with
       | [] => []
       | x :: rest => scan_runs x x rest
       end.
Proof.
  unfold PeakDetect.detect_peak_simple.
  set (ind := np_where _).
  assert (Hnd : NoDup ind) by apply where_from_NoDup.
  pose proof (jumps_computed ind [] Hnd) as Hj. cbn [app] in Hj. rewrite Hj. cbn [bind].
  change (len (@nil Z)) with 0.
  destruct ind as [|x rest] eqn:Hind.
  - reflexivity.
  - pose proof (split_at_jumps rest [] [] x) as Hs. cbn [app hd] in Hs.
    change (len (@nil Z)) with 0 in Hs. rewrite Z.add_0_l in Hs.
    unfold np_split. fold (first_last).
    change (fun elem : list Z => a <- py_get elem 0;; b <- py_get elem (-1);; Ok (a, b))
      with first_last.
    destruct (scan_runs_nonempty rest x x) as (p & ps & Hp).
    rewrite Hp in Hs. destruct (mapM_ok_cons _ _ _ _ Hs) as (r0 & runs & Hruns & Hr0).
    rewrite Hruns in Hs |- *.
    assert (Hget : py_get (r0 :: runs) 0 = Ok r0) by reflexivity.
    rewrite Hget. cbn [bind].
    assert (Hpos : (0 <? len r0) = true).
    { destruct r0; [discriminate|]. apply Z.ltb_lt. unfold len. cbn [length]. lia. }
    rewrite Hpos, Hs, Hp. reflexivity.
Qed.

Lemma run_of_ext (S S' : Z -> Prop) (l r : Z) :
  (forall i, S i <-> S' i) -> run_of S l r <-> run_of S' l r.
Proof.
  intros Hext. unfold run_of. rewrite !Hext.
  split; intros (H1 & H2 & H3 & H4); repeat split; try assumption;
    intros i Hi; apply Hext, H2, Hi.
Qed.

Lemma run_of_interval (a x l r : Z) :
  a <= x -> run_of (fun i => a <= i <= x) l r <-> (l, r) = (a, x).
Proof.
  intros Hax. unfold run_of. split.
  - intros (Hlr & Hin & Hl & Hr).
    pose proof (Hin l ltac:(lia)). pose proof (Hin r ltac:(lia)).
    f_equal; lia.
  - intros [= -> ->]. repeat split; try lia.
Qed.

(** The runs read from the left are the maximal intervals of the indices. *)
Lemma scan_runs_spec (rest : list Z) :
  forall a x l r,
    a <= x -> StronglySorted Z.lt (x :: rest) ->
    In (l, r) (scan_runs a x rest) <-> run_of (fun i => a <= i <= x \/ In i rest) l r.
Proof.
  induction rest as [|y rest IH]; intros a x l r Hax Hs.
  - cbn [scan_runs In].
    rewrite (run_of_ext _ (fun i => a <= i <= x)) by (intros i; simpl; tauto).
    rewrite run_of_interval by exact Hax.
    simpl. split; [intros [E|E]; [congruence | contradiction] | intros E; left; congruence].
  - apply StronglySorted_inv in Hs as [Hs Hx].
    assert (Hxy : x < y) by (apply Forall_inv in Hx; exact Hx).
    assert (Hy : forall i, In i rest -> y < i).
    { apply StronglySorted_inv in Hs as [_ Hy]. rewrite List.Forall_forall in Hy. exact Hy. }
    cbn [scan_runs]. destruct (y - x =? 1) eqn:E.
    + apply Z.eqb_eq in E. rewrite IH by (assumption || lia).
      apply run_of_ext. intros i. simpl. split.
      * intros [Hi|Hi]; [|right; right; exact Hi].
        destruct (Z.eq_dec i y); [right; left; congruence | left; lia].
      * intros [Hi|[Hi|Hi]]; [left; lia | left; lia | right; exact Hi].
    + apply Z.eqb_neq in E. cbn [In]. rewrite IH by (assumption || lia).
      assert (Hge : forall i, (y <= i <= y \/ In i rest) -> y <= i).
      { intros i [Hi|Hi]; [lia | apply Hy in Hi; lia]. }
      unfold run_of. cbn [In]. split.
      * intros [[= <- <-] | (Hlr & Hin & Hl & Hr)].
        -- repeat split; try lia.
           ++ intros [Hi | [Hi | Hi]]; [lia | lia | apply Hy in Hi; lia].
           ++ intros [Hi | [Hi | Hi]]; [lia | lia | apply Hy in Hi; lia].
        -- pose proof (Hge l (Hin l ltac:(lia))) as Hyl.
           repeat split; try lia.
           ++ intros i Hi. destruct (Hin i Hi) as [Hi'|Hi']; [right; left; lia | right; right; exact Hi'].
           ++ intros [Hi | [Hi | Hi]]; [lia | apply Hl; left; lia | apply Hl; right; exact Hi].
           ++ intros [Hi | [Hi | Hi]]; [lia | apply Hr; left; lia | apply Hr; right; exact Hi].
      * intros (Hlr & Hin & Hl & Hr).
        assert (Hmem : forall i, (a <= i <= x \/ y = i \/ In i rest) ->
                                 a <= i <= x \/ (y <= i <= y \/ In i rest)).
        { intros i [Hi | [Hi | Hi]]; [left; exact Hi | right; left; lia | right; right; exact Hi]. }
        destruct (Hmem l (Hin l ltac:(lia))) as [Hla | Hly].
        -- left.
           assert (l = a) by (destruct (Z.eq_dec l a); [assumption | exfalso; apply Hl; left; lia]).
           assert (Hrx : r <= x).
           { destruct (Z_le_gt_dec r x); [assumption|]. exfalso.
             destruct (Hmem (x + 1) (Hin (x + 1) ltac:(lia))) as [Hi | Hi]; [lia|].
             apply Hge in Hi. lia. }
           assert (r = x) by (destruct (Z.eq_dec r x); [assumption | exfalso; apply Hr; left; lia]).
           congruence.
        -- right. apply Hge in Hly. repeat split; try lia.
           ++ intros i Hi. destruct (Hmem i (Hin i Hi)) as [Hi' | Hi']; [lia | exact Hi'].
           ++ intros [Hi | Hi]; [apply Hl; right; left; lia | apply Hl; right; right; exact Hi].
           ++ intros [Hi | Hi]; [apply Hr; right; left; lia | apply Hr; right; right; exact Hi].
Qed.

(** The runs come in ascending order, each ending before the next begins. *)
Lemma scan_runs_sorted (rest : list Z) :
  forall a x,
    a <= x -> StronglySorted Z.lt (x :: rest) ->
    StronglySorted (fun p q : bounds_t => snd p < fst q) (scan_runs a x rest)
    /\ Forall (fun p : bounds_t => a <= fst p) (scan_runs a x rest).
Proof.
  induction rest as [|y rest IH]; intros a x Hax Hs.
  - cbn [scan_runs]. split; repeat constructor. simpl. lia.
  - apply StronglySorted_inv in Hs as [Hs Hx].
    assert (Hxy : x < y) by (apply Forall_inv in Hx; exact Hx).
    cbn [scan_runs]. destruct (y - x =? 1).
    + apply IH; [lia | exact Hs].
    + destruct (IH y y ltac:(lia) Hs) as [Hsorted Hfst].
      split.
      * constructor; [exact Hsorted|].
        eapply Forall_impl; [exact Hfst|]. intros p Hp. simpl in *. lia.
      * constructor; [simpl; lia|].
        eapply Forall_impl; [exact Hfst|]. intros p Hp. simpl in *. lia.
Qed.

Lemma filter_sorted {A : Type} (R : A -> A -> Prop) (f : A -> bool) (l : list A) :
  StronglySorted R l -> StronglySorted R (List.filter f l).
Proof.
  induction 1 as [|a l Hs IH Ha]; simpl; [constructor|].
  destruct (f a); [|exact IH].
  constructor; [exact IH|].
  rewrite List.Forall_forall in *. intros b Hb. apply filter_In in Hb as [Hb _].
  apply Ha, Hb.
Qed.

Lemma maximal_run_run_of (array : list float) (thres : float) (l r : Z) :
  maximal_run array thres l r
  <-> run_of (fun i => In i (np_where (map (fun x => (thres <? x)%float) array))) l r.
Proof.
  unfold maximal_run, run_of.
  split; intros (H1 & H2 & H3 & H4); repeat split; try exact H1.
  - intros i Hi. apply np_where_above, H2, Hi.
  - rewrite np_where_above, H3. discriminate.
  - rewrite np_where_above, H4. discriminate.
  - intros i Hi. apply np_where_above, H2, Hi.
  - apply not_true_is_false. rewrite <- np_where_above. exact H3.
  - apply not_true_is_false. rewrite <- np_where_above. exact H4.
Qed.

(** C5: the peak detection step (detect_peak_simple, then the width filter of
    tree_from_spectrum) never raises and returns exactly the maximal runs of
    consecutive bins above the threshold that are more than one bin wide,
    each as its (min, max) pair, in ascending order; the list is empty when
    no bin is above the threshold. *)
Theorem detect_peaks_maximal_runs (array : list float) (thres : float) :
  exists peaks : list bounds_t,
    PeakDetect.detect_peaks array thres = Ok peaks
    /\ peaks = PeakDetect.width_filter
                 match PeakDetect.detect_peak_simple array thres with
                 | Ok runs => runs
                 | Raise _ => []
                 end
    /\ (forall l r, In (l, r) peaks <-> maximal_run array thres l r /\ r <> l)
    /\ StronglySorted (fun p q : bounds_t => snd p < fst q) peaks
    /\ ((forall i, above array thres i = false) -> peaks = []).
Proof.
  unfold PeakDetect.detect_peaks. rewrite detect_peak_simple_scan. cbn [bind].
  eexists. split; [reflexivity|]. split; [reflexivity|].
  set (ind := np_where (map (fun x => (thres <? x)%float) array)).
  assert (Hsorted : StronglySorted Z.lt ind) by apply where_from_sorted.
  assert (Hmem : forall l r,
             In (l, r) match ind with [] => [] | x :: rest => scan_runs x x rest end
             <-> maximal_run array thres l r).
  { intros l r. rewrite maximal_run_run_of. fold ind.
    destruct ind as [|x rest].
    - split; [intros []|]. intros (Hlr & Hin & _). exact (Hin l ltac:(lia)).
    - rewrite scan_runs_spec by (lia || exact Hsorted).
      apply run_of_ext. intros i. simpl. split.
      + intros [Hi|Hi]; [left; lia | right; exact Hi].
      + intros [Hi|Hi]; [left; lia | right; exact Hi]. }
  assert (Hfilter : forall l r,
             In (l, r) (PeakDetect.width_filter
                          match ind with [] => [] | x :: rest => scan_runs x x rest end)
             <-> maximal_run array thres l r /\ r <> l).
  { intros l r. unfold PeakDetect.width_filter. rewrite filter_In, Hmem. cbn [fst snd].
    rewrite Z.ltb_lt. split.
    - intros [Hm Hw]. split; [exact Hm | lia].
    - intros [Hm Hw]. split; [exact Hm|]. destruct Hm as (Hlr & _). lia. }
  split; [exact Hfilter|]. split.
  - unfold PeakDetect.width_filter. apply filter_sorted.
    destruct ind as [|x rest]; [constructor|].
    apply scan_runs_sorted; [lia | exact Hsorted].
  - intros Hnone.
    destruct (PeakDetect.width_filter _) as [|[l r] ps] eqn:E; [reflexivity|].
    exfalso. destruct (proj1 (Hfilter l r) ltac:(left; reflexivity)) as [(Hlr & Hin & _) _].
    specialize (Hin l ltac:(lia)). rewrite Hnone in Hin. discriminate.
Qed.

(** ** Trees reachable by insertions *)

(** Induction over a node and the nodes below it. *)
Lemma Node_tree_ind (P : Node -> Prop)
    (step : forall n, Forall P (children n) -> P n) : forall n : Node, P n.
Proof.
  exact (fix ind (n : Node) : P n :=
           step n
             ((fix below (cs : list Node) : Forall P cs :=
                 match cs with
                 | [] => @List.Forall_nil _ P
                 | c :: cs' => @List.Forall_cons _ P c cs' (ind c) (below cs')
                 end) (children n))).
Qed.

Lemma on_first_fitting_split (fits : Node -> bool) (call : Node -> Node * res unit)
    (cs : list Node) :
  len (List.filter fits cs) = 1 ->
  exists pre c post,
    cs = pre ++ c :: post /\ fits c = true
    /\ on_first_fitting fits call cs = (pre ++ fst (call c) :: post, snd (call c)).
Proof.
  induction cs as [|c cs IH]; simpl; [unfold len; simpl; lia|].
  destruct (fits c) eqn:E.
  - intros _. exists [], c, cs. repeat split; assumption.
  - intros Hlen. destruct (IH Hlen) as (pre & c0 & post & -> & Hc0 & Hcall).
    exists (c :: pre), c0, post. rewrite Hcall. repeat split; assumption.
Qed.

Section InsertionSteps.
Context `{H : Helpers} `{N : Numeric}.

(** The two methods, one level unfolded. *)
Lemma add_noise_sep_eq (self : Node) (bl br : bounds_t) (thres : float) :
  add_noise_sep self bl br thres =
  if len (List.filter (fits_pair bl br) (children self)) =? 1 then
    let r := on_first_fitting (fits_pair bl br)
               (fun c => add_noise_sep c bl br thres) (children self) in
    (with_children self (fst r), snd r)
  else insert_here self (noise_children self bl br thres).
Proof. destruct self. reflexivity. Qed.

Lemma add_min_eq (self : Node) (new_index : Z) (current_thres : float) (ignore_prom : bool) :
  add_min self new_index current_thres ignore_prom =
  if negb (fits_index new_index self) then
    (self, Raise ValueError_child_out_of_parents_bounds)
  else if len (List.filter (fits_index new_index) (children self)) =? 1 then
    let r := on_first_fitting (fits_index new_index)
               (fun c => add_min c new_index current_thres false) (children self) in
    (with_children self (fst r), snd r)
  else insert_here self (min_children self new_index current_thres ignore_prom).
Proof.
  destruct self as [[l r] cs lv rt th sp pf]. unfold fits_index. cbn [bounds fst snd].
  replace (negb ((l <=? new_index) && (new_index <=? r)))
    with ((new_index <? l) || (r <? new_index))%bool
    by (rewrite negb_andb, !Z.leb_antisym, !negb_involutive; reflexivity).
  reflexivity.
Qed.

Lemma noise_children_new (self : Node) (bl br : bounds_t) (thres : float) (new : list Node) :
  noise_children self bl br thres = Ok new ->
  new_nodes (fun _ => bl) (fun _ => br) self new.
Proof.
  unfold noise_children.
  destruct (prominence_of _ thres) as [pl|]; [|discriminate].
  destruct (prominence_of _ thres) as [pr|]; [|discriminate]. cbn [bind].
  destruct (_ && _)%bool; intros [= <-]; [right | left; reflexivity].
  eexists _, _. repeat split; reflexivity.
Qed.

Lemma min_children_new (self : Node) (m : Z) (thres : float) (ign : bool) (new : list Node) :
  min_children self m thres ign = Ok new ->
  new_nodes (fun n => (fst (bounds n), m)) (fun n => (m, snd (bounds n))) self new.
Proof.
  unfold min_children.
  destruct (prominence_of _ thres) as [pl|]; [|discriminate].
  destruct (prominence_of _ thres) as [pr|]; [|discriminate]. cbn [bind].
  destruct (_ || _)%bool; intros [= <-]; [right | left; reflexivity].
  eexists _, _. repeat split; reflexivity.
Qed.

Lemma add_noise_sep_step (bl br : bounds_t) (thres : float) (self : Node) :
  forall g, (g = true -> fits_pair bl br self = true) ->
    ins_step (fits_pair bl br) (new_nodes (fun _ => bl) (fun _ => br)) g self
      (fst (add_noise_sep self bl br thres)).
Proof.
  induction self as [self IH] using Node_tree_ind. intros g Hg.
  rewrite add_noise_sep_eq.
  destruct (len (List.filter (fits_pair bl br) (children self)) =? 1) eqn:E.
  - apply Z.eqb_eq in E.
    destruct (on_first_fitting_split (fits_pair bl br)
                (fun c => add_noise_sep c bl br thres) _ E)
      as (pre & c & post & Hcs & Hc & Hcall).
    cbn zeta. rewrite Hcall. cbn [fst].
    apply ins_descend with (c := c); try assumption.
    rewrite Hcs in IH. apply Forall_app in IH as [_ IH]. apply Forall_inv in IH.
    apply IH. intros _. exact Hc.
  - apply Z.eqb_neq in E. unfold insert_here.
    destruct (noise_children self bl br thres) as [new|e] eqn:En; cbn [fst].
    + apply ins_append; [exact Hg | exact E | apply noise_children_new with thres, En].
    + apply ins_same.
Qed.

Lemma add_min_step (m : Z) (thres : float) (self : Node) :
  forall g ign,
    ins_step (fits_index m)
      (new_nodes (fun n => (fst (bounds n), m)) (fun n => (m, snd (bounds n)))) g self
      (fst (add_min self m thres ign)).
Proof.
  induction self as [self IH] using Node_tree_ind. intros g ign.
  rewrite add_min_eq.
  destruct (fits_index m self) eqn:Hfit; cbn [negb]; [|apply ins_same].
  destruct (len (List.filter (fits_index m) (children self)) =? 1) eqn:E.
  - apply Z.eqb_eq in E.
    destruct (on_first_fitting_split (fits_index m)
                (fun c => add_min c m thres false) _ E)
      as (pre & c & post & Hcs & Hc & Hcall).
    cbn zeta. rewrite Hcall. cbn [fst].
    apply ins_descend with (c := c); try assumption.
    rewrite Hcs in IH. apply Forall_app in IH as [_ IH]. apply Forall_inv in IH.
    apply IH.
  - apply Z.eqb_neq in E. unfold insert_here.
    destruct (min_children self m thres ign) as [new|e] eqn:En; cbn [fst].
    + apply ins_append; [intros _; exact Hfit | exact E | apply min_children_new with thres ign, En].
    + apply ins_same.
Qed.

End InsertionSteps.

(** *** Two children at a time *)

Lemma all_nodes_inv (P : Node -> Prop) (n : Node) :
  all_nodes P n -> P n /\ Forall (all_nodes P) (children n).
Proof. intros Hn. destruct Hn as [n Hp Hc]. split; assumption. Qed.

Lemma all_nodes_leaf (P : Node -> Prop) (n : Node) :
  children n = [] -> P n -> all_nodes P n.
Proof. intros Hc Hp. constructor; [exact Hp|]. rewrite Hc. constructor. Qed.

Lemma children_append (n : Node) (new : list Node) :
  children (append_children n new) = children n ++ new.
Proof. reflexivity. Qed.

Lemma children_with (n : Node) (cs : list Node) : children (with_children n cs) = cs.
Proof. reflexivity. Qed.

(** An invariant of all nodes is kept by an insertion when it is kept where
    children are appended and where a child is replaced by its successor. *)
Lemma ins_step_all_nodes (P : Node -> Prop) (fits : Node -> bool)
    (new_ok : Node -> list Node -> Prop) :
  (forall g n new,
      (g = true -> fits n = true) -> new_ok n new -> P n ->
      P (append_children n new) /\ Forall (all_nodes P) new) ->
  (forall n pre c c' post,
      children n = pre ++ c :: post -> ins_step fits new_ok true c c' -> P n ->
      P (with_children n (pre ++ c' :: post))) ->
  forall g n n', ins_step fits new_ok g n n' -> all_nodes P n -> all_nodes P n'.
Proof.
  intros Happ Hdesc g n n' Hstep.
  induction Hstep as [g n | g n new Hg Hlen Hnew | g n pre post c c' Hcs Hlen Hc Hstep IH];
    intros Hall.
  - exact Hall.
  - apply all_nodes_inv in Hall as [Hp Hkids].
    destruct (Happ g n new Hg Hnew Hp) as [Hp' Hnew'].
    constructor; [exact Hp'|]. rewrite children_append. apply Forall_app. split; assumption.
  - apply all_nodes_inv in Hall as [Hp Hkids].
    constructor; [apply Hdesc with (c := c); assumption|].
    rewrite children_with. rewrite Hcs in Hkids.
    apply Forall_app in Hkids as [Hpre Hpost].
    apply Forall_app. split; [exact Hpre|].
    constructor; [apply IH; apply Forall_inv in Hpost; exact Hpost|].
    apply Forall_inv_tail in Hpost. exact Hpost.
Qed.

Lemma new_nodes_leaves (P : Node -> Prop) (b1 b2 : Node -> bounds_t) (n : Node)
    (new : list Node) :
  (forall c, children c = [] -> In c new -> P c) ->
  new_nodes b1 b2 n new -> Forall (all_nodes P) new.
Proof.
  intros Hleaf [-> | (c1 & c2 & -> & _ & _ & Hc1 & Hc2)]; [constructor|].
  constructor; [|constructor; [|constructor]]; apply all_nodes_leaf; try assumption;
    apply Hleaf; simpl; auto.
Qed.

Lemma ins_step_even (fits : Node -> bool) (b1 b2 : Node -> bounds_t) (g : bool) (n n' : Node) :
  ins_step fits (new_nodes b1 b2) g n n' ->
  all_nodes even_children n -> all_nodes even_children n'.
Proof.
  apply ins_step_all_nodes.
  - intros g0 m new _ Hnew Hp. unfold even_children in *.
    rewrite children_append, length_app.
    split.
    + destruct Hnew as [-> | (c1 & c2 & -> & _)].
      * rewrite Nat.add_0_r. exact Hp.
      * destruct Hp as [k Hk]. exists (S k). simpl. lia.
    + apply (new_nodes_leaves _ b1 b2 m); [|exact Hnew].
      intros c Hc _. rewrite Hc. exists 0%nat. reflexivity.
  - intros m pre c c' post Hcs _ Hp. unfold even_children in *.
    rewrite children_with. rewrite Hcs in Hp. rewrite length_app in *. exact Hp.
Qed.

Lemma routed_eq (fits : Node -> bool) (n : Node) :
  routed fits n =
  match children n with
  | [] => true
  | cs => (len (List.filter fits cs) =? 1)
          && forallb (fun c => if fits c then routed fits c else true) cs
  end.
Proof. destruct n. reflexivity. Qed.

Lemma ins_step_two (fits : Node -> bool) (b1 b2 : Node -> bounds_t) (g : bool) (n n' : Node) :
  ins_step fits (new_nodes b1 b2) g n n' ->
  routed fits n = true ->
  all_nodes two_children n -> all_nodes two_children n'.
Proof.
  intros Hstep.
  induction Hstep as [g n | g n new Hg Hlen Hnew | g n pre post c c' Hcs Hlen Hc Hstep IH];
    intros Hrouted Hall.
  - exact Hall.
  - rewrite routed_eq in Hrouted.
    destruct (children n) as [|c0 cs0] eqn:Hcs.
    + constructor.
      * unfold two_children. rewrite children_append, Hcs. cbn [app].
        destruct Hnew as [-> | (c1 & c2 & -> & _)]; [left | right]; reflexivity.
      * rewrite children_append, Hcs. cbn [app].
        apply (new_nodes_leaves _ b1 b2 n); [|exact Hnew].
        intros c Hc _. left. rewrite Hc. reflexivity.
    + apply andb_prop in Hrouted as [Hone _]. apply Z.eqb_eq in Hone. contradiction.
  - apply all_nodes_inv in Hall as [Hp Hkids].
    assert (Hrc : routed fits c = true).
    { rewrite routed_eq, Hcs in Hrouted.
      destruct (pre ++ c :: post) as [|c0 cs0] eqn:E; [destruct pre; discriminate|].
      apply andb_prop in Hrouted as [_ Hforall].
      rewrite <- E in Hforall. rewrite forallb_app in Hforall.
      apply andb_prop in Hforall as [_ Hforall]. cbn [forallb] in Hforall.
      apply andb_prop in Hforall as [Hforall _]. rewrite Hc in Hforall. exact Hforall. }
    constructor.
    + unfold two_children in *. rewrite children_with. rewrite Hcs in Hp.
      rewrite length_app in *. exact Hp.
    + rewrite children_with. rewrite Hcs in Hkids.
      apply Forall_app in Hkids as [Hpre Hpost].
      apply Forall_app. split; [exact Hpre|].
      constructor; [apply IH; [exact Hrc | apply Forall_inv in Hpost; exact Hpost]|].
      apply Forall_inv_tail in Hpost. exact Hpost.
Qed.

Section TwoAtATime.
Context `{H : Helpers} `{N : Numeric}.

Lemma run_call_step (t : Node) (c : call) :
  exists b1 b2, ins_step (call_fits c) (new_nodes b1 b2) false t (fst (run_call t c)).
Proof.
  destruct c as [bl br thres | m thres ign]; cbn [run_call call_fits].
  - eexists _, _. apply add_noise_sep_step. discriminate.
  - eexists _, _. apply add_min_step.
Qed.

(** C2 (as amended): in every tree reachable from a root node by any
    sequence of add_noise_sep and add_min calls, every node has an even
    number of children, never 1: an insertion goes into the one fitting child
    or appends a left and a right child together, or appends nothing.  When
    every insertion is routed (each node with children that it reaches has
    exactly one fitting child), every node has 0 or exactly 2 children. *)
Theorem children_come_in_pairs (t0 t : Node) :
  root_node t0 ->
  (reachable any_call t0 t ->
   all_nodes (fun n => Nat.Even (length (children n)) /\ length (children n) <> 1%nat) t)
  /\ (reachable routed_call t0 t ->
      all_nodes (fun n => length (children n) = 0%nat \/ length (children n) = 2%nat) t).
Proof.
  intros (b & sp & th & ->). split.
  - intros Hreach.
    assert (Heven : all_nodes even_children t).
    { induction Hreach as [|t c Hreach IH _].
      - apply all_nodes_leaf; [reflexivity | exists 0%nat; reflexivity].
      - destruct (run_call_step t c) as (b1 & b2 & Hstep).
        exact (ins_step_even _ _ _ _ _ _ Hstep IH). }
    clear Hreach. induction t as [t IHt] using Node_tree_ind.
    apply all_nodes_inv in Heven as [He Hkids]. constructor.
    + split; [exact He|]. intros H1. destruct He as [k Hk]. lia.
    + rewrite List.Forall_forall in *. intros c Hc. apply IHt; [exact Hc | apply Hkids, Hc].
  - intros Hreach. induction Hreach as [|t c Hreach IH Hok].
    + apply all_nodes_leaf; [reflexivity | left; reflexivity].
    + destruct (run_call_step t c) as (b1 & b2 & Hstep).
      exact (ins_step_two _ _ _ _ _ _ Hstep Hok IH).
Qed.

End TwoAtATime.

(** *** Bounds of children *)

Lemma ins_step_bounds (fits : Node -> bool) (new_ok : Node -> list Node -> Prop)
    (g : bool) (n n' : Node) :
  ins_step fits new_ok g n n' -> bounds n' = bounds n.
Proof. intros Hstep. destruct Hstep; reflexivity. Qed.

Lemma ins_step_contained (fits : Node -> bool) (b1 b2 : Node -> bounds_t) (g : bool)
    (n n' : Node) :
  (forall m, fits m = true ->
             fst (bounds m) <= fst (b1 m) /\ snd (b1 m) <= snd (bounds m)
             /\ fst (bounds m) <= fst (b2 m) /\ snd (b2 m) <= snd (bounds m)) ->
  g = true ->
  ins_step fits (new_nodes b1 b2) g n n' ->
  all_nodes children_contained n -> all_nodes children_contained n'.
Proof.
  intros Hin Hg Hstep. revert Hstep. subst g.
  assert (Hgen : forall g n n', ins_step fits (new_nodes b1 b2) g n n' -> g = true ->
                   all_nodes children_contained n -> all_nodes children_contained n').
  { intros g m m' Hstep. induction Hstep
      as [g m | g m new Hg Hlen Hnew | g m pre post c c' Hcs Hlen Hc Hstep IH];
      intros Hgt Hall.
    - exact Hall.
    - apply all_nodes_inv in Hall as [Hp Hkids].
      destruct (Hin m (Hg Hgt)) as (H1 & H2 & H3 & H4).
      constructor.
      + unfold children_contained, contained in *. rewrite children_append.
        apply Forall_app. split; [exact Hp|].
        destruct Hnew as [-> | (c1 & c2 & -> & Hb1 & Hb2 & _)]; [constructor|].
        repeat constructor; cbn [append_children bounds]; rewrite ?Hb1, ?Hb2; assumption.
      + rewrite children_append. apply Forall_app. split; [exact Hkids|].
        apply (new_nodes_leaves _ b1 b2 m); [|exact Hnew].
        intros c Hc _. unfold children_contained. rewrite Hc. constructor.
    - apply all_nodes_inv in Hall as [Hp Hkids].
      unfold children_contained in Hp. rewrite Hcs in Hp, Hkids.
      apply Forall_app in Hp as [Hp1 Hp2]. apply Forall_app in Hkids as [Hk1 Hk2].
      constructor.
      + unfold children_contained. rewrite children_with.
        apply Forall_app. split; [exact Hp1|].
        constructor; [|apply Forall_inv_tail in Hp2; exact Hp2].
        apply Forall_inv in Hp2. unfold contained in *. cbn [with_children bounds].
        rewrite (ins_step_bounds _ _ _ _ _ Hstep). exact Hp2.
      + rewrite children_with. apply Forall_app. split; [exact Hk1|].
        constructor; [|apply Forall_inv_tail in Hk2; exact Hk2].
        apply IH; [reflexivity | apply Forall_inv in Hk2; exact Hk2]. }
  intros Hstep. exact (Hgen true n n' Hstep eq_refl).
Qed.

Section BoundsOfChildren.
Context `{H : Helpers} `{N : Numeric}.

(** C3 (as amended): in every tree reachable from a root node by add_min
    calls and by add_noise_sep calls whose pair is ordered and lies inside
    the root's bounds, every child c of a parent p satisfies p.l <= c.l,
    c.r <= p.r and c.r - c.l <= p.r - p.l; the child is strictly narrower
    unless its bounds are those of the parent. *)
Theorem children_inside_parent (t0 t : Node) :
  root_node t0 ->
  reachable inside_call t0 t ->
  all_nodes
    (fun p => forall c, In c (children p) ->
                fst (bounds p) <= fst (bounds c)
                /\ snd (bounds c) <= snd (bounds p)
                /\ snd (bounds c) - fst (bounds c) <= snd (bounds p) - fst (bounds p)
                /\ (narrower p c \/ bounds c = bounds p)) t.
Proof.
  intros (b & sp & th & ->) Hreach.
  assert (Hinv : all_nodes children_contained t).
  { induction Hreach as [|t c Hreach IH Hok].
    - apply all_nodes_leaf; [reflexivity | constructor].
    - destruct c as [bl br thres | m thres ign]; cbn [run_call].
      + destruct Hok as (H1 & H2 & H3 & Hfit).
        apply (ins_step_contained (fits_pair bl br) (fun _ => bl) (fun _ => br) true t);
          [ | reflexivity | apply add_noise_sep_step; intros _; exact Hfit | exact IH].
        intros m Hm. unfold fits_pair in Hm. apply andb_prop in Hm as [Hl Hr].
        apply Z.leb_le in Hl, Hr. lia.
      + apply (ins_step_contained (fits_index m) (fun n => (fst (bounds n), m))
                 (fun n => (m, snd (bounds n))) true t);
          [ | reflexivity | apply add_min_step | exact IH].
        intros n Hn. unfold fits_index in Hn. apply andb_prop in Hn as [Hl Hr].
        apply Z.leb_le in Hl, Hr. cbn [fst snd]. lia. }
  clear Hreach. induction t as [t IHt] using Node_tree_ind.
  apply all_nodes_inv in Hinv as [Hc Hkids]. constructor.
  - intros c Hin. unfold children_contained in Hc. rewrite List.Forall_forall in Hc.
    destruct (Hc c Hin) as [Hl Hr]. unfold narrower.
    repeat split; try lia.
    destruct (Z.eq_dec (fst (bounds c)) (fst (bounds t)));
      destruct (Z.eq_dec (snd (bounds c)) (snd (bounds t))); try (left; lia).
    right. destruct (bounds c), (bounds t). simpl in *. congruence.
  - rewrite List.Forall_forall in *. intros c Hin. apply IHt; [exact Hin | apply Hkids, Hin].
Qed.

End BoundsOfChildren.

(** *** The error of add_min *)

Lemma with_children_id (n : Node) : with_children n (children n) = n.
Proof. destruct n. reflexivity. Qed.

Lemma argmax_loop_range (a : list float) :
  forall mp imax i, 0 <= imax < i -> 0 <= argmax_loop mp imax i a < i + len a.
Proof.
  induction a as [|x a IH]; intros mp imax i Hi; simpl.
  - unfold len; simpl. lia.
  - replace (i + len (x :: a)) with ((i + 1) + len a) by (unfold len; simpl; lia).
    destruct (negb (x <=? mp)%float).
    + destruct (np_isnan x); [pose proof (len_nonneg a); lia | apply IH; lia].
    + apply IH; lia.
Qed.

Lemma np_argmax_range (a : list float) (i : Z) : np_argmax a = Ok i -> 0 <= i < len a.
Proof.
  destruct a as [|x a]; simpl; [discriminate|].
  intros [= <-].
  replace (len (x :: a)) with (1 + len a) by (unfold len; simpl; lia).
  pose proof (len_nonneg a).
  destruct (np_isnan x); [lia|]. apply argmax_loop_range. lia.
Qed.

Lemma prominence_of_ok (a : list float) (thres : float) :
  0 < len a -> exists p, prominence_of a thres = Ok p.
Proof.
  intros Ha. unfold prominence_of.
  destruct (np_argmax a) as [i|e] eqn:Ei.
  - apply np_argmax_range in Ei. cbn [bind].
    destruct (py_get_in_range a i ltac:(lia)) as [x ->]. cbn [bind]. eauto.
  - destruct a; [unfold len in Ha; simpl in Ha; lia | discriminate].
Qed.

Lemma prominence_of_raise (a : list float) (thres : float) (e : exn) :
  prominence_of a thres = Raise e -> a = [] /\ e = ValueError_argmax_of_empty_sequence.
Proof.
  destruct a as [|x a].
  - intros [= <-]. split; reflexivity.
  - destruct (prominence_of_ok (x :: a) thres) as [p ->]; [unfold len; simpl; lia|].
    discriminate.
Qed.

Section ErrorOfAddMin.
Context `{H : Helpers} `{N : Numeric}.

Lemma min_children_raise (self : Node) (m : Z) (thres : float) (ign : bool) (e : exn) :
  min_children self m thres ign = Raise e -> e = ValueError_argmax_of_empty_sequence.
Proof.
  unfold min_children.
  destruct (prominence_of _ thres) as [pl|e1] eqn:E1.
  - destruct (prominence_of (py_slice _ (Some _) None) thres) as [pr|e2] eqn:E2.
    + cbn [bind]. destruct (_ || _)%bool; discriminate.
    + cbn [bind]. intros [= <-]. apply prominence_of_raise in E2 as [_ ->]. reflexivity.
  - cbn [bind]. intros [= <-]. apply prominence_of_raise in E1 as [_ ->]. reflexivity.
Qed.

Lemma min_children_ok (self : Node) (m : Z) (thres : float) (ign : bool) :
  spec_covers self -> fits_index m self = true ->
  exists new, min_children self m thres ign = Ok new.
Proof.
  unfold spec_covers, fits_index. intros Hcov Hfit.
  apply andb_prop in Hfit as [Hl Hr]. apply Z.leb_le in Hl, Hr.
  unfold min_children.
  destruct (prominence_of (py_slice (spec self) None _) thres) as [pl|e1] eqn:E1.
  - destruct (prominence_of (py_slice (spec self) (Some _) None) thres) as [pr|e2] eqn:E2.
    + cbn [bind]. destruct (_ || _)%bool; eauto.
    + exfalso. apply prominence_of_raise in E2 as [E2 _].
      apply (f_equal (@length float)) in E2. rewrite py_slice_length in E2.
      unfold py_clamp in E2. simpl in E2.
      destruct (m - fst (bounds self) <? 0) eqn:E; lia.
  - exfalso. apply prominence_of_raise in E1 as [E1 _].
    apply (f_equal (@length float)) in E1. rewrite py_slice_length in E1.
    unfold py_clamp in E1. simpl in E1.
    destruct (m + 1 - fst (bounds self) <? 0) eqn:E; lia.
Qed.

(** A call that raises leaves the tree as it was. *)
Lemma add_min_raise_unchanged (m : Z) (thres : float) (self : Node) :
  forall ign e, snd (add_min self m thres ign) = Raise e ->
                fst (add_min self m thres ign) = self.
Proof.
  induction self as [self IH] using Node_tree_ind. intros ign e.
  rewrite add_min_eq.
  destruct (fits_index m self); cbn [negb]; [|reflexivity].
  destruct (len (List.filter (fits_index m) (children self)) =? 1) eqn:E.
  - apply Z.eqb_eq in E.
    destruct (on_first_fitting_split (fits_index m) (fun c => add_min c m thres false) _ E)
      as (pre & c & post & Hcs & Hc & Hcall).
    cbn zeta. rewrite Hcall. cbn [fst snd]. intros Hraise.
    rewrite Hcs in IH. apply Forall_app in IH as [_ IH]. apply Forall_inv in IH.
    rewrite (IH false e Hraise), <- Hcs. apply with_children_id.
  - unfold insert_here. destruct (min_children self m thres ign); [discriminate | reflexivity].
Qed.

(** Inside the bounds the guard of add_min does not raise, at the called
    node or below it. *)
Lemma add_min_guard_unreached (m : Z) (thres : float) (self : Node) :
  forall ign, fits_index m self = true ->
              snd (add_min self m thres ign) <> Raise ValueError_child_out_of_parents_bounds.
Proof.
  induction self as [self IH] using Node_tree_ind. intros ign Hfit.
  rewrite add_min_eq, Hfit. cbn [negb].
  destruct (len (List.filter (fits_index m) (children self)) =? 1) eqn:E.
  - apply Z.eqb_eq in E.
    destruct (on_first_fitting_split (fits_index m) (fun c => add_min c m thres false) _ E)
      as (pre & c & post & Hcs & Hc & Hcall).
    cbn zeta. rewrite Hcall. cbn [snd].
    rewrite Hcs in IH. apply Forall_app in IH as [_ IH]. apply Forall_inv in IH.
    apply IH, Hc.
  - unfold insert_here. destruct (min_children self m thres ign) as [new|e] eqn:En.
    + discriminate.
    + apply min_children_raise in En. subst e. discriminate.
Qed.

(** On a tree whose chunks cover their bounds a call inside the bounds
    returns. *)
Lemma add_min_returns (m : Z) (thres : float) (self : Node) :
  forall ign, all_nodes spec_covers self -> fits_index m self = true ->
              snd (add_min self m thres ign) = Ok tt.
Proof.
  induction self as [self IH] using Node_tree_ind. intros ign Hall Hfit.
  apply all_nodes_inv in Hall as [Hcov Hkids].
  rewrite add_min_eq, Hfit. cbn [negb].
  destruct (len (List.filter (fits_index m) (children self)) =? 1) eqn:E.
  - apply Z.eqb_eq in E.
    destruct (on_first_fitting_split (fits_index m) (fun c => add_min c m thres false) _ E)
      as (pre & c & post & Hcs & Hc & Hcall).
    cbn zeta. rewrite Hcall. cbn [snd].
    rewrite Hcs in IH, Hkids.
    apply Forall_app in IH as [_ IH]. apply Forall_inv in IH.
    apply Forall_app in Hkids as [_ Hkids]. apply Forall_inv in Hkids.
    apply IH; assumption.
  - destruct (min_children_ok self m thres ign Hcov Hfit) as [new ->]. reflexivity.
Qed.

(** C4 (as amended): add_min raises its error "child out of parents bounds"
    if and only if new_index lies outside the bounds of the called node;
    whenever it raises, the tree is unchanged; inside the bounds that error
    branch is not reached.  On a tree whose nodes hold a spectrum chunk that
    covers their bounds, add_min raises an error if and only if new_index
    lies outside the bounds. *)
Theorem add_min_error (t : Node) (new_index : Z) (thres : float) (ignore_prom : bool) :
  let out_of_bounds := new_index < fst (bounds t) \/ new_index > snd (bounds t) in
  (out_of_bounds ->
   add_min t new_index thres ignore_prom = (t, Raise ValueError_child_out_of_parents_bounds))
  /\ (fst (bounds t) <= new_index <= snd (bounds t) ->
      snd (add_min t new_index thres ignore_prom)
      <> Raise ValueError_child_out_of_parents_bounds)
  /\ (forall e, snd (add_min t new_index thres ignore_prom) = Raise e ->
                fst (add_min t new_index thres ignore_prom) = t)
  /\ (all_nodes spec_covers t ->
      (exists e, snd (add_min t new_index thres ignore_prom) = Raise e) <-> out_of_bounds).
Proof.
  intros out_of_bounds.
  assert (Hfit : fits_index new_index t = false <-> out_of_bounds).
  { unfold fits_index, out_of_bounds. rewrite andb_false_iff, !Z.leb_gt. lia. }
  assert (Hraise : out_of_bounds ->
            add_min t new_index thres ignore_prom
            = (t, Raise ValueError_child_out_of_parents_bounds)).
  { intros Hout. apply Hfit in Hout. rewrite add_min_eq, Hout. reflexivity. }
  split; [exact Hraise|]. split; [|split].
  - intros Hin. apply add_min_guard_unreached.
    unfold fits_index. apply andb_true_intro. rewrite !Z.leb_le. lia.
  - apply add_min_raise_unchanged.
  - intros Hcov. split.
    + intros [e He]. destruct (fits_index new_index t) eqn:E; [|apply Hfit; reflexivity].
      rewrite (add_min_returns _ _ _ _ Hcov E) in He. discriminate.
    + intros Hout. rewrite (Hraise Hout). eexists. reflexivity.
Qed.

End ErrorOfAddMin.

(** *** Concrete trees *)

Lemma flat_root_is_root : root_node flat_root.
Proof. exists (0, 10), flat_chunk, 1%float. reflexivity. Qed.

(** The same minimum added twice: the second call finds two fitting
    children, and adds two more. *)
Lemma four_children_after_repeated_minimum :
  let t := fst (add_min (fst (add_min flat_root 5 1%float false)) 5 1%float false) in
  root_node flat_root
  /\ reachable any_call flat_root t
  /\ map bounds (children t) = [(0, 5); (5, 10); (0, 5); (5, 10)]
  /\ ~ (length (children t) = 0%nat \/ length (children t) = 2%nat).
Proof.
  cbv zeta. split; [exact flat_root_is_root|]. split; [|split].
  - apply (reachable_call any_call flat_root _ (call_add_min 5 1%float false)); [|exact I].
    apply (reachable_call any_call flat_root _ (call_add_min 5 1%float false)); [|exact I].
    apply reachable_start.
  - vm_compute. reflexivity.
  - vm_compute. intros [E|E]; discriminate.
Qed.

Lemma children_come_in_pairs_witness :
  let t := fst (add_min (fst (add_min flat_root 5 1%float false)) 5 1%float false) in
  root_node flat_root
  /\ reachable any_call flat_root t
  /\ all_nodes (fun n => Nat.Even (length (children n)) /\ length (children n) <> 1%nat) t.
Proof.
  cbv zeta.
  assert (Hreach : reachable any_call flat_root
                     (fst (add_min (fst (add_min flat_root 5 1%float false)) 5 1%float false))).
  { apply (reachable_call any_call flat_root _ (call_add_min 5 1%float false)); [|exact I].
    apply (reachable_call any_call flat_root _ (call_add_min 5 1%float false)); [|exact I].
    apply reachable_start. }
  split; [exact flat_root_is_root|]. split; [exact Hreach|].
  exact (proj1 (children_come_in_pairs flat_root _ flat_root_is_root) Hreach).
Defined.

(** A minimum at the left bound of a node gives a right child with the
    bounds of the node; a noise separated pair that reaches past the node
    gives a child that does. *)
Lemma child_as_wide_as_parent :
  let t1 := fst (add_min flat_root 0 1%float false) in
  let t2 := fst (add_noise_sep (Node_init (5, 15) flat_chunk 1%float true 0)
                   (5, 9) (11, 40) 1%float) in
  (root_node flat_root /\ reachable any_call flat_root t1
   /\ bounds t1 = (0, 10) /\ map bounds (children t1) = [(0, 0); (0, 10)]
   /\ exists c, In c (children t1) /\ ~ narrower t1 c)
  /\ (root_node (Node_init (5, 15) flat_chunk 1%float true 0)
      /\ reachable any_call (Node_init (5, 15) flat_chunk 1%float true 0) t2
      /\ bounds t2 = (5, 15) /\ map bounds (children t2) = [(5, 9); (11, 40)]
      /\ exists c, In c (children t2) /\ ~ contained t2 c).
Proof.
  cbv zeta. split.
  - split; [exact flat_root_is_root|]. split; [|split; [|split]].
    + apply (reachable_call any_call flat_root _ (call_add_min 0 1%float false)); [|exact I].
      apply reachable_start.
    + reflexivity.
    + vm_compute. reflexivity.
    + exists (Node_init (0, 10) flat_chunk 1%float false 0).
      split; [vm_compute; right; left; reflexivity|].
      unfold narrower. vm_compute. intros Hlt. discriminate.
  - split; [eexists _, _, _; reflexivity|]. split; [|split; [|split]].
    + apply (reachable_call any_call _ _ (call_add_noise_sep (5, 9) (11, 40) 1%float));
        [|exact I].
      apply reachable_start.
    + reflexivity.
    + vm_compute. reflexivity.
    + exists (Node_init (11, 40) (repeat 10%float 5) 1%float false 0).
      split; [vm_compute; right; left; reflexivity|].
      unfold contained. vm_compute. intros [_ Hle]. apply Hle. reflexivity.
Qed.

Lemma children_inside_parent_witness :
  let t := fst (add_min (fst (add_noise_sep flat_root (0, 3) (6, 10) 1%float)) 8 2%float false) in
  root_node flat_root
  /\ reachable inside_call flat_root t
  /\ all_nodes
       (fun p => forall c, In c (children p) ->
                   fst (bounds p) <= fst (bounds c)
                   /\ snd (bounds c) <= snd (bounds p)
                   /\ snd (bounds c) - fst (bounds c) <= snd (bounds p) - fst (bounds p)
                   /\ (narrower p c \/ bounds c = bounds p)) t.
Proof.
  cbv zeta.
  assert (Hreach : reachable inside_call flat_root
                     (fst (add_min (fst (add_noise_sep flat_root (0, 3) (6, 10) 1%float))
                             8 2%float false))).
  { apply (reachable_call inside_call flat_root _ (call_add_min 8 2%float false)); [|exact I].
    apply (reachable_call inside_call flat_root _
             (call_add_noise_sep (0, 3) (6, 10) 1%float)).
    - apply reachable_start.
    - simpl. repeat split; lia. }
  split; [exact flat_root_is_root|]. split; [exact Hreach|].
  exact (children_inside_parent flat_root _ flat_root_is_root Hreach).
Defined.

(** A node whose chunk is empty: inside its bounds add_min raises at the
    argmax of an empty chunk. *)
Lemma add_min_raises_inside_bounds :
  let bare := Node_init (0, 5) [] 1%float true 0 in
  fst (bounds bare) <= 3 <= snd (bounds bare)
  /\ add_min bare 3 1%float false = (bare, Raise ValueError_argmax_of_empty_sequence).
Proof. cbv zeta. split; [simpl; lia | reflexivity]. Qed.

Lemma flat_root_covered : all_nodes spec_covers flat_root.
Proof. apply all_nodes_leaf; [reflexivity|]. unfold spec_covers. vm_compute. reflexivity. Qed.

Lemma add_min_error_witness :
  all_nodes spec_covers flat_root
  /\ ((exists e, snd (add_min flat_root 12 1%float false) = Raise e)
      <-> 12 < fst (bounds flat_root) \/ 12 > snd (bounds flat_root))
  /\ add_min flat_root 12 1%float false
     = (flat_root, Raise ValueError_child_out_of_parents_bounds).
Proof.
  split; [exact flat_root_covered|]. split.
  - exact (proj2 (proj2 (proj2 (add_min_error flat_root 12 1%float false))) flat_root_covered).
  - apply (proj1 (add_min_error flat_root 12 1%float false)). right. simpl. lia.
Defined.

(** ** The prepared spectrum *)

Lemma bind_ok {A B : Type} (c : res A) (k : A -> res B) (b : B) :
  bind c k = Ok b -> exists a, c = Ok a /\ k a = Ok b.
Proof. destruct c as [a|e]; simpl; [eauto | discriminate]. Qed.

Section PreparedSpectrum.
Context `{H : Helpers} `{N : Numeric}.
#[local] Open Scope float_scope.

Lemma mul2_length (x y : list float) : length x = length y -> length (mul2 x y) = length x.
Proof. intros Hxy. unfold mul2. rewrite length_map, length_combine. lia. Qed.

Lemma cell_Z_mask_length (cell : cell_input) : length (cell_Z_mask cell) = length (cell_Z cell).
Proof. destruct cell; simpl; rewrite !length_map; reflexivity. Qed.

Lemma cell_Zcx_length (cell : cell_input) : length (cell_Zcx cell) = length (cell_Z cell).
Proof.
  destruct cell; simpl; [|rewrite !length_map; reflexivity].
  rewrite mul2_length; rewrite !length_map; reflexivity.
Qed.

(** What [get_tree_at] stores in the spectrum, read off its code. *)
Lemma prepare_spectrum_inv (settings : Settings) (ts rg : float) (velocity : list float)
    (cell : cell_input) (s : Spectrum) :
  prepare_spectrum settings ts rg velocity cell = Ok s ->
  exists Zsm m,
    (if smooth settings then np_convolve_same (cell_Z cell) [0.25; 0.5; 0.25]
     else Ok (cell_Z cell)) = Ok Zsm
    /\ np_nanmin (rev (cell_Zcx cell)) = Ok m
    /\ (if np_all (cell_Z_mask cell) then Ok 1e-25
        else valid <- np_select (cell_Z cell) (map negb (cell_Z_mask cell)) ;;
             m <- np_min valid ;;
             Ok (m * z2lin (thres_factor_co settings))) = Ok (noise_thres s)
    /\ specZ s = rev Zsm
    /\ specZ_mask s = rev (cell_Z_mask cell)
    /\ specZcx s = rev (cell_Zcx cell)
    /\ specZcx_mask s = Zcx_mask_of (m * z2lin (thres_factor_cx settings)) (specZcx s)
    /\ specZcx_validcx s
       = set_where (set_where (specZcx s) (specZcx_mask s) 0) (specZcx_mask s) 0
    /\ specZ_validcx s = specZ s
    /\ length (specSNRco s) = length (cell_Z cell)
    /\ length (specLDR s) = length (cell_Z cell)
    /\ vel s = velocity
    /\ polarimetric s = true
    /\ decoupling s = st_decoupling settings.
Proof.
  unfold prepare_spectrum, prepare_spectrum_at. intros Hp.
  destruct cell as [bins | rows]; cbn beta iota zeta in Hp;
    apply bind_ok in Hp as (nt & Hnt & Hp);
    apply bind_ok in Hp as (Zsm & HZ & Hp);
    cbn [bind] in Hp;
    apply bind_ok in Hp as (m & Hm & Hp);
    injection Hp as <-; exists Zsm, m; cbn [cell_Z cell_Z_mask cell_Zcx];
    repeat (split; [first [exact HZ | exact Hm | exact Hnt | reflexivity
                          | cbn; rewrite ?length_rev, ?length_map, ?length_combine,
                              ?length_map; try reflexivity; lia] |]);
    reflexivity.
Qed.

End PreparedSpectrum.

(** ** Order of floats *)

Lemma SFleb_refl (a : spec_float) : a <> S754_nan -> SFleb a a = true.
Proof.
  destruct a as [[]|[]| |[] m e]; intros Ha; try reflexivity; try congruence;
    unfold SFleb, SFcompare; rewrite Z.compare_refl;
    change (Pos.compare_cont Eq m m) with (Pos.compare m m); rewrite Pos.compare_refl;
    reflexivity.
Qed.


Lemma SFleb_trans (a b c : spec_float) :
  SFleb a b = true -> SFleb b c = true -> SFleb a c = true.
Proof.
  destruct a as [[]|[]| |[] ma ea], b as [[]|[]| |[] mb eb], c as [[]|[]| |[] mc ec];
    try reflexivity; try discriminate;
    unfold SFleb, SFcompare;
    change (Pos.compare_cont Eq ma mb) with (Pos.compare ma mb);
    change (Pos.compare_cont Eq mb mc) with (Pos.compare mb mc);
    change (Pos.compare_cont Eq ma mc) with (Pos.compare ma mc);
    destruct (Z.compare_spec ea eb), (Z.compare_spec eb ec), (Z.compare_spec ea ec);
    subst; try lia; simpl; try discriminate; try reflexivity;
    destruct (Pos.compare_spec ma mb), (Pos.compare_spec mb mc), (Pos.compare_spec ma mc);
    subst; try lia; simpl; try discriminate; reflexivity.
Qed.

Section FloatOrder.
#[local] Open Scope float_scope.

Lemma np_isnan_false (x : float) : np_isnan x = false <-> Prim2SF x <> S754_nan.
Proof.
  unfold np_isnan, is_nan. rewrite FloatAxioms.eqb_spec.
  destruct (Prim2SF x) as [[]|[]| |[] m e] eqn:E; simpl; try (split; [congruence | reflexivity]).
  - split; [discriminate | congruence].
  - unfold SFeqb, SFcompare. rewrite Z.compare_refl.
    change (Pos.compare_cont Eq m m) with (Pos.compare m m). rewrite Pos.compare_refl.
    simpl. split; [congruence | reflexivity].
  - unfold SFeqb, SFcompare. rewrite Z.compare_refl.
    change (Pos.compare_cont Eq m m) with (Pos.compare m m). rewrite Pos.compare_refl.
    simpl. split; [congruence | reflexivity].
Qed.

Lemma leb_refl (x : float) : np_isnan x = false -> (x <=? x) = true.
Proof. intros Hx. apply np_isnan_false in Hx. rewrite FloatAxioms.leb_spec. apply SFleb_refl, Hx. Qed.


Lemma leb_trans (x y z : float) : (x <=? y) = true -> (y <=? z) = true -> (x <=? z) = true.
Proof. rewrite !FloatAxioms.leb_spec. apply SFleb_trans. Qed.



End FloatOrder.

(** ** Noise threshold and cross-polar copies of a prepared spectrum *)




Section NanOfMin.
#[local] Open Scope float_scope.



End NanOfMin.

Section NoiseThreshold.
Context `{H : Helpers} `{N : Numeric}.
#[local] Open Scope float_scope.


End NoiseThreshold.


(** C8: on the cell above one bin fails the Zcx validity mask (its LDR is
    NaN); [specZcx_validcx] is zero there, and [specZ_validcx] is not: it is
    the whole of [specZ]. *)
Theorem specZ_validcx_not_zeroed :
  exists s,
    prepare_spectrum Lindenberg 0%float 0%float example_velocity example_cell = Ok s
    /\ specZcx_mask s = [false; false; false; false; false; false; true; false]
    /\ specZcx_validcx s = [0.5; 0; 0.5; 4; 8; 4; 0; 0.5]%float
    /\ specZ s = [0.5; 0.5; 4.5; 16.25; 24; 16.25; 4.75; 0.75]%float
    /\ specZ_validcx s = [0.5; 0.5; 4.5; 16.25; 24; 16.25; 4.75; 0.75]%float
    /\ specZ_validcx s <> set_where (specZ s) (specZcx_mask s) 0%float.
Proof.
  eexists. split; [vm_compute; reflexivity|]. cbn [specZcx_mask specZcx_validcx specZ specZ_validcx].
  repeat split. vm_compute. intros E. discriminate.
Qed.

(** ** The depolarization ratio of a node *)

Lemma set_where_nil_mask {A : Type} (a : list A) (v : A) : set_where a [] v = a.
Proof. destruct a; reflexivity. Qed.

Lemma set_where_length {A : Type} (a : list A) (m : list bool) (v : A) :
  length (set_where a m v) = length a.
Proof.
  revert m. induction a as [|x a IH]; intros [|b m]; simpl; try reflexivity.
  rewrite IH. reflexivity.
Qed.

Lemma set_where_idem {A : Type} (a : list A) (m : list bool) (v : A) :
  set_where (set_where a m v) m v = set_where a m v.
Proof.
  revert m. induction a as [|x a IH]; intros [|b m]; simpl; try reflexivity.
  rewrite IH. destruct b; reflexivity.
Qed.

Lemma set_where_skipn {A : Type} (n : nat) :
  forall (a : list A) (m : list bool) (v : A),
    skipn n (set_where a m v) = set_where (skipn n a) (skipn n m) v.
Proof.
  induction n as [|n IH]; intros a m v; [reflexivity|].
  destruct m as [|b m].
  - rewrite set_where_nil_mask. change (skipn (S n) (@nil bool)) with (@nil bool).
    rewrite set_where_nil_mask. reflexivity.
  - destruct a as [|x a]; [reflexivity|]. cbn [set_where skipn]. apply IH.
Qed.

Lemma set_where_firstn {A : Type} (n : nat) :
  forall (a : list A) (m : list bool) (v : A),
    firstn n (set_where a m v) = set_where (firstn n a) (firstn n m) v.
Proof.
  induction n as [|n IH]; intros a m v; [reflexivity|].
  destruct m as [|b m].
  - rewrite set_where_nil_mask. change (firstn (S n) (@nil bool)) with (@nil bool).
    rewrite set_where_nil_mask. reflexivity.
  - destruct a as [|x a]; [reflexivity|]. cbn [set_where firstn]. rewrite IH. reflexivity.
Qed.

(** A chunk of a masked copy is the masked copy of the chunk. *)
Lemma chunk_set_where {A : Type} (a : list A) (m : list bool) (v : A) (b : bounds_t) :
  length a = length m ->
  chunk (set_where a m v) b = set_where (chunk a b) (chunk m b) v.
Proof.
  intros Hlen. unfold chunk, py_slice, len. cbv zeta.
  rewrite set_where_length, <- Hlen, set_where_skipn, set_where_firstn. reflexivity.
Qed.

Lemma chunk_length_eq {A B : Type} (a : list A) (m : list B) (b : bounds_t) :
  length a = length m -> length (chunk a b) = length (chunk m b).
Proof.
  intros Hlen. unfold chunk. rewrite !py_slice_length. unfold len. rewrite Hlen. reflexivity.
Qed.

Lemma chunk_length {A : Type} (a : list A) (l r : Z) :
  0 <= l <= r -> r < len a -> len (chunk a (l, r)) = r - l + 1.
Proof.
  intros Hlr Hr. unfold chunk, len in *. rewrite py_slice_length. cbn [fst snd].
  unfold py_clamp, len.
  destruct (l <? 0) eqn:E1; [lia|]. destruct (r + 1 <? 0) eqn:E2; lia.
Qed.

Lemma chunk_In {A : Type} (a : list A) (b : bounds_t) (x : A) : In x (chunk a b) -> In x a.
Proof.
  unfold chunk, py_slice. intros Hin. apply list_elem_of_In.
  apply list_elem_of_In in Hin. apply subseteq_take, subseteq_drop in Hin. exact Hin.
Qed.

Lemma set_where_all {A : Type} (a : list A) (m : list bool) (v : A) :
  np_all m = true -> length a = length m -> set_where a m v = repeat v (length a).
Proof.
  unfold np_all. revert m. induction a as [|x a IH]; intros [|b m]; simpl; try discriminate.
  - reflexivity.
  - intros Hall Hlen. apply andb_prop in Hall as [-> Hall].
    rewrite IH by (assumption || lia). reflexivity.
Qed.

Section RatioOfZero.
#[local] Open Scope float_scope.

(** A sum of zeros is zero, in whatever order they are added. *)
Lemma float_sum_zeros (a : list float) (s : float) :
  float_sum a s -> Forall (fun x => x = 0) a -> s = 0.
Proof.
  induction 1 as [|x|a b s t _ IHa _ IHb|a b s Hperm _ IH]; intros Hall.
  - reflexivity.
  - exact (Forall_inv Hall).
  - apply Forall_app in Hall as [Ha Hb]. rewrite (IHa Ha), (IHb Hb). reflexivity.
  - apply IH. rewrite Hperm. exact Hall.
Qed.

(** Zero divided by a float is a zero or NaN. *)
Lemma zero_div (x : float) : 0 / x = 0 \/ 0 / x = -0 \/ 0 / x = nan.
Proof.
  rewrite <- (SF2Prim_Prim2SF (0 / x)), FloatAxioms.div_spec.
  change (Prim2SF 0) with (S754_zero false).
  destruct (Prim2SF x) as [[]|[]| |[] m e]; cbn; auto.
Qed.

(** What is stored of the ratio of a zero sum is NaN. *)
Lemma stored_zero_div (x : float) : stored_ratio (0 / x) = nan.
Proof. destruct (zero_div x) as [-> | [-> | ->]]; reflexivity. Qed.

Lemma np_isfinite_finite (x : float) : np_isfinite x = finite x.
Proof.
  unfold np_isfinite, finite, is_infinity.
  destruct (np_isnan x) eqn:Hnan.
  - unfold np_isnan in Hnan. rewrite Hnan. cbn [negb andb].
    destruct (Prim2SF x) as [sx|sx| |sx mx ex] eqn:Ex; try reflexivity;
      (assert (Hn : np_isnan x = false) by (apply np_isnan_false; congruence));
      unfold np_isnan in Hn; congruence.
  - pose proof Hnan as Hx. apply np_isnan_false in Hx. unfold np_isnan in Hnan.
    rewrite Hnan. cbn [negb andb]. rewrite FloatAxioms.eqb_spec, FloatAxioms.abs_spec.
    change (Prim2SF infinity) with (S754_infinity false).
    destruct (Prim2SF x) as [sx|sx| |sx mx ex]; try reflexivity. contradiction.
Qed.

Lemma sub_zero (x : float) : x - 0 = x.
Proof.
  rewrite <- (SF2Prim_Prim2SF (x - 0)), FloatAxioms.sub_spec.
  change (Prim2SF 0) with (S754_zero false).
  rewrite <- (SF2Prim_Prim2SF x) at 2.
  destruct (Prim2SF x) as [[]|[]| |[] m e]; reflexivity.
Qed.

(** [np.allclose(x, 0.0)] of a number is the test against [1e-8]. *)
Lemma np_allclose_zero (x : float) :
  finite x = true -> np_allclose x 0 = numerically_zero x.
Proof.
  intros Hx. unfold np_allclose, numerically_zero.
  rewrite np_isfinite_finite, Hx. cbn [andb].
  change (np_isfinite 0) with true. cbv iota.
  rewrite sub_zero. reflexivity.
Qed.

(** The test of [calc_moments] on the ratio, in the words of the claim. *)
Lemma stored_ratio_eq (x : float) :
  (if np_isfinite x && negb (np_allclose x 0) then x else np_nan) = stored_ratio x.
Proof.
  unfold stored_ratio. rewrite np_isfinite_finite.
  destruct (finite x) eqn:Hx; cbn [andb]; [|reflexivity].
  rewrite (np_allclose_zero x Hx). reflexivity.
Qed.

End RatioOfZero.

(** A slice between bounds that are not negative holds the bins between
    them. *)
Lemma chunk_bins {A : Type} (a : list A) (l r : Z) :
  0 <= l -> 0 <= r + 1 -> chunk a (l, r) = bins_of a l r.
Proof.
  intros Hl Hr. unfold chunk, bins_of, py_slice, py_clamp. cbn [fst snd]. cbv zeta.
  destruct (l <? 0) eqn:E1; [lia|]. destruct (r + 1 <? 0) eqn:E2; [lia|].
  pose proof (len_nonneg a) as Hn. unfold len in *.
  destruct (Z_le_gt_dec l (Z.of_nat (length a))) as [Hla|Hla].
  - rewrite (Z.min_l l) by lia.
    destruct (Z_le_gt_dec (r + 1) (Z.of_nat (length a))) as [Hra|Hra].
    + rewrite Z.min_l by lia. f_equal. lia.
    + rewrite Z.min_r by lia.
      rewrite !firstn_all2; [reflexivity | |]; rewrite length_skipn; lia.
  - rewrite (Z.min_r l) by lia.
    rewrite !skipn_all2 by lia. rewrite !firstn_nil. reflexivity.
Qed.

(** A bin between the bounds is valid if and only if the mask of the slice
    is not true throughout. *)
Lemma valid_bin_chunk (mask : list bool) (l r : Z) :
  0 <= l <= r -> valid_bin mask l r <-> np_all (chunk mask (l, r)) = false.
Proof.
  intros Hlr. rewrite chunk_bins by lia. unfold valid_bin, bins_of, np_all. split.
  - intros (i & Hi & Hb). apply not_true_is_false. intros Hall.
    rewrite forallb_forall in Hall.
    assert (Hin : In false (firstn (Z.to_nat (r - l + 1)) (skipn (Z.to_nat l) mask))).
    { apply (nth_error_In _ (Z.to_nat (i - l))).
      rewrite nth_error_firstn, nth_error_skipn.
      replace (Z.to_nat (i - l) <? Z.to_nat (r - l + 1))%nat with true
        by (symmetry; apply Nat.ltb_lt; lia).
      replace (Z.to_nat l + Z.to_nat (i - l))%nat with (Z.to_nat i) by lia. exact Hb. }
    specialize (Hall false Hin). discriminate.
  - intros Hall.
    assert (Hex : exists b, In b (firstn (Z.to_nat (r - l + 1)) (skipn (Z.to_nat l) mask))
                            /\ b = false).
    { induction (firstn (Z.to_nat (r - l + 1)) (skipn (Z.to_nat l) mask)) as [|b m IH];
        [discriminate|].
      cbn [forallb] in Hall. destruct b.
      - destruct (IH Hall) as (b & Hin & Hb). exists b. split; [right; exact Hin | exact Hb].
      - exists false. split; [left; reflexivity | reflexivity]. }
    destruct Hex as (b & Hin & ->). apply In_nth_error in Hin as [k Hk].
    rewrite nth_error_firstn, nth_error_skipn in Hk.
    destruct (k <? Z.to_nat (r - l + 1))%nat eqn:Ek; [|discriminate].
    apply Nat.ltb_lt in Ek. exists (l + Z.of_nat k). split; [lia|].
    replace (Z.to_nat (l + Z.of_nat k)) with (Z.to_nat l + k)%nat by lia. exact Hk.
Qed.

Lemma existsb_negb (m : list bool) : existsb negb m = negb (np_all m).
Proof.
  unfold np_all. induction m as [|b m IH]; [reflexivity|].
  simpl. rewrite IH. destruct b; reflexivity.
Qed.

Lemma np_all_chunk (m : list bool) (b : bounds_t) :
  np_all m = true -> np_all (chunk m b) = true.
Proof.
  unfold np_all. rewrite !forallb_forall. intros Hall x Hx. apply Hall.
  apply (chunk_In m b x Hx).
Qed.

Lemma select_nonempty {A : Type} (a : list A) (m : list bool) :
  length a = length m -> np_all m = false -> select a (map negb m) <> [].
Proof.
  unfold np_all. revert m. induction a as [|x a IH]; intros [|b m]; simpl; try discriminate.
  intros Hlen Hall. destruct b; simpl in *; [|discriminate].
  apply IH; [lia | exact Hall].
Qed.

Lemma np_convolve_same_length (a v out : list float) :
  np_convolve_same a v = Ok out -> len v <= len a -> length out = length a.
Proof.
  unfold np_convolve_same. intros Hc Hlen.
  destruct a as [|x a]; [discriminate|]. destruct v as [|y v]; [discriminate|].
  destruct (len (x :: a) <? len (y :: v)) eqn:E; [lia|]. cbv beta iota zeta in Hc.
  injection Hc as <-. cbn [length]. rewrite !length_map, length_seq. reflexivity.
Qed.

Lemma np_mul_ok (x y : list float) :
  length x = length y -> np_mul x y = Ok (mul2 x y).
Proof.
  intros Hlen. unfold np_mul, len. rewrite Hlen, Z.eqb_refl. reflexivity.
Qed.

Section MomentReturns.
Context `{N : Numeric}.

Lemma moment_ok (x Z : list float) : length x = length Z -> exists m, moment x Z = Ok m.
Proof.
  intros Hlen. unfold moment.
  rewrite np_mul_ok by exact Hlen. cbn [bind].
  rewrite np_mul_ok by (rewrite length_map; exact Hlen). cbn [bind].
  rewrite np_mul_ok by (rewrite length_map; exact Hlen). cbn [bind].
  eauto.
Qed.

(** The power of line 326 raises nothing but an OverflowError. *)
Lemma decoup_of_raises (d : py_number) (e : exn) :
  decoup_of d = Raise e -> e = OverflowError.
Proof.
  unfold decoup_of, py_div_float, float_of_py_int, py_pow10.
  destruct d as [n|x]; cbn [bind].
  - destruct (is_infinity _); cbn [bind]; [intros [= <-]; reflexivity|].
    repeat match goal with
           | |- context [if ?c then _ else _] => destruct c
           end; try discriminate; intros [= <-]; reflexivity.
  - repeat match goal with
           | |- context [if ?c then _ else _] => destruct c
           end; try discriminate; intros [= <-]; reflexivity.
Qed.

End MomentReturns.

Section LdrOfNode.
Context `{H : Helpers} `{N : Numeric}.
#[local] Open Scope float_scope.

Lemma calc_moments_ldr_value (s s' : Spectrum) (b : bounds_t) (thres : float) (m : Moments) :
  calc_moments s b thres = Ok (m, s') ->
  s' = s
  /\ ldr m =
     let ldr2 := if negb (np_all (specZcx_mask s))
                 then np_sum (chunk (specZcx_validcx s) b)
                      / np_sum (chunk (specZ_validcx s) b)
                 else np_nan in
     if np_isfinite ldr2 && negb (np_allclose ldr2 0) then ldr2 else np_nan.
Proof.
  unfold calc_moments. intros Hc.
  apply bind_ok in Hc as (m0 & _ & Hc).
  apply bind_ok in Hc as (ind_max & _ & Hc).
  apply bind_ok in Hc as (zmax & _ & Hc).
  apply bind_ok in Hc as (pmask & _ & Hc).
  apply bind_ok in Hc as (first & _ & Hc).
  apply bind_ok in Hc as (ldrmax_ & _ & Hc).
  apply bind_ok in Hc as (decoup & _ & Hc).
  injection Hc as <- <-. split; reflexivity.
Qed.

Lemma prepared_validcx_chunk (settings : Settings) (ts rg : float) (velocity : list float)
    (cell : cell_input) (s : Spectrum) (b : bounds_t) :
  prepare_spectrum settings ts rg velocity cell = Ok s ->
  np_all (chunk (specZcx_mask s) b) = true ->
  np_sum (chunk (specZcx_validcx s) b) = 0.
Proof.
  intros Hp Hall.
  destruct (prepare_spectrum_inv _ _ _ _ _ _ Hp)
    as (Zsm & mcx & _ & _ & _ & _ & _ & _ & Hmask & Hvalid & _).
  assert (Hlen : length (specZcx s) = length (specZcx_mask s)).
  { rewrite Hmask. unfold Zcx_mask_of. rewrite length_map. reflexivity. }
  apply (float_sum_zeros _ _ (np_sum_adds _)).
  rewrite Hvalid, set_where_idem, chunk_set_where by exact Hlen.
  rewrite set_where_all by (assumption || apply chunk_length_eq, Hlen).
  apply List.Forall_forall. intros x Hx. apply repeat_spec in Hx. exact Hx.
Qed.

(** C7: for a node with bounds [l, r] of a prepared spectrum, calc_moments
    sets ldr from a sum of the bins l..r of specZcx_validcx and a sum of the
    bins l..r of specZ_validcx, each added as floats in the order numpy
    chooses.  When some bin of specZcx_mask in [l, r] is valid, ldr is the
    first sum divided by the second if this ratio is a number and is not
    numerically zero (more than 1e-8 from zero), and NaN if it is not; when
    no bin in [l, r] is valid, ldr is NaN.  On a cell of three or more bins
    with a velocity axis of the same length, calc_moments returns for every
    bounds 0 <= l <= r < Nv, unless the power 10**(decoupling/10) overflows,
    which raises its OverflowError. *)
Theorem calc_moments_ldr (settings : Settings) (ts rg : float) (velocity : list float)
    (cell : cell_input) (s : Spectrum) (l r : Z) (thres : float) :
  prepare_spectrum settings ts rg velocity cell = Ok s ->
  (0 <= l <= r)%Z ->
  (forall m s',
      calc_moments s (l, r) thres = Ok (m, s') ->
      s' = s
      /\ exists zcx z,
           float_sum (bins_of (specZcx_validcx s) l r) zcx
           /\ float_sum (bins_of (specZ_validcx s) l r) z
           /\ (valid_bin (specZcx_mask s) l r -> ldr m = stored_ratio (zcx / z))
           /\ (~ valid_bin (specZcx_mask s) l r -> ldr m = nan))
  /\ (length velocity = length (cell_Z cell) ->
      (3 <= len (cell_Z cell))%Z ->
      (r < len (cell_Z cell))%Z ->
      exists m,
        calc_moments s (l, r) thres
        = (decoup <- decoup_of (st_decoupling settings) ;; Ok (m, s))).
Proof.
  intros Hp Hlr. split.
  - intros m s' Hc. apply calc_moments_ldr_value in Hc as [-> Hldr].
    split; [reflexivity|].
    exists (np_sum (chunk (specZcx_validcx s) (l, r))),
           (np_sum (chunk (specZ_validcx s) (l, r))).
    split; [rewrite <- chunk_bins by lia; apply np_sum_adds|].
    split; [rewrite <- chunk_bins by lia; apply np_sum_adds|].
    rewrite (valid_bin_chunk _ _ _ Hlr). cbv zeta in Hldr. rewrite Hldr. split.
    + intros Hvalid.
      destruct (np_all (specZcx_mask s)) eqn:Hall; cbn [negb].
      * rewrite (np_all_chunk _ _ Hall) in Hvalid. discriminate.
      * apply stored_ratio_eq.
    + intros Hnone. apply not_false_is_true in Hnone.
      destruct (np_all (specZcx_mask s)); cbn [negb]; [reflexivity|].
      rewrite (prepared_validcx_chunk _ _ _ _ _ _ _ Hp Hnone).
      rewrite stored_ratio_eq. apply stored_zero_div.
  - intros Hvel Hnv Hr.
    destruct (prepare_spectrum_inv _ _ _ _ _ _ Hp)
      as (Zsm & mcx & HZ & _ & _ & HspecZ & Hmask & Hcx & Hcxmask & _ & _ & Hsnr & Hldr
          & Hv & _ & Hdec).
    assert (HlenZ : length (specZ s) = length (cell_Z cell)).
    { rewrite HspecZ, length_rev. destruct (smooth settings).
      - apply (np_convolve_same_length _ _ _ HZ). unfold len at 1. simpl. lia.
      - injection HZ as <-. reflexivity. }
    assert (HlenM : length (specZ_mask s) = length (cell_Z cell))
      by (rewrite Hmask, length_rev; apply cell_Z_mask_length).
    assert (HlenC : length (specZcx s) = length (cell_Z cell))
      by (rewrite Hcx, length_rev; apply cell_Zcx_length).
    assert (HlenCM : length (specZcx_mask s) = length (cell_Z cell))
      by (rewrite Hcxmask; unfold Zcx_mask_of; rewrite length_map; exact HlenC).
    unfold calc_moments. rewrite Hdec.
    destruct (moment_ok (chunk (vel s) (l, r))
                (chunk (fill_with (fill_with (specZ s) (specZ_mask s) 0)
                          (map (fun x => x <? thres)
                             (fill_with (specZ s) (specZ_mask s) 0)) 0) (l, r)))
      as [m0 ->].
    { apply chunk_length_eq. unfold fill_with. rewrite !set_where_length. congruence. }
    cbn [bind].
    assert (Hchunk : forall (A : Type) (a : list A),
               length a = length (cell_Z cell) -> len (chunk a (l, r)) = (r - l + 1)%Z).
    { intros A a Ha. apply chunk_length; [exact Hlr|]. unfold len in *. lia. }
    destruct (np_argmax (chunk (specSNRco s) (l, r))) as [i|e] eqn:Hi.
    2:{ destruct (chunk (specSNRco s) (l, r)) eqn:E; [|discriminate].
        pose proof (Hchunk _ _ Hsnr) as Hc. rewrite E in Hc. unfold len in Hc.
        simpl in Hc. lia. }
    apply np_argmax_range in Hi. rewrite (Hchunk _ _ Hsnr) in Hi. cbn [bind].
    destruct (py_get_in_range (chunk (specZ s) (l, r)) i) as [zmax ->];
      [rewrite (Hchunk _ _ HlenZ); lia|]. cbn [bind].
    destruct (py_get_in_range (chunk (specZ_mask s) (l, r)) i) as [pmask ->];
      [rewrite (Hchunk _ _ HlenM); lia|]. cbn [bind].
    destruct (py_get_in_range (chunk (specLDR s) (l, r)) i) as [ldrmax_ Hldrmax];
      [rewrite (Hchunk _ _ Hldr); lia|].
    destruct (np_all (specZ_mask s)) eqn:E1; cbn [negb andb bind];
      [rewrite Hldrmax; cbn [bind];
       destruct (decoup_of (st_decoupling settings)); cbn [bind]; eauto|].
    destruct (np_all (specZcx_mask s)) eqn:E2; cbn [negb andb bind];
      [rewrite Hldrmax; cbn [bind];
       destruct (decoup_of (st_decoupling settings)); cbn [bind]; eauto|].
    unfold np_select, len. rewrite !length_map, HlenZ, HlenM, HlenC, HlenCM, !Z.eqb_refl.
    cbn [bind].
    destruct (select (specZ s) (map negb (specZ_mask s))) as [|x0 xs] eqn:Es;
      [exfalso; revert Es; apply select_nonempty; [congruence | exact E1]|].
    destruct (select (specZcx s) (map negb (specZcx_mask s))) as [|y0 ys] eqn:Ec;
      [exfalso; revert Ec; apply select_nonempty; [congruence | exact E2]|].
    cbn [np_min bind]. rewrite Hldrmax. cbn [bind].
    destruct (decoup_of (st_decoupling settings)); cbn [bind]; eauto.
Qed.

End LdrOfNode.

Lemma calc_moments_ldr_witness :
  exists s m m' zcx z,
    prepare_spectrum Lindenberg 0%float 0%float example_velocity example_cell = Ok s
    /\ calc_moments s (2, 6) (noise_thres s) = Ok (m, s)
    /\ valid_bin (specZcx_mask s) 2 6
    /\ float_sum (bins_of (specZcx_validcx s) 2 6) zcx
    /\ float_sum (bins_of (specZ_validcx s) 2 6) z
    /\ ldr m = stored_ratio (zcx / z)
    /\ calc_moments s (6, 6) (noise_thres s) = Ok (m', s)
    /\ ~ valid_bin (specZcx_mask s) 6 6
    /\ ldr m' = nan.
Proof.
  destruct (prepare_spectrum Lindenberg 0%float 0%float example_velocity example_cell)
    as [s|e] eqn:Hp; [|vm_compute in Hp; discriminate].
  assert (Hs : s = match prepare_spectrum Lindenberg 0%float 0%float example_velocity
                           example_cell with Ok s0 => s0 | Raise _ => s end)
    by (rewrite Hp; reflexivity).
  destruct (decoup_of (st_decoupling Lindenberg)) as [d|e] eqn:Hd;
    [|vm_compute in Hd; discriminate].
  destruct (calc_moments_ldr _ _ _ _ _ _ 2 6 (noise_thres s) Hp ltac:(lia)) as [Hval Hret].
  destruct Hret as [m Hm];
    [reflexivity | unfold len; simpl; lia | unfold len; simpl; lia |].
  destruct (calc_moments_ldr _ _ _ _ _ _ 6 6 (noise_thres s) Hp ltac:(lia)) as [Hval' Hret'].
  destruct Hret' as [m' Hm'];
    [reflexivity | unfold len; simpl; lia | unfold len; simpl; lia |].
  rewrite Hd in Hm, Hm'. cbn [bind] in Hm, Hm'.
  destruct (Hval m s Hm) as (_ & zcx & z & Hzcx & Hz & Hsome & _).
  destruct (Hval' m' s Hm') as (_ & _ & _ & _ & _ & _ & Hnone).
  assert (Hvalid : valid_bin (specZcx_mask s) 2 6).
  { exists 2%Z. split; [lia|]. rewrite Hs. vm_compute. reflexivity. }
  assert (Hmasked : ~ valid_bin (specZcx_mask s) 6 6).
  { intros (i & Hi & Hb). replace i with 6%Z in Hb by lia.
    rewrite Hs in Hb. vm_compute in Hb. discriminate. }
  exists s, m, m', zcx, z. split; [reflexivity|].
  split; [exact Hm|]. split; [exact Hvalid|]. split; [exact Hzcx|]. split; [exact Hz|].
  split; [exact (Hsome Hvalid)|]. split; [exact Hm'|]. split; [exact Hmasked|].
  exact (Hnone Hmasked).
Defined.

(** ** Empty spectra in the assembly *)

Lemma nth_error_lookup {A : Type} (l : list A) (i : nat) : nth_error l i = l !! i.
Proof. revert i. induction l as [|x l IH]; intros [|i]; simpl; auto. Qed.

Lemma py_get_nonneg {A : Type} (l : list A) (i : Z) :
  0 <= i ->
  py_get l i = match l !! Z.to_nat i with Some a => Ok a | None => Raise IndexError end.
Proof.
  intros Hi. unfold py_get. destruct (i <? 0) eqn:E; [lia|].
  rewrite nth_error_lookup.
  destruct ((i <? 0) || (len l <=? i))%bool eqn:E2.
  - destruct (l !! Z.to_nat i) eqn:El; [|reflexivity].
    apply lookup_lt_Some in El. unfold len in E2. rewrite E in E2. simpl in E2. lia.
  - reflexivity.
Qed.

Lemma py_set_nonneg {A : Type} (l l' : list A) (i : Z) (v : A) :
  0 <= i -> py_set l i v = Ok l' ->
  l' = <[Z.to_nat i := v]> l /\ (Z.to_nat i < length l)%nat.
Proof.
  intros Hi. unfold py_set. destruct (i <? 0) eqn:E; [lia|].
  destruct ((i <? 0) || (len l <=? i))%bool eqn:E2; [discriminate|].
  intros [= <-]. split; [reflexivity|]. rewrite E in E2. unfold len in E2. simpl in E2. lia.
Qed.

Lemma py_get_set_other {A : Type} (l l' : list A) (i j : Z) (v : A) :
  0 <= i -> 0 <= j -> i <> j -> py_set l i v = Ok l' -> py_get l' j = py_get l j.
Proof.
  intros Hi Hj Hij Hset. apply py_set_nonneg in Hset as [-> _]; [|exact Hi].
  rewrite !py_get_nonneg by exact Hj. rewrite list_lookup_insert_ne by lia. reflexivity.
Qed.

Lemma py_get_set_same {A : Type} (l l' : list A) (i : Z) (v : A) :
  0 <= i -> py_set l i v = Ok l' -> py_get l' i = Ok v.
Proof.
  intros Hi Hset. apply py_set_nonneg in Hset as [-> Hlt]; [|exact Hi].
  rewrite py_get_nonneg by exact Hi. rewrite list_lookup_insert_eq by exact Hlt. reflexivity.
Qed.

(** Writing into one cell leaves the other cells of an array as they were. *)
Lemma np_set2_other {A : Type} (arr arr' : list (list A)) (it' ir' it ir : Z) (v : A) :
  0 <= it' -> 0 <= ir' -> 0 <= it -> 0 <= ir -> (it', ir') <> (it, ir) ->
  np_set2 arr it' ir' v = Ok arr' -> np_get2 arr' it ir = np_get2 arr it ir.
Proof.
  intros H1 H2 H3 H4 Hne Hset. unfold np_set2 in Hset.
  apply bind_ok in Hset as (row & Hrow & Hset).
  apply bind_ok in Hset as (row' & Hrow' & Hset).
  unfold np_get2. destruct (Z.eq_dec it' it) as [->|Hit].
  - rewrite (py_get_set_same _ _ _ _ H3 Hset), Hrow. cbn [bind].
    apply (py_get_set_other _ _ ir' ir v); try assumption. congruence.
  - rewrite (py_get_set_other _ _ it' it _ H1 H3 Hit Hset). reflexivity.
Qed.

Lemma np_set2_same {A : Type} (arr arr' : list (list A)) (it ir : Z) (v : A) :
  0 <= it -> 0 <= ir -> np_set2 arr it ir v = Ok arr' -> np_get2 arr' it ir = Ok v.
Proof.
  intros H1 H2 Hset. unfold np_set2 in Hset.
  apply bind_ok in Hset as (row & Hrow & Hset).
  apply bind_ok in Hset as (row' & Hrow' & Hset).
  unfold np_get2. rewrite (py_get_set_same _ _ _ _ H1 Hset). cbn [bind].
  apply (py_get_set_same _ _ _ _ H2 Hrow').
Qed.

Lemma np_set3_other {A : Type} (arr arr' : list (list (list A))) (it' ir' it ir k : Z)
    (v : A) :
  0 <= it' -> 0 <= ir' -> 0 <= it -> 0 <= ir -> (it', ir') <> (it, ir) ->
  np_set3 arr it' ir' k v = Ok arr' -> np_get2 arr' it ir = np_get2 arr it ir.
Proof.
  intros H1 H2 H3 H4 Hne Hset. unfold np_set3 in Hset.
  apply bind_ok in Hset as (plane & Hplane & Hset).
  apply bind_ok in Hset as (plane' & Hplane' & Hset).
  unfold np_get2. destruct (Z.eq_dec it' it) as [->|Hit].
  - rewrite (py_get_set_same _ _ _ _ H3 Hset), Hplane. cbn [bind].
    unfold np_set2 in Hplane'.
    apply bind_ok in Hplane' as (row & Hrow & Hplane').
    apply bind_ok in Hplane' as (row' & Hrow' & Hplane').
    apply (py_get_set_other _ _ ir' ir row'); try assumption. congruence.
  - rewrite (py_get_set_other _ _ it' it _ H1 H3 Hit Hset). reflexivity.
Qed.

Lemma np_set2_ok {A : Type} (arr : list (list A)) (it ir : Z) (x v : A) :
  0 <= it -> 0 <= ir -> np_get2 arr it ir = Ok x ->
  exists arr', np_set2 arr it ir v = Ok arr'.
Proof.
  intros H1 H2 Hget. unfold np_get2 in Hget. apply bind_ok in Hget as (row & Hrow & Hx).
  unfold np_set2. rewrite Hrow. cbn [bind]. cbv beta in Hx.
  rewrite py_get_nonneg in Hrow by assumption. rewrite py_get_nonneg in Hx by assumption.
  destruct (arr !! Z.to_nat it) eqn:E1; [|discriminate].
  destruct (row !! Z.to_nat ir) eqn:E2; [|discriminate].
  apply lookup_lt_Some in E1, E2.
  assert (Hset : forall (B : Type) (xs : list B) (i : Z) (b : B),
             0 <= i -> (Z.to_nat i < length xs)%nat ->
             py_set xs i b = Ok (<[Z.to_nat i := b]> xs)).
  { intros B xs i b Hi Hlt. unfold py_set. destruct (i <? 0) eqn:E; [lia|].
    destruct ((i <? 0) || (len xs <=? i))%bool eqn:E'; [|reflexivity].
    rewrite E in E'. unfold len in E'. simpl in E'. lia. }
  rewrite Hset by assumption. cbn [bind]. rewrite Hset by assumption. eauto.
Qed.

Section EmptySpectrum.
Context `{H : Helpers} `{N : Numeric}.

Lemma save_node_other (travtree : gmap Z tree_node) (it' ir' it ir k : Z) (o o' : Output) :
  0 <= it' -> 0 <= ir' -> 0 <= it -> 0 <= ir -> (it', ir') <> (it, ir) ->
  save_node travtree it' ir' o k = Ok o' ->
  cell_rows o' it ir = cell_rows o it ir /\ out_no_nodes o' = out_no_nodes o.
Proof.
  intros H1 H2 H3 H4 Hne. unfold save_node.
  destruct (travtree !! k) as [val|]; [|intros [= <-]; split; reflexivity].
  intros Hs.
  repeat match type of Hs with
         | bind _ _ = Ok _ =>
             let a := fresh "arr" in
             let Ha := fresh "Harr" in
             apply bind_ok in Hs as (a & Ha & Hs);
             apply (np_set3_other _ _ _ _ _ _ _ _ H1 H2 H3 H4 Hne) in Ha
         end.
  injection Hs as <-. split; [|reflexivity].
  unfold cell_rows, per_slot_fields. cbn [map out_Z out_v out_width out_LDR out_skew
    out_bound_l out_bound_r out_parent out_thres out_ldrmax out_prominence].
  congruence.
Qed.

Lemma save_nodes_other (travtree : gmap Z tree_node) (it' ir' it ir : Z) (ks : list Z) :
  0 <= it' -> 0 <= ir' -> 0 <= it -> 0 <= ir -> (it', ir') <> (it, ir) ->
  forall o o',
    save_nodes travtree it' ir' o ks = Ok o' ->
    cell_rows o' it ir = cell_rows o it ir /\ out_no_nodes o' = out_no_nodes o.
Proof.
  intros H1 H2 H3 H4 Hne. induction ks as [|k ks IH]; intros o o' Hs; cbn [save_nodes] in Hs.
  - injection Hs as <-. split; reflexivity.
  - apply bind_ok in Hs as (o1 & Ho1 & Hs).
    destruct (save_node_other _ _ _ _ _ _ _ _ H1 H2 H3 H4 Hne Ho1) as [Hr1 Hn1].
    destruct (IH _ _ Hs) as [Hr Hn]. split; congruence.
Qed.

(** The iteration of another cell leaves a cell as it was. *)
Lemma assemble_cell_other (max_no_nodes it' ir' it ir : Z) (travtree : gmap Z tree_node)
    (o o' : Output) :
  0 <= it' -> 0 <= ir' -> 0 <= it -> 0 <= ir -> (it', ir') <> (it, ir) ->
  assemble_cell max_no_nodes it' ir' travtree o = Ok o' ->
  cell_rows o' it ir = cell_rows o it ir /\ cell_count o' it ir = cell_count o it ir.
Proof.
  intros H1 H2 H3 H4 Hne. unfold assemble_cell. intros Ha.
  apply bind_ok in Ha as (nn & Hnn & Ha).
  destruct (save_nodes_other _ _ _ _ _ _ H1 H2 H3 H4 Hne _ _ Ha) as [Hr Hn].
  split; [exact Hr|]. unfold cell_count. rewrite Hn. cbn [out_no_nodes].
  apply (np_set2_other _ _ _ _ _ _ _ H1 H2 H3 H4 Hne Hnn).
Qed.

(** The iteration of a cell whose tree is empty writes its count, zero. *)
Lemma assemble_cell_empty (max_no_nodes it ir : Z) (o o' : Output) :
  0 <= it -> 0 <= ir ->
  assemble_cell max_no_nodes it ir ∅ o = Ok o' ->
  per_slot_fields o' = per_slot_fields o /\ cell_count o' it ir = Ok 0%float.
Proof.
  intros H1 H2. unfold assemble_cell. rewrite map_to_list_empty. cbn [map List.filter].
  intros Ha. apply bind_ok in Ha as (nn & Hnn & Ha). cbn [save_nodes] in Ha.
  injection Ha as <-. split; [reflexivity|].
  unfold cell_count. cbn [out_no_nodes]. apply (np_set2_same _ _ _ _ _ H1 H2 Hnn).
Qed.

Lemma assemble_cells_empty_cell (max_no_nodes : Z)
    (get_tree : Z -> Z -> res (gmap Z tree_node)) (it ir : Z) (cells : list (Z * Z)) :
  0 <= it -> 0 <= ir ->
  Forall (fun c : Z * Z => 0 <= fst c /\ 0 <= snd c) cells ->
  get_tree it ir = Ok ∅ ->
  forall o o',
    assemble_cells max_no_nodes get_tree cells o = Ok o' ->
    cell_rows o' it ir = cell_rows o it ir
    /\ (In (it, ir) cells -> cell_count o' it ir = Ok 0%float)
    /\ (~ In (it, ir) cells -> cell_count o' it ir = cell_count o it ir).
Proof.
  intros H1 H2 Hnn Htree.
  induction cells as [|[it' ir'] cells IH]; intros o o' Ha; cbn [assemble_cells] in Ha.
  - injection Ha as <-. split; [reflexivity|]. split; [intros []|reflexivity].
  - apply bind_ok in Ha as (travtree & Ht & Ha).
    apply bind_ok in Ha as (o1 & Ho1 & Ha).
    pose proof (Forall_inv Hnn) as [H3 H4]. cbn [fst snd] in H3, H4.
    destruct (IH (Forall_inv_tail Hnn) _ _ Ha) as (Hr & Hin & Hout).
    assert (Hstep : cell_rows o1 it ir = cell_rows o it ir
                    /\ ((it', ir') = (it, ir) -> cell_count o1 it ir = Ok 0%float)
                    /\ ((it', ir') <> (it, ir) -> cell_count o1 it ir = cell_count o it ir)).
    { destruct (decide ((it', ir') = (it, ir))) as [E|E].
      - injection E as -> ->. rewrite Htree in Ht. injection Ht as <-.
        destruct (assemble_cell_empty _ _ _ _ _ H1 H2 Ho1) as [Hf Hc].
        split; [unfold cell_rows; rewrite Hf; reflexivity|].
        split; [intros _; exact Hc | congruence].
      - destruct (assemble_cell_other _ _ _ _ _ _ _ _ H3 H4 H1 H2 E Ho1) as [Hr1 Hc1].
        split; [exact Hr1|]. split; [congruence | intros _; exact Hc1]. }
    destruct Hstep as (Hr1 & Hc0 & Hc1).
    split; [congruence|]. split.
    + intros [E|Hin']; [|apply Hin, Hin'].
      destruct (in_dec (fun a b : Z * Z => decide (a = b)) (it, ir) cells) as [Hi|Hi];
        [apply Hin, Hi|].
      rewrite (Hout Hi). apply Hc0, E.
    + intros Hnot. rewrite Hout by (intros Hi; apply Hnot; right; exact Hi).
      apply Hc1. intros E. apply Hnot. left. exact E.
Qed.

End EmptySpectrum.

Lemma grid_nonneg (nt nr : nat) :
  Forall (fun c : Z * Z => 0 <= fst c /\ 0 <= snd c) (grid nt nr).
Proof.
  apply List.Forall_forall. intros [a b] Hin. unfold grid in Hin.
  apply in_flat_map in Hin as (it & _ & Hin). apply in_map_iff in Hin as (ir & [= <- <-] & _).
  simpl. lia.
Qed.

Lemma grid_In (nt nr it ir : nat) :
  (it < nt)%nat -> (ir < nr)%nat -> In (Z.of_nat it, Z.of_nat ir) (grid nt nr).
Proof.
  intros Hit Hir. unfold grid. apply in_flat_map. exists it. split; [apply in_seq; lia|].
  apply in_map_iff. exists ir. split; [reflexivity | apply in_seq; lia].
Qed.

Lemma np_get2_replicate {A : Type} (nt nr it ir : nat) (x : A) :
  (it < nt)%nat -> (ir < nr)%nat ->
  np_get2 (replicate nt (replicate nr x)) (Z.of_nat it) (Z.of_nat ir) = Ok x.
Proof.
  intros Hit Hir. unfold np_get2.
  rewrite py_get_nonneg by lia. rewrite Nat2Z.id, lookup_replicate_2 by exact Hit.
  cbn [bind]. rewrite py_get_nonneg by lia. rewrite Nat2Z.id, lookup_replicate_2 by exact Hir.
  reflexivity.
Qed.

Section EmptySpectrumRecorded.
Context `{H : Helpers} `{N : Numeric}.

(** Without a bin above the threshold the traversed tree is the empty dict. *)
Lemma tree_from_spectrum_empty (s : Spectrum) :
  (forall i, above (fill_with (specZ s) (specZ_mask s) 0%float) (noise_thres s) i = false) ->
  PeakDetect.detect_peaks (fill_with (specZ s) (specZ_mask s) 0%float) (noise_thres s) = Ok []
  /\ tree_from_spectrum s = Ok ∅.
Proof.
  intros Hnone.
  assert (Hd : PeakDetect.detect_peak_simple
                 (fill_with (specZ s) (specZ_mask s) 0%float) (noise_thres s) = Ok []).
  { rewrite detect_peak_simple_scan.
    destruct (np_where _) as [|x rest] eqn:E; [reflexivity|].
    assert (Hx : In x (np_where (map (fun y => (noise_thres s <? y)%float)
                                   (fill_with (specZ s) (specZ_mask s) 0%float))))
      by (rewrite E; left; reflexivity).
    apply np_where_above in Hx. rewrite Hnone in Hx. discriminate. }
  split.
  - unfold PeakDetect.detect_peaks. rewrite Hd. reflexivity.
  - unfold tree_from_spectrum. rewrite Hd. reflexivity.
Qed.

(** C9: for a spectrum in which no bin of the mask-filled specZ exceeds the
    noise threshold, the filtered peak list is empty and tree_from_spectrum
    returns the empty traversed tree, without an exception; the iteration of
    the assembly for that cell returns and leaves the per-slot arrays as they
    are; and in the arrays that assemble_time_height produces, the cell has
    no_nodes = 0 and a row of max_no_nodes fill values -999 in every per-slot
    array. *)
Theorem empty_spectrum_recorded (settings : Settings) (nt nr it ir : nat)
    (get_tree : Z -> Z -> res (gmap Z tree_node)) (s : Spectrum) :
  (forall i, above (fill_with (specZ s) (specZ_mask s) 0%float) (noise_thres s) i = false) ->
  PeakDetect.detect_peaks (fill_with (specZ s) (specZ_mask s) 0%float) (noise_thres s) = Ok []
  /\ tree_from_spectrum s = Ok ∅
  /\ (forall o0 count0,
         np_get2 (out_no_nodes o0) (Z.of_nat it) (Z.of_nat ir) = Ok count0 ->
         exists o1,
           assemble_cell (max_no_nodes settings) (Z.of_nat it) (Z.of_nat ir) ∅ o0 = Ok o1
           /\ per_slot_fields o1 = per_slot_fields o0
           /\ np_get2 (out_no_nodes o1) (Z.of_nat it) (Z.of_nat ir) = Ok 0%float)
  /\ (forall o,
         get_tree (Z.of_nat it) (Z.of_nat ir) = tree_from_spectrum s ->
         (it < nt)%nat -> (ir < nr)%nat ->
         assemble_time_height settings nt nr get_tree = Ok o ->
         np_get2 (out_no_nodes o) (Z.of_nat it) (Z.of_nat ir) = Ok 0%float
         /\ Forall (fun arr =>
                      np_get2 arr (Z.of_nat it) (Z.of_nat ir)
                      = Ok (replicate (Z.to_nat (max_no_nodes settings)) (-999)%float))
              (per_slot_fields o)).
Proof.
  intros Hnone. destruct (tree_from_spectrum_empty s Hnone) as [Hpeaks Htree].
  split; [exact Hpeaks|]. split; [exact Htree|]. split.
  - intros o0 count0 Hcount.
    destruct (np_set2_ok _ _ _ _ (float_of_int (len (@nil Z)))
                (Nat2Z.is_nonneg it) (Nat2Z.is_nonneg ir) Hcount) as [nn Hnn].
    unfold assemble_cell. rewrite map_to_list_empty. cbn [map List.filter].
    rewrite Hnn. cbn [bind save_nodes]. eexists. split; [reflexivity|].
    split; [reflexivity|]. cbn [out_no_nodes].
    apply (np_set2_same _ _ _ _ _ (Nat2Z.is_nonneg it) (Nat2Z.is_nonneg ir) Hnn).
  - intros o Hget Hit Hir Ha. rewrite Htree in Hget. unfold assemble_time_height in Ha.
    destruct (assemble_cells_empty_cell _ _ _ _ _ (Nat2Z.is_nonneg it) (Nat2Z.is_nonneg ir)
                (grid_nonneg nt nr) Hget _ _ Ha) as (Hrows & Hcount & _).
    split; [apply Hcount, grid_In; assumption|].
    unfold cell_rows in Hrows.
    revert Hrows. unfold per_slot_fields, allocate.
    cbn [map out_Z out_v out_width out_LDR out_skew out_bound_l out_bound_r out_parent
           out_thres out_ldrmax out_prominence].
    rewrite !np_get2_replicate by assumption.
    intros [= E1 E2 E3 E4 E5 E6 E7 E8 E9 E10 E11].
    repeat (constructor; [assumption|]). constructor.
Qed.

End EmptySpectrumRecorded.

Lemma constant_spectrum_below :
  forall i,
    above (fill_with (specZ constant_spectrum) (specZ_mask constant_spectrum) 0%float)
      (noise_thres constant_spectrum) i = false.
Proof.
  intros i. unfold above. destruct (0 <=? i); [|reflexivity]. cbn [andb].
  generalize (Z.to_nat i) as n. clear i. intros n.
  do 8 (destruct n as [|n]; [reflexivity|]). destruct n; reflexivity.
Qed.

Lemma empty_spectrum_recorded_witness :
  (forall i,
      above (fill_with (specZ constant_spectrum) (specZ_mask constant_spectrum) 0%float)
        (noise_thres constant_spectrum) i = false)
  /\ tree_from_spectrum constant_spectrum = Ok ∅
  /\ exists o,
       assemble_time_height Lindenberg 1 1 (fun _ _ => tree_from_spectrum constant_spectrum)
       = Ok o
       /\ np_get2 (out_no_nodes o) 0 0 = Ok 0%float
       /\ Forall (fun arr => np_get2 arr 0 0 = Ok (replicate 15 (-999)%float))
            (per_slot_fields o).
Proof.
  pose proof (empty_spectrum_recorded Lindenberg 1 1 0 0
                (fun _ _ => tree_from_spectrum constant_spectrum) constant_spectrum
                constant_spectrum_below) as (_ & Htree & Hcell & Hgrid).
  split; [exact constant_spectrum_below|]. split; [exact Htree|].
  destruct (Hcell (allocate 1 1 15) 0%float eq_refl) as (o1 & Ho1 & _).
  assert (Hrun : assemble_time_height Lindenberg 1 1
                   (fun _ _ => tree_from_spectrum constant_spectrum) = Ok o1).
  { unfold assemble_time_height, grid. cbn [seq flat_map map app assemble_cells].
    rewrite Htree. cbn [bind].
    change (bind (assemble_cell (max_no_nodes Lindenberg) (Z.of_nat 0) (Z.of_nat 0) ∅
                    (allocate 1 1 15)) (fun o' => Ok o') = Ok o1).
    rewrite Ho1. reflexivity. }
  exists o1. split; [exact Hrun|].
  apply (Hgrid o1); [reflexivity | lia | lia | exact Hrun].
Defined.

(** ** Ids of children *)

Lemma full_tree_id_loop_double (r : list Z) :
  forall i acc d,
    0 <= i ->
    fold_left (fun idx (p : Z * Z) => if snd p =? 1 then idx + 2 ^ fst p else idx)
      (enumerate_from (i + 1) r) (2 * acc + d)
    = 2 * fold_left (fun idx (p : Z * Z) => if snd p =? 1 then idx + 2 ^ fst p else idx)
            (enumerate_from i r) acc + d.
Proof.
  induction r as [|x r IH]; intros i acc d Hi; cbn [enumerate_from fold_left snd fst].
  - reflexivity.
  - destruct (x =? 1).
    + replace (2 * acc + d + 2 ^ (i + 1)) with (2 * (acc + 2 ^ i) + d)
        by (rewrite Z.pow_add_r by lia; lia).
      apply IH. lia.
    + apply IH. lia.
Qed.

Lemma full_tree_id_snoc (coord : list Z) (i : Z) :
  coord <> [] ->
  full_tree_id (coord ++ [i]) = 2 * full_tree_id coord + 1 + (if i =? 1 then 1 else 0).
Proof.
  intros Hne. unfold full_tree_id, enumerate.
  rewrite rev_app_distr. cbn [rev app enumerate_from fold_left snd fst].
  assert (Hlen : len (coord ++ [i]) - 1 = (len coord - 1) + 1).
  { unfold len. rewrite length_app. simpl. lia. }
  assert (Hpos : 0 <= len coord - 1).
  { destruct coord; [contradiction|]. unfold len. simpl. lia. }
  rewrite Hlen, Z.pow_add_r by lia. change (2 ^ 1) with 2. change (2 ^ 0) with 1.
  change (0 + 1) with (0 + 1).
  destruct (i =? 1).
  - replace (2 ^ (len coord - 1) * 2 - 1 + 1) with (2 * (2 ^ (len coord - 1) - 1) + 2) by lia.
    rewrite (full_tree_id_loop_double (rev coord) 0) by lia. lia.
  - replace (2 ^ (len coord - 1) * 2 - 1) with (2 * (2 ^ (len coord - 1) - 1) + 1) by lia.
    rewrite (full_tree_id_loop_double (rev coord) 0) by lia. lia.
Qed.

(** X1 (full_tree_id): ids follow the rule of a binary heap.  Appending a
    child index to a coordinate that is not empty gives twice the id of the
    coordinate plus 2 for the index 1 and plus 1 for every other index; the
    id of the coordinate is the id of the child minus one, halved; and the
    id of the child is even exactly for the index 1. *)
Theorem full_tree_id_child (coord : list Z) (i : Z) :
  coord <> [] ->
  full_tree_id (coord ++ [i]) = 2 * full_tree_id coord + (if i =? 1 then 2 else 1)
  /\ (full_tree_id (coord ++ [i]) - 1) / 2 = full_tree_id coord
  /\ (full_tree_id (coord ++ [i]) mod 2 =? 0) = (i =? 1).
Proof.
  intros Hne. rewrite (full_tree_id_snoc coord i Hne).
  destruct (i =? 1).
  - repeat split; try lia.
    + symmetry. apply Z.div_unique with 1; lia.
    + apply Z.eqb_eq. symmetry. apply Z.mod_unique with (full_tree_id coord + 1); lia.
  - repeat split; try lia.
    + symmetry. apply Z.div_unique with 0; lia.
    + apply Z.eqb_neq. intros E.
      assert (E' : (2 * full_tree_id coord + 1 + 0) mod 2 = 1)
        by (symmetry; apply Z.mod_unique with (full_tree_id coord); lia).
      lia.
Qed.

Lemma binary_coords_nonempty (c : list Z) : binary_coords c -> c <> [].
Proof. intros [|c' i _ _]; [discriminate|]. destruct c'; discriminate. Qed.

Lemma binary_coords_id_nonneg (c : list Z) : binary_coords c -> 0 <= full_tree_id c.
Proof.
  induction 1 as [|c i Hc IH Hi]; [vm_compute; discriminate|].
  rewrite full_tree_id_snoc by (apply binary_coords_nonempty, Hc).
  destruct (i =? 1); lia.
Qed.

Lemma full_tree_id_inj (c1 c2 : list Z) :
  binary_coords c1 -> binary_coords c2 -> full_tree_id c1 = full_tree_id c2 -> c1 = c2.
Proof.
  intros H1. revert c2. induction H1 as [|c1 i1 H1 IH Hi1]; intros c2 H2 E.
  - destruct H2 as [|c2 i2 H2 Hi2]; [reflexivity|]. exfalso.
    rewrite full_tree_id_snoc in E by (apply binary_coords_nonempty, H2).
    pose proof (binary_coords_id_nonneg _ H2). change (full_tree_id [0]) with 0 in E.
    destruct (i2 =? 1); lia.
  - destruct H2 as [|c2 i2 H2 Hi2].
    + exfalso. rewrite full_tree_id_snoc in E by (apply binary_coords_nonempty, H1).
      pose proof (binary_coords_id_nonneg _ H1). change (full_tree_id [0]) with 0 in E.
      destruct (i1 =? 1); lia.
    + rewrite !full_tree_id_snoc in E by (apply binary_coords_nonempty; assumption).
      assert (Hc : full_tree_id c1 = full_tree_id c2 /\ i1 = i2).
      { destruct Hi1 as [-> | ->], Hi2 as [-> | ->]; simpl in E; split; lia. }
      destruct Hc as [Hc ->]. rewrite (IH c2 H2 Hc). reflexivity.
Qed.

(** ** The traversal of a tree *)

Lemma traverse_eq (n : Node) (c : list Z) :
  traverse n c = describe c n :: traverse_children 0 (children n) c.
Proof.
  destruct n as [b cs lv rt th sp pf]. cbn [traverse children]. unfold describe. f_equal.
  generalize 0. induction cs as [|c0 cs IH]; intros i; cbn [traverse_children]; [reflexivity|].
  rewrite IH. reflexivity.
Qed.

Lemma node_count_eq (n : Node) :
  node_count n = S (list_sum (map node_count (children n))).
Proof.
  destruct n as [b cs lv rt th sp pf]. cbn [node_count children]. f_equal.
  induction cs as [|c cs IH]; [reflexivity|]. cbn [map list_sum]. rewrite IH. reflexivity.
Qed.

Lemma traverse_length (n : Node) : forall c, length (traverse n c) = node_count n.
Proof.
  induction n as [n IH] using Node_tree_ind. intros c.
  rewrite traverse_eq, node_count_eq. cbn [length]. f_equal.
  generalize 0. induction (children n) as [|c0 cs IHcs]; intros i; [reflexivity|].
  cbn [traverse_children map list_sum]. rewrite length_app.
  rewrite (Forall_inv IH), IHcs; [reflexivity|]. exact (Forall_inv_tail IH).
Qed.

Lemma traverse_children_In (cs : list Node) (c : list Z) (x : traversed_node) :
  Forall (fun n => forall c x,
            In x (traverse n c) <->
            exists path m, node_at n path = Some m /\ x = describe (c ++ path) m) cs ->
  forall i, 0 <= i ->
    (In x (traverse_children i cs c) <->
     exists j child path m,
       nth_error cs j = Some child /\ node_at child path = Some m
       /\ x = describe (c ++ (i + Z.of_nat j) :: path) m).
Proof.
  induction cs as [|c0 cs IH]; intros Hall i Hi; cbn [traverse_children].
  - split; [intros []|]. intros (j & child & _ & _ & Hj & _). destruct j; discriminate.
  - pose proof (Forall_inv Hall) as H0. cbv beta in H0.
    rewrite in_app_iff, H0, (IH (Forall_inv_tail Hall) (i + 1)) by lia. clear H0. split.
    + intros [(path & m & Hm & ->) | (j & child & path & m & Hj & Hm & ->)].
      * exists 0%nat, c0, path, m. repeat split; [exact Hm|].
        rewrite Z.add_0_r, <- app_assoc. reflexivity.
      * exists (S j), child, path, m. repeat split; [exact Hj | exact Hm|].
        do 3 f_equal. lia.
    + intros (j & child & path & m & Hj & Hm & ->). destruct j as [|j].
      * left. injection Hj as ->. exists path, m. split; [exact Hm|].
        rewrite Z.add_0_r, <- app_assoc. reflexivity.
      * right. exists j, child, path, m. repeat split; [exact Hj | exact Hm|].
        do 3 f_equal. lia.
Qed.

Lemma traverse_In (n : Node) :
  forall c x,
    In x (traverse n c) <->
    exists path m, node_at n path = Some m /\ x = describe (c ++ path) m.
Proof.
  induction n as [n IH] using Node_tree_ind. intros c x.
  rewrite traverse_eq. cbn [In].
  rewrite (traverse_children_In _ c x IH 0) by lia. split.
  - intros [<- | (j & child & path & m & Hj & Hm & ->)].
    + exists [], n. rewrite app_nil_r. split; reflexivity.
    + exists (Z.of_nat j :: path), m. split; [|reflexivity].
      cbn [node_at]. destruct (Z.of_nat j <? 0) eqn:E; [apply Z.ltb_lt in E; lia|].
      rewrite Nat2Z.id, Hj. exact Hm.
  - intros (path & m & Hm & ->). destruct path as [|i path].
    + left. injection Hm as <-. rewrite app_nil_r. reflexivity.
    + right. cbn [node_at] in Hm. destruct (i <? 0) eqn:E; [discriminate|]. apply Z.ltb_ge in E.
      destruct (nth_error (children n) (Z.to_nat i)) as [child|] eqn:Hj; [|discriminate].
      exists (Z.to_nat i), child, path, m. repeat split; [exact Hj | exact Hm|].
      do 3 f_equal. lia.
Qed.

(** ** The dict of ids of a traversal *)

Lemma coords_to_id_fold (tr : list traversed_node) :
  coords_to_id tr = fold_left coords_step tr ∅.
Proof. reflexivity. Qed.

Lemma coords_to_id_snoc (tr : list traversed_node) (x : traversed_node) :
  coords_to_id (tr ++ [x]) = coords_step (coords_to_id tr) x.
Proof. rewrite !coords_to_id_fold, fold_left_app. reflexivity. Qed.

Lemma parent_coords_snoc (c : list Z) (i : Z) : parent_coords (c ++ [i]) = c.
Proof.
  unfold parent_coords, py_slice, py_clamp.
  change (-1 <? 0) with true. cbv iota.
  replace (len (c ++ [i])) with (len c + 1) by (unfold len; rewrite length_app; simpl; lia).
  rewrite Z.sub_0_r. cbn [Z.to_nat skipn].
  replace (Z.max 0 (-1 + (len c + 1))) with (len c) by (unfold len; lia).
  unfold len. rewrite Nat2Z.id. change (Z.to_nat 0) with O. rewrite skipn_O.
  rewrite firstn_app, firstn_all, Nat.sub_diag. cbn [firstn].
  apply app_nil_r.
Qed.

Lemma parent_coords_root : parent_coords [0] = [].
Proof. reflexivity. Qed.

Lemma binary_coords_parent (c : list Z) :
  binary_coords c -> c = [0] \/ exists p i, c = p ++ [i] /\ binary_coords p /\ (i = 0 \/ i = 1).
Proof. intros [|p i Hp Hi]; [left; reflexivity|]. right. exists p, i. auto. Qed.

Lemma filter_singleton {A : Type} (p : A -> bool) (l : list A) (x : A) :
  NoDup l -> In x l -> p x = true ->
  (forall y, In y l -> p y = true -> y = x) ->
  List.filter p l = [x].
Proof.
  induction l as [|a l IH]; intros Hnd Hin Hpx Huniq; [destruct Hin|].
  apply NoDup_cons in Hnd as [Ha Hnd]. cbn [List.filter].
  destruct Hin as [-> | Hin].
  - rewrite Hpx. f_equal.
    assert (Hnone : forall y, In y l -> p y = false).
    { intros y Hy. destruct (p y) eqn:E; [|reflexivity].
      exfalso. apply Ha. rewrite <- (Huniq y (or_intror Hy) E). apply list_elem_of_In, Hy. }
    clear -Hnone. induction l as [|b l IH]; [reflexivity|]. cbn [List.filter].
    rewrite (Hnone b (or_introl eq_refl)). apply IH. intros y Hy. apply Hnone. right. exact Hy.
  - destruct (p a) eqn:E.
    + exfalso. apply Ha. rewrite (Huniq a (or_introl eq_refl) E). apply list_elem_of_In, Hin.
    + apply IH; try assumption. intros y Hy. apply Huniq. right. exact Hy.
Qed.

Lemma filter_none {A : Type} (p : A -> bool) (l : list A) :
  (forall y, In y l -> p y = false) -> List.filter p l = [].
Proof.
  induction l as [|a l IH]; intros Hnone; [reflexivity|]. cbn [List.filter].
  rewrite (Hnone a (or_introl eq_refl)). apply IH. intros y Hy. apply Hnone. right. exact Hy.
Qed.

Lemma NoDup_map_inj {A B : Type} (f : A -> B) (l : list A) (x y : A) :
  NoDup (map f l) -> In x l -> In y l -> f x = f y -> x = y.
Proof.
  induction l as [|a l IH]; intros Hnd Hx Hy E; [destruct Hx|].
  cbn [map] in Hnd. apply NoDup_cons in Hnd as [Ha Hnd].
  destruct Hx as [-> | Hx], Hy as [-> | Hy]; try reflexivity.
  - exfalso. apply Ha. rewrite E. apply list_elem_of_In, in_map, Hy.
  - exfalso. apply Ha. rewrite <- E. apply list_elem_of_In, in_map, Hx.
  - apply IH; assumption.
Qed.

Lemma binary_traversal_snoc (tr : list traversed_node) (x : traversed_node) :
  binary_traversal (tr ++ [x]) ->
  binary_traversal tr
  /\ ~ In (coords x) (map coords tr)
  /\ binary_coords (coords x)
  /\ (coords x = [0] \/ In (parent_coords (coords x)) (map coords tr)).
Proof.
  intros (Hnd & Hbin & Hpar).
  rewrite map_app in Hnd. apply NoDup_app in Hnd as (Hnd & Hdisj & _).
  apply Forall_app in Hbin as [Hbin Hx]. apply Forall_inv in Hx.
  repeat split; try assumption.
  - intros pre y post E. apply (Hpar pre y (post ++ [x])). rewrite E, <- app_assoc. reflexivity.
  - intros Hin. apply list_elem_of_In in Hin. apply (Hdisj _ Hin). cbn [map]. left.
  - apply (Hpar tr x []). reflexivity.
Qed.

(** The dict of [coords_to_id] after a binary traversal. *)
Lemma coords_to_id_spec (tr : list traversed_node) :
  binary_traversal tr ->
  size (coords_to_id tr) = length tr
  /\ forall k nd,
       coords_to_id tr !! k = Some nd <->
       exists n, In n tr /\ k = full_tree_id (coords n) /\ nd = id_entry n.
Proof.
  induction tr as [|x tr IH] using rev_ind; intros Hok.
  - split; [reflexivity|]. intros k nd. rewrite coords_to_id_fold. cbn [fold_left].
    rewrite lookup_empty. split; [discriminate|]. intros (n & [] & _).
  - apply binary_traversal_snoc in Hok as (Hok & Hnew & Hbx & Hpar).
    destruct (IH Hok) as [Hsize Hspec]. destruct Hok as (Hnd & Hbin & _).
    rewrite List.Forall_forall in Hbin.
    rewrite coords_to_id_snoc. set (m := coords_to_id tr) in *.
    assert (Hfresh : m !! full_tree_id (coords x) = None).
    { destruct (m !! full_tree_id (coords x)) as [nd|] eqn:E; [|reflexivity].
      exfalso. apply Hspec in E as (n & Hn & Hk & _).
      apply full_tree_id_inj in Hk; [|exact Hbx | apply Hbin, Hn].
      apply Hnew. rewrite Hk. apply in_map, Hn. }
    assert (Hstep : coords_step m x = <[full_tree_id (coords x) := id_entry x]> m).
    { unfold coords_step. cbv zeta. rewrite insert_insert_eq. f_equal. unfold id_entry. f_equal.
      set (m1 := <[full_tree_id (coords x) := {| trav := x; parent_id := -1 |}]> m).
      assert (Hm1 : forall kv, In kv (map_to_list m1) <->
                      kv = (full_tree_id (coords x), {| trav := x; parent_id := -1 |})
                      \/ exists n, In n tr /\ kv = (full_tree_id (coords n), id_entry n)).
      { intros [k nd]. rewrite <- list_elem_of_In, elem_of_map_to_list. unfold m1.
        rewrite lookup_insert_Some, Hspec. split.
        - intros [[<- <-] | [Hne (n & Hn & -> & ->)]]; [left; reflexivity|].
          right. exists n. split; [exact Hn | reflexivity].
        - intros [[= -> ->] | (n & Hn & [= -> ->])]; [left; split; reflexivity|].
          right. split; [|exists n; repeat split; exact Hn].
          intros E. apply full_tree_id_inj in E; [|exact Hbx | apply Hbin, Hn].
          apply Hnew. rewrite E. apply in_map, Hn. }
      destruct Hpar as [Hroot | Hpar].
      - (* the root: no entry holds the empty coordinate *)
        rewrite Hroot. change (len [0] =? 1) with true. cbv iota.
        rewrite filter_none; [reflexivity|].
        intros kv Hkv. apply bool_decide_eq_false. rewrite parent_coords_root.
        apply Hm1 in Hkv as [-> | (n & Hn & ->)]; cbn [snd trav id_entry].
        + rewrite Hroot. discriminate.
        + apply binary_coords_nonempty, Hbin, Hn.
      - (* a child: the one entry of its parent *)
        apply in_map_iff in Hpar as (n0 & Hc0 & Hn0).
        destruct (binary_coords_parent _ Hbx) as [Hroot | (p & i & Hx & Hp & Hi)].
        { rewrite Hroot, parent_coords_root in Hc0.
          exfalso. apply (binary_coords_nonempty (coords n0)); [apply Hbin, Hn0 | exact Hc0]. }
        rewrite Hx, parent_coords_snoc in *.
        replace (len (p ++ [i]) =? 1) with false.
        2:{ symmetry. apply Z.eqb_neq. unfold len. rewrite length_app. cbn [length].
            pose proof (binary_coords_nonempty _ Hp). destruct p; [contradiction|]. simpl. lia. }
        rewrite (filter_singleton _ _ (full_tree_id p, id_entry n0)).
        + reflexivity.
        + apply NoDup_map_to_list.
        + apply Hm1. right. exists n0. rewrite Hc0. split; [exact Hn0 | reflexivity].
        + apply bool_decide_eq_true. exact Hc0.
        + intros kv Hkv Hq. apply bool_decide_eq_true in Hq.
          apply Hm1 in Hkv as [-> | (n & Hn & ->)]; cbn [snd trav id_entry] in Hq.
          * exfalso. rewrite Hx in Hq. apply (f_equal (@length Z)) in Hq.
            rewrite length_app in Hq. simpl in Hq. lia.
          * assert (n = n0) as ->
              by (apply (NoDup_map_inj coords tr); try assumption; congruence).
            rewrite Hc0. reflexivity. }
    rewrite Hstep. split.
    + rewrite map_size_insert_None by exact Hfresh. rewrite Hsize, length_app. simpl. lia.
    + intros k nd. rewrite lookup_insert_Some, Hspec. split.
      * intros [[<- <-] | [Hne (n & Hn & -> & ->)]].
        -- exists x. split; [apply in_or_app; right; left; reflexivity | split; reflexivity].
        -- exists n. split; [apply in_or_app; left; exact Hn | split; reflexivity].
      * intros (n & Hn & -> & ->). apply in_app_or in Hn as [Hn | [<- | []]].
        -- right. split; [|exists n; repeat split; exact Hn].
           intros E. apply full_tree_id_inj in E; [|exact Hbx | apply Hbin, Hn].
           apply Hnew. rewrite E. apply in_map, Hn.
        -- left. split; reflexivity.
Qed.

Lemma traverse_coords_prefix (n : Node) (c : list Z) (x : traversed_node) :
  In x (traverse n c) -> exists path, coords x = c ++ path.
Proof. intros Hx. apply traverse_In in Hx as (path & m & _ & ->). exists path. reflexivity. Qed.

Lemma traverse_children_prefix (cs : list Node) (c : list Z) (x : traversed_node) :
  forall i, 0 <= i ->
    In x (traverse_children i cs c) ->
    exists j path, i <= j /\ coords x = c ++ j :: path.
Proof.
  induction cs as [|c0 cs IH]; intros i Hi; cbn [traverse_children]; [intros []|].
  rewrite in_app_iff. intros [Hx | Hx].
  - apply traverse_coords_prefix in Hx as [path ->]. exists i, path.
    rewrite <- app_assoc. split; [lia | reflexivity].
  - apply IH in Hx as (j & path & Hj & ->); [|lia]. exists j, path. split; [lia | reflexivity].
Qed.

Lemma traverse_children_NoDup (cs : list Node) (c : list Z) :
  Forall (fun n => forall c, NoDup (map coords (traverse n c))) cs ->
  forall i, 0 <= i -> NoDup (map coords (traverse_children i cs c)).
Proof.
  induction cs as [|c0 cs IH]; intros Hall i Hi; cbn [traverse_children]; [constructor|].
  rewrite map_app. apply NoDup_app. split; [apply (Forall_inv Hall)|]. split.
  - intros co H1 H2. apply list_elem_of_In in H1, H2.
    apply in_map_iff in H1 as (x1 & <- & H1). apply in_map_iff in H2 as (x2 & E & H2).
    apply traverse_coords_prefix in H1 as [p1 E1].
    apply traverse_children_prefix in H2 as (j & p2 & Hj & E2); [|lia].
    rewrite E1, E2, <- app_assoc in E. apply app_inv_head in E. injection E as E _. lia.
  - apply IH; [exact (Forall_inv_tail Hall) | lia].
Qed.

Lemma traverse_NoDup (n : Node) : forall c, NoDup (map coords (traverse n c)).
Proof.
  induction n as [n IH] using Node_tree_ind. intros c.
  rewrite traverse_eq. cbn [map describe coords]. apply NoDup_cons. split.
  - intros Hin. apply list_elem_of_In, in_map_iff in Hin as (x & E & Hx).
    apply traverse_children_prefix in Hx as (j & path & _ & Ex); [|lia].
    rewrite Ex in E. apply (f_equal (@length Z)) in E. rewrite length_app in E. simpl in E. lia.
  - apply traverse_children_NoDup; [exact IH | lia].
Qed.

Lemma parents_in_app (seen : list (list Z)) (l1 l2 : list traversed_node) :
  parents_in seen l1 -> parents_in (seen ++ map coords l1) l2 -> parents_in seen (l1 ++ l2).
Proof.
  intros H1 H2 pre x post E.
  apply app_eq_app in E as [l [[E1 E2] | [E1 E2]]].
  - destruct l as [|y l].
    + rewrite app_nil_r in E1. subst pre. cbn [app] in E2.
      rewrite <- (app_nil_r (map coords l1)), app_assoc.
      apply (H2 [] x post). symmetry. exact E2.
    + injection E2 as -> E2. exact (H1 _ _ _ E1).
  - subst pre. rewrite map_app, app_assoc. exact (H2 _ _ _ E2).
Qed.

Lemma parents_in_mono (seen seen' : list (list Z)) (l : list traversed_node) :
  incl seen seen' -> parents_in seen l -> parents_in seen' l.
Proof.
  intros Hincl Hl pre x post E. destruct (Hl pre x post E) as [Hr | Hin]; [left; exact Hr|].
  right. apply in_app_iff in Hin as [Hin | Hin]; apply in_app_iff; [left | right]; auto.
Qed.

Lemma parents_in_cons (seen : list (list Z)) (x : traversed_node) (l : list traversed_node) :
  coords x = [0] \/ In (parent_coords (coords x)) seen ->
  parents_in (seen ++ [coords x]) l -> parents_in seen (x :: l).
Proof.
  intros Hx Hl. apply (parents_in_app seen [x] l); [|exact Hl].
  intros pre y post E. destruct pre as [|p pre].
  - injection E as <- _. rewrite app_nil_r. exact Hx.
  - injection E as _ E. destruct pre; discriminate.
Qed.

Lemma traverse_children_parents (cs : list Node) (c : list Z) :
  Forall (fun n => forall c seen,
            c = [0] \/ In (parent_coords c) seen -> parents_in seen (traverse n c)) cs ->
  forall i seen, In c seen -> parents_in seen (traverse_children i cs c).
Proof.
  induction cs as [|c0 cs IH]; intros Hall i seen Hc; cbn [traverse_children].
  - intros pre x post E. destruct pre; discriminate.
  - apply parents_in_app.
    + apply (Forall_inv Hall). right. rewrite parent_coords_snoc. exact Hc.
    + apply IH; [exact (Forall_inv_tail Hall)|]. apply in_app_iff. left. exact Hc.
Qed.

Lemma traverse_parents (n : Node) :
  forall c seen, c = [0] \/ In (parent_coords c) seen -> parents_in seen (traverse n c).
Proof.
  induction n as [n IH] using Node_tree_ind. intros c seen Hc.
  rewrite traverse_eq. apply parents_in_cons; [exact Hc|].
  apply traverse_children_parents; [exact IH|]. apply in_app_iff. right. left. reflexivity.
Qed.

Lemma node_at_all_nodes (P : Node -> Prop) (path : list Z) :
  forall n m, all_nodes P n -> node_at n path = Some m -> all_nodes P m.
Proof.
  induction path as [|i path IH]; intros n m Hall Hm; cbn [node_at] in Hm.
  - injection Hm as <-. exact Hall.
  - destruct (i <? 0); [discriminate|].
    destruct (nth_error (children n) (Z.to_nat i)) as [c|] eqn:Hc; [|discriminate].
    apply all_nodes_inv in Hall as [_ Hkids]. rewrite List.Forall_forall in Hkids.
    apply (IH c m); [apply Hkids, (nth_error_In _ _ Hc) | exact Hm].
Qed.

Lemma node_at_binary (path : list Z) :
  forall n m, all_nodes at_most_two n -> node_at n path = Some m ->
    Forall (fun i => i = 0 \/ i = 1) path.
Proof.
  induction path as [|i path IH]; intros n m Hall Hm; [constructor|]. cbn [node_at] in Hm.
  destruct (i <? 0) eqn:Hi; [discriminate|]. apply Z.ltb_ge in Hi.
  destruct (nth_error (children n) (Z.to_nat i)) as [c|] eqn:Hc; [|discriminate].
  apply all_nodes_inv in Hall as [Htwo Hkids]. rewrite List.Forall_forall in Hkids.
  constructor.
  - assert (Hlt : (Z.to_nat i < length (children n))%nat)
      by (apply nth_error_Some; rewrite Hc; discriminate).
    unfold at_most_two in Htwo. lia.
  - apply (IH c m); [apply Hkids, (nth_error_In _ _ Hc) | exact Hm].
Qed.

Lemma binary_coords_app (c path : list Z) :
  binary_coords c -> Forall (fun i => i = 0 \/ i = 1) path -> binary_coords (c ++ path).
Proof.
  revert c. induction path as [|i path IH]; intros c Hc Hp; [rewrite app_nil_r; exact Hc|].
  change (c ++ i :: path) with (c ++ [i] ++ path). rewrite app_assoc.
  apply IH; [|exact (Forall_inv_tail Hp)]. constructor; [exact Hc | exact (Forall_inv Hp)].
Qed.

Lemma traverse_binary (t : Node) :
  all_nodes at_most_two t -> binary_traversal (traverse t [0]).
Proof.
  intros Hall. split; [apply traverse_NoDup|]. split.
  - apply List.Forall_forall. intros x Hx. apply traverse_In in Hx as (path & m & Hm & ->).
    cbn [describe coords]. apply binary_coords_app; [constructor|].
    exact (node_at_binary _ _ _ Hall Hm).
  - apply traverse_parents. left. reflexivity.
Qed.

(** ** The dict of ids of a binary tree *)

Lemma id_entry_cases (tr : list traversed_node) (k : Z) (nd : id_node) :
  binary_traversal tr ->
  coords_to_id tr !! k = Some nd ->
  k = full_tree_id (coords (trav nd))
  /\ ((k = 0 /\ coords (trav nd) = [0] /\ parent_id nd = -1)
      \/ exists p i pnd,
           coords (trav nd) = p ++ [i] /\ (i = 0 \/ i = 1)
           /\ k = 2 * parent_id nd + 1 + i /\ 0 <= parent_id nd
           /\ parent_id nd = full_tree_id p
           /\ coords_to_id tr !! parent_id nd = Some pnd /\ coords (trav pnd) = p).
Proof.
  intros Hok Hk. pose proof Hok as (Hnd & Hbin & Hpar).
  destruct (coords_to_id_spec tr Hok) as [_ Hspec].
  apply Hspec in Hk as (n & Hn & -> & ->). cbn [id_entry trav parent_id].
  split; [reflexivity|].
  rewrite List.Forall_forall in Hbin.
  destruct (binary_coords_parent _ (Hbin n Hn)) as [Hroot | (p & i & Hx & Hp & Hi)].
  - left. rewrite Hroot. repeat split.
  - right. apply in_split in Hn as (pre & post & Htr).
    destruct (Hpar pre n post Htr) as [Hroot | Hin].
    { exfalso. rewrite Hx in Hroot. pose proof (binary_coords_nonempty _ Hp).
      destruct p as [|a [|b p]]; try contradiction; discriminate. }
    rewrite Hx, parent_coords_snoc in *. cbn [app] in Hin.
    apply in_map_iff in Hin as (n0 & Hc0 & Hn0).
    replace (len (p ++ [i]) =? 1) with false.
    2:{ symmetry. apply Z.eqb_neq. unfold len. rewrite length_app. cbn [length].
        pose proof (binary_coords_nonempty _ Hp). destruct p; [contradiction|]. simpl. lia. }
    exists p, i, (id_entry n0). repeat split; try assumption.
    + rewrite full_tree_id_snoc by (apply binary_coords_nonempty, Hp).
      destruct Hi as [-> | ->]; simpl; lia.
    + apply binary_coords_id_nonneg, Hp.
    + apply Hspec. exists n0. split; [|split; [rewrite Hc0; reflexivity | reflexivity]].
      rewrite Htr. apply in_or_app. left. exact Hn0.
Qed.

(** X4 (coords_to_id): for a tree whose nodes have at most two children,
    the dict made of its traversal has one entry for each node, stored
    under the level-order id of the node's coordinate with the node's
    bounds and threshold; the entry of the root has the parent id -1, and
    every other entry is stored under a key [k > 0], has the parent id
    [(k - 1) / 2], and that parent id is a key of the dict. *)
Theorem coords_to_id_binary_tree (t : Node) :
  all_nodes at_most_two t ->
  let ids := coords_to_id (traverse t [0]) in
  size ids = node_count t
  /\ (forall path n,
        node_at t path = Some n ->
        ids !! full_tree_id (0 :: path)
        = Some {| trav := describe (0 :: path) n;
                  parent_id := match path with
                               | [] => -1
                               | _ => full_tree_id (parent_coords (0 :: path))
                               end |})
  /\ (forall k nd,
        ids !! k = Some nd ->
        (k = 0 /\ parent_id nd = -1)
        \/ (0 < k /\ parent_id nd = (k - 1) / 2 /\ is_Some (ids !! parent_id nd))).
Proof.
  intros Hall ids. pose proof (traverse_binary t Hall) as Hok.
  destruct (coords_to_id_spec _ Hok) as [Hsize Hspec]. fold ids in Hsize, Hspec.
  split; [rewrite Hsize; apply traverse_length|]. split.
  - intros path n Hn. apply Hspec. exists (describe ([0] ++ path) n).
    split; [apply traverse_In; exists path, n; split; [exact Hn | reflexivity]|].
    split; [reflexivity|]. unfold id_entry. cbn [describe coords app]. f_equal.
    destruct path as [|i path]; [reflexivity|].
    replace (len (0 :: i :: path) =? 1) with false; [reflexivity|].
    symmetry. apply Z.eqb_neq. unfold len. simpl. lia.
  - intros k nd Hk. destruct (id_entry_cases _ k nd Hok Hk) as [_ [(-> & _ & Hp) | Hc]].
    + left. split; [reflexivity | exact Hp].
    + right. destruct Hc as (p & i & pnd & _ & Hi & Hk2 & Hpos & _ & Hpnd & _).
      split; [destruct Hi; lia|]. split.
      * destruct Hi as [-> | ->].
        -- apply Z.div_unique with 0; lia.
        -- apply Z.div_unique with 1; lia.
      * exists pnd. exact Hpnd.
Qed.

(** ** Trees read back *)

Section LoadedCoords.
Context `{H : Helpers} `{N : Numeric}.

Lemma load_nodes_restores (tr : list traversed_node) (has_LDR : bool) (read : Z -> slot)
    (max_no_nodes : Z) (post : list Z) :
  binary_traversal tr ->
  (forall k nd, coords_to_id tr !! k = Some nd -> k < max_no_nodes ->
                slot_parent (read k) = parent_id nd) ->
  forall pre loaded,
    StronglySorted Z.lt (pre ++ post) ->
    (forall k, In k (pre ++ post) <-> is_Some (coords_to_id tr !! k) /\ k < max_no_nodes) ->
    (forall k, is_Some (loaded !! k) <-> In k pre) ->
    (forall k nd ld, coords_to_id tr !! k = Some nd -> loaded !! k = Some ld ->
                     ld_coords ld = coords (trav nd) /\ ld_parent_id ld = parent_id nd) ->
    exists loaded',
      load_nodes has_LDR read loaded post = Ok loaded'
      /\ (forall k, is_Some (loaded' !! k) <-> In k (pre ++ post))
      /\ (forall k nd ld, coords_to_id tr !! k = Some nd -> loaded' !! k = Some ld ->
                          ld_coords ld = coords (trav nd) /\ ld_parent_id ld = parent_id nd).
Proof.
  intros Hok Hread. induction post as [|k post IH]; intros pre loaded Hsorted Havail Hdom Hco.
  - exists loaded. rewrite app_nil_r. cbn [load_nodes]. auto.
  - assert (Hk : is_Some (coords_to_id tr !! k) /\ k < max_no_nodes)
      by (apply Havail, in_or_app; right; left; reflexivity).
    destruct Hk as [[nd Hnd] Hmax].
    pose proof (Hread k nd Hnd Hmax) as Hparent.
    destruct (id_entry_cases tr k nd Hok Hnd) as [Hid Hcases].
    assert (Hstep : exists ld,
               load_node has_LDR read loaded k = Ok (<[k := ld]> loaded)
               /\ ld_coords ld = coords (trav nd) /\ ld_parent_id ld = parent_id nd).
    { unfold load_node. rewrite Hparent.
      destruct Hcases as [(-> & Hroot & Hp) | (p & i & pnd & Hc & Hi & Hk2 & Hpos & _ & Hpnd & Hcp)].
      - rewrite Hp. cbn [Z.eqb negb]. eexists. split; [reflexivity|].
        cbn [ld_coords ld_parent_id]. rewrite Hroot. split; reflexivity.
      - replace (parent_id nd =? -999) with false by (symmetry; apply Z.eqb_neq; lia).
        cbn [negb]. replace (k =? 0) with false by (symmetry; apply Z.eqb_neq; lia).
        assert (Hin : In (parent_id nd) pre).
        { assert (Hall : In (parent_id nd) (pre ++ k :: post)).
          { apply Havail. split; [exists pnd; exact Hpnd | lia]. }
          apply in_app_or in Hall as [Hall | [Hall | Hall]]; [exact Hall | lia|].
          exfalso. apply StronglySorted_app_1_r, StronglySorted_inv in Hsorted as [_ Hgt].
          rewrite List.Forall_forall in Hgt. specialize (Hgt _ Hall). lia. }
        apply Hdom in Hin as [pl Hpl]. rewrite Hpl.
        destruct (Hco _ _ _ Hpnd Hpl) as [Hpc _].
        eexists. split; [reflexivity|]. cbn [ld_coords ld_parent_id].
        split; [|reflexivity]. rewrite Hpc, Hcp, Hc.
        destruct Hi as [-> | ->].
        + replace (k mod 2 =? 0) with false; [reflexivity|].
          symmetry. apply Z.eqb_neq. intros E.
          assert (E' : k mod 2 = 1) by (symmetry; apply Z.mod_unique with (parent_id nd); lia).
          lia.
        + replace (k mod 2 =? 0) with true; [reflexivity|].
          symmetry. apply Z.eqb_eq. symmetry.
          apply Z.mod_unique with (parent_id nd + 1); lia. }
    destruct Hstep as (ld & Hload & Hldc & Hldp).
    cbn [load_nodes]. rewrite Hload. cbn [bind].
    destruct (IH (pre ++ [k]) (<[k := ld]> loaded)) as (loaded' & Hrun & Hdom' & Hco').
    + rewrite <- app_assoc. exact Hsorted.
    + intros k'. rewrite <- app_assoc. apply Havail.
    + intros k'. rewrite in_app_iff. cbn [In].
      destruct (decide (k = k')) as [<- | Hne].
      * rewrite lookup_insert_eq. split; [intros _; right; left; reflexivity | intros _; eexists; reflexivity].
      * rewrite lookup_insert_ne by exact Hne. rewrite Hdom. split; [auto|].
        intros [Hin | [E | []]]; [exact Hin | contradiction].
    + intros k' nd' ld' Hnd' Hld'. destruct (decide (k = k')) as [<- | Hne].
      * rewrite lookup_insert_eq in Hld'. injection Hld' as <-.
        rewrite Hnd in Hnd'. injection Hnd' as <-. split; assumption.
      * rewrite lookup_insert_ne in Hld' by exact Hne. exact (Hco _ _ _ Hnd' Hld').
    + exists loaded'. split; [exact Hrun|]. split; [|exact Hco'].
      intros k'. rewrite Hdom', <- app_assoc. reflexivity.
Qed.

(** X5 (get_tree_at on a peakTree file): take the dict of ids of a tree
    whose nodes have at most two children, and a file whose available slots,
    in ascending order, are the ids below [max_no_nodes] with the parent id
    of each node in its slot.  Reading the tree back raises no exception and
    returns a node for exactly the available slots, each with the coordinate
    and the parent id that the node had in the dict. *)
Theorem load_tree_restores_coords (t : Node) (has_LDR : bool) (read : Z -> slot)
    (avail_nodes : list Z) (max_no_nodes : Z) :
  all_nodes at_most_two t ->
  let ids := coords_to_id (traverse t [0]) in
  StronglySorted Z.lt avail_nodes ->
  (forall k, In k avail_nodes <-> is_Some (ids !! k) /\ k < max_no_nodes) ->
  (forall k nd, ids !! k = Some nd -> k < max_no_nodes -> slot_parent (read k) = parent_id nd) ->
  exists loaded,
    load_tree has_LDR read avail_nodes = Ok loaded
    /\ (forall k, is_Some (loaded !! k) <-> In k avail_nodes)
    /\ (forall k nd ld,
          ids !! k = Some nd -> loaded !! k = Some ld ->
          ld_coords ld = coords (trav nd) /\ ld_parent_id ld = parent_id nd).
Proof.
  intros Hall ids Hsorted Havail Hread. unfold load_tree.
  apply (load_nodes_restores (traverse t [0]) has_LDR read max_no_nodes avail_nodes
           (traverse_binary t Hall) Hread [] ∅); cbn [app]; try assumption.
  - intros k. rewrite lookup_empty. split; [intros [x Hx]; discriminate | intros []].
  - intros k nd ld _ Hld. rewrite lookup_empty in Hld. discriminate.
Qed.

End LoadedCoords.

(** ** What an insertion adds, and the levels of the nodes *)

Section ExactSteps.
Context `{H : Helpers} `{N : Numeric}.

Lemma add_noise_sep_exact (bl br : bounds_t) (thres : float) (self : Node) :
  forall g, (g = true -> fits_pair bl br self = true) ->
    ins_step (fits_pair bl br) (noise_new bl br thres) g self
      (fst (add_noise_sep self bl br thres)).
Proof.
  induction self as [self IH] using Node_tree_ind. intros g Hg.
  rewrite add_noise_sep_eq.
  destruct (len (List.filter (fits_pair bl br) (children self)) =? 1) eqn:E.
  - apply Z.eqb_eq in E.
    destruct (on_first_fitting_split (fits_pair bl br)
                (fun c => add_noise_sep c bl br thres) _ E)
      as (pre & c & post & Hcs & Hc & Hcall).
    cbn zeta. rewrite Hcall. cbn [fst].
    apply ins_descend with (c := c); try assumption.
    rewrite Hcs in IH. apply Forall_app in IH as [_ IH]. apply Forall_inv in IH.
    apply IH. intros _. exact Hc.
  - apply Z.eqb_neq in E. unfold insert_here.
    destruct (noise_children self bl br thres) as [new|e] eqn:En; cbn [fst].
    + apply ins_append; [exact Hg | exact E | exact En].
    + apply ins_same.
Qed.

Lemma add_min_exact (m : Z) (thres : float) (self : Node) :
  forall g ign,
    ins_step (fits_index m) (min_new m thres) g self (fst (add_min self m thres ign)).
Proof.
  induction self as [self IH] using Node_tree_ind. intros g ign.
  rewrite add_min_eq.
  destruct (fits_index m self) eqn:Hfit; cbn [negb]; [|apply ins_same].
  destruct (len (List.filter (fits_index m) (children self)) =? 1) eqn:E.
  - apply Z.eqb_eq in E.
    destruct (on_first_fitting_split (fits_index m)
                (fun c => add_min c m thres false) _ E)
      as (pre & c & post & Hcs & Hc & Hcall).
    cbn zeta. rewrite Hcall. cbn [fst].
    apply ins_descend with (c := c); try assumption.
    rewrite Hcs in IH. apply Forall_app in IH as [_ IH]. apply Forall_inv in IH.
    apply IH.
  - apply Z.eqb_neq in E. unfold insert_here.
    destruct (min_children self m thres ign) as [new|e] eqn:En; cbn [fst].
    + apply ins_append; [intros _; exact Hfit | exact E | exists ign; exact En].
    + apply ins_same.
Qed.

Lemma noise_new_cases (bl br : bounds_t) (thres : float) (n : Node) (new : list Node) :
  noise_new bl br thres n new ->
  new = [] \/
  new = [Node_init bl (py_slice (spec n) (Some (fst bl - fst (bounds n)))
                         (Some (snd bl + 1 - fst (bounds n)))) thres false (level n);
         Node_init br (py_slice (spec n) (Some (fst br - fst (bounds n)))
                         (Some (snd br + 1 - fst (bounds n)))) thres false (level n)].
Proof.
  unfold noise_new, noise_children.
  destruct (prominence_of _ thres) as [pl|]; [|discriminate].
  destruct (prominence_of _ thres) as [pr|]; [|discriminate]. cbn [bind].
  destruct (_ && _)%bool; intros [= <-]; [right | left]; reflexivity.
Qed.

Lemma min_new_cases (m : Z) (thres : float) (n : Node) (new : list Node) :
  min_new m thres n new ->
  new = [] \/
  new = [Node_init (fst (bounds n), m)
           (py_slice (spec n) None (Some (m + 1 - fst (bounds n)))) thres false (level n);
         Node_init (m, snd (bounds n))
           (py_slice (spec n) (Some (m - fst (bounds n))) None) thres false (level n)].
Proof.
  unfold min_new, min_children. intros [ign Hnew]. revert Hnew.
  destruct (prominence_of _ thres) as [pl|]; [|discriminate].
  destruct (prominence_of _ thres) as [pr|]; [|discriminate]. cbn [bind].
  destruct (_ || _)%bool; intros [= <-]; [right | left]; reflexivity.
Qed.

End ExactSteps.

(** An invariant of all nodes under an insertion that starts at a fitting
    node. *)
Lemma ins_step_fitting (P : Node -> Prop) (fits : Node -> bool)
    (new_ok : Node -> list Node -> Prop) :
  (forall n new, fits n = true -> new_ok n new -> P n ->
                 P (append_children n new) /\ Forall (all_nodes P) new) ->
  (forall n pre c c' post,
      children n = pre ++ c :: post -> ins_step fits new_ok true c c' -> P n ->
      P (with_children n (pre ++ c' :: post))) ->
  forall n n', ins_step fits new_ok true n n' -> all_nodes P n -> all_nodes P n'.
Proof.
  intros Happ Hdesc.
  assert (Hgen : forall g n n', ins_step fits new_ok g n n' -> g = true ->
                   all_nodes P n -> all_nodes P n').
  { intros g n n' Hstep.
    induction Hstep as [g n | g n new Hfit Hlen Hnew | g n pre post c c' Hcs Hlen Hc Hstep IH];
      intros Hg Hall.
    - exact Hall.
    - apply all_nodes_inv in Hall as [Hp Hkids].
      destruct (Happ n new (Hfit Hg) Hnew Hp) as [Hp' Hnew'].
      constructor; [exact Hp'|]. rewrite children_append. apply Forall_app. split; assumption.
    - apply all_nodes_inv in Hall as [Hp Hkids].
      constructor; [apply Hdesc with (c := c); assumption|].
      rewrite children_with. rewrite Hcs in Hkids.
      apply Forall_app in Hkids as [Hpre Hpost].
      apply Forall_app. split; [exact Hpre|].
      constructor; [apply IH; [reflexivity | apply Forall_inv in Hpost; exact Hpost]|].
      apply Forall_inv_tail in Hpost. exact Hpost. }
  intros n n' Hstep. exact (Hgen true n n' Hstep eq_refl).
Qed.

Lemma ins_step_level (fits : Node -> bool) (new_ok : Node -> list Node -> Prop)
    (g : bool) (n n' : Node) :
  ins_step fits new_ok g n n' -> level n' = level n.
Proof. intros Hstep. destruct Hstep; reflexivity. Qed.

Lemma ins_step_spec (fits : Node -> bool) (new_ok : Node -> list Node -> Prop)
    (g : bool) (n n' : Node) :
  ins_step fits new_ok g n n' -> spec n' = spec n.
Proof. intros Hstep. destruct Hstep; reflexivity. Qed.

(** *** Levels *)

Lemma ins_step_level_below (fits : Node -> bool) (new_ok : Node -> list Node -> Prop)
    (g : bool) (n n' : Node) :
  (forall n new, new_ok n new ->
                 Forall (fun c => children c = [] /\ level c = level n + 1) new) ->
  ins_step fits new_ok g n n' ->
  all_nodes level_below n -> all_nodes level_below n'.
Proof.
  intros Hnew. apply ins_step_all_nodes.
  - intros g0 m new _ Hm Hp. specialize (Hnew m new Hm). split.
    + unfold level_below in *. rewrite children_append. apply Forall_app. split; [exact Hp|].
      eapply Forall_impl; [exact Hnew|]. intros c [_ Hc]. exact Hc.
    + eapply Forall_impl; [exact Hnew|]. intros c [Hc _].
      apply all_nodes_leaf; [exact Hc|]. unfold level_below. rewrite Hc. constructor.
  - intros m pre c c' post Hcs Hstep Hp. unfold level_below in *.
    rewrite children_with. rewrite Hcs in Hp.
    apply Forall_app in Hp as [Hpre Hpost]. apply Forall_app. split; [exact Hpre|].
    constructor; [|exact (Forall_inv_tail Hpost)].
    rewrite (ins_step_level _ _ _ _ _ Hstep). exact (Forall_inv Hpost).
Qed.

Section Levels.
Context `{H : Helpers} `{N : Numeric}.

Lemma run_call_level_below (t : Node) (c : call) :
  all_nodes level_below t -> all_nodes level_below (fst (run_call t c)).
Proof.
  destruct c as [bl br thres | m thres ign]; cbn [run_call].
  - apply (ins_step_level_below (fits_pair bl br) (noise_new bl br thres) false).
    + intros n new Hnew. apply noise_new_cases in Hnew as [-> | ->]; repeat constructor.
    + apply add_noise_sep_exact. discriminate.
  - apply (ins_step_level_below (fits_index m) (min_new m thres) false).
    + intros n new Hnew. apply min_new_cases in Hnew as [-> | ->]; repeat constructor.
    + apply add_min_exact.
Qed.

Lemma run_call_level (t : Node) (c : call) : level (fst (run_call t c)) = level t.
Proof.
  destruct (run_call_step t c) as (b1 & b2 & Hstep). exact (ins_step_level _ _ _ _ _ Hstep).
Qed.

Lemma node_at_level (path : list Z) :
  forall n m, all_nodes level_below n -> node_at n path = Some m ->
              level m = level n + len path.
Proof.
  induction path as [|i path IH]; intros n m Hall Hm; cbn [node_at] in Hm.
  - injection Hm as <-. unfold len. simpl. lia.
  - destruct (i <? 0); [discriminate|].
    destruct (nth_error (children n) (Z.to_nat i)) as [c|] eqn:Hc; [|discriminate].
    apply all_nodes_inv in Hall as [Hlv Hkids].
    unfold level_below in Hlv. rewrite List.Forall_forall in Hlv, Hkids.
    pose proof (nth_error_In _ _ Hc) as Hin.
    rewrite (IH c m (Hkids c Hin) Hm), (Hlv c Hin). unfold len. simpl. lia.
Qed.

(** X6 (Node, add_noise_sep, add_min): in a tree grown from a root node by
    calls of add_noise_sep and add_min, the level of every node is its
    depth: the number of child indices on the path from the root to it. *)
Theorem level_is_depth (t0 t : Node) :
  root_node t0 ->
  reachable any_call t0 t ->
  forall path n, node_at t path = Some n -> level n = len path.
Proof.
  intros (b & sp & th & ->) Hreach.
  assert (Hinv : level t = 0 /\ all_nodes level_below t).
  { induction Hreach as [|t c Hreach [IH0 IH] _].
    - split; [reflexivity|]. apply all_nodes_leaf; [reflexivity | constructor].
    - split; [rewrite run_call_level; exact IH0 | apply run_call_level_below, IH]. }
  destruct Hinv as [H0 Hinv]. intros path n Hn.
  rewrite (node_at_level path t n Hinv Hn), H0. lia.
Qed.

End Levels.

(** ** The spectrum chunks of the nodes *)

Lemma py_slice_nonneg {A : Type} (a : list A) (s e : Z) :
  0 <= s -> s <= e -> e <= len a ->
  py_slice a (Some s) (Some e) = firstn (Z.to_nat (e - s)) (skipn (Z.to_nat s) a).
Proof.
  intros Hs Hse He. unfold py_slice, py_clamp.
  destruct (s <? 0) eqn:E1; [apply Z.ltb_lt in E1; lia|].
  destruct (e <? 0) eqn:E2; [apply Z.ltb_lt in E2; lia|].
  rewrite !Z.min_l by lia. reflexivity.
Qed.

Lemma py_slice_from_start {A : Type} (a : list A) (e : Z) :
  py_slice a None (Some e) = py_slice a (Some 0) (Some e).
Proof.
  unfold py_slice. pose proof (len_nonneg a).
  replace (py_clamp (len a) 0) with 0; [reflexivity|].
  unfold py_clamp. change (0 <? 0) with false. cbv iota. lia.
Qed.

Lemma py_slice_to_end {A : Type} (a : list A) (s : Z) :
  py_slice a (Some s) None = py_slice a (Some s) (Some (len a)).
Proof.
  unfold py_slice. pose proof (len_nonneg a).
  replace (py_clamp (len a) (len a)) with (len a); [reflexivity|].
  unfold py_clamp. destruct (len a <? 0) eqn:E; [apply Z.ltb_lt in E; lia | lia].
Qed.

Lemma py_slice_len {A : Type} (a : list A) (s e : Z) :
  0 <= s -> s <= e -> e <= len a -> len (py_slice a (Some s) (Some e)) = e - s.
Proof.
  intros Hs Hse He. rewrite py_slice_nonneg by assumption.
  unfold len in *. rewrite length_firstn, length_skipn. lia.
Qed.

(** A slice of a slice. *)
Lemma py_slice_slice {A : Type} (a : list A) (s e s' e' : Z) :
  0 <= s -> e <= len a -> 0 <= s' -> s' <= e' -> s + e' <= e ->
  py_slice (py_slice a (Some s) (Some e)) (Some s') (Some e')
  = py_slice a (Some (s + s')) (Some (s + e')).
Proof.
  intros Hs He Hs' He' Hin.
  rewrite (py_slice_nonneg (py_slice a (Some s) (Some e)))
    by (rewrite ?py_slice_len; lia).
  rewrite !py_slice_nonneg by lia.
  rewrite skipn_firstn_comm, firstn_firstn, skipn_skipn.
  f_equal; [lia|]. f_equal. lia.
Qed.

Lemma chunk_of_chunk {A : Type} (a : list A) (l r l' r' : Z) :
  0 <= l -> r < len a -> l <= l' -> l' <= r' + 1 -> r' <= r ->
  py_slice (chunk a (l, r)) (Some (l' - l)) (Some (r' + 1 - l)) = chunk a (l', r').
Proof.
  intros. unfold chunk. cbn [fst snd]. rewrite py_slice_slice by lia.
  f_equal; f_equal; lia.
Qed.

Lemma holds_chunk_len (Zs : list float) (lo hi : Z) (n : Node) :
  0 <= lo -> hi < len Zs -> holds_chunk Zs lo hi n ->
  len (spec n) = snd (bounds n) - fst (bounds n) + 1.
Proof.
  intros Hlo Hhi (Hs & H1 & H2 & H3). rewrite Hs. unfold chunk.
  rewrite py_slice_len by lia. lia.
Qed.

Lemma ins_step_holds_chunk (Zs : list float) (lo hi : Z) (fits : Node -> bool)
    (new_ok : Node -> list Node -> Prop) (n n' : Node) :
  (forall n new, fits n = true -> new_ok n new -> holds_chunk Zs lo hi n ->
                 Forall (fun c => children c = [] /\ holds_chunk Zs lo hi c) new) ->
  ins_step fits new_ok true n n' ->
  all_nodes (holds_chunk Zs lo hi) n -> all_nodes (holds_chunk Zs lo hi) n'.
Proof.
  intros Hnew. apply ins_step_fitting.
  - intros m new Hfit Hm Hp. split; [exact Hp|].
    eapply Forall_impl; [exact (Hnew m new Hfit Hm Hp)|].
    intros c [Hc Hh]. apply all_nodes_leaf; assumption.
  - intros m pre c c' post _ _ Hp. exact Hp.
Qed.

Section Chunks.
Context `{H : Helpers} `{N : Numeric}.

Lemma noise_new_holds_chunk (Zs : list float) (lo hi : Z) (bl br : bounds_t) (thres : float)
    (n : Node) (new : list Node) :
  0 <= lo -> hi < len Zs -> ordered_pair bl br ->
  fits_pair bl br n = true -> noise_new bl br thres n new -> holds_chunk Zs lo hi n ->
  Forall (fun c => children c = [] /\ holds_chunk Zs lo hi c) new.
Proof.
  intros Hlo Hhi (Ho1 & Ho2 & Ho3) Hfit Hnew (Hs & H1 & H2 & H3).
  unfold fits_pair in Hfit. apply andb_prop in Hfit as [Hl Hr]. apply Z.leb_le in Hl, Hr.
  apply noise_new_cases in Hnew as [-> | ->]; [constructor|].
  destruct (bounds n) as [l r] eqn:Hb. cbn [fst snd] in *.
  repeat constructor; cbn [Node_init spec bounds fst snd]; try lia;
    rewrite Hs; unfold holds_chunk.
  - destruct bl as [a b]. cbn [fst snd] in *. apply chunk_of_chunk; lia.
  - destruct br as [a b]. cbn [fst snd] in *. apply chunk_of_chunk; lia.
Qed.

Lemma min_new_holds_chunk (Zs : list float) (lo hi : Z) (m : Z) (thres : float)
    (n : Node) (new : list Node) :
  0 <= lo -> hi < len Zs ->
  fits_index m n = true -> min_new m thres n new -> holds_chunk Zs lo hi n ->
  Forall (fun c => children c = [] /\ holds_chunk Zs lo hi c) new.
Proof.
  intros Hlo Hhi Hfit Hnew Hh. pose proof (holds_chunk_len Zs lo hi n Hlo Hhi Hh) as Hlen.
  destruct Hh as (Hs & H1 & H2 & H3).
  unfold fits_index in Hfit. apply andb_prop in Hfit as [Hl Hr]. apply Z.leb_le in Hl, Hr.
  apply min_new_cases in Hnew as [-> | ->]; [constructor|].
  destruct (bounds n) as [l r] eqn:Hb. cbn [fst snd] in *.
  repeat constructor; cbn [Node_init spec bounds fst snd]; try lia.
  - rewrite py_slice_from_start. rewrite Hs.
    replace 0 with (l - l) by lia. apply chunk_of_chunk; lia.
  - rewrite py_slice_to_end, Hlen. rewrite Hs.
    replace (r - l + 1) with (r + 1 - l) by lia. apply chunk_of_chunk; lia.
Qed.

Lemma run_call_bounds (t : Node) (c : call) : bounds (fst (run_call t c)) = bounds t.
Proof.
  destruct (run_call_step t c) as (b1 & b2 & Hstep). exact (ins_step_bounds _ _ _ _ _ Hstep).
Qed.

Lemma run_call_holds_chunk (Zs : list float) (lo hi : Z) (t : Node) (c : call) :
  0 <= lo -> hi < len Zs -> inside_call t c ->
  all_nodes (holds_chunk Zs lo hi) t -> all_nodes (holds_chunk Zs lo hi) (fst (run_call t c)).
Proof.
  intros Hlo Hhi Hin. destruct c as [bl br thres | m thres ign]; cbn [run_call].
  - destruct Hin as (H1 & H2 & H3 & Hfit).
    apply (ins_step_holds_chunk Zs lo hi (fits_pair bl br) (noise_new bl br thres)).
    + intros n new Hn Hnew Hh.
      apply (noise_new_holds_chunk Zs lo hi bl br thres n new); try assumption.
      repeat split; assumption.
    + apply add_noise_sep_exact. intros _. exact Hfit.
  - apply (ins_step_holds_chunk Zs lo hi (fits_index m) (min_new m thres)).
    + intros n new Hn Hnew Hh.
      apply (min_new_holds_chunk Zs lo hi m thres n new); assumption.
    + apply add_min_exact.
Qed.

Lemma reachable_holds_chunk (Zs : list float) (t0 t : Node) :
  0 <= fst (bounds t0) -> snd (bounds t0) < len Zs ->
  all_nodes (holds_chunk Zs (fst (bounds t0)) (snd (bounds t0))) t0 ->
  reachable inside_call t0 t ->
  bounds t = bounds t0
  /\ all_nodes (holds_chunk Zs (fst (bounds t0)) (snd (bounds t0))) t.
Proof.
  intros Hlo Hhi H0 Hreach. induction Hreach as [|t c Hreach [IHb IH] Hok].
  - split; [reflexivity | exact H0].
  - split; [rewrite run_call_bounds; exact IHb|].
    apply run_call_holds_chunk; assumption.
Qed.

(** X7 (add_noise_sep, add_min): let the root hold the bins of an array
    between its bounds, and let the tree grow by add_min calls and by
    add_noise_sep calls whose pairs are ordered and lie inside the root.
    Then every node holds exactly the bins of the array between its own
    bounds, both included, its left bound is not right of its right bound,
    and its bounds lie inside those of the root. *)
Theorem node_spec_is_chunk (Zs : list float) (t0 t : Node) :
  root_node t0 ->
  spec t0 = chunk Zs (bounds t0) ->
  0 <= fst (bounds t0) <= snd (bounds t0) ->
  snd (bounds t0) < len Zs ->
  reachable inside_call t0 t ->
  all_nodes
    (fun n => spec n = chunk Zs (bounds n)
              /\ len (spec n) = snd (bounds n) - fst (bounds n) + 1
              /\ fst (bounds t0) <= fst (bounds n) <= snd (bounds n)
              /\ snd (bounds n) <= snd (bounds t0)) t.
Proof.
  intros (b & sp & th & ->) Hspec Hb Hlen Hreach.
  destruct (reachable_holds_chunk Zs _ t (proj1 Hb) Hlen) as [_ Hall]; [|exact Hreach|].
  { apply all_nodes_leaf; [reflexivity|]. repeat split; try assumption; lia. }
  clear Hreach. revert Hall. set (t0 := Node_init b sp th true 0). intros Hall.
  induction t as [t IHt] using Node_tree_ind.
  apply all_nodes_inv in Hall as [Hh Hkids]. constructor.
  - pose proof (holds_chunk_len Zs _ _ t (proj1 Hb) Hlen Hh) as Hl.
    destruct Hh as (Hs & H1 & H2 & H3). repeat split; assumption.
  - rewrite List.Forall_forall in *. intros c Hc. apply IHt; [exact Hc | apply Hkids, Hc].
Qed.

End Chunks.

(** ** Insertions keep the nodes *)

Lemma ins_step_threshold (fits : Node -> bool) (new_ok : Node -> list Node -> Prop)
    (g : bool) (n n' : Node) :
  ins_step fits new_ok g n n' -> threshold n' = threshold n.
Proof. intros Hstep. destruct Hstep; reflexivity. Qed.

Lemma traverse_children_app (cs1 cs2 : list Node) (c : list Z) :
  forall i,
    traverse_children i (cs1 ++ cs2) c
    = traverse_children i cs1 c ++ traverse_children (i + len cs1) cs2 c.
Proof.
  induction cs1 as [|c1 cs1 IH]; intros i; cbn [app traverse_children].
  - change (len (@nil Node)) with 0. rewrite Z.add_0_r. reflexivity.
  - rewrite IH, <- app_assoc. do 3 f_equal. unfold len. cbn [length]. lia.
Qed.

(** An insertion keeps what [traverse] yielded before it. *)
Lemma ins_step_traverse (fits : Node -> bool) (new_ok : Node -> list Node -> Prop)
    (g : bool) (n n' : Node) :
  ins_step fits new_ok g n n' -> forall c, incl (traverse n c) (traverse n' c).
Proof.
  intros Hstep.
  induction Hstep as [g n | g n new Hfit Hlen Hnew | g n pre post c0 c' Hcs Hlen Hc Hstep IH];
    intros c x Hx.
  - exact Hx.
  - rewrite traverse_eq in Hx |- *. rewrite children_append, traverse_children_app.
    destruct Hx as [<- | Hx]; [left; reflexivity|].
    right. apply in_or_app. left. exact Hx.
  - rewrite traverse_eq in Hx |- *. rewrite children_with. rewrite Hcs in Hx.
    destruct Hx as [<- | Hx]; [left; reflexivity|]. right.
    rewrite traverse_children_app in Hx |- *. cbn [traverse_children] in Hx |- *.
    apply in_app_or in Hx as [Hx | Hx]; apply in_or_app; [left; exact Hx|].
    right. apply in_app_or in Hx as [Hx | Hx]; apply in_or_app; [|right; exact Hx].
    left. apply IH, Hx.
Qed.

Section Kept.
Context `{H : Helpers} `{N : Numeric}.

(** X8 (add_noise_sep, add_min, traverse): a call of add_noise_sep or
    add_min removes, moves and changes no node: every entry of the
    traversal before the call, with its coordinate, bounds and threshold,
    is an entry of the traversal after it, whether the call returned or
    raised. *)
Theorem insertion_keeps_nodes (t : Node) (c : call) (coords : list Z) (x : traversed_node) :
  In x (traverse t coords) -> In x (traverse (fst (run_call t c)) coords).
Proof.
  destruct (run_call_step t c) as (b1 & b2 & Hstep).
  apply (ins_step_traverse _ _ _ _ _ Hstep).
Qed.

End Kept.

(** ** The split at the widest gap *)

Lemma argmax_int_loop_spec (a : list Z) :
  forall pre mp imax,
    nth_error pre (Z.to_nat imax) = Some mp -> 0 <= imax < len pre ->
    Forall (fun x => x <= mp) pre ->
    Forall (fun x => x < mp) (firstn (Z.to_nat imax) pre) ->
    let k := PeakDetect.argmax_int_loop mp imax (len pre) a in
    exists m, nth_error (pre ++ a) (Z.to_nat k) = Some m
              /\ Forall (fun x => x <= m) (pre ++ a)
              /\ Forall (fun x => x < m) (firstn (Z.to_nat k) (pre ++ a)).
Proof.
  induction a as [|x a IH]; intros pre mp imax Hnth Hi Hle Hlt; cbn [PeakDetect.argmax_int_loop].
  - cbv zeta. rewrite app_nil_r. exists mp. repeat split; assumption.
  - cbv zeta.
    assert (Hlen : len pre + 1 = len (pre ++ [x]))
      by (unfold len; rewrite length_app; simpl; lia).
    assert (Happ : pre ++ x :: a = (pre ++ [x]) ++ a) by (rewrite <- app_assoc; reflexivity).
    destruct (mp <? x) eqn:E.
    + apply Z.ltb_lt in E. rewrite Hlen, Happ.
      apply (IH (pre ++ [x]) x (len pre)).
      * rewrite nth_error_app2 by (unfold len; lia).
        replace (Z.to_nat (len pre) - length pre)%nat with O by (unfold len; lia). reflexivity.
      * rewrite <- Hlen. pose proof (len_nonneg pre). lia.
      * apply Forall_app. split; [|repeat constructor; lia].
        eapply Forall_impl; [exact Hle|]. intros y Hy. cbv beta in Hy. lia.
      * unfold len. rewrite Nat2Z.id, firstn_app, firstn_all, Nat.sub_diag. cbn [firstn].
        rewrite app_nil_r. eapply Forall_impl; [exact Hle|]. intros y Hy. cbv beta in Hy. lia.
    + apply Z.ltb_ge in E. rewrite Hlen, Happ.
      apply (IH (pre ++ [x]) mp imax).
      * rewrite nth_error_app1 by (unfold len in Hi; lia). exact Hnth.
      * rewrite <- Hlen. lia.
      * apply Forall_app. split; [exact Hle | repeat constructor; lia].
      * rewrite firstn_app. replace (Z.to_nat imax - length pre)%nat with O
          by (unfold len in Hi; lia).
        cbn [firstn]. rewrite app_nil_r. exact Hlt.
Qed.

(** [np.argmax] of integers: the first position of the largest element. *)
Lemma np_argmax_int_spec (a : list Z) (k : Z) :
  PeakDetect.np_argmax_int a = Ok k ->
  0 <= k < len a
  /\ exists m, nth_error a (Z.to_nat k) = Some m
               /\ Forall (fun x => x <= m) a
               /\ Forall (fun x => x < m) (firstn (Z.to_nat k) a).
Proof.
  intros Hk. split; [exact (np_argmax_int_range a k Hk)|].
  destruct a as [|x a]; [discriminate|]. cbn [PeakDetect.np_argmax_int] in Hk.
  injection Hk as <-.
  apply (argmax_int_loop_spec a [x] x 0); try reflexivity.
  - unfold len. simpl. lia.
  - repeat constructor. lia.
  - constructor.
Qed.

Lemma zip_next_cons {A : Type} (x y : A) (l : list A) :
  zip_next (x :: y :: l) = (x, y) :: zip_next (y :: l).
Proof. reflexivity. Qed.

Lemma py_slice_tl {A : Type} (l : list A) : py_slice l (Some 1) None = tl l.
Proof.
  unfold py_slice, py_clamp. change (1 <? 0) with false. cbv iota.
  destruct l as [|x l]; [reflexivity|].
  replace (Z.min 1 (len (x :: l))) with 1 by (unfold len; simpl; lia).
  change (Z.to_nat 1) with 1%nat. cbn [skipn tl].
  apply firstn_all2. unfold len. simpl. lia.
Qed.

Lemma py_slice_removelast {A : Type} (l : list A) : py_slice l None (Some (-1)) = removelast l.
Proof.
  destruct l as [|x l] using rev_ind; [reflexivity|].
  rewrite removelast_last. unfold py_slice, py_clamp. change (-1 <? 0) with true. cbv iota.
  replace (len (l ++ [x])) with (len l + 1) by (unfold len; rewrite length_app; simpl; lia).
  rewrite Z.sub_0_r. replace (Z.max 0 (-1 + (len l + 1))) with (len l) by (unfold len; lia).
  unfold len. rewrite Nat2Z.id. change (Z.to_nat 0) with O. rewrite skipn_O.
  rewrite firstn_app, firstn_all, Nat.sub_diag. cbn [firstn]. apply app_nil_r.
Qed.

Lemma wrap_int64_small (z : Z) : int64 z -> wrap_int64 z = z.
Proof.
  unfold int64, wrap_int64. intros Hz.
  rewrite Z.mod_small; [lia|].
  change (2 ^ 64) with (2 ^ 63 + 2 ^ 63). lia.
Qed.

Lemma spacing_gaps (peak_ind : list bounds_t) :
  np_subtract_int (py_slice (map fst peak_ind) (Some 1) None)
                  (py_slice (map snd peak_ind) None (Some (-1)))
  = map wrap_int64 (gaps peak_ind).
Proof.
  rewrite py_slice_tl, py_slice_removelast. unfold np_subtract_int, gaps, zip_next.
  induction peak_ind as [|p [|q l] IH]; [reflexivity | reflexivity|].
  cbn [map tl removelast combine] in IH |- *. unfold gap at 1. cbn [fst snd].
  f_equal. exact IH.
Qed.

(** Gaps that fit in an [int64] are not changed by the subtraction. *)
Lemma spacing_gaps_small (peak_ind : list bounds_t) :
  Forall int64 (gaps peak_ind) ->
  np_subtract_int (py_slice (map fst peak_ind) (Some 1) None)
                  (py_slice (map snd peak_ind) None (Some (-1)))
  = gaps peak_ind.
Proof.
  intros Hg. rewrite spacing_gaps.
  induction Hg as [|g l Hg _ IH]; [reflexivity|].
  cbn [map]. rewrite IH, (wrap_int64_small g Hg). reflexivity.
Qed.

Lemma zip_next_firstn {A : Type} (l : list A) (k : nat) :
  zip_next (firstn (S k) l) = firstn k (zip_next l).
Proof.
  revert k. induction l as [|x [|y l] IH]; intros k.
  - destruct k; reflexivity.
  - destruct k; reflexivity.
  - destruct k as [|k]; [reflexivity|].
    change (firstn (S (S k)) (x :: y :: l)) with (x :: firstn (S k) (y :: l)).
    rewrite zip_next_cons. cbn [firstn]. rewrite <- IH. reflexivity.
Qed.

Lemma zip_next_nth {A : Type} (l : list A) (k : nat) (p q : A) :
  nth_error l k = Some p -> nth_error l (S k) = Some q ->
  nth_error (zip_next l) k = Some (p, q).
Proof.
  revert k. induction l as [|x [|y l] IH]; intros k Hp Hq.
  - destruct k; discriminate.
  - destruct k as [|[|k]]; discriminate.
  - destruct k as [|k].
    + injection Hp as <-. injection Hq as <-. reflexivity.
    + rewrite zip_next_cons. cbn [nth_error]. apply IH; assumption.
Qed.

(** X9 (split_peak_ind_by_space): take a list of two or more peaks whose
    bounds are int64 values and whose gaps between neighbours fit in an
    int64, so that the subtraction of the bound arrays does not wrap
    around.  The list is split in two parts, neither empty, that make up the
    list in order.  The split is at the first widest gap: no gap between
    neighbours of the list is wider than the gap between the two parts, and
    every gap inside the left part is narrower. *)
Theorem split_at_widest_gap (peak_ind : list bounds_t) :
  2 <= len peak_ind ->
  Forall (fun b => int64 (fst b) /\ int64 (snd b)) peak_ind ->
  Forall int64 (gaps peak_ind) ->
  exists left_ right_ p q,
    PeakDetect.split_peak_ind_by_space peak_ind = Ok (left_, right_)
    /\ peak_ind = left_ ++ right_
    /\ List.last left_ (0, 0) = p /\ left_ <> []
    /\ hd (0, 0) right_ = q /\ right_ <> []
    /\ Forall (fun g => g <= fst q - snd p) (gaps peak_ind)
    /\ Forall (fun g => g < fst q - snd p) (gaps left_).
Proof.
  intros H2 _ Hfit. unfold PeakDetect.split_peak_ind_by_space.
  destruct (len peak_ind =? 1) eqn:E1; [apply Z.eqb_eq in E1; lia|]. clear E1.
  rewrite (spacing_gaps_small peak_ind Hfit).
  destruct (PeakDetect.np_argmax_int (gaps peak_ind)) as [k|e] eqn:Ek.
  2:{ exfalso. destruct (gaps peak_ind) eqn:Eg; [|discriminate].
      apply (f_equal (@length Z)) in Eg. unfold gaps, zip_next in Eg.
      rewrite length_map, length_combine in Eg.
      destruct peak_ind as [|a [|b l]]; unfold len in H2; simpl in *; lia. }
  apply np_argmax_int_spec in Ek as (Hk & m & Hm & Hle & Hlt). cbn [bind].
  assert (Hgl : len (gaps peak_ind) = len peak_ind - 1).
  { unfold gaps, zip_next, len. rewrite length_map, length_combine.
    destruct peak_ind as [|a l]; [unfold len in H2; simpl in H2; lia|]. cbn [tl length]. lia. }
  assert (Hl : py_slice peak_ind None (Some (k + 1)) = firstn (S (Z.to_nat k)) peak_ind).
  { rewrite py_slice_from_start, py_slice_nonneg by lia.
    change (Z.to_nat 0) with O. rewrite skipn_O. f_equal. lia. }
  assert (Hr : py_slice peak_ind (Some (k + 1)) None = skipn (S (Z.to_nat k)) peak_ind).
  { rewrite py_slice_to_end, py_slice_nonneg by lia.
    rewrite firstn_all2 by (rewrite length_skipn; unfold len; lia). f_equal. lia. }
  rewrite Hl, Hr.
  destruct (nth_error peak_ind (Z.to_nat k)) as [p|] eqn:Hp.
  2:{ apply nth_error_None in Hp. unfold len in *. lia. }
  destruct (nth_error peak_ind (S (Z.to_nat k))) as [q|] eqn:Hq.
  2:{ apply nth_error_None in Hq. unfold len in *. lia. }
  exists (firstn (S (Z.to_nat k)) peak_ind), (skipn (S (Z.to_nat k)) peak_ind), p, q.
  assert (Hgap : m = fst q - snd p).
  { unfold gaps in Hm. rewrite nth_error_map, (zip_next_nth _ _ p q Hp Hq) in Hm.
    injection Hm as <-. reflexivity. }
  subst m.
  split; [reflexivity|]. split; [symmetry; apply firstn_skipn|].
  split; [|split; [|split; [|split; [|split]]]].
  - apply nth_error_split in Hp as (l1 & l2 & -> & Hlen1).
    replace (S (Z.to_nat k)) with (length (l1 ++ [p])) by (rewrite length_app; cbn [length]; lia).
    change (l1 ++ p :: l2) with (l1 ++ [p] ++ l2). rewrite app_assoc, firstn_app, firstn_all.
    rewrite Nat.sub_diag. cbn [firstn]. rewrite app_nil_r. apply last_last.
  - intros E. apply (f_equal (@length bounds_t)) in E. rewrite length_firstn in E.
    unfold len in *. cbn [length] in E. lia.
  - apply nth_error_split in Hq as (l1 & l2 & -> & Hlen1).
    rewrite <- Hlen1, skipn_app, skipn_all, Nat.sub_diag. reflexivity.
  - intros E. apply (f_equal (@length bounds_t)) in E. rewrite length_skipn in E.
    unfold len in *. cbn [length] in E. lia.
  - exact Hle.
  - unfold gaps in *. rewrite zip_next_firstn, <- firstn_map. exact Hlt.
Qed.

(** ** The pairs of the gap recursion *)

Lemma py_get_hd {A : Type} (d : A) (l : list A) : l <> [] -> py_get l 0 = Ok (hd d l).
Proof. destruct l as [|x l]; [contradiction|]. reflexivity. Qed.

Lemma py_get_last_elem {A : Type} (d : A) (l : list A) :
  l <> [] -> py_get l (-1) = Ok (List.last l d).
Proof.
  intros Hne. destruct l as [|x l] using rev_ind; [contradiction|]. clear IHl.
  rewrite last_last. unfold py_get. change (-1 <? 0) with true. cbv iota.
  replace (len (l ++ [x])) with (len l + 1) by (unfold len; rewrite length_app; simpl; lia).
  replace (-1 + (len l + 1)) with (len l) by lia.
  pose proof (len_nonneg l).
  destruct (len l <? 0) eqn:E1; [apply Z.ltb_lt in E1; lia|].
  destruct (len l + 1 <=? len l) eqn:E2; [apply Z.leb_le in E2; lia|]. cbn [orb].
  unfold len. rewrite Nat2Z.id, nth_error_app2, Nat.sub_diag by lia. reflexivity.
Qed.

Lemma hull_pair_hulls (l r : list bounds_t) :
  l <> [] -> r <> [] -> PeakDetect.hull_pair l r = Ok (hull l, hull r).
Proof.
  intros Hl Hr. unfold PeakDetect.hull_pair, hull.
  rewrite (py_get_hd (0, 0) l Hl), (py_get_last_elem (0, 0) l Hl),
    (py_get_hd (0, 0) r Hr), (py_get_last_elem (0, 0) r Hr).
  reflexivity.
Qed.

Lemma ascending_hull (l : list bounds_t) :
  ascending_disjoint l -> l <> [] ->
  fst (hull l) <= snd (hull l)
  /\ Forall (fun p => fst (hull l) <= fst p /\ fst p <= snd p /\ snd p <= snd (hull l)) l.
Proof.
  intros [Hw Hs] Hne. unfold hull. cbn [fst snd].
  induction l as [|p l IH]; [contradiction|]. cbn [hd].
  apply Forall_inv_tail in Hw as Hw'. apply Forall_inv in Hw.
  apply StronglySorted_inv in Hs as [Hs Hp].
  destruct l as [|q l].
  - cbn [List.last]. split; [exact Hw|]. repeat constructor; lia.
  - destruct (IH Hw' Hs ltac:(discriminate)) as [IH1 IH2]. cbn [hd] in IH1, IH2.
    change (List.last (p :: q :: l) (0, 0)) with (List.last (q :: l) (0, 0)).
    pose proof (Forall_inv Hp) as Hpq. cbv beta in Hpq.
    split; [lia|]. constructor; [lia|].
    eapply Forall_impl; [exact IH2|]. intros x Hx. cbv beta in Hx. lia.
Qed.

Lemma hull_app (l r : list bounds_t) :
  l <> [] -> r <> [] ->
  fst (hull (l ++ r)) = fst (hull l) /\ snd (hull (l ++ r)) = snd (hull r).
Proof.
  intros Hl Hr. unfold hull. cbn [fst snd]. split.
  - destruct l; [contradiction | reflexivity].
  - destruct r as [|x r] using rev_ind; [contradiction|].
    rewrite app_assoc, !last_last. reflexivity.
Qed.

Lemma gen_then_ok {A : Type} (l1 l2 : list A) (e : option exn) :
  PeakDetect.gen_then (l1, None) (l2, e) = (l1 ++ l2, e).
Proof. reflexivity. Qed.

(** The pairs of the generator on an ascending list are ordered and lie
    inside the hull of the list. *)
Lemma peak_pairs_inside (n : nat) :
  forall peak_ind : list bounds_t,
    (length peak_ind <= n)%nat -> 1 <= len peak_ind -> ascending_disjoint peak_ind ->
    forall bl br,
      In (bl, br) (fst (peak_pairs_to_call peak_ind)) ->
      ordered_pair bl br
      /\ fst (hull peak_ind) <= fst bl /\ snd br <= snd (hull peak_ind).
Proof.
  induction n as [|n IH]; intros peak_ind Hn H1 Hasc bl br.
  - unfold len in H1. lia.
  - rewrite peak_pairs_to_call_body.
    destruct (Z.eq_dec (len peak_ind) 1) as [E|E].
    + unfold PeakDetect.split_peak_ind_by_space.
      apply Z.eqb_eq in E. rewrite E, peaks_eqb_refl. intros [].
    + destruct (PeakDetect.split_peak_ind_by_space peak_ind) as [[l r]|e] eqn:Hs;
        [|intros []].
      destruct (split_lengths _ _ _ Hs E) as (_ & Hl & Hr & Happ).
      rewrite Happ in Hasc.
      rewrite (ascending_parts_differ l r Hasc) by lia.
      assert (Hlne : l <> []) by (intros ->; unfold len in Hl; simpl in Hl; lia).
      assert (Hrne : r <> []) by (intros ->; unfold len in Hr; simpl in Hr; lia).
      rewrite (hull_pair_hulls l r Hlne Hrne).
      pose proof Hasc as [_ Hsorted].
      apply ascending_disjoint_app in Hasc as [Hal Har].
      destruct (peak_pairs_to_call_yields n l) as (pl & Hpl & _);
        [unfold len in *; lia | lia | assumption|].
      destruct (peak_pairs_to_call_yields n r) as (pr & Hpr & _);
        [unfold len in *; lia | lia | assumption|].
      pose proof (IH l ltac:(unfold len in *; lia) ltac:(lia) Hal) as IHl.
      pose proof (IH r ltac:(unfold len in *; lia) ltac:(lia) Har) as IHr.
      rewrite Hpl in IHl |- *. rewrite Hpr in IHr |- *. rewrite !gen_then_ok.
      cbn [fst app In] in *.
      destruct (ascending_hull l Hal Hlne) as [Hhl Hinl].
      destruct (ascending_hull r Har Hrne) as [Hhr Hinr].
      destruct (hull_app l r Hlne Hrne) as [Hf Hl']. rewrite Happ, Hf, Hl'.
      assert (Hcross : snd (hull l) < fst (hull r)).
      { apply StronglySorted_app in Hsorted as (Hlr & _ & _).
        unfold hull. cbn [fst snd]. apply (Hlr (List.last l (0, 0)) (hd (0, 0) r)).
        - apply list_elem_of_In. destruct l as [|x l] using rev_ind; [contradiction|].
          rewrite last_last. apply in_or_app. right. left. reflexivity.
        - apply list_elem_of_In. destruct r; [contradiction | left; reflexivity]. }
      rewrite in_app_iff. intros [[= <- <-] | [Hin | Hin]].
      * unfold ordered_pair. lia.
      * destruct (IHl bl br Hin) as (Ho & H2 & H3). split; [exact Ho|]. lia.
      * destruct (IHr bl br Hin) as (Ho & H2 & H3). split; [exact Ho|]. lia.
Qed.

(** ** The tree of a spectrum *)

Lemma above_in_range (array : list float) (thres : float) (i : Z) :
  above array thres i = true -> 0 <= i < len array.
Proof.
  unfold above. intros Hi. apply andb_prop in Hi as [H0 Hn]. apply Z.leb_le in H0.
  destruct (nth_error array (Z.to_nat i)) eqn:E; [|discriminate].
  assert (Hlt : (Z.to_nat i < length array)%nat) by (apply nth_error_Some; congruence).
  unfold len. lia.
Qed.

(** The peaks that [tree_from_spectrum] keeps: ascending, disjoint, wider
    than one bin and inside the array. *)
Lemma detected_peaks (array : list float) (thres : float) :
  exists runs,
    PeakDetect.detect_peak_simple array thres = Ok runs
    /\ ascending_disjoint (PeakDetect.width_filter runs)
    /\ Forall (fun p : bounds_t => 0 <= fst p /\ fst p < snd p /\ snd p < len array)
         (PeakDetect.width_filter runs).
Proof.
  rewrite detect_peak_simple_scan. eexists. split; [reflexivity|].
  set (ind := np_where (map (fun x => (thres <? x)%float) array)).
  assert (Hsorted : StronglySorted Z.lt ind) by apply where_from_sorted.
  assert (Hmem : forall l r,
             In (l, r) match ind with [] => [] | x :: rest => scan_runs x x rest end
             -> maximal_run array thres l r).
  { intros l r. rewrite maximal_run_run_of. fold ind.
    destruct ind as [|x rest]; [intros []|].
    rewrite scan_runs_spec by (lia || exact Hsorted).
    apply run_of_ext. intros i. simpl. split.
    - intros [Hi|Hi]; [left; lia | right; exact Hi].
    - intros [Hi|Hi]; [left; lia | right; exact Hi]. }
  assert (Hall : Forall (fun p : bounds_t => 0 <= fst p /\ fst p < snd p /\ snd p < len array)
                   (PeakDetect.width_filter
                      match ind with [] => [] | x :: rest => scan_runs x x rest end)).
  { apply List.Forall_forall. intros [l r] Hin. unfold PeakDetect.width_filter in Hin.
    apply filter_In in Hin as [Hin Hw]. cbn [fst snd] in *. apply Z.ltb_lt in Hw.
    apply Hmem in Hin as (Hlr & Habove & _).
    pose proof (above_in_range _ _ _ (Habove l ltac:(lia))).
    pose proof (above_in_range _ _ _ (Habove r ltac:(lia))). lia. }
  split; [|exact Hall]. split.
  - eapply Forall_impl; [exact Hall|]. intros p Hp. cbv beta in Hp. lia.
  - unfold PeakDetect.width_filter. apply filter_sorted.
    destruct ind as [|x rest]; [constructor|].
    apply scan_runs_sorted; [lia | exact Hsorted].
Qed.

Lemma full_tree_id_nonneg (c : list Z) : c <> [] -> 0 <= full_tree_id c.
Proof.
  induction c as [|i c IH] using rev_ind; [contradiction|]. intros _.
  destruct c as [|j c].
  - cbn [app]. unfold full_tree_id, enumerate.
    cbn [rev app enumerate_from fold_left fst snd].
    change (len [i] - 1) with 0. change (2 ^ 0) with 1. destruct (i =? 1); lia.
  - rewrite full_tree_id_snoc by discriminate.
    specialize (IH ltac:(discriminate)). destruct (i =? 1); lia.
Qed.

Lemma full_tree_id_below_root (c : list Z) (i : Z) (path : list Z) :
  c <> [] -> 1 <= full_tree_id (c ++ i :: path).
Proof.
  revert c i. induction path as [|j path IH]; intros c i Hc.
  - rewrite full_tree_id_snoc by exact Hc. pose proof (full_tree_id_nonneg c Hc).
    destruct (i =? 1); lia.
  - change (c ++ i :: j :: path) with (c ++ [i] ++ j :: path). rewrite app_assoc.
    apply IH. destruct c; discriminate.
Qed.

Lemma coords_step_lookup (m : gmap Z id_node) (x : traversed_node) (k : Z) :
  k <> full_tree_id (coords x) -> coords_step m x !! k = m !! k.
Proof.
  intros Hk. unfold coords_step. cbv zeta. rewrite !lookup_insert_ne by congruence.
  reflexivity.
Qed.

Lemma coords_step_new (m : gmap Z id_node) (x : traversed_node) :
  exists pid, coords_step m x !! full_tree_id (coords x) = Some {| trav := x; parent_id := pid |}.
Proof. unfold coords_step. cbv zeta. eexists. apply lookup_insert_eq. Qed.

(** Every entry of [coords_to_id] is a traversed node under its id. *)
Lemma coords_to_id_values (tr : list traversed_node) (k : Z) (nd : id_node) :
  coords_to_id tr !! k = Some nd ->
  In (trav nd) tr /\ k = full_tree_id (coords (trav nd)).
Proof.
  revert k nd. induction tr as [|x tr IH] using rev_ind; intros k nd.
  - rewrite coords_to_id_fold. cbn [fold_left]. rewrite lookup_empty. discriminate.
  - rewrite coords_to_id_snoc.
    destruct (Z.eq_dec k (full_tree_id (coords x))) as [-> | Hne].
    + destruct (coords_step_new (coords_to_id tr) x) as [pid ->]. intros [= <-].
      cbn [trav]. split; [apply in_or_app; right; left; reflexivity | reflexivity].
    + rewrite coords_step_lookup by exact Hne. intros Hk.
      destruct (IH k nd Hk) as [Hin Hid]. split; [apply in_or_app; left; exact Hin | exact Hid].
Qed.

Lemma fold_coords_step_root (rest : list traversed_node) :
  forall m,
    Forall (fun x => full_tree_id (coords x) <> 0) rest ->
    fold_left coords_step rest m !! 0 = m !! 0.
Proof.
  induction rest as [|x rest IH]; intros m Hall; [reflexivity|]. cbn [fold_left].
  rewrite IH by exact (Forall_inv_tail Hall).
  apply coords_step_lookup. pose proof (Forall_inv Hall) as Hx. cbv beta in Hx. congruence.
Qed.

(** The root is the entry 0, without a parent. *)
Lemma coords_to_id_root (t : Node) :
  coords_to_id (traverse t [0]) !! 0 = Some {| trav := describe [0] t; parent_id := -1 |}.
Proof.
  rewrite coords_to_id_fold, traverse_eq. cbn [fold_left].
  rewrite fold_coords_step_root.
  - unfold coords_step. cbv zeta. cbn [describe coords].
    change (full_tree_id [0]) with 0. rewrite lookup_insert_eq. reflexivity.
  - apply List.Forall_forall. intros x Hx.
    apply traverse_children_prefix in Hx as (j & path & _ & ->); [|lia].
    pose proof (full_tree_id_below_root [0] j path ltac:(discriminate)). lia.
Qed.

Lemma mapM_In {A B : Type} (f : A -> res B) (l : list A) :
  forall bs, mapM f l = Ok bs ->
    (forall b, In b bs -> exists a, In a l /\ f a = Ok b)
    /\ (forall a, In a l -> exists b, In b bs /\ f a = Ok b).
Proof.
  induction l as [|a l IH]; intros bs; cbn [mapM].
  - intros [= <-]. split; intros x [].
  - destruct (f a) as [b|e] eqn:Ef; cbn [bind]; [|discriminate].
    destruct (mapM f l) as [bs'|e]; cbn [bind]; [|discriminate].
    intros [= <-]. destruct (IH bs' eq_refl) as [IH1 IH2]. split.
    + intros b0 [<- | Hb]; [exists a; split; [left; reflexivity | exact Ef]|].
      destruct (IH1 b0 Hb) as (a0 & Ha0 & Hf). exists a0. split; [right; exact Ha0 | exact Hf].
    + intros a0 [<- | Ha]; [exists b; split; [left; reflexivity | exact Ef]|].
      destruct (IH2 a0 Ha) as (b0 & Hb0 & Hf). exists b0. split; [right; exact Hb0 | exact Hf].
Qed.

Lemma mapM_map {A B C : Type} (f : A -> res B) (g : B -> C) (h : A -> C) (l : list A) :
  (forall a b, f a = Ok b -> g b = h a) ->
  forall bs, mapM f l = Ok bs -> map g bs = map h l.
Proof.
  intros Hgh. induction l as [|a l IH]; intros bs; cbn [mapM].
  - intros [= <-]. reflexivity.
  - destruct (f a) as [b|e] eqn:Ef; cbn [bind]; [|discriminate].
    destruct (mapM f l) as [bs'|e]; cbn [bind]; [|discriminate].
    intros [= <-]. cbn [map]. rewrite (Hgh a b Ef), (IH bs' eq_refl). reflexivity.
Qed.

Section TreeNodes.
Context `{H : Helpers} `{N : Numeric}.

Lemma add_noise_sep_all_reachable (t0 : Node) (pairs : list (bounds_t * bounds_t))
    (thres : float) :
  (forall bl br, In (bl, br) pairs ->
                 ordered_pair bl br /\ fst (bounds t0) <= fst bl /\ snd br <= snd (bounds t0)) ->
  forall t t',
    reachable inside_call t0 t -> bounds t = bounds t0 ->
    add_noise_sep_all t pairs thres = Ok t' ->
    reachable inside_call t0 t' /\ bounds t' = bounds t0.
Proof.
  induction pairs as [|[bl br] pairs IH]; intros Hin t t' Hreach Hb; cbn [add_noise_sep_all].
  - intros [= <-]. split; assumption.
  - cbn [fst snd].
    destruct (add_noise_sep t bl br thres) as [t1 [[]|e]] eqn:Ecall; [|discriminate].
    assert (Et1 : t1 = fst (run_call t (call_add_noise_sep bl br thres)))
      by (cbn [run_call]; rewrite Ecall; reflexivity).
    apply IH.
    + intros bl' br' Hin'. apply Hin. right. exact Hin'.
    + rewrite Et1. apply reachable_call; [exact Hreach|].
      destruct (Hin bl br ltac:(left; reflexivity)) as ((H1 & H2 & H3) & H4 & H5).
      cbn [inside_call]. repeat split; try assumption.
      unfold fits_pair. rewrite Hb. apply andb_true_intro. rewrite !Z.leb_le. lia.
    + rewrite Et1, run_call_bounds. exact Hb.
Qed.

Lemma add_min_all_reachable (t0 : Node) (minima : list (Z * float)) (limit : float) :
  forall t t',
    reachable inside_call t0 t ->
    add_min_all t minima limit = Ok t' ->
    reachable inside_call t0 t'.
Proof.
  induction minima as [|m minima IH]; intros t t' Hreach; cbn [add_min_all].
  - intros [= <-]. exact Hreach.
  - destruct (limit <? snd m)%float; [|apply IH; exact Hreach].
    destruct (add_min t (fst m) (snd m) false) as [t1 [[]|e]] eqn:Ecall; [|discriminate].
    apply IH.
    replace t1 with (fst (run_call t (call_add_min (fst m) (snd m) false)))
      by (cbn [run_call]; rewrite Ecall; reflexivity).
    apply reachable_call; [exact Hreach | exact I].
Qed.

Lemma hull_get (peak_ind : list bounds_t) :
  peak_ind <> [] ->
  exists first last_,
    py_get peak_ind 0 = Ok first /\ py_get peak_ind (-1) = Ok last_
    /\ (fst first, snd last_) = hull peak_ind.
Proof.
  intros Hne. exists (hd (0, 0) peak_ind), (List.last peak_ind (0, 0)).
  split; [apply py_get_hd, Hne|]. split; [apply py_get_last_elem, Hne | reflexivity].
Qed.

(** The tree that [tree_from_spectrum] traverses. *)
Lemma tree_from_spectrum_inv (s : Spectrum) (tree : gmap Z tree_node) :
  tree_from_spectrum s = Ok tree ->
  tree = ∅ \/
  exists runs t0 t entries,
    PeakDetect.detect_peak_simple (fill_with (specZ s) (specZ_mask s) 0%float) (noise_thres s)
    = Ok runs
    /\ PeakDetect.width_filter runs <> []
    /\ 0 <= fst (hull (PeakDetect.width_filter runs))
    /\ fst (hull (PeakDetect.width_filter runs)) < snd (hull (PeakDetect.width_filter runs))
    /\ snd (hull (PeakDetect.width_filter runs)) < len (specZ s)
    /\ t0 = Node_init (hull (PeakDetect.width_filter runs))
              (chunk (specZ s) (hull (PeakDetect.width_filter runs))) (noise_thres s) true 0
    /\ reachable inside_call t0 t
    /\ mapM (fun kv : Z * id_node =>
               mo <- (if polarimetric s
                      then calc_moments s (t_bounds (trav (snd kv))) (thres (trav (snd kv)))
                      else calc_moments_wo_LDR s (t_bounds (trav (snd kv)))
                             (thres (trav (snd kv)))) ;;
               Ok (fst kv, {| node := snd kv; mom := fst mo |}))
         (map_to_list (coords_to_id (traverse t [0]))) = Ok entries
    /\ tree = list_to_map entries.
Proof.
  unfold tree_from_spectrum. cbv zeta.
  destruct (detected_peaks (fill_with (specZ s) (specZ_mask s) 0%float) (noise_thres s))
    as (runs & Hruns & Hasc & Hrange).
  rewrite Hruns. cbn [bind].
  destruct (PeakDetect.width_filter runs) as [|p ps] eqn:Hpeaks.
  { intros [= <-]. left. reflexivity. }
  intros Htree. right.
  assert (Hne : p :: ps <> []) by discriminate.
  replace (len (p :: ps) =? 0) with false in Htree
    by (symmetry; apply Z.eqb_neq; unfold len; simpl; lia).
  destruct (hull_get (p :: ps) Hne) as (first & last_ & Hf & Hl & Hhull).
  rewrite Hf, Hl in Htree. cbn [bind] in Htree. rewrite Hhull in Htree.
  set (t0 := Node_init (hull (p :: ps)) (chunk (specZ s) (hull (p :: ps)))
               (noise_thres s) true 0) in *.
  destruct (peak_pairs_to_call_yields (length (p :: ps)) (p :: ps)) as (pairs & Hpairs & _);
    [lia | unfold len; simpl; lia | exact Hasc|].
  pose proof (peak_pairs_inside (length (p :: ps)) (p :: ps) ltac:(lia)
                ltac:(unfold len; simpl; lia) Hasc) as Hinside.
  rewrite Hpairs in Htree, Hinside. cbn [fst snd] in Htree, Hinside.
  destruct (add_noise_sep_all t0 pairs (noise_thres s)) as [t1|e] eqn:Hsep;
    [|discriminate].
  cbn [bind] in Htree.
  destruct (add_noise_sep_all_reachable t0 pairs (noise_thres s) Hinside t0 t1
              (reachable_start _ _) eq_refl Hsep) as [Hr1 _].
  destruct (PeakDetect.get_minima _) as [minima|e] eqn:Hmin; [|discriminate].
  cbn [bind] in Htree.
  destruct (add_min_all t1 minima _) as [t2|e] eqn:Hadd; [|discriminate].
  cbn [bind] in Htree.
  pose proof (add_min_all_reachable t0 minima _ t1 t2 Hr1 Hadd) as Hr2.
  destruct (mapM _ (map_to_list (coords_to_id (traverse t2 [0])))) as [entries|e] eqn:Hent;
    [|discriminate].
  cbn [bind] in Htree. injection Htree as <-.
  assert (Hh : 0 <= fst (hull (p :: ps)) /\ fst (hull (p :: ps)) < snd (hull (p :: ps))
               /\ snd (hull (p :: ps)) < len (specZ s)).
  { destruct (ascending_hull (p :: ps) Hasc Hne) as [_ Hin].
    pose proof (Forall_inv Hin) as Hp. pose proof (Forall_inv Hrange) as Hp0.
    cbv beta in Hp, Hp0.
    assert (Hlast : In (List.last (p :: ps) (0, 0)) (p :: ps)).
    { destruct (exists_last Hne) as (l' & x & ->). rewrite last_last.
      apply in_or_app. right. left. reflexivity. }
    rewrite List.Forall_forall in Hrange. specialize (Hrange _ Hlast). cbv beta in Hrange.
    unfold fill_with in Hrange. unfold len in Hrange. rewrite set_where_length in Hrange.
    fold (len (specZ s)) in Hrange.
    unfold hull in *. cbn [fst snd hd] in *. lia. }
  exists runs, t0, t2, entries. rewrite Hpeaks.
  destruct Hh as (Hh1 & Hh2 & Hh3). repeat split; try assumption; reflexivity.
Qed.

End TreeNodes.

Section TreeNodes2.
Context `{H : Helpers} `{N : Numeric}.

(** X12 (tree_from_spectrum): when tree_from_spectrum returns a tree that
    is not empty, the tree has a root under the key 0, with the parent id
    -1, the coordinate [[0]], the noise threshold of the spectrum and, as
    bounds, the left edge of the first and the right edge of the last
    detected peak wider than one bin.  Every node is stored under the
    level-order id of its coordinate, and its bounds are ordered, lie
    inside the bounds of the root and inside the spectrum. *)
Theorem tree_from_spectrum_nodes (s : Spectrum) (tree : gmap Z tree_node) (k : Z)
    (nd : tree_node) :
  tree_from_spectrum s = Ok tree ->
  tree !! k = Some nd ->
  exists root runs,
    tree !! 0 = Some root
    /\ parent_id (node root) = -1
    /\ coords (trav (node root)) = [0]
    /\ thres (trav (node root)) = noise_thres s
    /\ PeakDetect.detect_peak_simple (fill_with (specZ s) (specZ_mask s) 0%float)
         (noise_thres s) = Ok runs
    /\ t_bounds (trav (node root)) = hull (PeakDetect.width_filter runs)
    /\ k = full_tree_id (coords (trav (node nd)))
    /\ 0 <= fst (t_bounds (trav (node root))) <= fst (t_bounds (trav (node nd)))
    /\ fst (t_bounds (trav (node nd))) <= snd (t_bounds (trav (node nd)))
    /\ snd (t_bounds (trav (node nd))) <= snd (t_bounds (trav (node root))) < len (specZ s).
Proof.
  intros Htree Hk.
  destruct (tree_from_spectrum_inv s tree Htree)
    as [-> | (runs & t0 & t & entries & Hruns & Hne & Hh1 & Hh2 & Hh3 & Ht0 & Hreach & Hent & ->)].
  { rewrite lookup_empty in Hk. discriminate. }
  set (peaks := PeakDetect.width_filter runs) in *.
  set (ids := coords_to_id (traverse t [0])) in *.
  destruct (mapM_In _ _ _ Hent) as [Hback Hforth].
  assert (Hkeys : map fst entries = map fst (map_to_list ids)).
  { apply (mapM_map _ fst fst _) with (2 := Hent). intros kv b Hb.
    destruct (if polarimetric s then _ else _) as [mo|e]; cbn [bind] in Hb; [|discriminate].
    injection Hb as <-. reflexivity. }
  assert (Hnd : NoDup (map fst entries)).
  { rewrite Hkeys. apply NoDup_fst_map_to_list. }
  assert (Hentry : forall k' v, list_to_map (M := gmap Z tree_node) entries !! k' = Some v ->
                     ids !! k' = Some (node v)).
  { intros k' v Hv. apply elem_of_list_to_map_2, list_elem_of_In in Hv.
    destruct (Hback _ Hv) as ([k0 idn] & Hin & Hf). cbn [fst snd] in Hf.
    destruct (if polarimetric s then _ else _) as [mo|e]; cbn [bind] in Hf; [|discriminate].
    injection Hf as <- <-. cbn [node].
    apply elem_of_map_to_list, list_elem_of_In. exact Hin. }
  assert (Hthere : forall k' idn, ids !! k' = Some idn ->
                     exists v, list_to_map (M := gmap Z tree_node) entries !! k' = Some v
                               /\ node v = idn).
  { intros k' idn Hid. apply elem_of_map_to_list, list_elem_of_In in Hid.
    destruct (Hforth _ Hid) as (b & Hb & Hf). cbn [fst snd] in Hf.
    destruct (if polarimetric s then _ else _) as [mo|e]; cbn [bind] in Hf; [|discriminate].
    injection Hf as <-. exists {| node := idn; mom := fst mo |}. split; [|reflexivity].
    apply elem_of_list_to_map_1; [exact Hnd|]. apply list_elem_of_In. exact Hb. }
  (* the invariant of the tree *)
  assert (Hb0 : bounds t0 = hull peaks) by (rewrite Ht0; reflexivity).
  destruct (reachable_holds_chunk (specZ s) t0 t) as [Hbt Hall]; try assumption.
  { rewrite Hb0. lia. }
  { rewrite Hb0. exact Hh3. }
  { rewrite Ht0. apply all_nodes_leaf; [reflexivity|].
    unfold holds_chunk. cbn [Node_init spec bounds]. repeat split; lia. }
  (* the root *)
  destruct (Hthere 0 _ (coords_to_id_root t)) as (root & Hroot & Hnroot).
  exists root, runs. rewrite Hnroot. cbn [trav parent_id describe coords thres t_bounds].
  split; [exact Hroot|]. split; [reflexivity|]. split; [reflexivity|].
  split.
  { assert (Hth : threshold t = threshold t0).
    { clear -Hreach. induction Hreach as [|t c Hreach IH _]; [reflexivity|].
      destruct (run_call_step t c) as (b1 & b2 & Hstep).
      rewrite (ins_step_threshold _ _ _ _ _ Hstep). exact IH. }
    rewrite Hth, Ht0. reflexivity. }
  split; [exact Hruns|]. rewrite Hbt, Hb0. split; [reflexivity|].
  (* the node *)
  pose proof (Hentry k nd Hk) as Hid.
  destruct (coords_to_id_values _ _ _ Hid) as [Hin Hkid].
  split; [exact Hkid|].
  apply traverse_In in Hin as (path & n & Hn & Hdesc).
  pose proof (node_at_all_nodes _ path t n Hall Hn) as Hhn.
  apply all_nodes_inv in Hhn as [(_ & H1 & H2 & H3) _].
  rewrite Hdesc. cbn [describe t_bounds]. rewrite Hb0 in H1, H3. lia.
Qed.

End TreeNodes2.

(** ** Strict and weak order of floats *)

Lemma SFltb_not_nan (a b : spec_float) :
  SFltb a b = true -> a <> S754_nan /\ b <> S754_nan.
Proof.
  destruct a as [[]|[]| |[] ma ea], b as [[]|[]| |[] mb eb]; try discriminate;
    intros _; split; discriminate.
Qed.

Lemma SFltb_leb (a b : spec_float) : SFltb a b = true -> SFleb a b = true.
Proof.
  unfold SFltb, SFleb. destruct (SFcompare a b) as [[]|]; try discriminate; reflexivity.
Qed.

Lemma SFltb_false_leb (a b : spec_float) :
  a <> S754_nan -> b <> S754_nan -> SFltb a b = false -> SFleb b a = true.
Proof.
  destruct a as [[]|[]| |[] ma ea], b as [[]|[]| |[] mb eb]; intros Ha Hb;
    try congruence; try reflexivity; try discriminate;
    unfold SFltb, SFleb, SFcompare;
    change (Pos.compare_cont Eq ma mb) with (Pos.compare ma mb);
    change (Pos.compare_cont Eq mb ma) with (Pos.compare mb ma);
    rewrite (Z.compare_antisym ea eb), (Pos.compare_antisym ma mb);
    destruct (ea ?= eb)%Z; simpl; try discriminate; try reflexivity;
    destruct (ma ?= mb)%positive; simpl; try discriminate; reflexivity.
Qed.

Lemma SFleb_ltb_false (a b : spec_float) : SFleb a b = true -> SFltb b a = false.
Proof.
  destruct a as [[]|[]| |[] ma ea], b as [[]|[]| |[] mb eb];
    try reflexivity; try discriminate;
    unfold SFltb, SFleb, SFcompare;
    change (Pos.compare_cont Eq ma mb) with (Pos.compare ma mb);
    change (Pos.compare_cont Eq mb ma) with (Pos.compare mb ma);
    rewrite (Z.compare_antisym ea eb), (Pos.compare_antisym ma mb);
    destruct (ea ?= eb)%Z; simpl; try discriminate; try reflexivity;
    destruct (ma ?= mb)%positive; simpl; try discriminate; reflexivity.
Qed.

Section FloatOrder2.
#[local] Open Scope float_scope.

Lemma ltb_not_nan (x y : float) :
  (x <? y) = true -> np_isnan x = false /\ np_isnan y = false.
Proof.
  rewrite FloatAxioms.ltb_spec. intros Hlt. apply SFltb_not_nan in Hlt as [Hx Hy].
  split; apply np_isnan_false; assumption.
Qed.

Lemma ltb_leb (x y : float) : (x <? y) = true -> (x <=? y) = true.
Proof. rewrite FloatAxioms.ltb_spec, FloatAxioms.leb_spec. apply SFltb_leb. Qed.

Lemma ltb_false_leb (x y : float) :
  np_isnan x = false -> np_isnan y = false -> (x <? y) = false -> (y <=? x) = true.
Proof.
  intros Hx Hy. apply np_isnan_false in Hx, Hy.
  rewrite FloatAxioms.ltb_spec, FloatAxioms.leb_spec. apply SFltb_false_leb; assumption.
Qed.

Lemma leb_ltb_false (x y : float) : (x <=? y) = true -> (y <? x) = false.
Proof. rewrite FloatAxioms.ltb_spec, FloatAxioms.leb_spec. apply SFleb_ltb_false. Qed.

Lemma np_isnan_nan (x : float) : np_isnan x = true -> x = nan.
Proof.
  intros Hx. destruct (Prim2SF x) eqn:E;
    try (assert (Hn : np_isnan x = false) by (apply np_isnan_false; rewrite E; discriminate);
         congruence).
  rewrite <- (FloatAxioms.SF2Prim_Prim2SF x), E. reflexivity.
Qed.

(** A float is NaN, below zero, above zero or a zero. *)
Lemma compare_zero (d : float) :
  (np_isnan d = true /\ (d <? 0) = false /\ (0 <? d) = false /\ (d =? 0) = false)
  \/ (np_isnan d = false /\ (d <? 0) = true /\ (0 <? d) = false /\ (d =? 0) = false)
  \/ (np_isnan d = false /\ (d <? 0) = false /\ (0 <? d) = true /\ (d =? 0) = false)
  \/ (np_isnan d = false /\ (d <? 0) = false /\ (0 <? d) = false /\ (d =? 0) = true).
Proof.
  rewrite !FloatAxioms.ltb_spec, FloatAxioms.eqb_spec.
  change (Prim2SF 0) with (S754_zero false).
  destruct (Prim2SF d) as [[]|[]| |[] m e] eqn:E.
  all: try (assert (Hn : np_isnan d = false) by (apply np_isnan_false; rewrite E; discriminate);
            rewrite Hn).
  all: try (right; right; right; repeat split; reflexivity).
  all: try (right; left; repeat split; reflexivity).
  all: try (right; right; left; repeat split; reflexivity).
  left. split; [|repeat split; reflexivity].
  destruct (np_isnan d) eqn:Hn; [reflexivity|].
  apply np_isnan_false in Hn. congruence.
Qed.

Lemma sign_diff_2 (d0 d1 : float) :
  (np_sign d1 - np_sign d0 =? 2) = (d0 <? 0) && (0 <? d1).
Proof.
  unfold np_sign.
  destruct (compare_zero d0) as [(N0 & L0 & G0 & Z0) | [(N0 & L0 & G0 & Z0)
    | [(N0 & L0 & G0 & Z0) | (N0 & L0 & G0 & Z0)]]];
  destruct (compare_zero d1) as [(N1 & L1 & G1 & Z1) | [(N1 & L1 & G1 & Z1)
    | [(N1 & L1 & G1 & Z1) | (N1 & L1 & G1 & Z1)]]];
  rewrite N0, N1, ?L0, ?L1, ?G0, ?G1;
  try (apply np_isnan_nan in N0; subst d0);
  try (apply np_isnan_nan in N1; subst d1);
  vm_compute; reflexivity.
Qed.

Lemma sign_diff_1 (d0 d1 : float) :
  (np_sign d1 - np_sign d0 =? 1)
  = ((d0 <? 0) && (d1 =? 0)) || ((d0 =? 0) && (0 <? d1)).
Proof.
  unfold np_sign.
  destruct (compare_zero d0) as [(N0 & L0 & G0 & Z0) | [(N0 & L0 & G0 & Z0)
    | [(N0 & L0 & G0 & Z0) | (N0 & L0 & G0 & Z0)]]];
  destruct (compare_zero d1) as [(N1 & L1 & G1 & Z1) | [(N1 & L1 & G1 & Z1)
    | [(N1 & L1 & G1 & Z1) | (N1 & L1 & G1 & Z1)]]];
  rewrite N0, N1, ?L0, ?L1, ?G0, ?G1, ?Z0, ?Z1;
  try (apply np_isnan_nan in N0; subst d0);
  try (apply np_isnan_nan in N1; subst d1);
  vm_compute; reflexivity.
Qed.

End FloatOrder2.

(** ** The minima of an array *)

Lemma nth_error_combine {A B : Type} (l1 : list A) (l2 : list B) (k : nat) :
  nth_error (combine l1 l2) k
  = match nth_error l1 k, nth_error l2 k with
    | Some a, Some b => Some (a, b)
    | _, _ => None
    end.
Proof.
  revert l2 k. induction l1 as [|a l1 IH]; intros l2 k.
  - destruct k; reflexivity.
  - destruct l2 as [|b l2].
    + destruct k; cbn [combine nth_error]; [reflexivity|]. destruct (nth_error l1 k); reflexivity.
    + destruct k; cbn [combine nth_error]; [reflexivity | apply IH].
Qed.

Lemma nth_error_tl {A : Type} (l : list A) (k : nat) : nth_error (tl l) k = nth_error l (S k).
Proof. destruct l; [destruct k; reflexivity | reflexivity]. Qed.

Lemma nth_error_removelast {A : Type} (l : list A) (k : nat) :
  nth_error (removelast l) k = if (S k <? length l)%nat then nth_error l k else None.
Proof.
  destruct l as [|x l] using rev_ind; [destruct k; reflexivity|]. clear IHl.
  rewrite removelast_last, length_app. cbn [length].
  destruct (S k <? length l + 1)%nat eqn:E.
  - apply Nat.ltb_lt in E. rewrite nth_error_app1 by lia. reflexivity.
  - apply Nat.ltb_ge in E. apply nth_error_None. lia.
Qed.

Lemma nth_error_zip_or (a b : list bool) (k : nat) :
  nth_error (PeakDetect.zip_or a b) k
  = match nth_error a k with
    | Some x => Some (x || match nth_error b k with Some y => y | None => false end)
    | None => None
    end.
Proof.
  revert b k. induction a as [|x a IH]; intros b k.
  - destruct k; reflexivity.
  - destruct b as [|y b].
    + cbn [PeakDetect.zip_or]. destruct (nth_error (x :: a) k) eqn:E; [|reflexivity].
      destruct k; cbn [nth_error]; rewrite orb_false_r; reflexivity.
    + destruct k; cbn [PeakDetect.zip_or nth_error]; [reflexivity | apply IH].
Qed.

Lemma nth_error_np_diff (a : list float) (k : nat) :
  nth_error (np_diff a) k
  = match nth_error a k, nth_error a (S k) with
    | Some x, Some y => Some (y - x)%float
    | _, _ => None
    end.
Proof.
  unfold np_diff, zip_next. rewrite nth_error_map, nth_error_combine, nth_error_tl.
  destruct (nth_error a k), (nth_error a (S k)); reflexivity.
Qed.

(** The sign of the difference of the bins [k] and [k + 1]. *)
Lemma nth_error_signs (a : list float) (k : nat) :
  nth_error (map np_sign (np_diff a)) k
  = match nth_error a k, nth_error a (S k) with
    | Some x, Some y => Some (np_sign (y - x))
    | _, _ => None
    end.
Proof.
  rewrite nth_error_map, nth_error_np_diff.
  destruct (nth_error a k), (nth_error a (S k)); reflexivity.
Qed.

Lemma nth_error_later {A : Type} (l : list A) (j k : nat) (x : A) :
  nth_error l k = Some x -> (j <= k)%nat -> exists y, nth_error l j = Some y.
Proof.
  intros Hk Hj. destruct (nth_error l j) as [y|] eqn:E; [eauto|].
  apply nth_error_None in E.
  assert (k < length l)%nat by (apply nth_error_Some; congruence). lia.
Qed.

Lemma nth_error_length_None {A : Type} (l : list A) (j k : nat) :
  nth_error l j = None -> (j <= k)%nat -> nth_error l k = None.
Proof. intros Hj Hk. apply nth_error_None in Hj. apply nth_error_None. lia. Qed.

Lemma get_minima_eq (array : list float) :
  PeakDetect.get_minima array
  = (minima <- minima_in_order array ;; Ok (PeakDetect.sorted_by_value minima)).
Proof. reflexivity. Qed.

Lemma nth_error_sdiff (a : list float) (j : nat) :
  nth_error (np_diff (map np_sign (np_diff a))) j
  = match nth_error a j, nth_error a (S j), nth_error a (S (S j)) with
    | Some x, Some v, Some z => Some (np_sign (z - v) - np_sign (v - x))%float
    | _, _, _ => None
    end.
Proof.
  rewrite nth_error_np_diff, !nth_error_signs.
  destruct (nth_error a j), (nth_error a (S j)), (nth_error a (S (S j))); reflexivity.
Qed.

Lemma falls_stays_exclusive (x v : float) : falls x v = true -> stays x v = true -> False.
Proof.
  unfold falls, stays. intros Hf Hs.
  destruct (compare_zero (v - x)) as [(_ & L & _ & Z0) | [(_ & L & _ & Z0)
    | [(_ & L & _ & Z0) | (_ & L & _ & Z0)]]]; congruence.
Qed.

Lemma rises_stays_exclusive (x v : float) : rises x v = true -> stays x v = true -> False.
Proof.
  unfold rises, stays. intros Hf Hs.
  destruct (compare_zero (v - x)) as [(_ & _ & G & Z0) | [(_ & _ & G & Z0)
    | [(_ & _ & G & Z0) | (_ & _ & G & Z0)]]]; congruence.
Qed.

(** Two steps of one of the signs of the differences, over three bins. *)
Lemma two_steps (w x v z : float) :
  ((np_sign (v - x) - np_sign (x - w) =? 1) && (np_sign (z - v) - np_sign (v - x) =? 1))%float
  = falls w x && stays x v && rises v z.
Proof.
  rewrite !sign_diff_1. fold (falls w x) (stays w x) (stays x v) (rises x v)
    (falls x v) (stays v z) (rises v z).
  destruct (falls w x) eqn:F1, (stays x v) eqn:S2, (rises v z) eqn:R3,
    (stays w x) eqn:S1, (rises x v) eqn:R2, (falls x v) eqn:F2, (stays v z) eqn:S3;
    try reflexivity; exfalso;
    try (exact (falls_stays_exclusive _ _ F2 S2));
    try (exact (rises_stays_exclusive _ _ R2 S2));
    try (exact (falls_stays_exclusive _ _ F1 S1)).
  all: unfold falls, rises in *;
    destruct (compare_zero (v - x)) as [(_ & L & G & _) | [(_ & L & G & _)
      | [(_ & L & G & _) | (_ & L & G & _)]]]; congruence.
Qed.

Lemma rising_all_nth (a : list float) (j : nat) :
  nth_error (rising_all a) j
  = match nth_error a j, nth_error a (S j), nth_error a (S (S j)) with
    | Some x, Some v, Some z =>
        Some ((falls x v && rises v z)
              || match j with
                 | O => false
                 | S k => match nth_error a k with
                          | Some w => falls w x && stays x v && rises v z
                          | None => false
                          end
                 end)
    | _, _, _ => None
    end.
Proof.
  unfold rising_all. cbv zeta.
  set (sdiff := np_diff (map np_sign (np_diff a))).
  assert (Hs : forall k, nth_error sdiff k
               = match nth_error a k, nth_error a (S k), nth_error a (S (S k)) with
                 | Some x, Some v, Some z => Some (np_sign (z - v) - np_sign (v - x))%float
                 | _, _, _ => None
                 end) by (intros k; apply nth_error_sdiff).
  assert (H1 : forall k, nth_error (map (fun d => (d =? 2)%float) sdiff) k
               = match nth_error a k, nth_error a (S k), nth_error a (S (S k)) with
                 | Some x, Some v, Some z => Some (falls x v && rises v z)
                 | _, _, _ => None
                 end).
  { intros k. rewrite nth_error_map, Hs.
    destruct (nth_error a k), (nth_error a (S k)), (nth_error a (S (S k))); try reflexivity.
    cbn [option_map]. rewrite sign_diff_2. reflexivity. }
  destruct (map (fun d => (d =? 2)%float) sdiff) as [|b rest] eqn:E1.
  { pose proof (H1 O) as H10. change (nth_error (@nil bool) 0) with (@None bool) in H10.
    destruct (nth_error a 0) eqn:A0; [destruct (nth_error a 1) eqn:A1;
      [destruct (nth_error a 2) eqn:A2; [discriminate|]|]|].
    - rewrite nth_error_nil.
      destruct j as [|j]; [rewrite ?A0, ?A1, ?A2; reflexivity|].
      rewrite (nth_error_length_None a 2 (S (S (S j))) A2) by lia.
      destruct (nth_error a (S j)), (nth_error a (S (S j))); reflexivity.
    - rewrite nth_error_nil.
      destruct j as [|j]; [rewrite ?A0, ?A1; reflexivity|].
      rewrite (nth_error_length_None a 1 (S (S j)) A1) by lia.
      destruct (nth_error a (S j)); reflexivity.
    - rewrite nth_error_nil.
      destruct j as [|j]; [rewrite ?A0; reflexivity|].
      rewrite (nth_error_length_None a 0 (S j) A0) by lia. reflexivity. }
  destruct j as [|j].
  - pose proof (H1 O) as H10. change (nth_error (b :: rest) 0) with (Some b) in H10.
    change (nth_error (b :: PeakDetect.zip_or rest ?r) 0) with (Some b). rewrite H10.
    destruct (nth_error a 0), (nth_error a 1), (nth_error a 2); try reflexivity.
    rewrite orb_false_r. reflexivity.
  - change (nth_error (b :: PeakDetect.zip_or rest ?r) (S j))
      with (nth_error (PeakDetect.zip_or rest r) j).
    rewrite nth_error_zip_or.
    pose proof (H1 (S j)) as H1j.
    change (nth_error (b :: rest) (S j)) with (nth_error rest j) in H1j. rewrite H1j.
    destruct (nth_error a (S j)) as [x|] eqn:A1; [|reflexivity].
    destruct (nth_error a (S (S j))) as [v|] eqn:A2; [|reflexivity].
    destruct (nth_error a (S (S (S j)))) as [z|] eqn:A3; [|reflexivity].
    f_equal. f_equal.
    rewrite nth_error_map, nth_error_combine, py_slice_removelast, py_slice_tl.
    rewrite nth_error_removelast, nth_error_tl, !Hs, A1, A2, A3.
    destruct (nth_error_later a j (S j) x A1 ltac:(lia)) as [w A0]. rewrite A0.
    assert (Hlen : (S j <? length sdiff)%nat = true).
    { apply Nat.ltb_lt. apply nth_error_Some. rewrite Hs, A1, A2, A3. discriminate. }
    rewrite Hlen. cbn [option_map fst snd]. apply two_steps.
Qed.

Lemma mapM_total {A B : Type} (f : A -> res B) (l : list A) :
  (forall a, In a l -> exists b, f a = Ok b) -> exists bs, mapM f l = Ok bs.
Proof.
  induction l as [|a l IH]; intros Hall; cbn [mapM]; [eauto|].
  destruct (Hall a (or_introl eq_refl)) as [b ->].
  destruct IH as [bs ->]; [intros x Hx; apply Hall; right; exact Hx|]. cbn [bind]. eauto.
Qed.

Lemma bin_nth (a : list float) (k : nat) : bin a (Z.of_nat k) = nth_error a k.
Proof.
  unfold bin. destruct (Z.of_nat k <? 0) eqn:E; [apply Z.ltb_lt in E; lia|].
  rewrite Nat2Z.id. reflexivity.
Qed.

Lemma bin_Some (a : list float) (i : Z) (x : float) :
  bin a i = Some x -> 0 <= i /\ nth_error a (Z.to_nat i) = Some x.
Proof.
  unfold bin. destruct (i <? 0) eqn:E; [discriminate|]. apply Z.ltb_ge in E. auto.
Qed.

(** The mask [rising_all] holds at [j] when the bin [j + 1] is a minimum. *)
Lemma rising_all_minimum (a : list float) (j : nat) :
  nth_error (rising_all a) j = Some true
  <-> exists v, minimum_at a (Z.of_nat j + 1) v.
Proof.
  rewrite rising_all_nth. unfold minimum_at.
  replace (Z.of_nat j + 1 - 1) with (Z.of_nat j) by lia.
  replace (Z.of_nat j + 1) with (Z.of_nat (S j)) by lia.
  replace (Z.of_nat (S j) + 1) with (Z.of_nat (S (S j))) by lia.
  rewrite !bin_nth. split.
  - destruct (nth_error a j) as [x|]; [|discriminate].
    destruct (nth_error a (S j)) as [v|]; [|discriminate].
    destruct (nth_error a (S (S j))) as [z|]; [|discriminate].
    intros [= Hr]. exists v, x, z. repeat split.
    + apply orb_prop in Hr as [Hr | Hr].
      * apply andb_prop in Hr as [_ Hr]. exact Hr.
      * destruct j as [|k]; [discriminate|]. destruct (nth_error a k); [|discriminate].
        apply andb_prop in Hr as [_ Hr]. exact Hr.
    + apply orb_prop in Hr as [Hr | Hr].
      * apply andb_prop in Hr as [Hr _]. left. exact Hr.
      * right. destruct j as [|k]; [discriminate|].
        destruct (nth_error a k) as [w|] eqn:Hw; [|discriminate].
        apply andb_prop in Hr as [Hr _]. apply andb_prop in Hr as [Hf Hs].
        split; [exact Hs|]. exists w. split; [|exact Hf].
        replace (Z.of_nat (S (S k)) - 2) with (Z.of_nat k) by lia. rewrite bin_nth. exact Hw.
  - intros (v & x & z & -> & -> & -> & Hr & Hcase). f_equal. rewrite Hr.
    destruct Hcase as [Hf | (Hs & w & Hw & Hf)]; [rewrite Hf; reflexivity|].
    apply bin_Some in Hw as [Hpos Hw]. destruct j as [|k]; [lia|].
    replace (Z.to_nat (Z.of_nat (S (S k)) - 2)) with k in Hw by lia.
    rewrite Hw, Hf, Hs. apply orb_true_r.
Qed.

Lemma StronglySorted_map_inv {A B : Type} (R : B -> B -> Prop) (f : A -> B) (l : list A) :
  StronglySorted R (map f l) -> StronglySorted (fun p q => R (f p) (f q)) l.
Proof.
  induction l as [|a l IH]; cbn [map]; intros Hs; [constructor|].
  apply StronglySorted_inv in Hs as [Hs Ha]. constructor; [apply IH, Hs|].
  apply List.Forall_forall. intros x Hx. rewrite List.Forall_forall in Ha.
  apply Ha, in_map, Hx.
Qed.

Lemma StronglySorted_succ (l : list Z) :
  StronglySorted Z.lt l -> StronglySorted Z.lt (map (fun i => i + 1) l).
Proof.
  induction 1 as [|a l Hs IH Ha]; cbn [map]; constructor; [exact IH|].
  apply List.Forall_forall. intros x Hx. apply in_map_iff in Hx as (y & <- & Hy).
  rewrite List.Forall_forall in Ha. specialize (Ha y Hy). lia.
Qed.

(** The minima before sorting: one for each minimum of the array, in the
    order of the bins. *)
Lemma minima_in_order_spec (a : list float) :
  exists minima,
    minima_in_order a = Ok minima
    /\ StronglySorted (fun p q : Z * float => fst p < fst q) minima
    /\ forall i v, In (i, v) minima <-> minimum_at a i v.
Proof.
  unfold minima_in_order.
  set (f := fun i => v <- py_get a i ;; Ok (i, v)).
  set (min_ind := map (fun i => i + 1) (np_where (rising_all a))).
  assert (Hind : forall i, In i min_ind <-> exists v, minimum_at a i v).
  { intros i. unfold min_ind, np_where. rewrite in_map_iff. split.
    - intros (j & <- & Hj). apply where_from_spec in Hj as [Hj0 Hj].
      rewrite Z.sub_0_r in Hj. apply rising_all_minimum in Hj.
      rewrite Z2Nat.id in Hj by lia. exact Hj.
    - intros [v Hv]. exists (i - 1).
      assert (Hi : 1 <= i).
      { destruct Hv as (x & _ & Hx & _). apply bin_Some in Hx. lia. }
      split; [lia|]. apply where_from_spec. rewrite Z.sub_0_r. split; [lia|].
      apply rising_all_minimum. exists v.
      rewrite Z2Nat.id by lia. replace (i - 1 + 1) with i by lia. exact Hv. }
  assert (Hf : forall i v, f i = Ok (i, v) <-> py_get a i = Ok v).
  { intros i v. unfold f. destruct (py_get a i) as [v'|e]; cbn [bind].
    - split; intros [= ->]; reflexivity.
    - split; discriminate. }
  assert (Hget : forall i v, minimum_at a i v -> py_get a i = Ok v).
  { intros i v (x & z & _ & Hv & _). apply bin_Some in Hv as [Hi Hv].
    rewrite py_get_nonneg by exact Hi. rewrite <- nth_error_lookup, Hv. reflexivity. }
  destruct (mapM_total f min_ind) as [minima Hm].
  { intros i Hi. apply Hind in Hi as [v Hv]. exists (i, v). apply Hf, Hget, Hv. }
  exists minima. split; [exact Hm|].
  assert (Hfst : map fst minima = min_ind).
  { rewrite (mapM_map f fst (fun i => i) min_ind) with (bs := minima);
      [apply map_id | | exact Hm].
    intros i [i' v]. unfold f. destruct (py_get a i); cbn [bind]; [|discriminate].
    intros [= <- _]. reflexivity. }
  split.
  - apply (StronglySorted_map_inv Z.lt fst). rewrite Hfst.
    apply StronglySorted_succ, where_from_sorted.
  - destruct (mapM_In f min_ind minima Hm) as [Hback Hforth]. intros i v. split.
    + intros Hin. destruct (Hback _ Hin) as (i' & Hi' & Hfi).
      assert (i' = i) as ->.
      { unfold f in Hfi. destruct (py_get a i'); cbn [bind] in Hfi; [|discriminate].
        injection Hfi as -> _. reflexivity. }
      apply Hind in Hi' as [v' Hv']. apply Hf in Hfi.
      rewrite (Hget i v' Hv') in Hfi. injection Hfi as ->. exact Hv'.
    + intros Hv. destruct (Hforth i) as (b & Hb & Hfb); [apply Hind; eauto|].
      rewrite (proj2 (Hf i v) (Hget i v Hv)) in Hfb. injection Hfb as <-. exact Hb.
Qed.

Section Sorted.
#[local] Open Scope float_scope.

Lemma sub_nan_r (z v : float) : np_isnan v = true -> np_isnan (z - v) = true.
Proof.
  intros Hv. apply np_isnan_nan in Hv. subst v.
  destruct (np_isnan (z - nan)) eqn:E; [reflexivity|].
  apply np_isnan_false in E. exfalso. apply E.
  rewrite FloatAxioms.sub_spec. change (Prim2SF nan) with S754_nan.
  destruct (Prim2SF z) as [[]|[]| |[] m e]; reflexivity.
Qed.

Lemma minimum_not_nan (a : list float) (i : Z) (v : float) :
  minimum_at a i v -> np_isnan v = false.
Proof.
  intros (x & z & _ & _ & _ & Hr & _). unfold rises in Hr.
  apply ltb_not_nan in Hr as [_ Hr].
  destruct (np_isnan v) eqn:E; [|reflexivity].
  rewrite (sub_nan_r z v E) in Hr. discriminate.
Qed.

Lemma insert_by_value_perm (m : Z * float) (l : list (Z * float)) :
  Permutation (PeakDetect.insert_by_value m l) (m :: l).
Proof.
  induction l as [|m' l IH]; cbn [PeakDetect.insert_by_value]; [reflexivity|].
  destruct (snd m' <? snd m); [|reflexivity].
  rewrite IH. apply perm_swap.
Qed.

Lemma sorted_by_value_perm (l : list (Z * float)) :
  Permutation (PeakDetect.sorted_by_value l) l.
Proof.
  unfold PeakDetect.sorted_by_value.
  induction l as [|m l IH]; cbn [fold_right]; [reflexivity|].
  rewrite insert_by_value_perm, IH. reflexivity.
Qed.

Lemma insert_by_value_sorted (m : Z * float) (l : list (Z * float)) :
  np_isnan (snd m) = false ->
  Forall (fun q => np_isnan (snd q) = false /\ (fst m < fst q)%Z) l ->
  StronglySorted value_then_bin l ->
  StronglySorted value_then_bin (PeakDetect.insert_by_value m l).
Proof.
  intros Hm. induction l as [|m' l IH]; intros Hall Hs; cbn [PeakDetect.insert_by_value].
  - repeat constructor.
  - pose proof (Forall_inv Hall) as [Hn' Hi']. apply Forall_inv_tail in Hall.
    apply StronglySorted_inv in Hs as [Hs Hm'].
    destruct (snd m' <? snd m) eqn:E.
    + constructor; [apply IH; assumption|].
      apply List.Forall_forall. intros q Hq.
      apply (Permutation_in _ (insert_by_value_perm m l)) in Hq as [<- | Hq].
      * split; [apply ltb_leb, E|]. intros Hle. apply leb_ltb_false in Hle. congruence.
      * rewrite List.Forall_forall in Hm'. apply Hm', Hq.
    + pose proof (ltb_false_leb _ _ Hn' Hm E) as Hle.
      constructor; [constructor; assumption|].
      constructor; [split; [exact Hle | intros _; exact Hi']|].
      rewrite List.Forall_forall in Hm', Hall |- *. intros q Hq.
      destruct (Hm' q Hq) as [Hle' _]. destruct (Hall q Hq) as [_ Hiq].
      split; [exact (leb_trans _ _ _ Hle Hle') | intros _; exact Hiq].
Qed.

Lemma sorted_by_value_sorted (l : list (Z * float)) :
  Forall (fun q => np_isnan (snd q) = false) l ->
  StronglySorted (fun p q : Z * float => (fst p < fst q)%Z) l ->
  StronglySorted value_then_bin (PeakDetect.sorted_by_value l).
Proof.
  unfold PeakDetect.sorted_by_value.
  induction l as [|m l IH]; intros Hn Hs; cbn [fold_right]; [constructor|].
  apply StronglySorted_inv in Hs as [Hs Hm].
  pose proof (Forall_inv Hn) as Hnm. apply Forall_inv_tail in Hn.
  apply insert_by_value_sorted; [exact Hnm | | apply IH; assumption].
  rewrite List.Forall_forall in Hn, Hm |- *. intros q Hq.
  apply (Permutation_in _ (sorted_by_value_perm l)) in Hq. fold (PeakDetect.sorted_by_value l) in *.
  split; [apply Hn, Hq | apply Hm, Hq].
Qed.

End Sorted.

(** X11 (get_minima): get_minima raises no exception on any array.  It
    returns exactly the bins, with their values, into which the array falls
    and out of which it rises, and those that follow one level step after a
    fall and out of which the array rises; no bin is returned twice; and the
    result is ordered by value, minima of equal value by bin. *)
Theorem get_minima_minima (array : list float) :
  exists minima,
    PeakDetect.get_minima array = Ok minima
    /\ (forall i v, In (i, v) minima <-> minimum_at array i v)
    /\ NoDup (map fst minima)
    /\ StronglySorted value_then_bin minima.
Proof.
  rewrite get_minima_eq.
  destruct (minima_in_order_spec array) as (l & -> & Hsorted & Hmem). cbn [bind].
  eexists. split; [reflexivity|].
  pose proof (sorted_by_value_perm l) as Hperm. split; [|split].
  - intros i v. rewrite <- Hmem. split; apply Permutation_in; [exact Hperm|].
    symmetry. exact Hperm.
  - rewrite (Permutation_map fst Hperm).
    clear -Hsorted. induction Hsorted as [|p l Hs IH Hp]; cbn [map]; [constructor|].
    apply NoDup_cons. split; [|exact IH].
    intros Hin. apply list_elem_of_In, in_map_iff in Hin as (q & E & Hq).
    rewrite List.Forall_forall in Hp. specialize (Hp q Hq). lia.
  - apply sorted_by_value_sorted; [|exact Hsorted].
    apply List.Forall_forall. intros [i v] Hin. apply Hmem in Hin.
    exact (minimum_not_nan array i v Hin).
Qed.

(** ** The slots of a cell *)

Lemma np_set3_same {A : Type} (arr arr' : list (list (list A))) (it ir k : Z) (v : A) :
  0 <= it -> 0 <= ir -> 0 <= k ->
  np_set3 arr it ir k v = Ok arr' -> np_get3 arr' it ir k = Ok v.
Proof.
  intros H1 H2 H3 Hset. unfold np_set3 in Hset.
  apply bind_ok in Hset as (plane & Hplane & Hset).
  apply bind_ok in Hset as (plane' & Hplane' & Hset).
  unfold np_get3. rewrite (py_get_set_same _ _ _ _ H1 Hset). cbn [bind].
  apply (np_set2_same _ _ _ _ _ H2 H3 Hplane').
Qed.

Lemma np_set3_other_slot {A : Type} (arr arr' : list (list (list A))) (it ir k k' : Z)
    (v : A) :
  0 <= it -> 0 <= ir -> 0 <= k -> 0 <= k' -> k <> k' ->
  np_set3 arr it ir k v = Ok arr' -> np_get3 arr' it ir k' = np_get3 arr it ir k'.
Proof.
  intros H1 H2 H3 H4 Hne Hset. unfold np_set3 in Hset.
  apply bind_ok in Hset as (plane & Hplane & Hset).
  apply bind_ok in Hset as (plane' & Hplane' & Hset).
  unfold np_get3. rewrite (py_get_set_same _ _ _ _ H1 Hset), Hplane. cbn [bind].
  apply (np_set2_other _ _ ir k ir k' v); try assumption. congruence.
Qed.

Section Stored.
Context `{H : Helpers} `{N : Numeric}.

Lemma save_node_same (travtree : gmap Z tree_node) (it ir k : Z) (o o' : Output)
    (val : tree_node) :
  0 <= it -> 0 <= ir -> 0 <= k ->
  travtree !! k = Some val ->
  save_node travtree it ir o k = Ok o' ->
  slot_values o' it ir k = map Ok (node_values val) /\ out_no_nodes o' = out_no_nodes o.
Proof.
  intros H1 H2 H3 Hval. unfold save_node. rewrite Hval. intros Hs.
  repeat match type of Hs with
         | bind _ _ = Ok _ =>
             let a := fresh "arr" in
             let Ha := fresh "Harr" in
             apply bind_ok in Hs as (a & Ha & Hs);
             apply (np_set3_same _ _ _ _ _ _ H1 H2 H3) in Ha
         end.
  injection Hs as <-. split; [|reflexivity].
  unfold slot_values, per_slot_fields, node_values.
  cbn [map out_Z out_v out_width out_LDR out_skew
    out_bound_l out_bound_r out_parent out_thres out_ldrmax out_prominence].
  congruence.
Qed.

Lemma save_node_other_slot (travtree : gmap Z tree_node) (it ir k k' : Z) (o o' : Output) :
  0 <= it -> 0 <= ir -> 0 <= k -> 0 <= k' -> k <> k' ->
  save_node travtree it ir o k = Ok o' ->
  slot_values o' it ir k' = slot_values o it ir k' /\ out_no_nodes o' = out_no_nodes o.
Proof.
  intros H1 H2 H3 H4 Hne. unfold save_node.
  destruct (travtree !! k) as [val|]; [|intros [= <-]; split; reflexivity].
  intros Hs.
  repeat match type of Hs with
         | bind _ _ = Ok _ =>
             let a := fresh "arr" in
             let Ha := fresh "Harr" in
             apply bind_ok in Hs as (a & Ha & Hs);
             apply (np_set3_other_slot _ _ _ _ _ _ _ H1 H2 H3 H4 Hne) in Ha
         end.
  injection Hs as <-. split; [|reflexivity].
  unfold slot_values, per_slot_fields.
  cbn [map out_Z out_v out_width out_LDR out_skew
    out_bound_l out_bound_r out_parent out_thres out_ldrmax out_prominence].
  congruence.
Qed.

Lemma save_nodes_slots (travtree : gmap Z tree_node) (it ir : Z) (ks : list Z) :
  0 <= it -> 0 <= ir -> Forall (fun k => 0 <= k) ks -> NoDup ks ->
  forall o o',
    save_nodes travtree it ir o ks = Ok o' ->
    out_no_nodes o' = out_no_nodes o
    /\ (forall k val, In k ks -> travtree !! k = Some val ->
                      slot_values o' it ir k = map Ok (node_values val))
    /\ (forall k, 0 <= k -> ~ In k ks -> slot_values o' it ir k = slot_values o it ir k).
Proof.
  intros H1 H2. induction ks as [|k ks IH]; intros Hpos Hnd o o' Hs; cbn [save_nodes] in Hs.
  - injection Hs as <-. split; [reflexivity|]. split; [intros k val []|]. reflexivity.
  - apply bind_ok in Hs as (o1 & Ho1 & Hs).
    apply NoDup_cons in Hnd as [Hk Hnd].
    pose proof (Forall_inv Hpos) as Hk0. apply Forall_inv_tail in Hpos.
    destruct (IH Hpos Hnd _ _ Hs) as (Hn & Hin & Hout).
    split; [|split].
    + rewrite Hn. destruct (travtree !! k) as [val|] eqn:Hval.
      * exact (proj2 (save_node_same _ _ _ _ _ _ _ H1 H2 Hk0 Hval Ho1)).
      * unfold save_node in Ho1. rewrite Hval in Ho1. injection Ho1 as <-. reflexivity.
    + intros k' val [<- | Hk'] Hval.
      * rewrite Hout; [|exact Hk0 | intros Hc; apply Hk, list_elem_of_In, Hc].
        exact (proj1 (save_node_same _ _ _ _ _ _ _ H1 H2 Hk0 Hval Ho1)).
      * apply Hin; assumption.
    + intros k' Hk'0 Hk'. rewrite Hout; [|exact Hk'0 | intros Hc; apply Hk'; right; exact Hc].
      apply (save_node_other_slot travtree it ir k k' o o1 H1 H2 Hk0 Hk'0); [|exact Ho1].
      intros ->. apply Hk'. left. reflexivity.
Qed.

(** The pass of a cell stores the count and the nodes of its tree. *)
Lemma assemble_cell_slots (max_no_nodes it ir : Z) (travtree : gmap Z tree_node)
    (o o' : Output) :
  0 <= it -> 0 <= ir ->
  (forall k, is_Some (travtree !! k) -> 0 <= k) ->
  assemble_cell max_no_nodes it ir travtree o = Ok o' ->
  np_get2 (out_no_nodes o') it ir = Ok (float_of_int (Z.of_nat (size travtree)))
  /\ (forall k val,
        travtree !! k = Some val -> k < max_no_nodes ->
        slot_values o' it ir k = map Ok (node_values val))
  /\ (forall k,
        0 <= k -> travtree !! k = None \/ max_no_nodes <= k ->
        slot_values o' it ir k = slot_values o it ir k).
Proof.
  intros H1 H2 Hkeys. unfold assemble_cell. intros Ha.
  apply bind_ok in Ha as (nn & Hnn & Ha).
  set (ks := List.filter (fun i => i <? max_no_nodes) (map fst (map_to_list travtree))) in *.
  assert (Hks : forall k, In k ks <-> is_Some (travtree !! k) /\ k < max_no_nodes).
  { intros k. unfold ks. rewrite filter_In, Z.ltb_lt, in_map_iff. split.
    - intros [([k' val] & <- & Hin) Hlt]. split; [|exact Hlt].
      exists val. apply elem_of_map_to_list, list_elem_of_In. exact Hin.
    - intros [[val Hval] Hlt]. split; [|exact Hlt].
      exists (k, val). split; [reflexivity|].
      apply list_elem_of_In, elem_of_map_to_list. exact Hval. }
  destruct (save_nodes_slots travtree it ir ks H1 H2) with (3 := Ha) as (Hn & Hin & Hout).
  { apply List.Forall_forall. intros k Hk. apply Hkeys, Hks, Hk. }
  { unfold ks. apply NoDup_ListNoDup, List.NoDup_filter, NoDup_ListNoDup,
      NoDup_fst_map_to_list. }
  split; [|split].
  - rewrite Hn. cbn [out_no_nodes].
    replace (Z.of_nat (size travtree)) with (len (map fst (map_to_list travtree)))
      by (unfold len; rewrite length_map, length_map_to_list; reflexivity).
    apply (np_set2_same _ _ _ _ _ H1 H2 Hnn).
  - intros k val Hval Hlt. apply Hin; [|exact Hval]. apply Hks. split; [eauto | exact Hlt].
  - intros k Hk0 Hcase. rewrite Hout; [reflexivity | exact Hk0|].
    intros Hc. apply Hks in Hc as [[val Hval] Hlt]. destruct Hcase; [congruence | lia].
Qed.

(** X19 (assemble_time_height): when the tree of a cell, with ids that
    are not negative, is stored, the node count of the cell is the number
    of nodes of the tree, also of those that are not stored; for every node with an id below [max_no_nodes] the
    slot of that id holds the eleven values of the node in the eleven
    arrays (reflectivity, depolarization ratios, threshold and prominence
    in dB); and every other slot of the cell is left as it was. *)
Theorem assemble_cell_stores (max_no_nodes it ir : Z) (travtree : gmap Z tree_node)
    (o o' : Output) :
  0 <= it -> 0 <= ir ->
  (forall k, is_Some (travtree !! k) -> 0 <= k) ->
  assemble_cell max_no_nodes it ir travtree o = Ok o' ->
  np_get2 (out_no_nodes o') it ir = Ok (float_of_int (Z.of_nat (size travtree)))
  /\ (forall k val,
        travtree !! k = Some val -> k < max_no_nodes ->
        slot_values o' it ir k = map Ok (node_values val))
  /\ (forall k,
        0 <= k -> travtree !! k = None \/ max_no_nodes <= k ->
        slot_values o' it ir k = slot_values o it ir k).
Proof. apply assemble_cell_slots. Qed.

End Stored.

(** ** Moments without signal *)

Section ZeroWeights.
Context `{N : Numeric}.
#[local] Open Scope float_scope.

Lemma float_of_SF (x : float) (sf : spec_float) : Prim2SF x = sf -> x = SF2Prim sf.
Proof. intros <-. symmetry. apply FloatAxioms.SF2Prim_Prim2SF. Qed.

(** A float times zero is a zero or NaN. *)
Lemma mul_zero (x : float) : x * 0 = 0 \/ x * 0 = -0 \/ x * 0 = nan.
Proof.
  pose proof (FloatAxioms.mul_spec x 0) as Hm. change (Prim2SF 0) with (S754_zero false) in Hm.
  destruct (Prim2SF x) as [[]|[]| |[] m e]; cbn in Hm; apply float_of_SF in Hm;
    rewrite Hm; auto.
Qed.

Lemma nan_mul_zero (x : float) : np_isnan x = true -> x * 0 = nan.
Proof. intros Hx. apply np_isnan_nan in Hx. subst x. reflexivity. Qed.

Lemma sub_nan (x : float) : x - nan = nan.
Proof.
  pose proof (FloatAxioms.sub_spec x nan) as Hm. change (Prim2SF nan) with S754_nan in Hm.
  destruct (Prim2SF x) as [[]|[]| |[] m e]; cbn in Hm; apply float_of_SF in Hm; exact Hm.
Qed.

Lemma zero_mul (x : float) : 0 * x = 0 \/ 0 * x = -0 \/ 0 * x = nan.
Proof.
  pose proof (FloatAxioms.mul_spec 0 x) as Hm. change (Prim2SF 0) with (S754_zero false) in Hm.
  destruct (Prim2SF x) as [[]|[]| |[] m e]; cbn in Hm; apply float_of_SF in Hm;
    rewrite Hm; auto.
Qed.

(** A sum of zeros and NaNs is a zero or NaN, in whatever order they are
    added. *)
Lemma float_sum_zero_or_nan (l : list float) (s : float) :
  float_sum l s ->
  Forall (fun p => p = 0 \/ p = -0 \/ p = nan) l ->
  s = 0 \/ s = -0 \/ s = nan.
Proof.
  induction 1 as [|x|a b s t _ IHa _ IHb|a b s Hperm _ IH]; intros Hall.
  - auto.
  - exact (Forall_inv Hall).
  - apply Forall_app in Hall as [Ha Hb].
    destruct (IHa Ha) as [-> | [-> | ->]], (IHb Hb) as [-> | [-> | ->]]; auto.
  - apply IH. rewrite Hperm. exact Hall.
Qed.

Lemma float_sum_nans (l : list float) (s : float) :
  float_sum l s -> Forall (fun p => p = nan) l -> s = 0 \/ s = nan.
Proof.
  induction 1 as [|x|a b s t _ IHa _ IHb|a b s Hperm _ IH]; intros Hall.
  - auto.
  - right. exact (Forall_inv Hall).
  - apply Forall_app in Hall as [Ha Hb].
    destruct (IHa Ha) as [-> | ->], (IHb Hb) as [-> | ->]; auto.
  - apply IH. rewrite Hperm. exact Hall.
Qed.

Lemma mul2_zero (x Z : list float) :
  Forall (fun w => w = 0) Z -> Forall (fun p => p = 0 \/ p = -0 \/ p = nan) (mul2 x Z).
Proof.
  unfold mul2. revert x. induction Z as [|w Z IH]; intros x Hall.
  - destruct x; constructor.
  - destruct x as [|a x]; [constructor|]. cbn [combine map fst snd].
    constructor; [|apply IH; exact (Forall_inv_tail Hall)].
    rewrite (Forall_inv Hall). apply mul_zero.
Qed.

Lemma mul2_nan_zero (x Z : list float) :
  Forall (fun a => a = nan) x -> Forall (fun w => w = 0) Z ->
  Forall (fun p => p = nan) (mul2 x Z).
Proof.
  unfold mul2. revert x. induction Z as [|w Z IH]; intros x Hx HZ.
  - destruct x; constructor.
  - destruct x as [|a x]; [constructor|]. cbn [combine map fst snd].
    constructor; [|apply IH; [exact (Forall_inv_tail Hx) | exact (Forall_inv_tail HZ)]].
    rewrite (Forall_inv Hx), (Forall_inv HZ). reflexivity.
Qed.

(** The moments of a part of the spectrum without reflectivity are NaN,
    whatever the sums and powers of the libraries give. *)
Lemma moment_zero_weights (x Z : list float) (m : Moments) :
  length x = length Z -> Forall (fun w => w = 0) Z ->
  moment x Z = Ok m ->
  v m = nan /\ width m = nan /\ skew m = nan.
Proof.
  intros Hlen HZ. unfold moment.
  rewrite np_mul_ok by exact Hlen. cbn [bind].
  rewrite (float_sum_zeros Z _ (np_sum_adds Z) HZ).
  assert (Hmean : np_sum (mul2 x Z) / 0 = nan).
  { destruct (float_sum_zero_or_nan _ _ (np_sum_adds (mul2 x Z)) (mul2_zero x Z HZ))
      as [-> | [-> | ->]]; reflexivity. }
  rewrite Hmean.
  rewrite np_mul_ok by (rewrite length_map; exact Hlen). cbn [bind].
  rewrite np_mul_ok by (rewrite length_map; exact Hlen). cbn [bind].
  set (x2 := map (fun xi => (xi - nan) * (xi - nan)) x).
  set (x3 := map (fun xi => np_power (xi - nan) 3) x).
  assert (H2 : Forall (fun a => a = nan) x2).
  { apply List.Forall_forall. intros a Ha. apply in_map_iff in Ha as (xi & <- & _).
    rewrite sub_nan. reflexivity. }
  assert (Hw : sqrt (np_sum (mul2 x2 Z) / 0) = nan).
  { destruct (float_sum_nans _ _ (np_sum_adds _) (mul2_nan_zero x2 Z H2 HZ)) as [-> | ->];
      reflexivity. }
  rewrite Hw. intros [= <-]. cbn [v width skew]. repeat split.
  destruct (float_sum_zero_or_nan _ _ (np_sum_adds (mul2 x3 Z)) (mul2_zero x3 Z HZ))
    as [-> | [-> | ->]];
    destruct (zero_mul (np_float64_pow nan 3)) as [-> | [-> | ->]]; reflexivity.
Qed.

End ZeroWeights.

Lemma set_where_nth {A : Type} (a : list A) (m : list bool) (x : A) (k : nat) :
  length m = length a ->
  nth_error (set_where a m x) k
  = match nth_error a k, nth_error m k with
    | Some y, Some b => Some (if b then x else y)
    | _, _ => None
    end.
Proof.
  revert m k. induction a as [|y a IH]; intros [|b m] k Hlen; try discriminate.
  - destruct k; reflexivity.
  - destruct k; cbn [set_where nth_error]; [reflexivity|]. apply IH. simpl in Hlen. lia.
Qed.

Lemma weights_nth (s : Spectrum) (thres : float) (k : nat) :
  length (specZ_mask s) = length (specZ s) ->
  nth_error (weights s thres) k
  = match nth_error (specZ s) k, nth_error (specZ_mask s) k with
    | Some z, Some b =>
        Some (if b then 0%float else if (z <? thres)%float then 0%float else z)
    | _, _ => None
    end.
Proof.
  intros Hlen. unfold weights, fill_with. cbv zeta.
  rewrite set_where_nth by (rewrite length_map, set_where_length; reflexivity).
  rewrite nth_error_map, set_where_nth by exact Hlen.
  destruct (nth_error (specZ s) k) as [z|]; [|reflexivity].
  destruct (nth_error (specZ_mask s) k) as [[]|]; cbn [option_map]; try reflexivity.
  destruct (0 <? thres)%float; reflexivity.
Qed.

Lemma chunk_nth_In {A : Type} (a : list A) (b : bounds_t) (x : A) :
  In x (chunk a b) ->
  exists k, nth_error a k = Some x
            /\ (0 <= fst b -> 0 <= snd b + 1 -> fst b <= Z.of_nat k <= snd b).
Proof.
  unfold chunk, py_slice. intros Hin.
  apply In_nth_error in Hin as [j Hj].
  assert (Hlt : (j < Z.to_nat (py_clamp (len a) (snd b + 1) - py_clamp (len a) (fst b)))%nat).
  { assert (Hl : (j < length (firstn (Z.to_nat (py_clamp (len a) (snd b + 1)
                                        - py_clamp (len a) (fst b)))
                              (skipn (Z.to_nat (py_clamp (len a) (fst b))) a)))%nat)
      by (apply nth_error_Some; congruence).
    rewrite length_firstn in Hl. lia. }
  rewrite nth_error_firstn in Hj.
  destruct (j <? _)%nat eqn:E in Hj; [|discriminate].
  rewrite nth_error_skipn in Hj.
  exists (Z.to_nat (py_clamp (len a) (fst b)) + j)%nat. split; [exact Hj|].
  intros H1 H2. unfold py_clamp in *.
  destruct (fst b <? 0) eqn:E1; [apply Z.ltb_lt in E1; lia|].
  destruct (snd b + 1 <? 0) eqn:E2; [apply Z.ltb_lt in E2; lia|].
  lia.
Qed.

Section Moments2.
Context `{H : Helpers} `{N : Numeric}.
#[local] Open Scope float_scope.

Lemma calc_moments_moment (s s' : Spectrum) (b : bounds_t) (thres : float) (m : Moments) :
  calc_moments s b thres = Ok (m, s') ->
  exists m0, moment (chunk (vel s) b) (chunk (weights s thres) b) = Ok m0
             /\ v m = v m0 /\ width m = width m0 /\ skew m = skew m0.
Proof.
  unfold calc_moments. intros Hc.
  apply bind_ok in Hc as (m0 & Hm0 & Hc).
  apply bind_ok in Hc as (ind_max & _ & Hc).
  apply bind_ok in Hc as (zmax & _ & Hc).
  apply bind_ok in Hc as (pmask & _ & Hc).
  apply bind_ok in Hc as (first & _ & Hc).
  apply bind_ok in Hc as (ldrmax_ & _ & Hc).
  apply bind_ok in Hc as (decoup & _ & Hc).
  injection Hc as <- <-. exists m0. split; [exact Hm0|]. repeat split; reflexivity.
Qed.

(** X16 (calc_moments, moment): on a spectrum whose velocity and mask
    arrays have the length of ['specZ'], and for bounds [0 <= l <= r]: if
    every bin of the bounds is masked or has a reflectivity below the
    threshold, and calc_moments returns, then the mean velocity, the width
    and the skewness it returns are NaN. *)
Theorem calc_moments_without_signal (s s' : Spectrum) (l r : Z) (thres : float)
    (m : Moments) :
  length (vel s) = length (specZ s) ->
  length (specZ_mask s) = length (specZ s) ->
  (0 <= l <= r)%Z ->
  (forall k z masked,
      (l <= Z.of_nat k <= r)%Z ->
      nth_error (specZ s) k = Some z -> nth_error (specZ_mask s) k = Some masked ->
      masked = true \/ (z <? thres) = true) ->
  calc_moments s (l, r) thres = Ok (m, s') ->
  np_isnan (v m) = true /\ np_isnan (width m) = true /\ np_isnan (skew m) = true.
Proof.
  intros Hvel Hmask Hl Hbelow Hc.
  destruct (calc_moments_moment s s' (l, r) thres m Hc) as (m0 & Hm0 & -> & -> & ->).
  assert (Heq : v m0 = nan /\ width m0 = nan /\ skew m0 = nan).
  { apply (moment_zero_weights (chunk (vel s) (l, r)) (chunk (weights s thres) (l, r)));
      [| |exact Hm0].
    - apply chunk_length_eq. unfold weights, fill_with.
      rewrite !set_where_length. exact Hvel.
    - apply List.Forall_forall. intros w Hw.
      apply chunk_nth_In in Hw as (k & Hk & Hrange).
      specialize (Hrange ltac:(cbn [fst]; lia) ltac:(cbn [snd]; lia)).
      cbn [fst snd] in Hrange.
      rewrite weights_nth in Hk by exact Hmask.
      destruct (nth_error (specZ s) k) as [z|] eqn:Ez; [|discriminate].
      destruct (nth_error (specZ_mask s) k) as [mk|] eqn:Em; [|discriminate].
      destruct (Hbelow k z mk Hrange Ez Em) as [-> | Hz]; [congruence|].
      rewrite Hz in Hk. destruct mk; congruence. }
  destruct Heq as (-> & -> & ->). repeat split; reflexivity.
Qed.

End Moments2.

(** ** Moments on empty bounds, and without LDR *)

Lemma chunk_empty {A : Type} (a : list A) (l r : Z) :
  0 <= r + 1 <= l -> chunk a (l, r) = [].
Proof.
  intros Hlr. unfold chunk, py_slice, py_clamp. cbn [fst snd].
  destruct (l <? 0) eqn:E1; [apply Z.ltb_lt in E1; lia|].
  destruct (r + 1 <? 0) eqn:E2; [apply Z.ltb_lt in E2; lia|].
  replace (Z.to_nat (Z.min (r + 1) (len a) - Z.min l (len a))) with O by lia.
  reflexivity.
Qed.

Section Moments3.
Context `{H : Helpers} `{N : Numeric}.
#[local] Open Scope float_scope.

(** X17 (calc_moments, calc_moments_wo_LDR): for bounds with
    [0 <= r + 1 <= l], whose slice [[l:r+1]] is empty, both functions raise
    the ValueError of an argmax over an empty sequence. *)
Theorem calc_moments_empty_bounds (s : Spectrum) (l r : Z) (thres : float) :
  (0 <= r + 1 <= l)%Z ->
  calc_moments s (l, r) thres = Raise ValueError_argmax_of_empty_sequence
  /\ calc_moments_wo_LDR s (l, r) thres = Raise ValueError_argmax_of_empty_sequence.
Proof.
  intros Hlr. unfold calc_moments, calc_moments_wo_LDR.
  rewrite !(chunk_empty _ l r Hlr). split; reflexivity.
Qed.

(** X18 (calc_moments_wo_LDR): whenever calc_moments returns, the variant
    without LDR returns too, with the same velocity, width, skewness,
    prominence and reflectivity, with 0 for ['ldr'] and ['ldrmax'], and
    with the spectrum as it was given. *)
Theorem calc_moments_wo_LDR_agrees (s s' : Spectrum) (b : bounds_t) (thres : float)
    (m : Moments) :
  calc_moments s b thres = Ok (m, s') ->
  calc_moments_wo_LDR s b thres
  = Ok ({| v := v m; width := width m; skew := skew m; prominence := prominence m;
           z := z m; ldr := 0; ldrmax := 0 |}, s).
Proof.
  unfold calc_moments, calc_moments_wo_LDR. intros Hc.
  apply bind_ok in Hc as (m0 & Hm0 & Hc). rewrite Hm0. cbn [bind].
  apply bind_ok in Hc as (ind_max & Hi & Hc). rewrite Hi. cbn [bind].
  apply bind_ok in Hc as (zmax & Hz & Hc). rewrite Hz. cbn [bind].
  apply bind_ok in Hc as (pmask & Hp & Hc). rewrite Hp. cbn [bind].
  apply bind_ok in Hc as (first & _ & Hc).
  apply bind_ok in Hc as (ldrmax_ & _ & Hc).
  apply bind_ok in Hc as (decoup & _ & Hc).
  injection Hc as <- _. reflexivity.
Qed.

End Moments3.

(** ** The spectrum of a cell *)

Lemma np_nanmin_ok (a : list float) : a <> [] -> exists m, np_nanmin a = Ok m.
Proof.
  destruct a as [|x a]; [contradiction|]. intros _. unfold np_nanmin.
  destruct (List.filter _ (x :: a)); eauto.
Qed.

Lemma np_convolve_same_ok (a v : list float) :
  a <> [] -> v <> [] ->
  exists out, np_convolve_same a v = Ok out /\ len out = Z.max (len a) (len v).
Proof.
  intros Ha Hv. unfold np_convolve_same.
  destruct a as [|x a]; [contradiction|]. destruct v as [|y v]; [contradiction|].
  destruct (len (x :: a) <? len (y :: v)) eqn:E; cbv beta iota zeta;
    eexists; (split; [reflexivity|]); unfold len in *;
    rewrite !length_map, length_seq; lia.
Qed.

Section Prepared2.
Context `{H : Helpers} `{N : Numeric}.
#[local] Open Scope float_scope.

Lemma noise_thres_ok (settings : Settings) (cell : cell_input) :
  exists nt,
    (if np_all (cell_Z_mask cell) then Ok 1e-25
     else valid <- np_select (cell_Z cell) (map negb (cell_Z_mask cell)) ;;
          m <- np_min valid ;;
          Ok (m * z2lin (thres_factor_co settings))) = Ok nt.
Proof.
  destruct (np_all (cell_Z_mask cell)) eqn:Hall; [eauto|].
  unfold np_select, len. rewrite length_map, cell_Z_mask_length, Z.eqb_refl. cbn [bind].
  destruct (select (cell_Z cell) (map negb (cell_Z_mask cell))) as [|x valid] eqn:E.
  - exfalso. apply (select_nonempty (cell_Z cell) (cell_Z_mask cell));
      [symmetry; apply cell_Z_mask_length | exact Hall | exact E].
  - cbn [np_min bind]. eauto.
Qed.

(** A cell with at least one bin gives a spectrum; its arrays keep the
    length of the cell, the smoothed co-polar spectrum apart. *)
Lemma prepare_spectrum_ok (settings : Settings) (ts rg : float)
    (velocity : list float) (cell : cell_input) :
  cell_Z cell <> [] ->
  exists s,
    prepare_spectrum settings ts rg velocity cell = Ok s
    /\ len (specZ s)
       = (if smooth settings then Z.max (len (cell_Z cell)) 3 else len (cell_Z cell))
    /\ Forall (fun n => n = len (cell_Z cell))
         [len (specZ_mask s); len (specSNRco s); len (specSNRco_mask s); len (specLDR s);
          len (specLDR_mask s); len (specZcx s); len (specZcx_mask s); len (specSNRcx s);
          len (specSNRcx_mask s); len (specLDRmasked s); len (specZcx_validcx s)]
    /\ len (specZ_validcx s) = len (specZ s)
    /\ vel s = velocity.
Proof.
  intros Hne.
  destruct (noise_thres_ok settings cell) as [nt Hnt].
  assert (Hsm : exists Zsm,
             (if smooth settings then np_convolve_same (cell_Z cell) [0.25; 0.5; 0.25]
              else Ok (cell_Z cell)) = Ok Zsm
             /\ len Zsm = (if smooth settings then Z.max (len (cell_Z cell)) 3
                           else len (cell_Z cell))).
  { destruct (smooth settings); [|eauto].
    destruct (np_convolve_same_ok (cell_Z cell) [0.25; 0.5; 0.25] Hne ltac:(discriminate))
      as (out & -> & Hlen). exists out. split; [reflexivity | exact Hlen]. }
  destruct Hsm as (Zsm & HZ & Hlen).
  destruct (np_nanmin_ok (rev (cell_Zcx cell))) as [m Hm].
  { intros E. apply (f_equal (@length float)) in E.
    rewrite length_rev, cell_Zcx_length in E. destruct (cell_Z cell); [contradiction|].
    discriminate. }
  assert (Hlens : forall (A : Type) (l : list A) (n : nat),
             length l = n -> len l = Z.of_nat n)
    by (intros A l n <-; reflexivity).
  unfold prepare_spectrum, prepare_spectrum_at.
  destruct cell as [bins | rows]; cbn [cell_Z cell_Z_mask cell_Zcx] in *;
    cbn beta iota zeta; rewrite Hnt; cbn [bind]; rewrite HZ; cbn [bind];
    rewrite Hm; cbn [bind]; eexists; (split; [reflexivity|]);
    cbn [specZ specZ_mask specSNRco specSNRco_mask specLDR specLDR_mask specZcx
           specZcx_mask specSNRcx specSNRcx_mask specLDRmasked specZcx_validcx
           specZ_validcx vel];
    (split; [unfold len in *; rewrite length_rev; exact Hlen|]);
    (split; [|split; reflexivity]);
    repeat (apply List.Forall_cons;
            [apply Hlens; unfold mul2;
             repeat (rewrite set_where_length || rewrite length_map || rewrite length_rev
                     || rewrite length_combine);
             lia |]);
    apply List.Forall_nil.
Qed.

(** X15 (get_tree_at on a spectra file): for a cell with at least one bin
    the spectrum dict is built without an exception; ['specZ'] and
    ['specZ_validcx'] have the length of the cell, or three bins if the
    settings smooth the spectrum and the cell has fewer; every other array
    has the length of the cell; ['vel'] is the velocity axis.  For a cell
    without bins the preparation raises a ValueError: of the convolution
    when the settings smooth, of the minimum of an empty array otherwise. *)
Theorem prepare_spectrum_returns (settings : Settings) (ts rg : float)
    (velocity : list float) (cell : cell_input) :
  (cell_Z cell <> [] ->
   exists s,
     prepare_spectrum settings ts rg velocity cell = Ok s
     /\ len (specZ s)
        = (if smooth settings then Z.max (len (cell_Z cell)) 3 else len (cell_Z cell))
     /\ Forall (fun n => n = len (cell_Z cell))
          [len (specZ_mask s); len (specSNRco s); len (specSNRco_mask s); len (specLDR s);
           len (specLDR_mask s); len (specZcx s); len (specZcx_mask s); len (specSNRcx s);
           len (specSNRcx_mask s); len (specLDRmasked s); len (specZcx_validcx s)]
     /\ len (specZ_validcx s) = len (specZ s)
     /\ vel s = velocity)
  /\ (cell_Z cell = [] ->
      prepare_spectrum settings ts rg velocity cell
      = Raise (if smooth settings then ValueError_empty_convolve
               else ValueError_zero_size_reduction)).
Proof.
  split; [apply prepare_spectrum_ok|].
  intros Hempty. unfold prepare_spectrum, prepare_spectrum_at.
  destruct cell as [bins | rows]; cbn [cell_Z] in Hempty.
  - apply map_eq_nil in Hempty. subst bins. cbn. destruct (smooth settings); reflexivity.
  - apply map_eq_nil in Hempty. subst rows. cbn. destruct (smooth settings); reflexivity.
Qed.

End Prepared2.

(** ** The nearest timestamp *)

Section Nearest.
#[local] Open Scope float_scope.

Lemma min_by_key_least (key : float -> float) (rest : list float) :
  forall best,
    let m := min_by_key key best rest in
    In m (best :: rest)
    /\ (np_isnan (key best) = false -> Forall (fun t => np_isnan (key t) = false) rest ->
        (key m <=? key best) = true /\ Forall (fun t => (key m <=? key t) = true) rest).
Proof.
  induction rest as [|t rest IH]; intros best; cbn [min_by_key].
  - split; [left; reflexivity|]. intros Hb _. split; [apply leb_refl, Hb | constructor].
  - destruct (key t <? key best) eqn:E.
    + destruct (IH t) as [Hin Hle]. split; [destruct Hin as [<- | Hin]; simpl; auto|].
      intros Hb Hall. destruct (Hle (Forall_inv Hall) (Forall_inv_tail Hall)) as [Hmt Hrest].
      split; [exact (leb_trans _ _ _ Hmt (ltb_leb _ _ E))|]. constructor; assumption.
    + destruct (IH best) as [Hin Hle]. split; [destruct Hin as [<- | Hin]; simpl; auto|].
      intros Hb Hall. destruct (Hle Hb (Forall_inv_tail Hall)) as [Hmb Hrest].
      split; [exact Hmb|]. constructor; [|exact Hrest].
      exact (leb_trans _ _ _ Hmb (ltb_false_leb _ _ (Forall_inv Hall) Hb E)).
Qed.

Lemma abs_nan (x : float) : np_isnan x = true -> np_isnan (abs x) = true.
Proof. intros Hx. apply np_isnan_nan in Hx. subst x. reflexivity. Qed.

Lemma eqb_refl_not_nan (x : float) : np_isnan x = false -> (x =? x) = true.
Proof. unfold np_isnan, is_nan. intros Hx. apply negb_false_iff in Hx. exact Hx. Qed.

End Nearest.

(** The first index at which a mask holds. *)
Lemma np_where_first (mask : list bool) :
  In true mask ->
  exists i,
    py_get (np_where mask) 0 = Ok i
    /\ 0 <= i /\ nth_error mask (Z.to_nat i) = Some true
    /\ forall j, 0 <= j < i -> nth_error mask (Z.to_nat j) <> Some true.
Proof.
  intros Hin. apply In_nth_error in Hin as [p Hp].
  assert (Hmem : In (Z.of_nat p) (np_where mask)).
  { apply where_from_spec. split; [lia|]. rewrite Z.sub_0_r, Nat2Z.id. exact Hp. }
  pose proof (where_from_sorted mask 0) as Hsorted. fold (np_where mask) in Hsorted.
  destruct (np_where mask) as [|i l] eqn:E; [destruct Hmem|].
  exists i. split; [reflexivity|].
  assert (Hi : In i (np_where mask)) by (rewrite E; left; reflexivity).
  apply where_from_spec in Hi as [Hi0 Hi]. rewrite Z.sub_0_r in Hi.
  split; [exact Hi0|]. split; [exact Hi|].
  intros j Hj Hc.
  assert (Hjm : In j (np_where mask)).
  { apply where_from_spec. split; [lia|]. rewrite Z.sub_0_r. exact Hc. }
  rewrite E in Hjm. destruct Hjm as [-> | Hjm]; [lia|].
  apply StronglySorted_inv in Hsorted as [_ Hlt]. rewrite List.Forall_forall in Hlt.
  specialize (Hlt j Hjm). lia.
Qed.

(** X20 (time_index): for a list of timestamps that is not empty, none at
    a NaN distance from the selected time, time_index returns the index of
    the first timestamp that equals a timestamp of least distance to the
    selected time. *)
Theorem time_index_nearest (timestamps : list float) (sel_ts : float) :
  timestamps <> [] ->
  Forall (fun t => np_isnan (abs (sel_ts - t)%float) = false) timestamps ->
  exists i nearest t,
    time_index timestamps sel_ts = Ok i
    /\ In nearest timestamps
    /\ Forall (fun u => (abs (sel_ts - nearest) <=? abs (sel_ts - u))%float = true) timestamps
    /\ 0 <= i < len timestamps
    /\ nth_error timestamps (Z.to_nat i) = Some t
    /\ (t =? nearest)%float = true
    /\ forall j u, 0 <= j < i -> nth_error timestamps (Z.to_nat j) = Some u ->
                   (u =? nearest)%float = false.
Proof.
  intros Hne Hall. destruct timestamps as [|t0 rest]; [contradiction|].
  cbn [time_index]. cbv zeta.
  set (key := fun t => abs (sel_ts - t)%float).
  destruct (min_by_key_least key rest t0) as [Hin Hle].
  set (nearest := min_by_key key t0 rest) in *.
  destruct (Hle (Forall_inv Hall) (Forall_inv_tail Hall)) as [Hn0 Hrest].
  assert (Hnn : np_isnan nearest = false).
  { rewrite List.Forall_forall in Hall. specialize (Hall nearest Hin). cbv beta in Hall.
    destruct (np_isnan nearest) eqn:E; [|reflexivity].
    rewrite (abs_nan _ (sub_nan_r sel_ts nearest E)) in Hall. discriminate. }
  destruct (np_where_first (map (fun t => (t =? nearest)%float) (t0 :: rest)))
    as (i & Hget & Hi0 & Hi & Hfirst).
  { apply in_map_iff. exists nearest. split; [apply eqb_refl_not_nan, Hnn | exact Hin]. }
  rewrite nth_error_map in Hi.
  destruct (nth_error (t0 :: rest) (Z.to_nat i)) as [t|] eqn:Ht; [|discriminate].
  injection Hi as Hi.
  exists i, nearest, t. split; [exact Hget|]. split; [exact Hin|].
  split; [constructor; assumption|]. split.
  { assert (Hlt : (Z.to_nat i < length (t0 :: rest))%nat)
      by (apply nth_error_Some; congruence).
    unfold len. lia. }
  split; [exact Ht|]. split; [exact Hi|].
  intros j u Hj Hu. specialize (Hfirst j Hj). rewrite nth_error_map, Hu in Hfirst.
  cbn [option_map] in Hfirst. destruct (u =? nearest)%float; [congruence | reflexivity].
Qed.

(** ** Exceptions of the tree of a spectrum *)

Lemma holds_chunk_covers (Zs : list float) (lo hi : Z) (n : Node) :
  0 <= lo -> hi < len Zs -> holds_chunk Zs lo hi n -> spec_covers n.
Proof.
  intros Hlo Hhi Hh. unfold spec_covers.
  rewrite (holds_chunk_len Zs lo hi n Hlo Hhi Hh). lia.
Qed.

Lemma all_nodes_impl (P Q : Node -> Prop) (n : Node) :
  (forall m, P m -> Q m) -> all_nodes P n -> all_nodes Q n.
Proof.
  intros HPQ. induction n as [n IH] using Node_tree_ind. intros Hall.
  apply all_nodes_inv in Hall as [Hp Hkids]. constructor; [apply HPQ, Hp|].
  rewrite List.Forall_forall in *. intros c Hc. apply IH; [exact Hc | apply Hkids, Hc].
Qed.

Section Returns.
Context `{H : Helpers} `{N : Numeric}.

Lemma noise_children_ok (Zs : list float) (lo hi : Z) (n : Node) (bl br : bounds_t)
    (thres : float) :
  0 <= lo -> hi < len Zs -> holds_chunk Zs lo hi n ->
  ordered_pair bl br -> fits_pair bl br n = true ->
  exists new, noise_children n bl br thres = Ok new.
Proof.
  intros Hlo Hhi Hh (Ho1 & Ho2 & Ho3) Hfit.
  pose proof (holds_chunk_len Zs lo hi n Hlo Hhi Hh) as Hlen.
  destruct Hh as (Hs & H1 & H2 & H3).
  unfold fits_pair in Hfit. apply andb_prop in Hfit as [Hl Hr]. apply Z.leb_le in Hl, Hr.
  unfold noise_children. cbv zeta.
  destruct (prominence_of_ok
              (py_slice (spec n) (Some (fst bl - fst (bounds n)))
                 (Some (snd bl + 1 - fst (bounds n)))) thres) as [pl ->].
  { rewrite py_slice_len; lia. }
  destruct (prominence_of_ok
              (py_slice (spec n) (Some (fst br - fst (bounds n)))
                 (Some (snd br + 1 - fst (bounds n)))) thres) as [pr ->].
  { rewrite py_slice_len; lia. }
  cbn [bind]. destruct (_ && _)%bool; eauto.
Qed.

(** On a tree whose nodes hold their chunk, an ordered pair inside the
    bounds is added without an exception. *)
Lemma add_noise_sep_returns (Zs : list float) (lo hi : Z) (bl br : bounds_t) (thres : float)
    (self : Node) :
  0 <= lo -> hi < len Zs -> ordered_pair bl br ->
  all_nodes (holds_chunk Zs lo hi) self -> fits_pair bl br self = true ->
  snd (add_noise_sep self bl br thres) = Ok tt.
Proof.
  intros Hlo Hhi Hord. induction self as [self IH] using Node_tree_ind. intros Hall Hfit.
  apply all_nodes_inv in Hall as [Hh Hkids].
  rewrite add_noise_sep_eq.
  destruct (len (List.filter (fits_pair bl br) (children self)) =? 1)%Z eqn:E.
  - apply Z.eqb_eq in E.
    destruct (on_first_fitting_split (fits_pair bl br)
                (fun c => add_noise_sep c bl br thres) _ E)
      as (pre & c & post & Hcs & Hc & Hcall).
    cbn zeta. rewrite Hcall. cbn [snd].
    rewrite Hcs in IH, Hkids.
    apply Forall_app in IH as [_ IH]. apply Forall_inv in IH.
    apply Forall_app in Hkids as [_ Hkids]. apply Forall_inv in Hkids.
    apply IH; assumption.
  - destruct (noise_children_ok Zs lo hi self bl br thres Hlo Hhi Hh Hord Hfit) as [new ->].
    reflexivity.
Qed.

Lemma add_noise_sep_all_returns (Zs : list float) (t0 : Node)
    (pairs : list (bounds_t * bounds_t)) (thres : float) :
  (0 <= fst (bounds t0))%Z -> (snd (bounds t0) < len Zs)%Z ->
  (forall bl br, In (bl, br) pairs ->
                 ordered_pair bl br
                 /\ (fst (bounds t0) <= fst bl)%Z /\ (snd br <= snd (bounds t0))%Z) ->
  forall t,
    bounds t = bounds t0 ->
    all_nodes (holds_chunk Zs (fst (bounds t0)) (snd (bounds t0))) t ->
    exists t', add_noise_sep_all t pairs thres = Ok t'.
Proof.
  intros Hlo Hhi. induction pairs as [|[bl br] pairs IH]; intros Hin t Hb Hall;
    cbn [add_noise_sep_all]; [eauto|]. cbn [fst snd].
  destruct (Hin bl br ltac:(left; reflexivity)) as (Hord & H1 & H2).
  assert (Hfit : fits_pair bl br t = true).
  { unfold fits_pair. rewrite Hb. apply andb_true_intro. rewrite !Z.leb_le. lia. }
  pose proof (add_noise_sep_returns Zs _ _ bl br thres t Hlo Hhi Hord Hall Hfit) as Hret.
  destruct (add_noise_sep t bl br thres) as [t1 r1] eqn:Ecall. cbn [snd] in Hret. subst r1.
  assert (Et1 : t1 = fst (run_call t (call_add_noise_sep bl br thres)))
    by (cbn [run_call]; rewrite Ecall; reflexivity).
  apply IH.
  - intros bl' br' Hin'. apply Hin. right. exact Hin'.
  - rewrite Et1, run_call_bounds. exact Hb.
  - rewrite Et1. apply run_call_holds_chunk; try assumption.
    destruct Hord as (Ho1 & Ho2 & Ho3). cbn [inside_call]. repeat split; assumption.
Qed.

(** The minima are added without an exception, or the first one outside the
    bounds of the root raises the error of add_min. *)
Lemma add_min_all_returns (Zs : list float) (lo hi : Z) (minima : list (Z * float))
    (limit : float) :
  0 <= lo -> hi < len Zs ->
  forall t,
    all_nodes (holds_chunk Zs lo hi) t ->
    (exists t', add_min_all t minima limit = Ok t')
    \/ add_min_all t minima limit = Raise ValueError_child_out_of_parents_bounds.
Proof.
  intros Hlo Hhi. induction minima as [|m minima IH]; intros t Hall; cbn [add_min_all];
    [left; eauto|].
  destruct (limit <? snd m)%float; [|apply IH; exact Hall].
  destruct (fits_index (fst m) t) eqn:Hfit.
  - assert (Hcov : all_nodes spec_covers t)
      by (apply (all_nodes_impl (holds_chunk Zs lo hi)); [|exact Hall];
          intros n0; apply holds_chunk_covers; assumption).
    pose proof (add_min_returns (fst m) (snd m) t false Hcov Hfit) as Hret.
    destruct (add_min t (fst m) (snd m) false) as [t1 r1] eqn:Ecall.
    cbn [snd] in Hret. subst r1. apply IH.
    replace t1 with (fst (run_call t (call_add_min (fst m) (snd m) false)))
      by (cbn [run_call]; rewrite Ecall; reflexivity).
    apply run_call_holds_chunk; [assumption | assumption | exact I | exact Hall].
  - right. rewrite add_min_eq, Hfit. reflexivity.
Qed.

(** On a spectrum whose arrays have one length, the moments of bounds inside
    the spectrum are computed without an exception. *)
Lemma calc_moments_returns (s : Spectrum) (l r : Z) (thres : float) :
  Forall (fun n => n = length (specZ s))
    [length (vel s); length (specZ_mask s); length (specSNRco s); length (specLDR s);
     length (specZcx s); length (specZcx_mask s)] ->
  (0 <= l <= r)%Z -> (r < len (specZ s))%Z ->
  (exists m, calc_moments s (l, r) thres
             = (decoup <- decoup_of (decoupling s) ;; Ok (m, s)))
  /\ (exists m, calc_moments_wo_LDR s (l, r) thres = Ok (m, s)).
Proof.
  intros Hlens Hlr Hr.
  apply Forall_cons_iff in Hlens as [Hvel Hlens].
  apply Forall_cons_iff in Hlens as [HlenM Hlens].
  apply Forall_cons_iff in Hlens as [Hsnr Hlens].
  apply Forall_cons_iff in Hlens as [Hldr Hlens].
  apply Forall_cons_iff in Hlens as [HlenC Hlens].
  apply Forall_cons_iff in Hlens as [HlenCM _].
  unfold calc_moments, calc_moments_wo_LDR.
  destruct (moment_ok (chunk (vel s) (l, r))
              (chunk (fill_with (fill_with (specZ s) (specZ_mask s) 0)
                        (map (fun x => (x <? thres)%float)
                           (fill_with (specZ s) (specZ_mask s) 0)) 0) (l, r)))
    as [m0 ->].
  { apply chunk_length_eq. unfold fill_with. rewrite !set_where_length. exact Hvel. }
  cbn [bind].
  assert (Hchunk : forall (A : Type) (a : list A),
             length a = length (specZ s) -> len (chunk a (l, r)) = (r - l + 1)%Z).
  { intros A a Ha. apply chunk_length; [exact Hlr|]. unfold len in *. lia. }
  destruct (np_argmax (chunk (specSNRco s) (l, r))) as [i|e] eqn:Hi.
  2:{ destruct (chunk (specSNRco s) (l, r)) eqn:E; [|discriminate].
      pose proof (Hchunk _ _ Hsnr) as Hc. rewrite E in Hc. unfold len in Hc.
      simpl in Hc. lia. }
  apply np_argmax_range in Hi. rewrite (Hchunk _ _ Hsnr) in Hi. cbn [bind].
  destruct (py_get_in_range (chunk (specZ s) (l, r)) i) as [zmax ->];
    [rewrite (Hchunk _ _ eq_refl); lia|]. cbn [bind].
  destruct (py_get_in_range (chunk (specZ_mask s) (l, r)) i) as [pmask ->];
    [rewrite (Hchunk _ _ HlenM); lia|]. cbn [bind].
  split; [|eauto].
  destruct (py_get_in_range (chunk (specLDR s) (l, r)) i) as [ldrmax_ Hldrmax];
    [rewrite (Hchunk _ _ Hldr); lia|].
  destruct (np_all (specZ_mask s)) eqn:E1; cbn [negb andb bind];
    [rewrite Hldrmax; cbn [bind]; destruct (decoup_of (decoupling s)); cbn [bind]; eauto|].
  destruct (np_all (specZcx_mask s)) eqn:E2; cbn [negb andb bind];
    [rewrite Hldrmax; cbn [bind]; destruct (decoup_of (decoupling s)); cbn [bind]; eauto|].
  unfold np_select, len. rewrite !length_map, HlenM, HlenC, HlenCM, !Z.eqb_refl.
  cbn [bind].
  destruct (select (specZ s) (map negb (specZ_mask s))) as [|x0 xs] eqn:Es;
    [exfalso; revert Es; apply select_nonempty; [congruence | exact E1]|].
  destruct (select (specZcx s) (map negb (specZcx_mask s))) as [|y0 ys] eqn:Ec;
    [exfalso; revert Ec; apply select_nonempty; [congruence | exact E2]|].
  cbn [np_min bind]. rewrite Hldrmax. cbn [bind].
  destruct (decoup_of (decoupling s)); cbn [bind]; eauto.
Qed.

Lemma mapM_raise {A B : Type} (f : A -> res B) (l : list A) (e : exn) :
  l <> [] -> (forall a, In a l -> f a = Raise e) -> mapM f l = Raise e.
Proof.
  destruct l as [|a l]; [contradiction|]. intros _ Hall. cbn [mapM].
  rewrite (Hall a (or_introl eq_refl)). reflexivity.
Qed.

End Returns.

Section OnlyError.
Context `{H : Helpers} `{N : Numeric}.

(** On a spectrum whose arrays have one length every step of
    [tree_from_spectrum] returns, a minimum outside the root and the power
    of the decoupling apart. *)
Lemma tree_from_spectrum_total (s : Spectrum) :
  same_lengths s ->
  (exists tree, tree_from_spectrum s = Ok tree)
  \/ tree_from_spectrum s = Raise ValueError_child_out_of_parents_bounds
  \/ (tree_from_spectrum s = Raise OverflowError
      /\ polarimetric s = true
      /\ decoup_of (decoupling s) = Raise OverflowError).
Proof.
  intros Hlens. unfold tree_from_spectrum. cbv zeta.
  destruct (detected_peaks (fill_with (specZ s) (specZ_mask s) 0%float) (noise_thres s))
    as (runs & Hruns & Hasc & Hrange).
  rewrite Hruns. cbn [bind].
  destruct (PeakDetect.width_filter runs) as [|p ps] eqn:Hpeaks; [left; eauto|].
  assert (Hne : p :: ps <> []) by discriminate.
  replace (len (p :: ps) =? 0) with false
    by (symmetry; apply Z.eqb_neq; unfold len; simpl; lia).
  destruct (hull_get (p :: ps) Hne) as (first & last_ & Hf & Hl & Hhull).
  rewrite Hf, Hl. cbn [bind]. rewrite Hhull.
  set (t0 := Node_init (hull (p :: ps)) (chunk (specZ s) (hull (p :: ps)))
               (noise_thres s) true 0) in *.
  assert (Hh : 0 <= fst (hull (p :: ps)) /\ fst (hull (p :: ps)) < snd (hull (p :: ps))
               /\ snd (hull (p :: ps)) < len (specZ s)).
  { destruct (ascending_hull (p :: ps) Hasc Hne) as [_ Hin].
    pose proof (Forall_inv Hin) as Hp. pose proof (Forall_inv Hrange) as Hp0.
    cbv beta in Hp, Hp0.
    assert (Hlast : In (List.last (p :: ps) (0, 0)) (p :: ps)).
    { destruct (exists_last Hne) as (l' & x & ->). rewrite last_last.
      apply in_or_app. right. left. reflexivity. }
    rewrite List.Forall_forall in Hrange. specialize (Hrange _ Hlast). cbv beta in Hrange.
    rewrite List.Forall_forall in Hin. specialize (Hin _ Hlast). cbv beta in Hin.
    unfold fill_with, len in Hrange. rewrite set_where_length in Hrange.
    unfold hull in *. cbn [hd fst snd] in *. unfold len. lia. }
  destruct Hh as (Hh1 & Hh2 & Hh3).
  assert (Hb0 : bounds t0 = hull (p :: ps)) by reflexivity.
  assert (Hall0 : all_nodes (holds_chunk (specZ s) (fst (bounds t0)) (snd (bounds t0))) t0).
  { apply all_nodes_leaf; [reflexivity|].
    unfold holds_chunk. cbn [t0 Node_init spec bounds]. repeat split; lia. }
  destruct (peak_pairs_to_call_yields (length (p :: ps)) (p :: ps)) as (pairs & Hpairs & _);
    [lia | unfold len; simpl; lia | exact Hasc|].
  pose proof (peak_pairs_inside (length (p :: ps)) (p :: ps) ltac:(lia)
                ltac:(unfold len; simpl; lia) Hasc) as Hinside.
  rewrite Hpairs in Hinside |- *. cbn [fst snd] in Hinside |- *.
  destruct (add_noise_sep_all_returns (specZ s) t0 pairs (noise_thres s)
              ltac:(rewrite Hb0; lia) ltac:(rewrite Hb0; lia) Hinside t0 eq_refl Hall0)
    as [t1 Hsep].
  rewrite Hsep. cbn [bind].
  destruct (add_noise_sep_all_reachable t0 pairs (noise_thres s) Hinside t0 t1
              (reachable_start _ _) eq_refl Hsep) as [Hr1 _].
  destruct (minima_in_order_spec
              (fill_with (fill_with (specZ s) (specZ_mask s) 0%float)
                 (map (fun x => (x <? noise_thres s * 1.1)%float)
                    (fill_with (specZ s) (specZ_mask s) 0%float)) 1e-30%float))
    as (minima & Hmin & _).
  rewrite get_minima_eq, Hmin. cbn [bind].
  assert (Hlo0 : 0 <= fst (bounds t0)) by (rewrite Hb0; lia).
  assert (Hhi0 : snd (bounds t0) < len (specZ s)) by (rewrite Hb0; lia).
  destruct (reachable_holds_chunk (specZ s) t0 t1 Hlo0 Hhi0 Hall0 Hr1) as [_ Hall1].
  destruct (add_min_all_returns (specZ s) _ _ (PeakDetect.sorted_by_value minima)
              (noise_thres s * 1.1)%float Hlo0 Hhi0 t1 Hall1) as [[t2 Hadd] | Hadd];
    rewrite Hadd; cbn [bind]; [|right; left; reflexivity].
  pose proof (add_min_all_reachable t0 _ _ t1 t2 Hr1 Hadd) as Hr2.
  destruct (reachable_holds_chunk (specZ s) t0 t2 Hlo0 Hhi0 Hall0 Hr2) as [_ Hall2].
  assert (Hnode : forall kv : Z * id_node,
             In kv (map_to_list (coords_to_id (traverse t2 [0]))) ->
             (exists m1, calc_moments s (t_bounds (trav (snd kv))) (thres (trav (snd kv)))
                         = (decoup <- decoup_of (decoupling s) ;; Ok (m1, s)))
             /\ (exists m2, calc_moments_wo_LDR s (t_bounds (trav (snd kv)))
                              (thres (trav (snd kv))) = Ok (m2, s))).
  { intros [k nd] Hin. cbn [fst snd].
    apply list_elem_of_In, elem_of_map_to_list in Hin.
    destruct (coords_to_id_values _ _ _ Hin) as [Hin' _].
    apply traverse_In in Hin' as (path & n & Hn & Hdesc).
    pose proof (node_at_all_nodes _ path t2 n Hall2 Hn) as Hhn.
    apply all_nodes_inv in Hhn as [(_ & H1 & H2 & H3) _].
    rewrite Hdesc. cbn [describe t_bounds thres].
    rewrite Hb0 in H1, H3.
    destruct (calc_moments_returns s (fst (bounds n)) (snd (bounds n)) (threshold n) Hlens
                ltac:(lia) ltac:(lia)) as [[m1 Hm1] [m2 Hm2]].
    rewrite <- surjective_pairing in Hm1, Hm2. eauto. }
  destruct (polarimetric s) eqn:Hpol.
  - destruct (decoup_of (decoupling s)) as [d|e] eqn:Hd.
    + left.
      match goal with
      | |- exists tree, (entries <- mapM ?f ?l ;; _) = _ =>
          destruct (mapM_total f l) as [entries ->]; [|cbn [bind]; eauto]
      end.
      intros kv Hin. destruct (Hnode kv Hin) as [[m1 Hm1] _].
      rewrite Hm1. cbn [bind]. eauto.
    + pose proof (decoup_of_raises _ _ Hd) as ->. right. right.
      split; [|split; reflexivity].
      match goal with
      | |- (entries <- mapM ?f ?l ;; _) = _ => rewrite (mapM_raise f l OverflowError)
      end; [reflexivity | |].
      * intros Hnil.
        pose proof (coords_to_id_root t2) as Hroot.
        apply elem_of_map_to_list in Hroot. rewrite Hnil in Hroot.
        apply elem_of_nil in Hroot. exact Hroot.
      * intros kv Hin. destruct (Hnode kv Hin) as [[m1 Hm1] _].
        rewrite Hm1. reflexivity.
  - left.
    match goal with
    | |- exists tree, (entries <- mapM ?f ?l ;; _) = _ =>
        destruct (mapM_total f l) as [entries ->]; [|cbn [bind]; eauto]
    end.
    intros kv Hin. destruct (Hnode kv Hin) as [_ [m2 Hm2]].
    rewrite Hm2. cbn [bind]. eauto.
Qed.

(** X13 (tree_from_spectrum): on a spectrum whose velocity, mask,
    signal-to-noise, depolarization and cross-polar arrays have the length
    of ['specZ'], tree_from_spectrum returns a tree, or raises the
    ValueError of add_min, "child out of parents bounds", or, on a spectrum
    with the cross-polar keys, raises the OverflowError of the power
    10**(decoupling/10) in calc_moments; it raises no other exception. *)
Theorem tree_from_spectrum_raises_only (s : Spectrum) :
  same_lengths s ->
  (exists tree, tree_from_spectrum s = Ok tree)
  \/ tree_from_spectrum s = Raise ValueError_child_out_of_parents_bounds
  \/ (tree_from_spectrum s = Raise OverflowError
      /\ polarimetric s = true
      /\ decoup_of (decoupling s) = Raise OverflowError).
Proof. apply tree_from_spectrum_total. Qed.

End OnlyError.

(** ** Traversal, ids and pairs, in sum *)

(** X3 (traverse): the traversal has one entry for each node of the tree,
    the node it starts from first, and no two entries have the same
    coordinate; its entries are exactly the nodes reached from the start by
    a path of child indices, each with the start coordinate followed by
    that path, its bounds and its threshold. *)
Theorem traverse_every_node_once (n : Node) (c : list Z) :
  length (traverse n c) = node_count n
  /\ NoDup (map coords (traverse n c))
  /\ (forall x, In x (traverse n c)
                <-> exists path m, node_at n path = Some m /\ x = describe (c ++ path) m)
  /\ hd_error (traverse n c) = Some (describe c n).
Proof.
  split; [apply traverse_length|]. split; [apply traverse_NoDup|].
  split; [intros x; apply traverse_In|]. rewrite traverse_eq. reflexivity.
Qed.

(** X2 (full_tree_id): two coordinates of a binary tree, which start at the
    root [[0]] and go on with child indices 0 or 1, have the same id only
    if they are the same coordinate. *)
Theorem full_tree_id_injective (c1 c2 : list Z) :
  binary_coords c1 -> binary_coords c2 -> full_tree_id c1 = full_tree_id c2 -> c1 = c2.
Proof. apply full_tree_id_inj. Qed.

Section PairsHull.
Context `{H : Helpers} `{N : Numeric}.

(** X10 (peak_pairs_to_call): for an ascending list of disjoint peaks every
    pair of bounds in the result is ordered, the left bounds end before the
    right bounds begin, and both lie between the left edge of the first
    peak and the right edge of the last peak of the list. *)
Theorem peak_pairs_inside_hull (peak_ind : list bounds_t) (bl br : bounds_t) :
  peak_ind <> [] -> ascending_disjoint peak_ind ->
  In (bl, br) (fst (peak_pairs_to_call peak_ind)) ->
  fst (hull peak_ind) <= fst bl /\ fst bl <= snd bl /\ snd bl < fst br
  /\ fst br <= snd br /\ snd br <= snd (hull peak_ind).
Proof.
  intros Hne Hasc Hin.
  destruct (peak_pairs_inside (length peak_ind) peak_ind) with (bl := bl) (br := br)
    as ((H1 & H2 & H3) & H4 & H5); try assumption; [lia| |lia].
  destruct peak_ind; [contradiction|]. unfold len. cbn [length]. lia.
Qed.

(** The spectrum and the tree of a cell of good shape. *)
Lemma tree_of_cell_total (settings : Settings) (ts rg : float) (velocity : list float)
    (cell : cell_input) :
  cell_Z cell <> [] ->
  length velocity = length (cell_Z cell) ->
  (smooth settings = true -> 3 <= len (cell_Z cell)) ->
  let call := (spectrum <- prepare_spectrum settings ts rg velocity cell ;;
               travtree <- tree_from_spectrum spectrum ;;
               Ok (travtree, spectrum)) in
  (exists travtree spectrum, call = Ok (travtree, spectrum))
  \/ call = Raise ValueError_child_out_of_parents_bounds
  \/ call = Raise OverflowError.
Proof.
  intros Hne Hvel Hsm. cbv zeta.
  destruct (prepare_spectrum_ok settings ts rg velocity cell Hne)
    as (s & -> & Hlen & Hlens & _ & Hv). cbn [bind].
  assert (Hsame : same_lengths s).
  { assert (HZ : len (specZ s) = len (cell_Z cell)).
    { rewrite Hlen. destruct (smooth settings); [|reflexivity].
      specialize (Hsm eq_refl). lia. }
    rewrite List.Forall_forall in Hlens. unfold same_lengths.
    assert (Hl : forall (A : Type) (a : list A),
               In (len a) [len (specZ_mask s); len (specSNRco s); len (specSNRco_mask s);
                           len (specLDR s); len (specLDR_mask s); len (specZcx s);
                           len (specZcx_mask s); len (specSNRcx s); len (specSNRcx_mask s);
                           len (specLDRmasked s); len (specZcx_validcx s)] ->
               length a = length (specZ s)).
    { intros A a Ha. specialize (Hlens _ Ha). cbv beta in Hlens. unfold len in *. lia. }
    repeat (apply List.Forall_cons;
            [first [ rewrite Hv; unfold len in HZ; lia
                   | apply Hl; cbn [In]; tauto ] |]).
    apply List.Forall_nil. }
  destruct (tree_from_spectrum_total s Hsame) as [[tree ->] | [-> | [-> _]]]; cbn [bind];
    [left; eauto | right; left; reflexivity | right; right; reflexivity].
Qed.

(** X14 (get_tree_at on a spectra file): take a call with silent=True that
    selects the cell by the index pairs (it, sel_ts) and (ir, sel_range),
    without temporal average, where it and ir are indices of the time and
    range axes, the file gives a cell of at least one bin (at least three
    when the settings smooth the spectrum), and the velocity axis has as
    many bins.  If sel_ts is not within delta_ts of the time stamp at it,
    the call raises the AssertionError of its assert.  If it is, the call
    returns the tree and the spectrum, or raises the ValueError of add_min,
    "child out of parents bounds", or the OverflowError of the power
    10**(decoupling/10); it raises no other exception. *)
Theorem get_tree_at_raises_only (self : SpecBuffer) (it ir : Z)
    (sel_ts sel_range ts rg : float) (bins : list raw_bin) :
  py_get (buf_timestamps self) it = Ok ts ->
  py_get (buf_range self) ir = Ok rg ->
  buf_read self ir it = Ok bins ->
  bins <> [] ->
  length (buf_velocity self) = length bins ->
  (smooth (buf_settings self) = true -> 3 <= len bins) ->
  let call := get_tree_at self (by_index it sel_ts ir sel_range) no_average in
  ((abs (sel_ts - ts) <? buf_delta_ts self)%float = false -> call = Raise AssertionError)
  /\ ((abs (sel_ts - ts) <? buf_delta_ts self)%float = true ->
      (exists travtree spectrum, call = Ok (travtree, spectrum))
      \/ call = Raise ValueError_child_out_of_parents_bounds
      \/ call = Raise OverflowError).
Proof.
  intros Hts Hrg Hread Hne Hvel Hsm. cbv zeta. unfold get_tree_at. cbn [bind].
  rewrite Hts. cbn [bind]. split; intros Hclose; rewrite Hclose; cbn [negb]; [reflexivity|].
  cbn [bind]. rewrite Hread. cbn [bind]. rewrite Hrg.
  apply (tree_of_cell_total (buf_settings self) ts rg (buf_velocity self) (SingleCell bins)).
  - cbn [cell_Z]. intros E. apply map_eq_nil in E. contradiction.
  - cbn [cell_Z]. rewrite length_map. exact Hvel.
  - cbn [cell_Z]. unfold len in *. rewrite length_map. exact Hsm.
Qed.

End PairsHull.

(** ** The arrays of the assembly *)

(** The slots of a cell are read off its rows. *)
Lemma slot_values_rows (o : Output) (it ir k : Z) :
  slot_values o it ir k = map (fun r => row <- r ;; py_get row k) (cell_rows o it ir).
Proof.
  unfold slot_values, cell_rows. rewrite map_map. apply map_ext. intros arr.
  unfold np_get3, np_get2. destruct (py_get arr it) as [plane|e]; [|reflexivity].
  cbn [bind]. reflexivity.
Qed.

Lemma grid_NoDup (nt nr : nat) : NoDup (grid nt nr).
Proof.
  unfold grid.
  assert (Hfrom : forall a,
             NoDup (flat_map (fun it => map (fun ir => (Z.of_nat it, Z.of_nat ir)) (seq 0 nr))
                      (seq a nt))); [|apply Hfrom].
  induction nt as [|nt IH]; intros a; cbn [seq flat_map].
  - constructor.
  - apply NoDup_app. split; [|split; [|apply IH]].
    + apply NoDup_fmap_2; [|apply NoDup_seq].
      intros x y [= E]. lia.
    + intros [it ir] Hin Hin'. apply list_elem_of_In in Hin, Hin'.
      apply in_map_iff in Hin as (x & [= <- <-] & _).
      apply in_flat_map in Hin' as (it' & Hit' & Hin').
      apply in_map_iff in Hin' as (y & [= E _] & _). apply in_seq in Hit'. lia.
Qed.

Section GridCells.
Context `{H : Helpers} `{N : Numeric}.

(** What the loops leave in a cell is what the pass of that cell left. *)
Lemma assemble_cells_cell (max_no_nodes : Z) (get_tree : Z -> Z -> res (gmap Z tree_node))
    (it ir : Z) (cells : list (Z * Z)) :
  0 <= it -> 0 <= ir ->
  Forall (fun c : Z * Z => 0 <= fst c /\ 0 <= snd c) cells -> NoDup cells ->
  forall o o',
    assemble_cells max_no_nodes get_tree cells o = Ok o' ->
    In (it, ir) cells ->
    exists travtree o0 o1,
      get_tree it ir = Ok travtree
      /\ assemble_cell max_no_nodes it ir travtree o0 = Ok o1
      /\ cell_rows o0 it ir = cell_rows o it ir
      /\ cell_rows o' it ir = cell_rows o1 it ir
      /\ cell_count o' it ir = cell_count o1 it ir.
Proof.
  intros H1 H2 Hnn Hnd.
  assert (Hrest : forall cells o o',
             Forall (fun c : Z * Z => 0 <= fst c /\ 0 <= snd c) cells ->
             ~ In (it, ir) cells ->
             assemble_cells max_no_nodes get_tree cells o = Ok o' ->
             cell_rows o' it ir = cell_rows o it ir
             /\ cell_count o' it ir = cell_count o it ir).
  { clear cells Hnn Hnd. induction cells as [|[it' ir'] cells IH]; intros o o' Hnn Hnot Ha;
      cbn [assemble_cells] in Ha.
    - injection Ha as <-. split; reflexivity.
    - apply bind_ok in Ha as (travtree & Ht & Ha).
      apply bind_ok in Ha as (o1 & Ho1 & Ha).
      pose proof (Forall_inv Hnn) as [H3 H4]. cbn [fst snd] in H3, H4.
      destruct (IH _ _ (Forall_inv_tail Hnn) ltac:(intros Hi; apply Hnot; right; exact Hi) Ha)
        as [Hr Hc].
      destruct (assemble_cell_other _ _ _ _ _ _ _ _ H3 H4 H1 H2
                  ltac:(intros E; apply Hnot; left; exact E) Ho1) as [Hr1 Hc1].
      split; congruence. }
  induction cells as [|[it' ir'] cells IH]; intros o o' Ha Hin; [destruct Hin|].
  cbn [assemble_cells] in Ha.
  apply bind_ok in Ha as (travtree & Ht & Ha).
  apply bind_ok in Ha as (o1 & Ho1 & Ha).
  apply NoDup_cons in Hnd as [Hnot Hnd].
  pose proof (Forall_inv Hnn) as [H3 H4]. cbn [fst snd] in H3, H4.
  destruct (decide ((it', ir') = (it, ir))) as [E|E].
  - injection E as -> ->.
    destruct (Hrest cells o1 o' (Forall_inv_tail Hnn)
                ltac:(intros Hi; apply Hnot, list_elem_of_In; exact Hi) Ha) as [Hr Hc].
    exists travtree, o, o1. repeat split; assumption.
  - destruct Hin as [Hin|Hin]; [contradiction|].
    destruct (IH (Forall_inv_tail Hnn) Hnd _ _ Ha Hin)
      as (tree & o0 & o2 & Htree & Hcell & Hr0 & Hr2 & Hc2).
    destruct (assemble_cell_other _ _ _ _ _ _ _ _ H3 H4 H1 H2 E Ho1) as [Hr1 _].
    exists tree, o0, o2. repeat split; try assumption. congruence.
Qed.

Lemma slot_values_allocate (nt nr it ir : nat) (max_no_nodes k : Z) :
  (it < nt)%nat -> (ir < nr)%nat -> 0 <= k < max_no_nodes ->
  slot_values (allocate nt nr max_no_nodes) (Z.of_nat it) (Z.of_nat ir) k
  = repeat (Ok (-999)%float) 11.
Proof.
  intros Hit Hir Hk. rewrite slot_values_rows. unfold cell_rows, per_slot_fields, allocate.
  cbn [map out_Z out_v out_width out_LDR out_skew out_bound_l out_bound_r out_parent
         out_thres out_ldrmax out_prominence].
  rewrite !np_get2_replicate by assumption. cbn [bind].
  rewrite py_get_nonneg by lia. rewrite lookup_replicate_2 by lia. reflexivity.
Qed.

(** X21 (assemble_time_height): when the assembly returns, every cell
    of the grid holds the tree that get_tree_at gave for it, if the ids of
    the tree are not negative: the node count
    of the cell is the number of nodes of the tree; for every node with an
    id below [max_no_nodes] the slot of that id holds the eleven values of
    the node; and every slot below [max_no_nodes] without a node holds the
    fill value -999 in the eleven arrays. *)
Theorem assemble_time_height_records (settings : Settings) (nt nr it ir : nat)
    (get_tree : Z -> Z -> res (gmap Z tree_node)) (travtree : gmap Z tree_node)
    (o : Output) :
  (it < nt)%nat -> (ir < nr)%nat ->
  get_tree (Z.of_nat it) (Z.of_nat ir) = Ok travtree ->
  (forall k, is_Some (travtree !! k) -> 0 <= k) ->
  assemble_time_height settings nt nr get_tree = Ok o ->
  np_get2 (out_no_nodes o) (Z.of_nat it) (Z.of_nat ir)
  = Ok (float_of_int (Z.of_nat (size travtree)))
  /\ (forall k val,
        travtree !! k = Some val -> k < max_no_nodes settings ->
        slot_values o (Z.of_nat it) (Z.of_nat ir) k = map Ok (node_values val))
  /\ (forall k,
        0 <= k < max_no_nodes settings -> travtree !! k = None ->
        slot_values o (Z.of_nat it) (Z.of_nat ir) k = repeat (Ok (-999)%float) 11).
Proof.
  intros Hit Hir Htree Hkeys Ha. unfold assemble_time_height in Ha.
  destruct (assemble_cells_cell _ _ _ _ _ (Nat2Z.is_nonneg it) (Nat2Z.is_nonneg ir)
              (grid_nonneg nt nr) (grid_NoDup nt nr) _ _ Ha (grid_In nt nr it ir Hit Hir))
    as (tree & o0 & o1 & Htree' & Hcell & Hr0 & Hr1 & Hc1).
  rewrite Htree in Htree'. injection Htree' as <-.
  destruct (assemble_cell_slots _ _ _ _ _ _ (Nat2Z.is_nonneg it) (Nat2Z.is_nonneg ir)
              Hkeys Hcell) as (Hn & Hin & Hout).
  split; [unfold cell_count in Hc1; rewrite Hc1; exact Hn|].
  split.
  - intros k val Hval Hk. rewrite slot_values_rows, Hr1, <- slot_values_rows.
    apply Hin; assumption.
  - intros k Hk Hnone. rewrite slot_values_rows, Hr1, <- slot_values_rows.
    rewrite Hout by (try lia; left; exact Hnone).
    rewrite slot_values_rows, Hr0, <- slot_values_rows.
    apply slot_values_allocate; assumption.
Qed.

End GridCells.

(** ** Noise separated pairs inside the tree *)

Section NoiseSepReturns.
Context `{H : Helpers} `{N : Numeric}.

(** X22 (add_noise_sep): let the root hold the bins of an array between
    its bounds, and let the tree grow by add_min calls and by add_noise_sep
    calls whose pairs are ordered and lie inside the root.  Then one more
    call of add_noise_sep with such a pair raises no exception, and the
    tree it leaves is again grown by such calls. *)
Theorem add_noise_sep_inside_returns (Zs : list float) (t0 t : Node) (bl br : bounds_t)
    (thres : float) :
  root_node t0 ->
  spec t0 = chunk Zs (bounds t0) ->
  0 <= fst (bounds t0) <= snd (bounds t0) ->
  snd (bounds t0) < len Zs ->
  reachable inside_call t0 t ->
  fst bl <= snd bl -> snd bl < fst br -> fst br <= snd br ->
  fst (bounds t0) <= fst bl -> snd br <= snd (bounds t0) ->
  snd (add_noise_sep t bl br thres) = Ok tt
  /\ reachable inside_call t0 (fst (add_noise_sep t bl br thres)).
Proof.
  intros (b & sc & nt & Ht0) Hspec Hb Hlen Hreach H1 H2 H3 H4 H5.
  assert (Hall0 : all_nodes (holds_chunk Zs (fst (bounds t0)) (snd (bounds t0))) t0).
  { subst t0. apply all_nodes_leaf; [reflexivity|].
    unfold holds_chunk. cbn [Node_init spec bounds] in *. repeat split; [exact Hspec | lia..]. }
  destruct (reachable_holds_chunk Zs t0 t ltac:(lia) Hlen Hall0 Hreach) as [Hbt Hall].
  assert (Hfit : fits_pair bl br t = true).
  { unfold fits_pair. rewrite Hbt. apply andb_true_intro. rewrite !Z.leb_le. lia. }
  split.
  - apply (add_noise_sep_returns Zs (fst (bounds t0)) (snd (bounds t0))); try assumption;
      [lia | repeat split; assumption].
  - apply (reachable_call inside_call t0 t (call_add_noise_sep bl br thres) Hreach).
    cbn [inside_call]. repeat split; assumption.
Qed.

End NoiseSepReturns.

(** ** Instances *)

Lemma full_tree_id_child_witness :
  [0; 1] <> []
  /\ full_tree_id ([0; 1] ++ [0]) = 2 * full_tree_id [0; 1] + 1
  /\ (full_tree_id ([0; 1] ++ [0]) - 1) / 2 = full_tree_id [0; 1].
Proof.
  split; [discriminate|].
  destruct (full_tree_id_child [0; 1] 0 ltac:(discriminate)) as (H1 & H2 & _).
  split; [exact H1 | exact H2].
Defined.

Lemma full_tree_id_injective_witness :
  binary_coords [0; 1] /\ binary_coords ([0] ++ [1])
  /\ full_tree_id [0; 1] = full_tree_id ([0] ++ [1])
  /\ [0; 1] = [0] ++ [1].
Proof.
  assert (Hb : binary_coords ([0] ++ [1])) by (constructor; [constructor | right; reflexivity]).
  split; [exact Hb|]. split; [exact Hb|]. split; [reflexivity|].
  exact (full_tree_id_injective [0; 1] ([0] ++ [1]) Hb Hb eq_refl).
Defined.

Lemma three_nodes_at_most_two : all_nodes at_most_two three_nodes.
Proof.
  constructor; [unfold at_most_two; cbn; lia|].
  repeat constructor; unfold at_most_two; cbn; lia.
Qed.

Lemma coords_to_id_binary_tree_witness :
  all_nodes at_most_two three_nodes
  /\ size (coords_to_id (traverse three_nodes [0])) = node_count three_nodes.
Proof.
  split; [exact three_nodes_at_most_two|].
  exact (proj1 (coords_to_id_binary_tree three_nodes three_nodes_at_most_two)).
Defined.

Lemma three_nodes_ids (k : Z) (nd : id_node) :
  coords_to_id (traverse three_nodes [0]) !! k = Some nd ->
  (k = 0 /\ parent_id nd = -1) \/ ((k = 1 \/ k = 2) /\ parent_id nd = 0).
Proof.
  intros Hk. destruct (coords_to_id_values _ _ _ Hk) as [Hin Hid].
  assert (Hcases : k = 0 \/ k = 1 \/ k = 2).
  { cbn in Hin. destruct Hin as [E | [E | [E | []]]]; rewrite <- E in Hid; subst k;
      vm_compute; auto. }
  destruct Hcases as [-> | [-> | ->]]; vm_compute in Hk; injection Hk as <-; cbn; auto.
Qed.

Lemma load_tree_restores_coords_witness :
  exists loaded,
    load_tree false (fun k => parent_slot (if k =? 0 then -1 else 0)) [0; 1; 2] = Ok loaded
    /\ (forall k, is_Some (loaded !! k) <-> In k [0; 1; 2])
    /\ (forall k nd ld,
          coords_to_id (traverse three_nodes [0]) !! k = Some nd -> loaded !! k = Some ld ->
          ld_coords ld = coords (trav nd) /\ ld_parent_id ld = parent_id nd).
Proof.
  apply (load_tree_restores_coords three_nodes false _ [0; 1; 2] 15 three_nodes_at_most_two).
  - repeat (constructor; try lia).
  - intros k. split.
    + intros [<- | [<- | [<- | []]]]; (split; [vm_compute; eauto | lia]).
    + intros [[nd Hnd] _]. destruct (three_nodes_ids k nd Hnd) as [[-> _] | [[-> | ->] _]];
        cbn; auto.
  - intros k nd Hnd _. destruct (three_nodes_ids k nd Hnd) as [[-> ->] | [[-> | ->] ->]];
      reflexivity.
Defined.

Lemma level_is_depth_witness :
  let t := fst (add_min flat_root 5 1%float false) in
  root_node flat_root /\ reachable any_call flat_root t
  /\ forall path n, node_at t path = Some n -> level n = len path.
Proof.
  cbv zeta.
  assert (Hreach : reachable any_call flat_root (fst (add_min flat_root 5 1%float false))).
  { apply (reachable_call any_call flat_root _ (call_add_min 5 1%float false)); [|exact I].
    apply reachable_start. }
  split; [exact flat_root_is_root|]. split; [exact Hreach|].
  exact (level_is_depth flat_root _ flat_root_is_root Hreach).
Defined.

Lemma node_spec_is_chunk_witness :
  let t := fst (add_min flat_root 5 1%float false) in
  root_node flat_root /\ reachable inside_call flat_root t
  /\ all_nodes
       (fun n => spec n = chunk flat_chunk (bounds n)
                 /\ len (spec n) = snd (bounds n) - fst (bounds n) + 1
                 /\ fst (bounds flat_root) <= fst (bounds n) <= snd (bounds n)
                 /\ snd (bounds n) <= snd (bounds flat_root)) t.
Proof.
  cbv zeta.
  assert (Hreach : reachable inside_call flat_root (fst (add_min flat_root 5 1%float false))).
  { apply (reachable_call inside_call flat_root _ (call_add_min 5 1%float false)); [|exact I].
    apply reachable_start. }
  split; [exact flat_root_is_root|]. split; [exact Hreach|].
  apply (node_spec_is_chunk flat_chunk flat_root _ flat_root_is_root).
  - reflexivity.
  - cbn. lia.
  - unfold len. cbn. lia.
  - exact Hreach.
Defined.

Lemma insertion_keeps_nodes_witness :
  In (describe [0] flat_root) (traverse flat_root [0])
  /\ In (describe [0] flat_root)
       (traverse (fst (run_call flat_root (call_add_min 5 1%float false))) [0]).
Proof.
  assert (Hin : In (describe [0] flat_root) (traverse flat_root [0]))
    by (left; reflexivity).
  split; [exact Hin|]. apply insertion_keeps_nodes. exact Hin.
Defined.

Lemma split_at_widest_gap_witness :
  2 <= len [(163, 165); (191, 210); (222, 229); (248, 256)]
  /\ Forall int64 (gaps [(163, 165); (191, 210); (222, 229); (248, 256)])
  /\ exists left_ right_ p q,
       PeakDetect.split_peak_ind_by_space [(163, 165); (191, 210); (222, 229); (248, 256)]
       = Ok (left_, right_)
       /\ [(163, 165); (191, 210); (222, 229); (248, 256)] = left_ ++ right_
       /\ List.last left_ (0, 0) = p /\ left_ <> []
       /\ hd (0, 0) right_ = q /\ right_ <> []
       /\ Forall (fun g => g <= fst q - snd p)
            (gaps [(163, 165); (191, 210); (222, 229); (248, 256)])
       /\ Forall (fun g => g < fst q - snd p) (gaps left_).
Proof.
  assert (Hlen : 2 <= len [(163, 165); (191, 210); (222, 229); (248, 256)])
    by (unfold len; cbn [length]; lia).
  assert (Hin : Forall (fun b : bounds_t => int64 (fst b) /\ int64 (snd b))
                  [(163, 165); (191, 210); (222, 229); (248, 256)])
    by (repeat constructor; cbn; lia).
  assert (Hfit : Forall int64 (gaps [(163, 165); (191, 210); (222, 229); (248, 256)]))
    by (unfold gaps, zip_next, gap; cbn [map combine tl fst snd];
        repeat constructor; cbn; lia).
  split; [exact Hlen|]. split; [exact Hfit|]. exact (split_at_widest_gap _ Hlen Hin Hfit).
Defined.

Lemma peak_pairs_inside_hull_witness :
  ascending_disjoint [(163, 165); (191, 210); (222, 229); (248, 256)]
  /\ In ((191, 229), (248, 256))
       (fst (peak_pairs_to_call [(163, 165); (191, 210); (222, 229); (248, 256)]))
  /\ 163 <= 191 /\ 191 <= 229 /\ 229 < 248 /\ 248 <= 256 /\ 256 <= 256.
Proof.
  assert (Hasc : ascending_disjoint [(163, 165); (191, 210); (222, 229); (248, 256)]).
  { split; repeat (constructor; simpl; try lia). }
  assert (Hin : In ((191, 229), (248, 256))
                  (fst (peak_pairs_to_call [(163, 165); (191, 210); (222, 229); (248, 256)]))).
  { vm_compute. auto. }
  split; [exact Hasc|]. split; [exact Hin|].
  exact (peak_pairs_inside_hull [(163, 165); (191, 210); (222, 229); (248, 256)]
           (191, 229) (248, 256) ltac:(discriminate) Hasc Hin).
Defined.

Lemma tree_from_spectrum_nodes_witness :
  exists tree nd,
    tree_from_spectrum peak_spectrum = Ok tree
    /\ tree !! 0 = Some nd
    /\ 0 = full_tree_id (coords (trav (node nd)))
    /\ fst (t_bounds (trav (node nd))) <= snd (t_bounds (trav (node nd)))
    /\ snd (t_bounds (trav (node nd))) < len (specZ peak_spectrum).
Proof.
  destruct (tree_from_spectrum peak_spectrum) as [tree|e] eqn:Htree;
    [|vm_compute in Htree; discriminate].
  assert (Ht : tree = match tree_from_spectrum peak_spectrum with Ok t => t | Raise _ => tree end)
    by (rewrite Htree; reflexivity).
  destruct (tree !! 0) as [nd|] eqn:Hnd;
    [|rewrite Ht in Hnd; vm_compute in Hnd; discriminate].
  exists tree, nd. split; [reflexivity|]. split; [exact Hnd|].
  destruct (tree_from_spectrum_nodes peak_spectrum tree 0 nd Htree Hnd)
    as (root & runs & _ & _ & _ & _ & _ & _ & Hk & H1 & H2 & H3).
  split; [exact Hk|]. split; [exact H2|]. lia.
Defined.

Lemma peak_spectrum_lengths : same_lengths peak_spectrum.
Proof. unfold same_lengths. repeat constructor. Qed.

Lemma tree_from_spectrum_raises_only_witness :
  same_lengths peak_spectrum
  /\ ((exists tree, tree_from_spectrum peak_spectrum = Ok tree)
      \/ tree_from_spectrum peak_spectrum = Raise ValueError_child_out_of_parents_bounds
      \/ (tree_from_spectrum peak_spectrum = Raise OverflowError
          /\ polarimetric peak_spectrum = true
          /\ decoup_of (decoupling peak_spectrum) = Raise OverflowError)).
Proof.
  split; [exact peak_spectrum_lengths|].
  exact (tree_from_spectrum_raises_only peak_spectrum peak_spectrum_lengths).
Defined.

Lemma get_tree_at_raises_only_witness :
  let call := get_tree_at example_buffer (by_index 1 2%float 0 100%float) no_average in
  py_get (buf_timestamps example_buffer) 1 = Ok 2%float
  /\ buf_read example_buffer 0 1 = Ok example_bins
  /\ ((exists travtree spectrum, call = Ok (travtree, spectrum))
      \/ call = Raise ValueError_child_out_of_parents_bounds
      \/ call = Raise OverflowError).
Proof.
  cbv zeta. split; [reflexivity|]. split; [reflexivity|].
  apply (proj2 (get_tree_at_raises_only example_buffer 1 0 2%float 100%float 2%float
                  100%float example_bins eq_refl eq_refl eq_refl ltac:(discriminate)
                  eq_refl ltac:(intros _; unfold len; cbn; lia))).
  reflexivity.
Defined.

Lemma prepare_spectrum_returns_witness :
  cell_Z example_cell <> []
  /\ exists s,
       prepare_spectrum Lindenberg 0%float 0%float example_velocity example_cell = Ok s
       /\ len (specZ s) = 8.
Proof.
  split; [discriminate|].
  destruct (proj1 (prepare_spectrum_returns Lindenberg 0%float 0%float example_velocity
                     example_cell) ltac:(discriminate)) as (s & Hs & Hlen & _).
  exists s. split; [exact Hs|]. rewrite Hlen. reflexivity.
Defined.

Lemma calc_moments_without_signal_witness :
  exists m s',
    calc_moments constant_spectrum (2, 5) 1e-20%float = Ok (m, s')
    /\ np_isnan (v m) = true /\ np_isnan (width m) = true /\ np_isnan (skew m) = true.
Proof.
  destruct (calc_moments constant_spectrum (2, 5) 1e-20%float) as [[m s']|e] eqn:Hm;
    [|vm_compute in Hm; discriminate].
  exists m, s'. split; [reflexivity|].
  apply (calc_moments_without_signal constant_spectrum s' 2 5 1e-20%float m);
    [reflexivity | reflexivity | lia | | exact Hm].
  intros k z masked _ Hz _. right.
  do 8 (destruct k as [|k]; [injection Hz as <-; reflexivity|]).
  destruct k; discriminate.
Defined.

Lemma calc_moments_empty_bounds_witness :
  0 <= 2 + 1 <= 3
  /\ calc_moments peak_spectrum (3, 2) 1e-20%float
     = Raise ValueError_argmax_of_empty_sequence
  /\ calc_moments_wo_LDR peak_spectrum (3, 2) 1e-20%float
     = Raise ValueError_argmax_of_empty_sequence.
Proof.
  split; [lia|]. apply calc_moments_empty_bounds. lia.
Defined.

Lemma calc_moments_wo_LDR_agrees_witness :
  exists m s',
    calc_moments peak_spectrum (2, 4) 1e-20%float = Ok (m, s')
    /\ calc_moments_wo_LDR peak_spectrum (2, 4) 1e-20%float
       = Ok ({| v := v m; width := width m; skew := skew m; prominence := prominence m;
                z := z m; ldr := 0; ldrmax := 0 |}, peak_spectrum).
Proof.
  destruct (calc_moments peak_spectrum (2, 4) 1e-20%float) as [[m s']|e] eqn:Hm;
    [|vm_compute in Hm; discriminate].
  exists m, s'. split; [reflexivity|].
  exact (calc_moments_wo_LDR_agrees peak_spectrum s' (2, 4) 1e-20%float m Hm).
Defined.

Lemma time_index_nearest_witness :
  exists i,
    time_index [10; 20; 30; 20]%float 22%float = Ok i
    /\ 0 <= i < len [10; 20; 30; 20]%float.
Proof.
  destruct (time_index_nearest [10; 20; 30; 20]%float 22%float)
    as (i & nearest & t & Hi & _ & _ & Hrange & _).
  - discriminate.
  - repeat constructor.
  - exists i. split; [exact Hi | exact Hrange].
Defined.

Lemma assemble_cell_stores_witness :
  let travtree : gmap Z tree_node :=
    {[ 0 := {| node := {| trav := describe [0] flat_root; parent_id := -1 |};
               mom := {| v := 0; width := 1; skew := 0; prominence := 2; z := 10;
                         ldr := 0; ldrmax := 0 |} |} ]} in
  exists o',
    assemble_cell 15 0 0 travtree (allocate 1 1 15) = Ok o'
    /\ np_get2 (out_no_nodes o') 0 0 = Ok (float_of_int (Z.of_nat (size travtree)))
    /\ slot_values o' 0 0 1 = slot_values (allocate 1 1 15) 0 0 1.
Proof.
  intros travtree.
  destruct (assemble_cell 15 0 0 travtree (allocate 1 1 15)) as [o'|e] eqn:Ho;
    [|vm_compute in Ho; discriminate].
  exists o'. split; [reflexivity|].
  destruct (assemble_cell_stores 15 0 0 travtree (allocate 1 1 15) o') as (Hn & _ & Hother);
    [lia | lia | | exact Ho |].
  - intros k [x Hk]. apply lookup_singleton_Some in Hk as [<- _]. lia.
  - split; [exact Hn|]. apply Hother; [lia|]. left. apply lookup_singleton_ne. lia.
Defined.

Lemma assemble_time_height_records_witness :
  let travtree : gmap Z tree_node :=
    {[ 0 := {| node := {| trav := describe [0] flat_root; parent_id := -1 |};
               mom := {| v := 0; width := 1; skew := 0; prominence := 2; z := 10;
                         ldr := 0; ldrmax := 0 |} |} ]} in
  exists o,
    assemble_time_height Lindenberg 1 1 (fun _ _ => Ok travtree) = Ok o
    /\ np_get2 (out_no_nodes o) 0 0 = Ok (float_of_int (Z.of_nat (size travtree)))
    /\ slot_values o 0 0 1 = repeat (Ok (-999)%float) 11.
Proof.
  intros travtree.
  destruct (assemble_time_height Lindenberg 1 1 (fun _ _ => Ok travtree)) as [o|e] eqn:Ho;
    [|vm_compute in Ho; discriminate].
  exists o. split; [reflexivity|].
  destruct (assemble_time_height_records Lindenberg 1 1 0 0 (fun _ _ => Ok travtree)
              travtree o) as (Hn & _ & Hout); [lia | lia | reflexivity | | exact Ho |].
  - intros k [x Hk]. apply lookup_singleton_Some in Hk as [<- _]. lia.
  - split; [exact Hn|]. apply Hout; [vm_compute; split; [discriminate | reflexivity]|].
    apply lookup_singleton_ne. lia.
Defined.

Lemma add_noise_sep_inside_returns_witness :
  root_node flat_root
  /\ reachable inside_call flat_root flat_root
  /\ snd (add_noise_sep flat_root (0, 3) (6, 10) 1%float) = Ok tt.
Proof.
  split; [exact flat_root_is_root|]. split; [apply reachable_start|].
  apply (add_noise_sep_inside_returns flat_chunk flat_root flat_root (0, 3) (6, 10) 1%float
           flat_root_is_root eq_refl); cbn [flat_root Node_init bounds fst snd]; try lia.
  - unfold len. cbn. lia.
  - apply reachable_start.
Defined.
